(** * Schedule reflow: a shallow embedding of the reflow engine

    The development follows the TypeScript sources:
    - [Double]: JavaScript numbers with a fraction, and their rounding,
    - [Luxon]: the part of the luxon [DateTime] API that the sources call,
    - [DateUtils]: [utils/date-utils.ts],
    - [DependencyResolver]: [core/dependency-resolver.ts],
    - [ConstraintValidator]: [core/constraint-validator.ts],
    - [ReflowService]: [core/reflow-service.ts].

    Dates are kept as the sources keep them, as ISO 8601 strings; instants
    are milliseconds since the Unix epoch, as in luxon. *)

From Stdlib Require Import ZArith QArith Qround Qreduction.
From Stdlib Require Import List Bool Lia Ascii String DecimalString.
Import ListNotations.

Set Implicit Arguments.

Local Open Scope string_scope.
Local Open Scope list_scope.
Local Open Scope Z_scope.

(** ** Outcomes of a call: a value or a thrown error *)

Inductive error : Type :=
| ShiftIterationsExceeded
    (* 'Shift calculation exceeded maximum iterations - possible infinite loop' *)
| NoNextShiftStart
    (* 'Could not find next shift start - check shift configuration' *)
| NullDate
    (* toISO() of an invalid DateTime is null; no string is produced *)
| NoAvailableSlot (workOrderNumber : string)
    (* 'Could not find available slot for work order ... after 1000 iterations' *)
| DanglingDependency (workOrderNumber parentId : string)
    (* 'Work order ... depends on non-existent work order: ...' *)
| CircularDependency
    (* 'Circular dependency detected in work order dependencies' *)
| TopologicalSortFailed
    (* 'Topological sort failed - possible circular dependency' *)
| InvalidSchedule (messages : list string)
    (* 'Reflow produced invalid schedule: ...' *)
| TypeError
    (* a property read on undefined, e.g. workCenterMap.get(id)!.data *)
| OutOfFuel.
    (* the recursion bound of the embedding was reached; the lemmas
       [detectCycles_sound] and [kahn_total] show it is never met *)

Inductive result (A : Type) : Type :=
| Ok (a : A)
| Throw (e : error).

Arguments Ok {A} a.
Arguments Throw {A} e.

Definition bind {A B : Type} (r : result A) (k : A -> result B) : result B :=
  match r with
  | Ok a => k a
  | Throw e => Throw e
  end.

Notation "'do' x <- r ; k" := (bind r (fun x => k))
  (at level 10, x name, r at level 100, k at level 200).

(** ** JavaScript numbers that need not be whole *)

Module Double.

(** A finite double is kept as the rational number it denotes.  Every
    arithmetic operation of JavaScript returns the double nearest to the
    exact result, a tie going to the even significand; [round] is that
    rounding for a significand of 53 bits.  The exponent is not bounded:
    the numbers of this program (minutes, milliseconds, percentages) stay
    far from overflow and from the subnormal range. *)

(** The integer nearest to [n / d] for [0 <= n] and [0 < d], ties to even. *)
Definition nearestEven (n d : Z) : Z :=
  let q := n / d in
  let r := n mod d in
  if 2 * r <? d then q
  else if d <? 2 * r then q + 1
  else if Z.even q then q else q + 1.

(** With [e] such that [2^52 <= |x| / 2^e < 2^53], the result is
    [nearestEven (|x| / 2^e) * 2^e] with the sign of [x]. *)
Definition round (x : Q) : Q :=
  let n := Z.abs (Qnum x) in
  let d := Zpos (Qden x) in
  if n =? 0 then 0%Q
  else
    let k := Z.log2 d + 1 in
    let e := Z.log2 (n * 2 ^ k / d) - k - 52 in
    let v :=
      if 0 <=? e then inject_Z (nearestEven n (d * 2 ^ e) * 2 ^ e)
      else Qred (nearestEven (n * 2 ^ (- e)) d # Z.to_pos (2 ^ (- e))) in
    if Qnum x <? 0 then Qopp v else v.

Definition add (a b : Q) : Q := round (a + b).
Definition sub (a b : Q) : Q := round (a - b).
Definition mul (a b : Q) : Q := round (a * b).
Definition div (a b : Q) : Q := round (a / b).

(** [Math.trunc(x)] and [Math.round(x)]; the latter rounds a half up. *)
Definition trunc (x : Q) : Z := Z.quot (Qnum x) (Zpos (Qden x)).
Definition mathRound (x : Q) : Z := Qfloor (x + (1 # 2)).

(** Every integer up to [2^53], in absolute value, is a double. *)
Definition maxExactInteger : Z := 2 ^ 53.

End Double.

(** ** Luxon: instants, calendar fields, ISO text *)

Module Luxon.

Definition msPerSecond : Z := 1000.
Definition msPerMinute : Z := 60000.
Definition msPerHour : Z := 3600000.
Definition msPerDay : Z := 86400000.

(** A valid [DateTime] in zone UTC is its epoch millisecond count; the
    invalid [DateTime] (whose [valueOf()] is NaN) is [None]. *)
Definition DateTime : Type := option Z.

(** [a < b] on DateTime values compares [valueOf()]; a comparison with NaN
    is false. *)
Definition dt_lt (a b : DateTime) : bool :=
  match a, b with
  | Some x, Some y => x <? y
  | _, _ => false
  end.

Definition dt_le (a b : DateTime) : bool :=
  match a, b with
  | Some x, Some y => x <=? y
  | _, _ => false
  end.

(** [dt.startOf('day')], [dt.plus({days: 1}).startOf('day')] on a valid
    instant, in UTC (no offset changes). *)
Definition startOfDay (t : Z) : Z := t - t mod msPerDay.
Definition nextDay (t : Z) : Z := startOfDay (t + msPerDay).
Definition plusHours (t h : Z) : Z := t + h * msPerHour.

(** [later.diff(earlier, 'minutes').minutes]: luxon takes the difference
    of the two timestamps and shifts it to minutes by one division (of
    the absolute value, negated when [later] is the earlier of the two:
    rounding is symmetric, so the double is the same). *)
Definition diffMinutes (later earlier : Z) : Q :=
  Double.div (inject_Z (later - earlier)) (inject_Z msPerMinute).

(** [Duration.fromObject({ minutes: m }).as('milliseconds')], the
    [millisToAdd] of [dt.plus({ minutes: m })]: [shiftTo] keeps the whole
    part [i] of the product and adds the fraction, taken in thousandths,
    back to it. *)
Definition minutesAsMillis (m : Q) : Q :=
  let own := Double.mul (inject_Z msPerMinute) m in
  let i := inject_Z (Double.trunc own) in
  let fraction :=
    Double.div (Double.sub (Double.mul own 1000) (Double.mul i 1000)) 1000 in
  if Qeq_bool fraction 0 then i else Double.add i fraction.

(** The timestamp of [dt.plus({ minutes: m })]; it need not be whole. *)
Definition plusMinutes (ts : Z) (m : Q) : Q :=
  let millisToAdd := minutesAsMillis m in
  if Qeq_bool millisToAdd 0 then inject_Z ts
  else Double.add (inject_Z ts) millisToAdd.

(** The calendar fields of a DateTime, and with them its [toISO()], are
    read off [new Date(ts)], which drops the fraction of a millisecond. *)
Definition instantOf (ts : Q) : Z := Double.trunc ts.

(** [dt.weekday]: 1 (Monday) .. 7 (Sunday); 1970-01-01 was a Thursday. *)
Definition weekday (t : Z) : Z := (t / msPerDay + 3) mod 7 + 1.

Definition hour (t : Z) : Z := (t mod msPerDay) / msPerHour.
Definition minute (t : Z) : Z := (t mod msPerHour) / msPerMinute.

(** Proleptic Gregorian calendar: day count since 1970-01-01 of a civil
    date, and back. *)
Definition days_from_civil (y m d : Z) : Z :=
  let y' := if m <=? 2 then y - 1 else y in
  let era := y' / 400 in
  let yoe := y' - era * 400 in
  let doy := (153 * (if 2 <? m then m - 3 else m + 9) + 2) / 5 + d - 1 in
  let doe := yoe * 365 + yoe / 4 - yoe / 100 + doy in
  era * 146097 + doe - 719468.

Definition civil_from_days (z : Z) : Z * Z * Z :=
  let z' := z + 719468 in
  let era := z' / 146097 in
  let doe := z' - era * 146097 in
  let yoe := (doe - doe / 1460 + doe / 36524 - doe / 146096) / 365 in
  let doy := doe - (365 * yoe + yoe / 4 - yoe / 100) in
  let mp := (5 * doy + 2) / 153 in
  let d := doy - (153 * mp + 2) / 5 + 1 in
  let m := if mp <? 10 then mp + 3 else mp - 9 in
  let y := yoe + era * 400 in
  (if m <=? 2 then y + 1 else y, m, d).

Definition isLeapYear (y : Z) : bool :=
  (y mod 4 =? 0) && (negb (y mod 100 =? 0) || (y mod 400 =? 0)).

Definition daysInMonth (y m : Z) : Z :=
  if m =? 2 then (if isLeapYear y then 29 else 28)
  else if (m =? 4) || (m =? 6) || (m =? 9) || (m =? 11) then 30
  else 31.

(** Decimal digits. *)
Definition digit_char (n : Z) : ascii := ascii_of_N (Z.to_N (48 + n mod 10)).

Definition digit_val (c : ascii) : option Z :=
  let n := Z.of_N (N_of_ascii c) in
  if (48 <=? n) && (n <=? 57) then Some (n - 48) else None.

(** [pad k n]: the last [k] decimal digits of [n], most significant first. *)
Fixpoint pad (k : nat) (n : Z) : string :=
  match k with
  | O => EmptyString
  | S k' => (pad k' (n / 10)%Z ++ String (digit_char n) EmptyString)%string
  end.

(** [dt.toISO()] of a valid UTC instant: [YYYY-MM-DDTHH:mm:ss.SSSZ]; years
    outside 0..9999 are written with a sign and six digits. *)
Definition toISO (t : Z) : string :=
  let '(y, m, d) := civil_from_days (t / msPerDay) in
  let r := t mod msPerDay in
  let year :=
    if (0 <=? y) && (y <=? 9999) then pad 4 y
    else String.append (if 0 <=? y then "+" else "-") (pad 6 (Z.abs y)) in
  (year ++ "-" ++ pad 2 m ++ "-" ++ pad 2 d ++ "T"
        ++ pad 2 (r / msPerHour)%Z ++ ":" ++ pad 2 (r / msPerMinute mod 60)%Z ++ ":"
        ++ pad 2 (r / msPerSecond mod 60)%Z ++ "." ++ pad 3 (r mod 1000)%Z ++ "Z")%string.

(** Reading [k] digits, and one expected character, off a character list. *)
Fixpoint digits (k : nat) (acc : Z) (l : list ascii) : option (Z * list ascii) :=
  match k with
  | O => Some (acc, l)
  | S k' =>
      match l with
      | c :: l' =>
          match digit_val c with
          | Some v => digits k' (acc * 10 + v) l'
          | None => None
          end
      | [] => None
      end
  end.

Definition lit (c : ascii) (l : list ascii) : option (list ascii) :=
  match l with
  | c' :: l' => if Ascii.eqb c c' then Some l' else None
  | [] => None
  end.

Definition obind {A B : Type} (o : option A) (k : A -> option B) : option B :=
  match o with Some a => k a | None => None end.

(** The tail of a time: [Z], or [.SSS] and [Z]. *)
Definition fraction (l : list ascii) : option Z :=
  match lit "Z" l with
  | Some [] => Some 0
  | Some (_ :: _) => None
  | None =>
      obind (lit "." l) (fun l =>
      obind (digits 3 0 l) (fun '(ms, l) =>
      match lit "Z" l with
      | Some [] => Some ms
      | _ => None
      end))
  end.

(** [DateTime.fromISO(s, {zone: 'utc'})] on the two extended UTC forms
    [YYYY-MM-DDTHH:mm:ssZ] and [YYYY-MM-DDTHH:mm:ss.SSSZ] with an hour of
    at most 23: the form that [toISO()] writes, and the same without
    milliseconds.  On these strings it is luxon's reading.  Luxon reads
    more than these (a numeric offset such as [+00:00] or [+09:30],
    [T24:00:00], a time without seconds or without zone, fractions of
    other lengths, week and ordinal dates, six-digit years); such a
    string is not in the domain of this definition, which answers [None]
    for it.  What is proved of an input date is therefore proved under
    the hypothesis that [fromISO] reads it, or through the predicates of
    the program themselves. *)
Definition fromISO (s : string) : DateTime :=
  obind (digits 4 0 (list_ascii_of_string s)) (fun '(y, l) =>
  obind (lit "-" l) (fun l =>
  obind (digits 2 0 l) (fun '(m, l) =>
  obind (lit "-" l) (fun l =>
  obind (digits 2 0 l) (fun '(d, l) =>
  obind (lit "T" l) (fun l =>
  obind (digits 2 0 l) (fun '(hh, l) =>
  obind (lit ":" l) (fun l =>
  obind (digits 2 0 l) (fun '(mi, l) =>
  obind (lit ":" l) (fun l =>
  obind (digits 2 0 l) (fun '(ss, l) =>
  obind (fraction l) (fun ms =>
  if (1 <=? m) && (m <=? 12) && (1 <=? d) && (d <=? daysInMonth y m)
     && (hh <=? 23) && (mi <=? 59) && (ss <=? 59)
  then Some (days_from_civil y m d * msPerDay + hh * msPerHour
             + mi * msPerMinute + ss * msPerSecond + ms)
  else None)))))))))))).

End Luxon.

Import Luxon.

(** ** types/common-types.ts *)

Record BaseDocument (T : Type) : Type := {
  docId : string;
  docType : string;
  data : T
}.

Arguments docId {T} _.
Arguments docType {T} _.
Arguments data {T} _.

Record WorkOrderData : Type := {
  workOrderNumber : string;
  manufacturingOrderId : string;
  workCenterId : string;
  startDate : string;
  endDate : string;
  durationMinutes : Z;
  isMaintenance : bool;
  dependsOnWorkOrderIds : list string
}.

Definition WorkOrder : Type := BaseDocument WorkOrderData.

Record Shift : Type := {
  dayOfWeek : Z;
  startHour : Z;
  endHour : Z
}.

Record MaintenanceWindow : Type := {
  windowStartDate : string;
  windowEndDate : string
}.

Record WorkCenterData : Type := {
  name : string;
  shifts : list Shift;
  maintenanceWindows : list MaintenanceWindow
}.

Definition WorkCenter : Type := BaseDocument WorkCenterData.

Record ManufacturingOrderData : Type := {
  manufacturingOrderNumber : string;
  itemId : string;
  quantity : Z;
  dueDate : string
}.

Definition ManufacturingOrder : Type := BaseDocument ManufacturingOrderData.

(** A JavaScript number that holds an integer or NaN. *)
Definition number : Type := option Z.

Record WorkOrderChange : Type := {
  workOrderId : string;
  changeWorkOrderNumber : string;
  originalStartDate : string;
  originalEndDate : string;
  newStartDate : string;
  newEndDate : string;
  delayMinutes : number;
  reason : string
}.

Inductive ValidationErrorType : Type :=
| DEPENDENCY_VIOLATION
| WORK_CENTER_CONFLICT
| SHIFT_VIOLATION
| MAINTENANCE_CONFLICT
| CIRCULAR_DEPENDENCY.

Record ValidationError : Type := {
  type : ValidationErrorType;
  message : string;
  workOrderIds : list string
}.

Record DependencyNode : Type := {
  nodeWorkOrderId : string;
  parents : list string;
  children : list string;
  depth : Z
}.

(** ** utils/date-utils.ts *)

Module DateUtils.

(** [shifts.find(s => s.dayOfWeek === dayOfWeek)], with luxon's weekday
    1..7 (Mon..Sun) turned into 0..6 (Sun..Sat) by [weekday % 7]. *)
Definition shiftOn (shifts : list Shift) (t : Z) : option Shift :=
  find (fun s => dayOfWeek s =? weekday t mod 7) shifts.

(** One turn of the while loop of [calculateEndDateWithShifts] on a valid
    DateTime: the new [currentDate] and the new [remainingMinutes].  The
    cursor is a whole timestamp on every turn but the last one: the
    DateTime that [plus({ minutes })] gives is only printed, so it is
    kept as the instant that its [toISO()] shows. *)
Definition walkStep (shifts : list Shift) (currentDate : Z) (remainingMinutes : Q)
  : Z * Q :=
  match shiftOn shifts currentDate with
  | None => (nextDay currentDate, remainingMinutes)
  | Some shift =>
      let shiftStart := plusHours (startOfDay currentDate) (startHour shift) in
      let shiftEnd := plusHours (startOfDay currentDate) (endHour shift) in
      if currentDate <? shiftStart then (shiftStart, remainingMinutes)
      else if shiftEnd <=? currentDate then (nextDay currentDate, remainingMinutes)
      else
        let availableMinutes := diffMinutes shiftEnd currentDate in
        if Qle_bool remainingMinutes availableMinutes
        then (instantOf (plusMinutes currentDate remainingMinutes), 0%Q)
        else (nextDay currentDate, Double.sub remainingMinutes availableMinutes)
  end.

(** The loop itself. [fuel] is [maxIterations - iterations]: the loop
    stops when it reaches 0, and the check after the loop then throws. *)
Fixpoint walkShifts (fuel : nat) (shifts : list Shift)
    (currentDate : Z) (remainingMinutes : Q) : result Z :=
  match fuel with
  | O => Throw ShiftIterationsExceeded
  | S fuel' =>
      if Qle_bool remainingMinutes 0 then Ok currentDate
      else
        let '(currentDate', remainingMinutes') :=
          walkStep shifts currentDate remainingMinutes in
        walkShifts fuel' shifts currentDate' remainingMinutes'
  end.

Definition maxShiftIterations : nat := 1000.

(** On an invalid start no shift is ever found: the loop runs out of
    iterations when there is work to place, and otherwise the function
    returns [toISO()] of the invalid DateTime, which is null. *)
Definition calculateEndDateWithShifts (startDate : string)
    (durationMinutes : Z) (shifts : list Shift) : result string :=
  match fromISO startDate with
  | None =>
      if durationMinutes <=? 0 then Throw NullDate
      else Throw ShiftIterationsExceeded
  | Some start =>
      do e <- walkShifts maxShiftIterations shifts start (inject_Z durationMinutes);
      Ok (toISO e)
  end.

Definition overlapsWithMaintenance (startDate endDate : string)
    (maintenanceWindows : list MaintenanceWindow) : bool :=
  let start := fromISO startDate in
  let end_ := fromISO endDate in
  existsb (fun window =>
    let windowStart := fromISO (windowStartDate window) in
    let windowEnd := fromISO (windowEndDate window) in
    dt_lt start windowEnd && dt_lt windowStart end_) maintenanceWindows.

Definition timeRangesOverlap (start1 end1 start2 end2 : string) : bool :=
  let s1 := fromISO start1 in
  let e1 := fromISO end1 in
  let s2 := fromISO start2 in
  let e2 := fromISO end2 in
  dt_lt s1 e2 && dt_lt s2 e1.

(** The loop of [findNextShiftStart]; [fuel] is [maxIterations - iterations]. *)
Fixpoint nextShiftStartFrom (fuel : nat) (shifts : list Shift)
    (currentDate : Z) : result Z :=
  match fuel with
  | O => Throw NoNextShiftStart
  | S fuel' =>
      match shiftOn shifts currentDate with
      | Some shift =>
          let shiftStart := plusHours (startOfDay currentDate) (startHour shift) in
          if currentDate <=? shiftStart then Ok shiftStart
          else nextShiftStartFrom fuel' shifts (nextDay currentDate)
      | None => nextShiftStartFrom fuel' shifts (nextDay currentDate)
      end
  end.

Definition findNextShiftStart (date : string) (shifts : list Shift) : result string :=
  match fromISO date with
  | None => Throw NoNextShiftStart
  | Some t => do s <- nextShiftStartFrom 100 shifts t; Ok (toISO s)
  end.

(** [Math.round(updated.diff(original, 'minutes').minutes)]; the diff
    of an invalid DateTime is an invalid Duration, whose minutes are NaN. *)
Definition calculateDelayMinutes (originalDate newDate : string) : number :=
  match fromISO originalDate, fromISO newDate with
  | Some original, Some updated =>
      Some (Double.mathRound (diffMinutes updated original))
  | _, _ => None
  end.

Definition isWithinShiftHours (date : string) (shifts : list Shift) : bool :=
  match fromISO date with
  | None => false
  | Some dt =>
      match shiftOn shifts dt with
      | None => false
      | Some shift =>
          let currentMinutes := hour dt * 60 + minute dt in
          let shiftStartMinutes := startHour shift * 60 in
          let shiftEndMinutes := endHour shift * 60 in
          (shiftStartMinutes <=? currentMinutes) && (currentMinutes <? shiftEndMinutes)
      end
  end.

End DateUtils.

Import DateUtils.

Definition weekShifts : list Shift :=
  map (fun d => {| dayOfWeek := d; startHour := 8; endHour := 17 |}) [1; 2; 3; 4; 5].

Definition everyDayShifts : list Shift :=
  map (fun d => {| dayOfWeek := d; startHour := 8; endHour := 17 |})
      [0; 1; 2; 3; 4; 5; 6].

(** ** JavaScript [Map<string, V>]: insertion-ordered, one entry per key *)

Section JsMap.

Variable V : Type.

Definition JsMap : Type := list (string * V).

Fixpoint map_get (m : JsMap) (k : string) : option V :=
  match m with
  | [] => None
  | (k', v) :: m' => if String.eqb k' k then Some v else map_get m' k
  end.

(** [m.set(k, v)]: an existing key keeps its place, a new key goes last. *)
Fixpoint map_set (m : JsMap) (k : string) (v : V) : JsMap :=
  match m with
  | [] => [(k, v)]
  | (k', v') :: m' =>
      if String.eqb k' k then (k', v) :: m' else (k', v') :: map_set m' k v
  end.

Definition map_keys (m : JsMap) : list string := map fst m.

(** [new Map(entries)] *)
Definition map_of (entries : list (string * V)) : JsMap :=
  fold_left (fun m e => map_set m (fst e) (snd e)) entries [].

End JsMap.

Arguments map_get {V} m k.
Arguments map_set {V} m k v.
Arguments map_keys {V} m.
Arguments map_of {V} entries.

(** ** core/dependency-resolver.ts *)

Module DependencyResolver.

Definition Graph : Type := JsMap DependencyNode.

Definition initialNode (wo : WorkOrder) : DependencyNode :=
  {| nodeWorkOrderId := docId wo;
     parents := dependsOnWorkOrderIds (data wo);
     children := [];
     depth := 0 |}.

Definition pushChild (node : DependencyNode) (childId : string) : DependencyNode :=
  {| nodeWorkOrderId := nodeWorkOrderId node;
     parents := parents node;
     children := children node ++ [childId];
     depth := depth node |}.

(** The inner [forEach] over [wo.data.dependsOnWorkOrderIds]. *)
Fixpoint linkParents (graph : Graph) (wo : WorkOrder) (parentIds : list string)
  : result Graph :=
  match parentIds with
  | [] => Ok graph
  | parentId :: rest =>
      match map_get graph parentId with
      | None => Throw (DanglingDependency (workOrderNumber (data wo)) parentId)
      | Some parentNode =>
          linkParents (map_set graph parentId (pushChild parentNode (docId wo))) wo rest
      end
  end.

Fixpoint linkAll (graph : Graph) (workOrders : list WorkOrder) : result Graph :=
  match workOrders with
  | [] => Ok graph
  | wo :: rest =>
      do graph' <- linkParents graph wo (dependsOnWorkOrderIds (data wo));
      linkAll graph' rest
  end.

Definition buildDependencyGraph (workOrders : list WorkOrder) : result Graph :=
  let graph :=
    fold_left (fun g wo => map_set g (docId wo) (initialNode wo)) workOrders [] in
  linkAll graph workOrders.

Inductive color : Type := WHITE | GRAY | BLACK.

Inductive dfsOutcome : Type :=
| CycleFound (cycleNodes : list string)      (* dfs returned true *)
| NoCycle (colors : JsMap color)             (* dfs returned false *)
| DfsStuck (e : error).

(** The loop [for (const parentId of node.parents)] inside [dfs(nodeId,
    path)]; [path1] is the path after the push of [nodeId], and [recur] is
    the recursive call [dfs(parentId, path)]. *)
Fixpoint visitParents (recur : string -> JsMap color -> dfsOutcome)
    (nodeId : string) (path1 : list string) (parentIds : list string)
    (colors : JsMap color) : dfsOutcome :=
  match parentIds with
  | [] => NoCycle (map_set colors nodeId BLACK)
  | parentId :: rest =>
      match map_get colors parentId with
      | Some GRAY => CycleFound (path1 ++ [parentId])
      | Some WHITE =>
          match recur parentId colors with
          | NoCycle colors' => visitParents recur nodeId path1 rest colors'
          | out => out
          end
      | _ => visitParents recur nodeId path1 rest colors
      end
  end.

(** [dfs(nodeId, path)].  [path] is the array before the call's own push;
    a call that returns false has popped what it pushed, so the caller's
    path is unchanged. The recursion is bounded by [fuel]. *)
Fixpoint dfs (fuel : nat) (graph : Graph) (nodeId : string)
    (colors : JsMap color) (path : list string) : dfsOutcome :=
  match fuel with
  | O => DfsStuck OutOfFuel
  | S fuel' =>
      let colors1 := map_set colors nodeId GRAY in
      let path1 := path ++ [nodeId] in
      match map_get graph nodeId with
      | None => DfsStuck TypeError
      | Some node =>
          visitParents (fun parentId colors => dfs fuel' graph parentId colors path1)
                       nodeId path1 (parents node) colors1
      end
  end.

(** [[...new Set(xs)]]: first occurrences, in order. *)
Fixpoint dedup (seen xs : list string) : list string :=
  match xs with
  | [] => []
  | x :: xs' =>
      if existsb (String.eqb x) seen then dedup seen xs'
      else x :: dedup (x :: seen) xs'
  end.

Definition circularError (cycleNodes : list string) : ValidationError :=
  {| type := CIRCULAR_DEPENDENCY;
     message := "Circular dependency detected in work order dependencies";
     workOrderIds := dedup [] cycleNodes |}.

(** The loop [for (const [nodeId, color] of colors)]: the entries are read
    live, so a node coloured by an earlier [dfs] is skipped. *)
Fixpoint scanNodes (graph : Graph) (nodeIds : list string)
    (colors : JsMap color) : result (option ValidationError) :=
  match nodeIds with
  | [] => Ok None
  | nodeId :: rest =>
      match map_get colors nodeId with
      | Some WHITE =>
          match dfs (List.length graph) graph nodeId colors [] with
          | CycleFound cycleNodes => Ok (Some (circularError cycleNodes))
          | NoCycle colors' => scanNodes graph rest colors'
          | DfsStuck e => Throw e
          end
      | _ => scanNodes graph rest colors
      end
  end.

Definition detectCycles (graph : Graph) : result (option ValidationError) :=
  let colors : JsMap color := map (fun e => (fst e, WHITE)) graph in
  scanNodes graph (map_keys colors) colors.

(** [inDegree.get(childId)! - 1]; a missing entry gives NaN. *)
Definition decrement (inDegree : JsMap number) (childId : string) : number :=
  match map_get inDegree childId with
  | Some (Some d) => Some (d - 1)
  | _ => None
  end.

Fixpoint releaseChildren (childIds : list string) (inDegree : JsMap number)
    (queue : list string) : JsMap number * list string :=
  match childIds with
  | [] => (inDegree, queue)
  | childId :: rest =>
      let d := decrement inDegree childId in
      let inDegree' := map_set inDegree childId d in
      match d with
      | Some 0 => releaseChildren rest inDegree' (queue ++ [childId])
      | _ => releaseChildren rest inDegree' queue
      end
  end.

(** The loop [while (queue.length > 0)], bounded by [fuel]. *)
Fixpoint kahn (fuel : nat) (graph : Graph) (inDegree : JsMap number)
    (queue sorted : list string) : result (list string) :=
  match queue with
  | [] => Ok sorted
  | nodeId :: queue' =>
      match fuel with
      | O => Throw OutOfFuel
      | S fuel' =>
          match map_get graph nodeId with
          | None => Throw TypeError
          | Some node =>
              let '(inDegree', queue'') :=
                releaseChildren (children node) inDegree queue' in
              kahn fuel' graph inDegree' queue'' (sorted ++ [nodeId])
          end
      end
  end.

(** A work order object is referred to by its index in the array it lives
    in; [workOrderMap.get(id)] is the last work order carrying [id]. *)
Fixpoint lastIndexOf (id : string) (workOrders : list WorkOrder) (i : nat)
  : option nat :=
  match workOrders with
  | [] => None
  | wo :: rest =>
      match lastIndexOf id rest (S i) with
      | Some j => Some j
      | None => if String.eqb (docId wo) id then Some i else None
      end
  end.

Fixpoint resolveAll (ids : list string) (workOrders : list WorkOrder)
  : result (list nat) :=
  match ids with
  | [] => Ok []
  | id :: rest =>
      match lastIndexOf id workOrders 0 with
      | None => Throw TypeError
      | Some i => do rest' <- resolveAll rest workOrders; Ok (i :: rest')
      end
  end.

(** [inDegree.set(id, node.parents.length)] for every node, and the
    queue of the ids whose degree is 0, both in the order of the graph. *)
Definition initialInDegree (graph : Graph) : JsMap number :=
  map (fun e => (fst e, Some (Z.of_nat (List.length (parents (snd e)))))) graph.

Definition initialQueue (inDegree : JsMap number) : list string :=
  map fst (filter (fun e => match snd e with Some 0 => true | _ => false end)
                  inDegree).

Definition topologicalSort (workOrders : list WorkOrder) : result (list nat) :=
  do graph <- buildDependencyGraph workOrders;
  do cycleError <- detectCycles graph;
  match cycleError with
  | Some _ => Throw CircularDependency
  | None =>
      let inDegree := initialInDegree graph in
      let queue := initialQueue inDegree in
      do sorted <- kahn (S (List.length graph)) graph inDegree queue [];
      if Nat.eqb (List.length sorted) (List.length workOrders)
      then resolveAll sorted workOrders
      else Throw TopologicalSortFailed
  end.

End DependencyResolver.

Import DependencyResolver.

(** [a > b] and [a < b] on JavaScript strings: code-unit lexicographic
    order, which on ASCII text is the byte order of [String.ltb]. *)
Definition str_gt (a b : string) : bool := String.ltb b a.
Definition str_lt (a b : string) : bool := String.ltb a b.

(** ** core/constraint-validator.ts *)

Module ConstraintValidator.

Definition workOrderMapOf (workOrders : list WorkOrder) : JsMap WorkOrder :=
  map_of (map (fun wo => (docId wo, wo)) workOrders).

Definition workCenterMapOf (workCenters : list WorkCenter) : JsMap WorkCenter :=
  map_of (map (fun wc => (docId wc, wc)) workCenters).

(** [ids.map(id => m.get(id)).filter(x => x !== undefined)] *)
Fixpoint definedOnly {A : Type} (xs : list (option A)) : list A :=
  match xs with
  | [] => []
  | Some x :: xs' => x :: definedOnly xs'
  | None :: xs' => definedOnly xs'
  end.

Definition dependencyViolation (wo parent : WorkOrder) : ValidationError :=
  {| type := DEPENDENCY_VIOLATION;
     message := ("Work order " ++ workOrderNumber (data wo)
                 ++ " starts before dependency " ++ workOrderNumber (data parent)
                 ++ " completes")%string;
     workOrderIds := [docId wo; docId parent] |}.

Definition validateDependencies (workOrders : list WorkOrder) : list ValidationError :=
  let workOrderMap := workOrderMapOf workOrders in
  flat_map (fun wo =>
    let parents :=
      definedOnly (map (map_get workOrderMap) (dependsOnWorkOrderIds (data wo))) in
    flat_map (fun parent =>
      if str_gt (endDate (data parent)) (startDate (data wo))
      then [dependencyViolation wo parent]
      else []) parents) workOrders.

(** [workCenterGroups]: work orders grouped by [workCenterId], groups in
    order of first appearance. *)
Definition addToGroup (groups : JsMap (list WorkOrder)) (wo : WorkOrder)
  : JsMap (list WorkOrder) :=
  let wcId := workCenterId (data wo) in
  match map_get groups wcId with
  | None => map_set groups wcId [wo]
  | Some orders => map_set groups wcId (orders ++ [wo])
  end.

Definition groupByWorkCenter (workOrders : list WorkOrder) : JsMap (list WorkOrder) :=
  fold_left addToGroup workOrders [].

Definition workCenterConflict (wcId : string) (wo1 wo2 : WorkOrder) : ValidationError :=
  {| type := WORK_CENTER_CONFLICT;
     message := ("Work center " ++ wcId ++ " has overlapping work orders: "
                 ++ workOrderNumber (data wo1) ++ " and "
                 ++ workOrderNumber (data wo2))%string;
     workOrderIds := [docId wo1; docId wo2] |}.

Definition overlapping (wo1 wo2 : WorkOrder) : bool :=
  timeRangesOverlap (startDate (data wo1)) (endDate (data wo1))
                    (startDate (data wo2)) (endDate (data wo2)).

(** The two nested loops over [i < j]. *)
Fixpoint conflictsIn (wcId : string) (orders : list WorkOrder) : list ValidationError :=
  match orders with
  | [] => []
  | wo1 :: rest =>
      flat_map (fun wo2 =>
        if overlapping wo1 wo2 then [workCenterConflict wcId wo1 wo2] else []) rest
      ++ conflictsIn wcId rest
  end.

Definition validateWorkCenterConflicts (workOrders : list WorkOrder)
  : list ValidationError :=
  flat_map (fun g => conflictsIn (fst g) (snd g)) (groupByWorkCenter workOrders).

Definition shiftViolation (msg : string) (wo : WorkOrder) : ValidationError :=
  {| type := SHIFT_VIOLATION; message := msg; workOrderIds := [docId wo] |}.

Definition validateShiftBoundaries (workOrders : list WorkOrder)
    (workCenters : list WorkCenter) : list ValidationError :=
  let workCenterMap := workCenterMapOf workCenters in
  flat_map (fun wo =>
    match map_get workCenterMap (workCenterId (data wo)) with
    | None =>
        [shiftViolation ("Work order " ++ workOrderNumber (data wo)
                         ++ " references non-existent work center: "
                         ++ workCenterId (data wo))%string wo]
    | Some workCenter =>
        (match shifts (data workCenter) with
         | [] => [shiftViolation ("Work center " ++ name (data workCenter)
                                  ++ " has no shifts defined")%string wo]
         | _ :: _ => []
         end)
        ++
        (if isWithinShiftHours (startDate (data wo)) (shifts (data workCenter))
         then []
         else [shiftViolation ("Work order " ++ workOrderNumber (data wo)
                               ++ " starts outside shift hours")%string wo])
    end) workOrders.

Definition maintenanceConflict (wo : WorkOrder) (workCenter : WorkCenter)
  : ValidationError :=
  {| type := MAINTENANCE_CONFLICT;
     message := ("Work order " ++ workOrderNumber (data wo)
                 ++ " overlaps with maintenance window on "
                 ++ name (data workCenter))%string;
     workOrderIds := [docId wo] |}.

Definition validateMaintenanceWindows (workOrders : list WorkOrder)
    (workCenters : list WorkCenter) : list ValidationError :=
  let workCenterMap := workCenterMapOf workCenters in
  flat_map (fun wo =>
    match map_get workCenterMap (workCenterId (data wo)) with
    | None => []
    | Some workCenter =>
        if overlapsWithMaintenance (startDate (data wo)) (endDate (data wo))
             (maintenanceWindows (data workCenter))
        then [maintenanceConflict wo workCenter]
        else []
    end) workOrders.

Definition validateAll (workOrders : list WorkOrder) (workCenters : list WorkCenter)
  : result (list ValidationError) :=
  do graph <- buildDependencyGraph workOrders;
  do cycleError <- detectCycles graph;
  Ok ((match cycleError with Some e => [e] | None => [] end)
      ++ validateDependencies workOrders
      ++ validateWorkCenterConflicts workOrders
      ++ validateShiftBoundaries workOrders workCenters
      ++ validateMaintenanceWindows workOrders workCenters).

End ConstraintValidator.

Import ConstraintValidator.

(** ** core/reflow-service.ts *)

Record ReflowInput : Type := {
  workOrders : list WorkOrder;
  workCenters : list WorkCenter;
  manufacturingOrders : list ManufacturingOrder
}.

(** A utilisation is a percentage with a fraction, a double. *)
Record OptimizationMetrics : Type := {
  totalDelayMinutes : number;
  workOrdersAffected : Z;
  workCenterUtilization : JsMap Q
}.

Record ReflowResult : Type := {
  updatedWorkOrders : list WorkOrder;
  changes : list WorkOrderChange;
  explanation : string;
  metrics : OptimizationMetrics
}.

Module ReflowService.

Definition sameWorkCenterOther (workOrder wo : WorkOrder) : bool :=
  negb (String.eqb (docId wo) (docId workOrder))
  && String.eqb (workCenterId (data wo)) (workCenterId (data workOrder)).

Definition adjustToShiftStart (date : string) (workCenter : WorkCenter)
  : result string :=
  match fromISO date with
  | None => findNextShiftStart date (shifts (data workCenter))
  | Some dt =>
      match shiftOn (shifts (data workCenter)) dt with
      | None => findNextShiftStart date (shifts (data workCenter))
      | Some shift =>
          let currentMinutes := hour dt * 60 + minute dt in
          let shiftStartMinutes := startHour shift * 60 in
          let shiftEndMinutes := endHour shift * 60 in
          if currentMinutes <? shiftStartMinutes then
            Ok (toISO (plusHours (startOfDay dt) (startHour shift)))
          else if shiftEndMinutes <=? currentMinutes then
            findNextShiftStart date (shifts (data workCenter))
          else Ok date
      end
  end.

Definition isSlotAvailable (slotStart slotEnd : string) (workOrder : WorkOrder)
    (allWorkOrders : list WorkOrder) (workCenter : WorkCenter) : bool :=
  let conflictingOrders :=
    filter (fun wo =>
      sameWorkCenterOther workOrder wo
      && timeRangesOverlap slotStart slotEnd
           (startDate (data wo)) (endDate (data wo)))
      allWorkOrders in
  match conflictingOrders with
  | _ :: _ => false
  | [] =>
      negb (overlapsWithMaintenance slotStart slotEnd
              (maintenanceWindows (data workCenter)))
  end.

(** The [blockingPeriods] array: overlapping work orders of the work
    center first, overlapping maintenance windows after them. *)
Definition blockingPeriods (currentStart currentEnd : string) (workOrder : WorkOrder)
    (allWorkOrders : list WorkOrder) (workCenter : WorkCenter)
  : list (string * string) :=
  map (fun wo => (startDate (data wo), endDate (data wo)))
      (filter (fun wo =>
         sameWorkCenterOther workOrder wo
         && timeRangesOverlap currentStart currentEnd
              (startDate (data wo)) (endDate (data wo))) allWorkOrders)
  ++
  map (fun window => (windowStartDate window, windowEndDate window))
      (filter (fun window =>
         timeRangesOverlap currentStart currentEnd
           (windowStartDate window) (windowEndDate window))
         (maintenanceWindows (data workCenter))).

Definition findNextPotentialStart (currentStart currentEnd : string)
    (workOrder : WorkOrder) (allWorkOrders : list WorkOrder)
    (workCenter : WorkCenter) : result string :=
  match blockingPeriods currentStart currentEnd workOrder allWorkOrders workCenter with
  | [] =>
      match fromISO currentStart with
      | Some t => Ok (toISO (plusHours t 1))
      | None => Throw NullDate
      end
  | (first :: _) as periods =>
      Ok (fold_left (fun earliest period =>
            if str_lt (snd period) earliest then snd period else earliest)
          periods (snd first))
  end.

(** The while loop of [findNextAvailableSlot]; [fuel] is
    [maxIterations - iterations]. *)
Fixpoint searchSlot (fuel : nat) (candidateStart : string) (workOrder : WorkOrder)
    (allWorkOrders : list WorkOrder) (workCenter : WorkCenter) : result string :=
  match fuel with
  | O => Throw (NoAvailableSlot (workOrderNumber (data workOrder)))
  | S fuel' =>
      do candidateStart <- adjustToShiftStart candidateStart workCenter;
      do candidateEnd <- calculateEndDateWithShifts candidateStart
                           (durationMinutes (data workOrder))
                           (shifts (data workCenter));
      if isSlotAvailable candidateStart candidateEnd workOrder allWorkOrders workCenter
      then Ok candidateStart
      else
        do next <- findNextPotentialStart candidateStart candidateEnd
                     workOrder allWorkOrders workCenter;
        searchSlot fuel' next workOrder allWorkOrders workCenter
  end.

Definition findNextAvailableSlot (startFrom : string) (workOrder : WorkOrder)
    (allWorkOrders : list WorkOrder) (workCenter : WorkCenter) : result string :=
  searchSlot 1000 startFrom workOrder allWorkOrders workCenter.

(** [ids.map(id => allWorkOrders.find(wo => wo.docId === id)).filter(...)] *)
Definition parentsOf (workOrder : WorkOrder) (allWorkOrders : list WorkOrder)
  : list WorkOrder :=
  definedOnly
    (map (fun id => find (fun wo => String.eqb (docId wo) id) allWorkOrders)
         (dependsOnWorkOrderIds (data workOrder))).

Definition latestParentEnd (parents : list WorkOrder) : string :=
  fold_left (fun latest parent =>
    if str_gt (endDate (data parent)) latest then endDate (data parent) else latest)
    parents "".

(** A work order whose work center is not in the map has [undefined] for
    [workCenter]; its first use, [workCenter.data] in [adjustToShiftStart],
    throws before anything else can. *)
Definition calculateEarliestStartTime (workOrder : WorkOrder)
    (allWorkOrders : list WorkOrder) (workCenterMap : JsMap WorkCenter)
  : result string :=
  match map_get workCenterMap (workCenterId (data workOrder)) with
  | None => Throw TypeError
  | Some workCenter =>
      let candidateStart := startDate (data workOrder) in
      let parents := parentsOf workOrder allWorkOrders in
      let candidateStart :=
        match parents with
        | [] => candidateStart
        | _ :: _ =>
            if str_gt (latestParentEnd parents) candidateStart
            then latestParentEnd parents
            else candidateStart
        end in
      findNextAvailableSlot candidateStart workOrder allWorkOrders workCenter
  end.

Fixpoint join (sep : string) (xs : list string) : string :=
  match xs with
  | [] => ""
  | [x] => x
  | x :: xs' => (x ++ sep ++ join sep xs')%string
  end.

Definition generateChangeReason (workOrder : WorkOrder)
    (allWorkOrders : list WorkOrder) (workCenterMap : JsMap WorkCenter) : string :=
  let delayedParents :=
    filter (fun p => str_gt (endDate (data p)) (startDate (data workOrder)))
           (parentsOf workOrder allWorkOrders) in
  let reasons1 :=
    match delayedParents with
    | [] => []
    | _ :: _ =>
        [("Waiting for dependencies: "
          ++ join ", " (map (fun p => workOrderNumber (data p)) delayedParents))%string]
    end in
  let reasons2 :=
    match map_get workCenterMap (workCenterId (data workOrder)) with
    | None => []
    | Some _ =>
        match filter (fun wo =>
                sameWorkCenterOther workOrder wo
                && str_gt (endDate (data wo)) (startDate (data workOrder))
                && str_lt (startDate (data wo)) (startDate (data workOrder)))
                allWorkOrders with
        | [] => []
        | c :: _ => [("Work center busy with: " ++ workOrderNumber (data c))%string]
        end
    end in
  match (reasons1 ++ reasons2)%list with
  | [] => "Rescheduled for optimization"
  | reasons => join "; " reasons
  end.

(** Decimal text of a number, as a template literal prints it. *)
Definition showNumber (n : number) : string :=
  match n with
  | Some z => DecimalString.NilZero.string_of_int (Z.to_int z)
  | None => "NaN"
  end.

Definition addNumber (a b : number) : number :=
  match a, b with
  | Some x, Some y => Some (x + y)
  | _, _ => None
  end.

(** [Math.max(0, x)]; NaN stays NaN. *)
Definition maxZero (x : number) : number :=
  match x with
  | Some d => Some (Z.max 0 d)
  | None => None
  end.

Definition generateExplanation (changes : list WorkOrderChange) : string :=
  match changes with
  | [] => "No changes needed - schedule is valid"
  | _ :: _ =>
      let n := Z.of_nat (List.length changes) in
      let totalDelay :=
        fold_left (fun sum c => addNumber sum (delayMinutes c)) changes (Some 0) in
      let avgDelay :=
        option_map (fun t => Double.mathRound (Double.div (inject_Z t) (inject_Z n)))
                   totalDelay in
      ("Rescheduled " ++ showNumber (Some n) ++ " work order(s). "
       ++ "Total delay: " ++ showNumber totalDelay ++ " minutes. "
       ++ "Average delay: " ++ showNumber avgDelay ++ " minutes per order.")%string
  end.

Definition weeklyShiftMinutes (wc : WorkCenter) : Z :=
  fold_left (fun sum shift => sum + (endHour shift - startHour shift) * 60)
            (shifts (data wc)) 0.

Definition totalWorkingMinutes (wc : WorkCenter) (workOrders : list WorkOrder) : Z :=
  fold_left (fun sum wo => sum + durationMinutes (data wo))
    (filter (fun wo => String.eqb (workCenterId (data wo)) (docId wc)) workOrders) 0.

(** [Math.round(utilization * 100) / 100] for the [utilization] of one
    work center, every operation rounded as JavaScript rounds it. *)
Definition utilizationOf (wc : WorkCenter) (workOrders : list WorkOrder) : Q :=
  let utilization :=
    if 0 <? weeklyShiftMinutes wc
    then Double.mul (Double.div (inject_Z (totalWorkingMinutes wc workOrders))
                                (inject_Z (weeklyShiftMinutes wc))) 100
    else 0%Q in
  Double.div (inject_Z (Double.mathRound (Double.mul utilization 100))) 100.

Definition calculateMetrics (changes : list WorkOrderChange)
    (workOrders : list WorkOrder) (workCenters : list WorkCenter)
  : OptimizationMetrics :=
  {| totalDelayMinutes :=
       fold_left (fun sum c => addNumber sum (maxZero (delayMinutes c)))
                 changes (Some 0);
     workOrdersAffected := Z.of_nat (List.length changes);
     workCenterUtilization :=
       fold_left (fun util wc => map_set util (docId wc) (utilizationOf wc workOrders))
                 workCenters [] |}.

(** [workOrder.data.startDate = ...; workOrder.data.endDate = ...] *)
Definition reschedule (wo : WorkOrder) (newStart newEnd : string) : WorkOrder :=
  {| docId := docId wo;
     docType := docType wo;
     data := {| workOrderNumber := workOrderNumber (data wo);
                manufacturingOrderId := manufacturingOrderId (data wo);
                workCenterId := workCenterId (data wo);
                startDate := newStart;
                endDate := newEnd;
                durationMinutes := durationMinutes (data wo);
                isMaintenance := isMaintenance (data wo);
                dependsOnWorkOrderIds := dependsOnWorkOrderIds (data wo) |} |}.

(** Writing through the reference [i] into the array of working copies. *)
Fixpoint assign (i : nat) (wo : WorkOrder) (workOrders : list WorkOrder)
  : list WorkOrder :=
  match workOrders, i with
  | [], _ => []
  | _ :: rest, O => wo :: rest
  | w :: rest, S i' => w :: assign i' wo rest
  end.

(** What a call of [reflow] can write to: the caller's work orders, the
    working copies, and the list of changes. *)
Record Heap : Type := {
  callerWorkOrders : list WorkOrder;
  workingCopies : list WorkOrder;
  changeLog : list WorkOrderChange
}.

(** One turn of the loop over [sortedWorkOrders], for the work order
    referred to by [i]. *)
Definition processWorkOrder (workCenterMap : JsMap WorkCenter) (i : nat)
    (h : Heap) : Heap * result unit :=
  match nth_error (workingCopies h) i with
  | None => (h, Throw TypeError)
  | Some workOrder =>
      if isMaintenance (data workOrder) then (h, Ok tt)
      else
        let originalStartDate := startDate (data workOrder) in
        let originalEndDate := endDate (data workOrder) in
        match calculateEarliestStartTime workOrder (workingCopies h) workCenterMap with
        | Throw e => (h, Throw e)
        | Ok earliestStart =>
            if String.eqb earliestStart (startDate (data workOrder)) then (h, Ok tt)
            else
              match map_get workCenterMap (workCenterId (data workOrder)) with
              | None => (h, Throw TypeError)
              | Some workCenter =>
                  match calculateEndDateWithShifts earliestStart
                          (durationMinutes (data workOrder))
                          (shifts (data workCenter)) with
                  | Throw e => (h, Throw e)
                  | Ok newEndDate =>
                      let workOrder' := reschedule workOrder earliestStart newEndDate in
                      let copies := assign i workOrder' (workingCopies h) in
                      let change :=
                        {| workOrderId := docId workOrder';
                           changeWorkOrderNumber := workOrderNumber (data workOrder');
                           originalStartDate := originalStartDate;
                           originalEndDate := originalEndDate;
                           newStartDate := earliestStart;
                           newEndDate := newEndDate;
                           delayMinutes :=
                             calculateDelayMinutes originalEndDate newEndDate;
                           reason :=
                             generateChangeReason workOrder' copies workCenterMap |} in
                      ({| callerWorkOrders := callerWorkOrders h;
                          workingCopies := copies;
                          changeLog := changeLog h ++ [change] |}, Ok tt)
                  end
              end
        end
  end.

Fixpoint processAll (workCenterMap : JsMap WorkCenter) (sorted : list nat)
    (h : Heap) : Heap * result unit :=
  match sorted with
  | [] => (h, Ok tt)
  | i :: rest =>
      match processWorkOrder workCenterMap i h with
      | (h', Ok _) => processAll workCenterMap rest h'
      | (h', Throw e) => (h', Throw e)
      end
  end.

(** [reflow(input)], with the heap it leaves behind.  The working copies
    [{ ...wo, data: { ...wo.data } }] start out equal to the caller's
    work orders and are the only work orders written to. *)
Definition reflowRun (input : ReflowInput) : Heap * result ReflowResult :=
  let h0 := {| callerWorkOrders := workOrders input;
               workingCopies := workOrders input;
               changeLog := [] |} in
  let workCenterMap := workCenterMapOf (workCenters input) in
  match topologicalSort (workingCopies h0) with
  | Throw e => (h0, Throw e)
  | Ok sortedWorkOrders =>
      match processAll workCenterMap sortedWorkOrders h0 with
      | (h, Throw e) => (h, Throw e)
      | (h, Ok _) =>
          match validateAll (workingCopies h) (workCenters input) with
          | Throw e => (h, Throw e)
          | Ok [] =>
              (h, Ok {| updatedWorkOrders := workingCopies h;
                        changes := changeLog h;
                        explanation := generateExplanation (changeLog h);
                        metrics := calculateMetrics (changeLog h) (workingCopies h)
                                     (workCenters input) |})
          | Ok ((_ :: _) as errors) =>
              (h, Throw (InvalidSchedule (map message errors)))
          end
      end
  end.

Definition reflow (input : ReflowInput) : result ReflowResult :=
  snd (reflowRun input).

End ReflowService.

Import ReflowService.

(** ** Sample data *)

Definition mkWorkOrder (id wc start end_ : string) (minutes : Z)
    (maintenance : bool) (deps : list string) : WorkOrder :=
  {| docId := id;
     docType := "workOrder";
     data := {| workOrderNumber := id;
                manufacturingOrderId := "mo-1";
                workCenterId := wc;
                startDate := start;
                endDate := end_;
                durationMinutes := minutes;
                isMaintenance := maintenance;
                dependsOnWorkOrderIds := deps |} |}.

Definition mkWorkCenter (id : string) (sh : list Shift)
    (windows : list MaintenanceWindow) : WorkCenter :=
  {| docId := id;
     docType := "workCenter";
     data := {| name := id; shifts := sh; maintenanceWindows := windows |} |}.

(** A parent that ends at noon, written without milliseconds, and a child
    that starts at noon, written with them. *)
Definition noonParent : WorkOrder :=
  mkWorkOrder "wo-1" "wc-1" "2026-02-10T10:00:00Z" "2026-02-10T12:00:00Z"
              120 false [].

Definition noonChild : WorkOrder :=
  mkWorkOrder "wo-2" "wc-2" "2026-02-10T12:00:00.000Z" "2026-02-10T14:00:00.000Z"
              120 false ["wo-1"].

(** A parent that ends half a second after noon and a child that starts
    at noon sharp. *)
Definition lateParent : WorkOrder :=
  mkWorkOrder "wo-1" "wc-1" "2026-02-10T10:00:00.500Z" "2026-02-10T12:00:00.500Z"
              120 false [].

Definition earlyChild : WorkOrder :=
  mkWorkOrder "wo-2" "wc-2" "2026-02-10T12:00:00Z" "2026-02-10T14:00:00Z"
              120 false ["wo-1"].


(** A work center whose shifts add up to no weekly minutes. *)
Definition idleWorkCenter : WorkCenter := mkWorkCenter "wc-idle" [] [].

(** The total delay in the words of the specification, on delays given as
    integers: [Σ max(0, change.delayMinutes)], and the same total as the
    sum of the delays that are positive (an early change adds nothing). *)
Definition sumOf (l : list Z) : Z := fold_right Z.add 0 l.

Definition positiveDelaySum (delays : list Z) : Z := sumOf (map (Z.max 0) delays).

Definition sumOfDelayed (delays : list Z) : Z :=
  sumOf (filter (fun d => 0 <? d) delays).

(** Two work orders that occupy wc-1 around noon, one ending half a second
    past noon, the other at noon sharp and written without milliseconds;
    and a third work order looking for a slot from 11:00 to 13:00. *)
Definition blockerLate : WorkOrder :=
  mkWorkOrder "wo-x" "wc-1" "2026-02-10T10:00:00.000Z" "2026-02-10T12:00:00.500Z"
              120 false [].

Definition blockerSharp : WorkOrder :=
  mkWorkOrder "wo-y" "wc-1" "2026-02-10T10:30:00Z" "2026-02-10T12:00:00Z"
              90 true [].

Definition seeker : WorkOrder :=
  mkWorkOrder "wo-s" "wc-1" "2026-02-10T11:00:00.000Z" "2026-02-10T13:00:00.000Z"
              120 false [].

(** A schedule read as instants: every parent ends at or before the
    instant its child starts, and the three instant-based checks of the
    validator find nothing. *)
Definition dependenciesMetAsInstants (workOrders : list WorkOrder) : bool :=
  forallb (fun wo =>
    forallb (fun parent =>
      dt_le (fromISO (endDate (data parent))) (fromISO (startDate (data wo))))
      (parentsOf wo workOrders)) workOrders.

Definition isNil {A : Type} (l : list A) : bool :=
  match l with [] => true | _ :: _ => false end.

Definition denotesValidSchedule (input : ReflowInput) : bool :=
  dependenciesMetAsInstants (workOrders input)
  && isNil (validateWorkCenterConflicts (workOrders input))
  && isNil (validateShiftBoundaries (workOrders input) (workCenters input))
  && isNil (validateMaintenanceWindows (workOrders input) (workCenters input)).

Definition twoCenters : list WorkCenter :=
  [mkWorkCenter "wc-1" weekShifts []; mkWorkCenter "wc-2" weekShifts []].

Definition mixedFormInput : ReflowInput :=
  {| workOrders := [noonParent; noonChild];
     workCenters := twoCenters;
     manufacturingOrders := [] |}.

(** The change that reflow records for [noonChild]. *)
Definition noonChildChange : WorkOrderChange :=
  {| workOrderId := "wo-2";
     changeWorkOrderNumber := "wo-2";
     originalStartDate := "2026-02-10T12:00:00.000Z";
     originalEndDate := "2026-02-10T14:00:00.000Z";
     newStartDate := "2026-02-10T12:00:00Z";
     newEndDate := "2026-02-10T14:00:00.000Z";
     delayMinutes := Some 0;
     reason := "Rescheduled for optimization" |}.

(** A change record with a given delay. *)
Definition delayedBy (id : string) (d : Z) : WorkOrderChange :=
  {| workOrderId := id;
     changeWorkOrderNumber := id;
     originalStartDate := "";
     originalEndDate := "";
     newStartDate := "";
     newEndDate := "";
     delayMinutes := Some d;
     reason := "" |}.

Definition changesOf (r : result ReflowResult) : result (list WorkOrderChange) :=
  do x <- r; Ok (changes x).

Definition updatedOf (r : result ReflowResult) : result (list WorkOrder) :=
  do x <- r; Ok (updatedWorkOrders x).

(** A work order without its dates: what the scheduling loop never writes. *)
Definition strip (wo : WorkOrder) : WorkOrder := reschedule wo "" "".

Definition lateParentInput : ReflowInput :=
  {| workOrders := [lateParent; earlyChild];
     workCenters := twoCenters;
     manufacturingOrders := [] |}.

(** A maintenance order and a work order that has to move out of its way. *)
Definition maintenanceOrder : WorkOrder :=
  mkWorkOrder "wo-m" "wc-1" "2026-02-10T13:00:00.000Z" "2026-02-10T15:00:00.000Z"
              120 true [].

Definition displacedOrder : WorkOrder :=
  mkWorkOrder "wo-d" "wc-1" "2026-02-10T12:00:00.000Z" "2026-02-10T14:00:00.000Z"
              120 false [].

Definition maintenanceInput : ReflowInput :=
  {| workOrders := [maintenanceOrder; displacedOrder];
     workCenters := [mkWorkCenter "wc-1" weekShifts []];
     manufacturingOrders := [] |}.

Definition maintenanceResult : ReflowResult :=
  match reflow maintenanceInput with
  | Ok r => r
  | Throw _ =>
      {| updatedWorkOrders := []; changes := []; explanation := "";
         metrics := calculateMetrics [] [] [] |}
  end.

(** Running reflow again on what it returned, with the work centers and
    manufacturing orders of the first call. *)
Definition rerunOf (input : ReflowInput) (r : ReflowResult) : ReflowInput :=
  {| workOrders := updatedWorkOrders r;
     workCenters := workCenters input;
     manufacturingOrders := manufacturingOrders input |}.

(** A work order whose stored endDate (09:00) is earlier than its 120
    minutes from 08:00 imply, and one that starts before the shift. *)
Definition staleEndOrder : WorkOrder :=
  mkWorkOrder "wo-a" "wc-1" "2026-02-10T08:00:00.000Z" "2026-02-10T09:00:00.000Z"
              120 false [].

Definition earlyBird : WorkOrder :=
  mkWorkOrder "wo-b" "wc-1" "2026-02-10T07:00:00.000Z" "2026-02-10T07:30:00.000Z"
              60 false [].

Definition staleEndInput : ReflowInput :=
  {| workOrders := [staleEndOrder; earlyBird];
     workCenters := [mkWorkCenter "wc-1" weekShifts []];
     manufacturingOrders := [] |}.

(** What the first call returns for [staleEndInput]. *)
Definition staleEndOnce : list WorkOrder :=
  [staleEndOrder;
   mkWorkOrder "wo-b" "wc-1" "2026-02-10T09:00:00.000Z" "2026-02-10T10:00:00.000Z"
               60 false []].

Definition staleEndAgain : ReflowInput :=
  {| workOrders := staleEndOnce;
     workCenters := workCenters staleEndInput;
     manufacturingOrders := manufacturingOrders staleEndInput |}.

(** Every work order that may be moved has the endDate that its startDate,
    its duration and the shifts of its work center give. *)
Definition endDatesConsistent (workOrders : list WorkOrder)
    (workCenters : list WorkCenter) : Prop :=
  forall wo wc,
    In wo workOrders -> isMaintenance (data wo) = false ->
    map_get (workCenterMapOf workCenters) (workCenterId (data wo)) = Some wc ->
    calculateEndDateWithShifts (startDate (data wo)) (durationMinutes (data wo))
      (shifts (data wc)) = Ok (endDate (data wo)).

Definition endDateConsistent (workCenters : list WorkCenter) (wo : WorkOrder) : bool :=
  isMaintenance (data wo)
  || match map_get (workCenterMapOf workCenters) (workCenterId (data wo)) with
     | None => true
     | Some wc =>
         match calculateEndDateWithShifts (startDate (data wo))
                 (durationMinutes (data wo)) (shifts (data wc)) with
         | Ok e => String.eqb e (endDate (data wo))
         | Throw _ => false
         end
     end.

Definition endDatesConsistentb (workOrders : list WorkOrder)
    (workCenters : list WorkCenter) : bool :=
  forallb (endDateConsistent workCenters) workOrders.

(** The linear cascade of the test suite. *)
Definition cascadeInput : ReflowInput :=
  {| workOrders :=
       [mkWorkOrder "wo-1" "wc-1" "2026-02-10T08:00:00.000Z"
                    "2026-02-10T12:00:00.000Z" 240 false [];
        mkWorkOrder "wo-2" "wc-2" "2026-02-10T10:00:00.000Z"
                    "2026-02-10T12:00:00.000Z" 120 false ["wo-1"]];
     workCenters := twoCenters;
     manufacturingOrders := [] |}.

Definition cascadeResult : ReflowResult :=
  match reflow cascadeInput with
  | Ok r => r
  | Throw _ =>
      {| updatedWorkOrders := []; changes := []; explanation := "";
         metrics := calculateMetrics [] [] [] |}
  end.

(** ** Vocabulary for the dependency graph *)

(** [a] lists [b] among its dependencies. *)
Definition dependsOn (workOrders : list WorkOrder) (a b : string) : Prop :=
  exists wo, In wo workOrders /\ docId wo = a
             /\ In b (dependsOnWorkOrderIds (data wo)).

(** A chain of one or more dependencies leads from [a] to [b]. *)
Inductive dependsOnChain (workOrders : list WorkOrder) : string -> string -> Prop :=
| chain_one (a b : string) :
    dependsOn workOrders a b -> dependsOnChain workOrders a b
| chain_more (a b c : string) :
    dependsOn workOrders a b -> dependsOnChain workOrders b c ->
    dependsOnChain workOrders a c.

(** The work orders contain a dependency cycle; a work order that lists
    itself is the shortest one. *)
Definition hasCycle (workOrders : list WorkOrder) : Prop :=
  exists a, dependsOnChain workOrders a a.

(** Every id listed as a dependency is the docId of a work order. *)
Definition allDependenciesExist (workOrders : list WorkOrder) : bool :=
  forallb (fun wo =>
    forallb (fun p => existsb (fun w => String.eqb (docId w) p) workOrders)
            (dependsOnWorkOrderIds (data wo))) workOrders.

(** The same on a graph: an edge goes from a node to each of its parents. *)
Definition edge (graph : Graph) (x p : string) : Prop :=
  exists node, map_get graph x = Some node /\ In p (parents node).

Inductive reach (graph : Graph) : string -> string -> Prop :=
| reach_one (x p : string) : edge graph x p -> reach graph x p
| reach_more (x p y : string) : edge graph x p -> reach graph p y -> reach graph x y.

Definition isWhite (c : color) : bool :=
  match c with WHITE => true | _ => false end.

Definition whites (colors : JsMap color) : nat :=
  List.length (filter (fun e => isWhite (snd e)) colors).

(** Every parent of a black node is black. *)
Definition blackClosed (graph : Graph) (colors : JsMap color) : Prop :=
  forall x p, map_get colors x = Some BLACK -> edge graph x p ->
              map_get colors p = Some BLACK.

(** No black node lies on a cycle. *)
Definition blackAcyclic (graph : Graph) (colors : JsMap color) : Prop :=
  forall x, map_get colors x = Some BLACK -> ~ reach graph x x.

(** [colors'] comes from [colors] by turning white nodes black. *)
Definition blackened (colors colors' : JsMap color) : Prop :=
  map_keys colors' = map_keys colors
  /\ (whites colors' <= whites colors)%nat
  /\ (forall k c, map_get colors k = Some c -> c <> WHITE ->
        map_get colors' k = Some c)
  /\ (forall k, map_get colors k = Some WHITE ->
        map_get colors' k = Some WHITE \/ map_get colors' k = Some BLACK).

Definition wellFormedGraph (graph : Graph) : Prop :=
  forall x p, edge graph x p -> In p (map_keys graph).

(** ** Vocabulary for the proofs about the validator and Kahn's loop *)

Definition kahnInv (graph : Graph) (inDegree : JsMap number)
    (queue sorted : list string) : Prop :=
  NoDup (sorted ++ queue)
  /\ (forall id, In id (sorted ++ queue) ->
        exists d, map_get inDegree id = Some (Some d) /\ d <= 0)
  /\ (forall id d, map_get inDegree id = Some (Some d) -> In id (map_keys graph)).

Definition groupOf (groups : JsMap (list WorkOrder)) (k : string) : list WorkOrder :=
  match map_get groups k with
  | Some orders => orders
  | None => []
  end.

Definition onWorkCenter (k : string) (wo : WorkOrder) : bool :=
  String.eqb (workCenterId (data wo)) k.

(** What a call [dfs(v, path)] on colours [colors] may come to. *)
Definition dfsGood (graph : Graph) (colors : JsMap color) (v : string)
    (out : dfsOutcome) : Prop :=
  match out with
  | DfsStuck _ => False
  | CycleFound _ => True
  | NoCycle colors' =>
      blackened colors colors' /\ map_get colors' v = Some BLACK
      /\ blackClosed graph colors' /\ blackAcyclic graph colors'
  end.

(** The same for the loop over the parents of a gray node [v]. *)
Definition visitGood (graph : Graph) (colors : JsMap color) (v : string)
    (out : dfsOutcome) : Prop :=
  match out with
  | DfsStuck _ => False
  | CycleFound _ => True
  | NoCycle colors' =>
      exists last, blackened colors last /\ map_get last v = Some GRAY
        /\ colors' = map_set last v BLACK
        /\ blackClosed graph colors' /\ blackAcyclic graph colors'
  end.

Definition noGray (colors : JsMap color) : Prop :=
  forall k, map_get colors k <> Some GRAY.

Definition scanGood (graph : Graph) (colors : JsMap color) (ids : list string)
    (out : result (option ValidationError)) : Prop :=
  match out with
  | Throw _ => False
  | Ok (Some _) => True
  | Ok None =>
      exists colors', blackened colors colors' /\ noGray colors'
        /\ blackClosed graph colors' /\ blackAcyclic graph colors'
        /\ forall id, In id ids -> map_get colors' id = Some BLACK
  end.

(** Two work orders that depend on each other. *)
Definition mutualInput : ReflowInput :=
  {| workOrders :=
       [mkWorkOrder "wo-1" "wc-1" "2026-02-10T08:00:00.000Z"
                    "2026-02-10T12:00:00.000Z" 240 false ["wo-2"];
        mkWorkOrder "wo-2" "wc-2" "2026-02-10T10:00:00.000Z"
                    "2026-02-10T12:00:00.000Z" 120 false ["wo-1"]];
     workCenters := twoCenters;
     manufacturingOrders := [] |}.

(** A work order that depends on itself and on an id that no work order
    carries. *)
Definition ghostInput : ReflowInput :=
  {| workOrders :=
       [mkWorkOrder "wo-1" "wc-1" "2026-02-10T08:00:00.000Z"
                    "2026-02-10T12:00:00.000Z" 240 false ["wo-1"; "ghost"]];
     workCenters := twoCenters;
     manufacturingOrders := [] |}.

(** The heap as [reflow] finds it. *)
Definition untouched (input : ReflowInput) : Heap :=
  {| callerWorkOrders := workOrders input;
     workingCopies := workOrders input;
     changeLog := [] |}.

(** ** Working time *)

(** The day an instant falls in, counted from 1970-01-01. *)
Definition dayIndex (t : Z) : Z := t / msPerDay.

(** An instant is working time when its day has a shift and the instant
    lies between the start and the end of that shift; this is
    [isWithinShiftHours] on instants. *)
Definition isWorking (shifts : list Shift) (t : Z) : bool :=
  match shiftOn shifts t with
  | None => false
  | Some shift =>
      (plusHours (startOfDay t) (startHour shift) <=? t)
      && (t <? plusHours (startOfDay t) (endHour shift))
  end.

(** The working milliseconds of day [D] that lie in [a, b): the length
    of [a, b) cut to the day and to the shift of the day. *)
Definition workInDay (shifts : list Shift) (D a b : Z) : Z :=
  match shiftOn shifts (D * msPerDay) with
  | None => 0
  | Some shift =>
      let lo := Z.max (D * msPerDay + startHour shift * msPerHour) (D * msPerDay) in
      let hi := Z.min (D * msPerDay + endHour shift * msPerHour)
                      ((D + 1) * msPerDay) in
      Z.max 0 (Z.min b hi - Z.max a lo)
  end.

Fixpoint sumDays (f : Z -> Z) (D : Z) (n : nat) : Z :=
  match n with
  | O => 0
  | S n' => f D + sumDays f (D + 1) n'
  end.

(** The working milliseconds in [a, b). *)
Definition workingMs (shifts : list Shift) (a b : Z) : Z :=
  sumDays (fun D => workInDay shifts D a b) (dayIndex a)
          (Z.to_nat (dayIndex b - dayIndex a + 1)).

(** No shift starts or ends after the midnight that closes its day. *)
Definition shiftsWithinDay (shifts : list Shift) : bool :=
  forallb (fun s => (startHour s <=? 24) && (endHour s <=? 24)) shifts.

(** The cursor is not in front of the shift of its day. *)
Definition settled (shifts : list Shift) (cur : Z) : Prop :=
  match shiftOn shifts cur with
  | None => True
  | Some shift => plusHours (startOfDay cur) (startHour shift) <= cur
  end.

(** The working milliseconds of the week that starts on 1970-01-01; every
    seven days in a row have as many ([workingMs_week]). *)
Definition weeklyWorkMs (shifts : list Shift) : Z :=
  workingMs shifts 0 (7 * msPerDay).

(** ** The walk over the shifts in whole milliseconds *)

(** [exactStep] and [exactWalk] are [walkStep] and [walkShifts] with the
    remaining time counted in whole milliseconds and no rounding: the
    walk that the arithmetic of the code stands for.  The lemma
    [walkShifts_exact] shows that the code takes this very walk from a
    start on a whole minute. *)
Definition exactStep (shifts : list Shift) (currentDate remaining : Z) : Z * Z :=
  match shiftOn shifts currentDate with
  | None => (nextDay currentDate, remaining)
  | Some shift =>
      let shiftStart := plusHours (startOfDay currentDate) (startHour shift) in
      let shiftEnd := plusHours (startOfDay currentDate) (endHour shift) in
      if currentDate <? shiftStart then (shiftStart, remaining)
      else if shiftEnd <=? currentDate then (nextDay currentDate, remaining)
      else
        let available := shiftEnd - currentDate in
        if remaining <=? available then (currentDate + remaining, 0)
        else (nextDay currentDate, remaining - available)
  end.

Fixpoint exactWalk (fuel : nat) (shifts : list Shift)
    (currentDate remaining : Z) : result Z :=
  match fuel with
  | O => Throw ShiftIterationsExceeded
  | S fuel' =>
      if remaining <=? 0 then Ok currentDate
      else
        let '(currentDate', remaining') := exactStep shifts currentDate remaining in
        exactWalk fuel' shifts currentDate' remaining'
  end.

(** A start on a whole minute, and a duration that is an integer which a
    double holds exactly. *)
Definition onWholeMinute (t : Z) : Prop := t mod msPerMinute = 0.

Definition isSafeDuration (d : Z) : Prop := 0 <= d <= Double.maxExactInteger.

(** ** Checking a property on a range of integers *)

(** [f] holds on the [p] integers from [z] on. *)
Fixpoint allFrom (p : positive) (z : Z) (f : Z -> bool) : bool :=
  match p with
  | xH => f z
  | xO p' => allFrom p' z f && allFrom p' (z + Z.pos p') f
  | xI p' =>
      allFrom p' z f && allFrom p' (z + Z.pos p') f && f (z + Z.pos p' + Z.pos p')
  end.

(** The calendar inside one era of 400 years (146097 days, counted from
    a 1st of March): the day [doe] of the era gives a year of the era, a
    month and a day that are a date of the calendar and that count back to
    [doe]. *)
Definition eraDayOk (doe : Z) : bool :=
  let yoe := (doe - doe / 1460 + doe / 36524 - doe / 146096) / 365 in
  let doy := doe - (365 * yoe + yoe / 4 - yoe / 100) in
  let mp := (5 * doy + 2) / 153 in
  let d := doy - (153 * mp + 2) / 5 + 1 in
  let m := if mp <? 10 then mp + 3 else mp - 9 in
  let y := if m <=? 2 then yoe + 1 else yoe in
  (0 <=? yoe) && (yoe <=? 399) && (1 <=? m) && (m <=? 12)
  && (1 <=? d) && (d <=? daysInMonth y m)
  && (yoe * 365 + yoe / 4 - yoe / 100
      + ((153 * (if 2 <? m then m - 3 else m + 9) + 2) / 5 + d - 1) =? doe).

(** The instants of the years 0000 to 9999, those that [toISO] writes
    with a four-digit year. *)
Definition inFourDigitYears (t : Z) : Prop :=
  -62167219200000 <= t < 253402300800000.


(** ** Vocabulary for the shift calendar *)

(** Every shift starts at an hour of its own day. *)
Definition startsInDay (shifts : list Shift) : bool :=
  forallb (fun s => (0 <=? startHour s) && (startHour s <=? 23)) shifts.

(** Every shift starts at an hour of its day and ends later, at midnight
    at the latest. *)
Definition properShifts (shifts : list Shift) : bool :=
  forallb (fun s => (0 <=? startHour s) && (startHour s <? endHour s)
                    && (endHour s <=? 24)) shifts.

(** Some shift is on a day of the week ([dayOfWeek] from 0 to 6). *)
Definition someShiftInWeek (shifts : list Shift) : bool :=
  existsb (fun s => (0 <=? dayOfWeek s) && (dayOfWeek s <=? 6)) shifts.

(** [t] is the instant at which the shift of its day starts. *)
Definition isShiftStart (shifts : list Shift) (t : Z) : Prop :=
  exists shift, shiftOn shifts t = Some shift
                /\ t = plusHours (startOfDay t) (startHour shift).


(** ** Vocabulary for the change log *)

(** The change [c] records a move of the work order [wo], which is not a
    maintenance order: it carries the id, the number and the dates of
    [wo], a start other than the start of [wo], and the delay between the
    end of [wo] and the new end. *)
Definition recordsMoveOf (c : WorkOrderChange) (wo : WorkOrder) : Prop :=
  isMaintenance (data wo) = false
  /\ workOrderId c = docId wo
  /\ changeWorkOrderNumber c = workOrderNumber (data wo)
  /\ originalStartDate c = startDate (data wo)
  /\ originalEndDate c = endDate (data wo)
  /\ newStartDate c <> startDate (data wo)
  /\ delayMinutes c = calculateDelayMinutes (endDate (data wo)) (newEndDate c).


(** ** The other queries of the validator and of the resolver *)

(** [ConstraintValidator.canScheduleAt]: the work center is looked up with
    [workCenters.find], and each of the two [for] loops returns false at
    its first hit. *)
Definition canScheduleAt (workOrder : WorkOrder) (slotStart slotEnd : string)
    (allWorkOrders : list WorkOrder) (workCenters : list WorkCenter) : bool :=
  match find (fun wc => String.eqb (docId wc) (workCenterId (data workOrder)))
             workCenters with
  | None => false
  | Some workCenter =>
      let otherOrders := filter (sameWorkCenterOther workOrder) allWorkOrders in
      if existsb (fun other =>
           timeRangesOverlap slotStart slotEnd
             (startDate (data other)) (endDate (data other))) otherOrders
      then false
      else if overlapsWithMaintenance slotStart slotEnd
                (maintenanceWindows (data workCenter))
      then false
      else
        negb (existsb (fun parent => str_gt (endDate (data parent)) slotStart)
                      (parentsOf workOrder allWorkOrders))
  end.

(** [DependencyResolver.getParents] *)
Definition getParents (workOrderId : string) (workOrders : list WorkOrder)
  : list WorkOrder :=
  match find (fun wo => String.eqb (docId wo) workOrderId) workOrders with
  | None => []
  | Some workOrder => parentsOf workOrder workOrders
  end.

(** [DependencyResolver.getChildren] *)
Definition getChildren (workOrderId : string) (workOrders : list WorkOrder)
  : list WorkOrder :=
  filter (fun wo =>
    existsb (fun id => String.eqb id workOrderId) (dependsOnWorkOrderIds (data wo)))
    workOrders.

(** The [children.forEach] of [getAllDescendants]: a child not yet among
    the descendants is added to them and to the queue. *)
Fixpoint enqueueChildren (children : list WorkOrder) (descendants queue : list string)
  : list string * list string :=
  match children with
  | [] => (descendants, queue)
  | child :: rest =>
      if existsb (String.eqb (docId child)) descendants
      then enqueueChildren rest descendants queue
      else enqueueChildren rest (descendants ++ [docId child])
                           (queue ++ [docId child])
  end.

(** The loop [while (queue.length > 0)] of [getAllDescendants], bounded by
    [fuel]. *)
Fixpoint collectDescendants (fuel : nat) (workOrders : list WorkOrder)
    (queue descendants : list string) : result (list string) :=
  match queue with
  | [] => Ok descendants
  | currentId :: queue' =>
      match fuel with
      | O => Throw OutOfFuel
      | S fuel' =>
          let '(descendants', queue'') :=
            enqueueChildren (getChildren currentId workOrders) descendants queue' in
          collectDescendants fuel' workOrders queue'' descendants'
      end
  end.

(** The work orders at the places [indices] of a list. *)
Definition workOrdersAt (workOrders : list WorkOrder) (indices : list nat)
  : list WorkOrder :=
  flat_map (fun i => match nth_error workOrders i with
                     | Some wo => [wo]
                     | None => []
                     end) indices.

(** [DependencyResolver.getAllDescendants]: the descendants are collected
    breadth first, and the work orders among them are handed to
    [topologicalSort] on their own. *)
Definition getAllDescendants (workOrderId : string) (workOrders : list WorkOrder)
  : result (list WorkOrder) :=
  do descendants <- collectDescendants (S (List.length workOrders)) workOrders
                      [workOrderId] [];
  let descendantOrders :=
    filter (fun wo => existsb (String.eqb (docId wo)) descendants) workOrders in
  do sorted <- topologicalSort descendantOrders;
  Ok (workOrdersAt descendantOrders sorted).


(** ** Vocabulary for the order of the topological sort *)

(** The children recorded for [k] in a graph; none when [k] is no node. *)
Definition childrenOf (graph : Graph) (k : string) : list string :=
  match map_get graph k with
  | Some node => children node
  | None => []
  end.

(** How often the work orders with docId [x] list [k] as a dependency. *)
Definition childCount (workOrders : list WorkOrder) (k x : string) : nat :=
  list_sum (map (fun w =>
    if String.eqb (docId w) x
    then count_occ string_dec (dependsOnWorkOrderIds (data w)) k
    else O) workOrders).

(** The parents of a node that are not sorted yet, counted with
    repetitions: what [inDegree] holds for the node during Kahn's loop. *)
Definition pendingParents (sorted : list string) (node : DependencyNode) : nat :=
  List.length (filter (fun p => negb (existsb (String.eqb p) sorted)) (parents node)).

(** In [l], read after [before], every node comes after all its parents. *)
Fixpoint parentsFirst (graph : Graph) (before l : list string) : Prop :=
  match l with
  | [] => True
  | x :: rest =>
      (forall node, map_get graph x = Some node ->
         forall p, In p (parents node) -> In p before)
      /\ parentsFirst graph (before ++ [x]) rest
  end.

(** The children lists of a graph mirror its parent lists. *)
Definition mirrored (graph : Graph) : Prop :=
  forall n x node, map_get graph x = Some node ->
    count_occ string_dec (childrenOf graph n) x
    = count_occ string_dec (parents node) n.

(** What holds at the head of Kahn's loop, besides [kahnInv]. *)
Definition orderInv (graph : Graph) (inDegree : JsMap number)
    (queue sorted : list string) : Prop :=
  (forall x node, map_get graph x = Some node ->
     map_get inDegree x = Some (Some (Z.of_nat (pendingParents sorted node))))
  /\ (forall x node, In x queue -> map_get graph x = Some node ->
        forall p, In p (parents node) -> In p sorted)
  /\ parentsFirst graph [] sorted.


(** ** Vocabulary for what the cycle search reports *)

(** Each node of the list has the next one among its parents. *)
Fixpoint chained (graph : Graph) (l : list string) : Prop :=
  match l with
  | a :: (b :: _) as rest => edge graph a b /\ chained graph rest
  | _ => True
  end.

(** The gray nodes are the nodes of the path. *)
Definition grayIsPath (colors : JsMap color) (path : list string) : Prop :=
  forall k, map_get colors k = Some GRAY <-> In k path.

(** The reported nodes hold a node that lies on a cycle, and every other
    one of them leads to it. *)
Definition leadsToCycle (graph : Graph) (cycleNodes : list string) : Prop :=
  exists x, In x cycleNodes /\ reach graph x x
            /\ forall y, In y cycleNodes -> y = x \/ reach graph y x.

(** What a call [dfs(v, path)] comes to: a report that leads to a cycle,
    or colours with the gray nodes it was called with. *)
Definition dfsHonest (graph : Graph) (colors : JsMap color) (out : dfsOutcome)
  : Prop :=
  match out with
  | CycleFound cycleNodes => leadsToCycle graph cycleNodes
  | NoCycle colors' =>
      forall k, map_get colors' k = Some GRAY <-> map_get colors k = Some GRAY
  | DfsStuck _ => True
  end.

(** The same for the loop over the parents of the gray node [v]. *)
Definition visitHonest (graph : Graph) (colors : JsMap color) (v : string)
    (out : dfsOutcome) : Prop :=
  match out with
  | CycleFound cycleNodes => leadsToCycle graph cycleNodes
  | NoCycle colors' =>
      forall k, map_get colors' k = Some GRAY
                <-> map_get colors k = Some GRAY /\ k <> v
  | DfsStuck _ => True
  end.


(** Every node all of whose parents are sorted is sorted or in the queue. *)
Definition readyInv (graph : Graph) (queue sorted : list string) : Prop :=
  forall x node, map_get graph x = Some node ->
    pendingParents sorted node = O -> In x (sorted ++ queue).


(** Two work orders that carry the same docId. *)
Definition twinInput : ReflowInput :=
  {| workOrders :=
       [mkWorkOrder "wo-1" "wc-1" "2026-02-10T08:00:00.000Z"
                    "2026-02-10T12:00:00.000Z" 240 false [];
        mkWorkOrder "wo-1" "wc-2" "2026-02-10T10:00:00.000Z"
                    "2026-02-10T12:00:00.000Z" 120 false []];
     workCenters := twoCenters;
     manufacturingOrders := [] |}.


(** ** [DependencyResolver.calculateDepths] *)

(** [node.depth = d] on the node that [graph.get(nodeId)] yields. *)
Definition setDepth (graph : Graph) (nodeId : string) (d : Z) : Graph :=
  match map_get graph nodeId with
  | Some node =>
      map_set graph nodeId
        {| nodeWorkOrderId := nodeWorkOrderId node;
           parents := parents node;
           children := children node;
           depth := d |}
  | None => graph
  end.

(** [Math.max(d, ...ds)] *)
Definition maxOf (d : Z) (ds : list Z) : Z := fold_left Z.max ds d.

(** [parentIds.map(parentId => calculateDepth(parentId))], with the set
    [visited] and the graph threaded through the calls; [recur] is
    [calculateDepth]. *)
Fixpoint mapDepths
    (recur : string -> list string -> Graph -> result (Z * (list string * Graph)))
    (parentIds : list string) (visited : list string) (graph : Graph)
  : result (list Z * (list string * Graph)) :=
  match parentIds with
  | [] => Ok ([], (visited, graph))
  | parentId :: rest =>
      do r1 <- recur parentId visited graph;
      let '(d, (visited1, graph1)) := r1 in
      do r2 <- mapDepths recur rest visited1 graph1;
      let '(ds, (visited2, graph2)) := r2 in
      Ok (d :: ds, (visited2, graph2))
  end.

(** The closure [calculateDepth(nodeId)]: it returns the depth and leaves
    behind the set [visited] and the graph with the depths it has
    written.  The recursion is bounded by [fuel]. *)
Fixpoint calculateDepth (fuel : nat) (nodeId : string) (visited : list string)
    (graph : Graph) : result (Z * (list string * Graph)) :=
  if existsb (String.eqb nodeId) visited
  then
    match map_get graph nodeId with
    | None => Throw TypeError
    | Some node => Ok (depth node, (visited, graph))
    end
  else
    match fuel with
    | O => Throw OutOfFuel
    | S fuel' =>
        let visited1 := visited ++ [nodeId] in
        match map_get graph nodeId with
        | None => Throw TypeError
        | Some node =>
            match parents node with
            | [] => Ok (0, (visited1, setDepth graph nodeId 0))
            | parentId :: rest =>
                do r1 <- calculateDepth fuel' parentId visited1 graph;
                let '(d, (visited2, graph2)) := r1 in
                do r2 <- mapDepths (calculateDepth fuel') rest visited2 graph2;
                let '(ds, (visited3, graph3)) := r2 in
                let depth := maxOf d ds + 1 in
                Ok (depth, (visited3, setDepth graph3 nodeId depth))
            end
        end
    end.

(** The loop [graph.forEach((_, nodeId) => ...)]. *)
Fixpoint depthsFrom (fuel : nat) (nodeIds : list string) (visited : list string)
    (graph : Graph) : result (list string * Graph) :=
  match nodeIds with
  | [] => Ok (visited, graph)
  | nodeId :: rest =>
      if existsb (String.eqb nodeId) visited
      then depthsFrom fuel rest visited graph
      else
        do r <- calculateDepth fuel nodeId visited graph;
        depthsFrom fuel rest (fst (snd r)) (snd (snd r))
  end.

(** [calculateDepths(graph)]; it returns nothing, and what it leaves
    behind is the graph with the depths written. *)
Definition calculateDepths (graph : Graph) : result Graph :=
  do r <- depthsFrom (List.length graph) (map_keys graph) [] graph;
  Ok (snd r).

(** ** Vocabulary for the depths *)

(** The depth recorded for [k]. *)
Definition depthOf (graph : Graph) (k : string) : Z :=
  match map_get graph k with
  | Some node => depth node
  | None => 0
  end.

(** The depth of [node] is 0 without parents, and otherwise one more than
    the largest depth recorded for a parent. *)
Definition depthRule (graph : Graph) (node : DependencyNode) : Prop :=
  depth node
  = match parents node with
    | [] => 0
    | p :: ps => maxOf (depthOf graph p) (map (depthOf graph) ps) + 1
    end.

(** [g'] has the nodes of [g], in the same order, each with the same
    id, parents and children. *)
Definition sameShape (g g' : Graph) : Prop :=
  map_keys g' = map_keys g
  /\ forall k node, map_get g k = Some node ->
       exists node', map_get g' k = Some node'
         /\ nodeWorkOrderId node' = nodeWorkOrderId node
         /\ parents node' = parents node
         /\ children node' = children node.

(** Every visited node that is not in progress (in [P]) has its depth
    by the rule, and its parents are visited and not in progress. *)
Definition depthsDone (P visited : list string) (graph : Graph) : Prop :=
  forall v, In v visited ->
    In v P
    \/ exists node, map_get graph v = Some node
         /\ depthRule graph node
         /\ forall p, In p (parents node) -> In p visited /\ ~ In p P.

(** What a call [calculateDepth(x)] comes to on a graph [g] with the
    shape of [g0]: it returns the depth it leaves for [x], visits [x] and
    more nodes of [g0], writes to the nodes it visits only, keeps the
    shape, and, when [g0] has no cycle and the nodes in progress all lead
    to [x], leaves the depths of what it visits done. *)
Definition depthSpec (g0 : Graph) (x : string) (visited : list string)
    (g : Graph) (out : result (Z * (list string * Graph))) : Prop :=
  exists d extra g',
    out = Ok (d, (visited ++ extra, g'))
    /\ NoDup (visited ++ extra)
    /\ incl (visited ++ extra) (map_keys g0)
    /\ In x (visited ++ extra)
    /\ sameShape g0 g'
    /\ (forall k, ~ In k extra -> map_get g' k = map_get g k)
    /\ d = depthOf g' x
    /\ (forall P, (forall y, ~ reach g0 y y) ->
          (forall y, In y P -> reach g0 y x) ->
          depthsDone P visited g -> depthsDone P (visited ++ extra) g').

(** The same for the calls on a list of parents. *)
Definition mapDepthsSpec (g0 : Graph) (ps : list string) (visited : list string)
    (g : Graph) (out : result (list Z * (list string * Graph))) : Prop :=
  exists ds extra g',
    out = Ok (ds, (visited ++ extra, g'))
    /\ NoDup (visited ++ extra)
    /\ incl (visited ++ extra) (map_keys g0)
    /\ (forall p, In p ps -> In p (visited ++ extra))
    /\ sameShape g0 g'
    /\ (forall k, ~ In k extra -> map_get g' k = map_get g k)
    /\ ds = map (depthOf g') ps
    /\ (forall P, (forall y, ~ reach g0 y y) ->
          (forall y p, In y P -> In p ps -> reach g0 y p) ->
          depthsDone P visited g -> depthsDone P (visited ++ extra) g').


(** ** Vocabulary for the errors of reflow *)

(** The errors of the search for a slot. *)
Definition schedulingError (e : error) : Prop :=
  e = NoNextShiftStart \/ e = NullDate \/ e = ShiftIterationsExceeded
  \/ exists n, e = NoAvailableSlot n.

(** A work order on a work center that is not in the input. *)
Definition strayInput : ReflowInput :=
  {| workOrders :=
       [mkWorkOrder "wo-1" "wc-9" "2026-02-10T08:00:00.000Z"
                    "2026-02-10T12:00:00.000Z" 240 false []];
     workCenters := twoCenters;
     manufacturingOrders := [] |}.


(** Two work orders of one work center that follow each other, the
    second one waiting for the first. *)
Definition settledInput : ReflowInput :=
  {| workOrders :=
       [mkWorkOrder "wo-1" "wc-1" "2026-02-10T08:00:00.000Z"
                    "2026-02-10T12:00:00.000Z" 240 false [];
        mkWorkOrder "wo-2" "wc-1" "2026-02-10T12:00:00.000Z"
                    "2026-02-10T14:00:00.000Z" 120 false ["wo-1"]];
     workCenters := twoCenters;
     manufacturingOrders := [] |}.

(** * Properties *)

Unset Implicit Arguments.

Lemma bind_Ok_inv {A B : Type} (r : result A) (k : A -> result B) (b : B) :
  bind r k = Ok b -> exists a, r = Ok a /\ k a = Ok b.
Proof.
  destruct r as [a|e]; simpl; intros H; [exists a; auto | discriminate].
Qed.

(** ** The model on the dates of the test suite *)

Example toISO_epoch : toISO 0 = "1970-01-01T00:00:00.000Z".
Proof. reflexivity. Qed.

Example fromISO_sample :
  fromISO "2026-02-10T08:00:00.000Z" = Some 1770710400000.
Proof. reflexivity. Qed.

Example fromISO_no_millis :
  fromISO "2026-02-10T08:00:00Z" = Some 1770710400000.
Proof. reflexivity. Qed.

Example toISO_sample :
  toISO 1770710400000 = "2026-02-10T08:00:00.000Z".
Proof. reflexivity. Qed.

Example weekday_sample : weekday 1770710400000 = 2.
Proof. reflexivity. Qed.

Example end_within_shift :
  calculateEndDateWithShifts "2026-02-10T08:00:00.000Z" 120 weekShifts
  = Ok "2026-02-10T10:00:00.000Z".
Proof. reflexivity. Qed.

Example end_spans_shift_boundary :
  calculateEndDateWithShifts "2026-02-09T16:00:00.000Z" 120 weekShifts
  = Ok "2026-02-10T09:00:00.000Z".
Proof. reflexivity. Qed.

Example end_skips_weekend :
  calculateEndDateWithShifts "2026-02-13T16:00:00.000Z" 120 weekShifts
  = Ok "2026-02-16T09:00:00.000Z".
Proof. reflexivity. Qed.

(** ** Overlap predicates *)

Lemma dt_lt_Some (x y : Z) : dt_lt (Some x) (Some y) = true <-> x < y.
Proof. simpl. apply Z.ltb_lt. Qed.

Lemma dt_lt_valid (a b : DateTime) :
  dt_lt a b = true -> exists x y, a = Some x /\ b = Some y /\ x < y.
Proof.
  destruct a as [x|], b as [y|]; simpl; try discriminate.
  intros H. exists x, y. repeat split. now apply Z.ltb_lt.
Qed.

Lemma timeRangesOverlap_instants (s1 e1 s2 e2 : string) (a0 a1 b0 b1 : Z) :
  fromISO s1 = Some a0 -> fromISO e1 = Some a1 ->
  fromISO s2 = Some b0 -> fromISO e2 = Some b1 ->
  timeRangesOverlap s1 e1 s2 e2 = true <-> a0 < b1 /\ b0 < a1.
Proof.
  intros H1 H2 H3 H4. unfold timeRangesOverlap.
  rewrite H1, H2, H3, H4, andb_true_iff, !dt_lt_Some. tauto.
Qed.

Lemma timeRangesOverlap_sym (s1 e1 s2 e2 : string) :
  timeRangesOverlap s1 e1 s2 e2 = timeRangesOverlap s2 e2 s1 e1.
Proof. unfold timeRangesOverlap. apply andb_comm. Qed.

Lemma overlapsWithMaintenance_exists (start end_ : string)
    (windows : list MaintenanceWindow) :
  overlapsWithMaintenance start end_ windows = true <->
  exists w, In w windows /\
    timeRangesOverlap start end_ (windowStartDate w) (windowEndDate w) = true.
Proof.
  unfold overlapsWithMaintenance. rewrite existsb_exists.
  split; intros [w [Hin Hw]]; exists w; (split; [exact Hin | exact Hw]).
Qed.

(** C7. On valid dates [timeRangesOverlap a0 a1 b0 b1] holds exactly when
    [a0 < b1] and [a1 > b0], so touching intervals ([a1 = b0]) do not
    overlap; and [overlapsWithMaintenance start end windows] holds exactly
    when some window overlaps [start, end) under that same predicate. *)
Theorem overlap_half_open :
  (forall (s1 e1 s2 e2 : string) (a0 a1 b0 b1 : Z),
      fromISO s1 = Some a0 -> fromISO e1 = Some a1 ->
      fromISO s2 = Some b0 -> fromISO e2 = Some b1 ->
      (timeRangesOverlap s1 e1 s2 e2 = true <-> a0 < b1 /\ a1 > b0)
      /\ (a1 = b0 -> timeRangesOverlap s1 e1 s2 e2 = false))
  /\
  (forall (start end_ : string) (windows : list MaintenanceWindow),
      overlapsWithMaintenance start end_ windows = true <->
      exists w, In w windows /\
        timeRangesOverlap start end_ (windowStartDate w) (windowEndDate w) = true).
Proof.
  split.
  - intros s1 e1 s2 e2 a0 a1 b0 b1 H1 H2 H3 H4.
    pose proof (timeRangesOverlap_instants s1 e1 s2 e2 a0 a1 b0 b1 H1 H2 H3 H4) as Hiff.
    split.
    + rewrite Hiff. lia.
    + intros Heq. apply not_true_is_false. rewrite Hiff. lia.
  - apply overlapsWithMaintenance_exists.
Qed.

Lemma overlap_half_open_witness :
  (timeRangesOverlap "2026-02-10T08:00:00.000Z" "2026-02-10T10:00:00.000Z"
                     "2026-02-10T10:00:00.000Z" "2026-02-10T12:00:00.000Z" = true
   <-> 1770710400000 < 1770724800000 /\ 1770717600000 > 1770717600000)
  /\ timeRangesOverlap "2026-02-10T08:00:00.000Z" "2026-02-10T10:00:00.000Z"
                       "2026-02-10T10:00:00.000Z" "2026-02-10T12:00:00.000Z" = false.
Proof.
  destruct (proj1 overlap_half_open
              "2026-02-10T08:00:00.000Z" "2026-02-10T10:00:00.000Z"
              "2026-02-10T10:00:00.000Z" "2026-02-10T12:00:00.000Z"
              1770710400000 1770717600000 1770717600000 1770724800000
              eq_refl eq_refl eq_refl eq_refl) as [Hiff Hadj].
  split; [exact Hiff | apply Hadj; reflexivity].
Defined.

(** ** The validator's dependency check *)

Lemma In_definedOnly {A B : Type} (f : A -> option B) (xs : list A) (y : B) :
  In y (definedOnly (map f xs)) <-> exists x, In x xs /\ f x = Some y.
Proof.
  induction xs as [|x xs IH]; simpl.
  - split; [tauto | intros [x [[] _]]].
  - destruct (f x) as [b|] eqn:Hfx; simpl; rewrite IH; split.
    + intros [Hy | [x' [Hin Hx']]].
      * exists x. split; [now left | congruence].
      * exists x'. split; [now right | exact Hx'].
    + intros [x' [[Hx | Hin] Hx']].
      * subst x'. left. congruence.
      * right. exists x'. tauto.
    + intros [x' [Hin Hx']]. exists x'. split; [now right | exact Hx'].
    + intros [x' [[Hx | Hin] Hx']].
      * subst x'. congruence.
      * exists x'. tauto.
Qed.

Lemma compare_refl (s : string) : String.compare s s = Eq.
Proof.
  induction s as [|c s IH]; simpl; [reflexivity |].
  unfold Ascii.compare. now rewrite N.compare_refl.
Qed.

Lemma ltb_irrefl (s : string) : String.ltb s s = false.
Proof. unfold String.ltb. now rewrite compare_refl. Qed.

Lemma compare_Lt_trans (a b c : string) :
  String.compare a b = Lt -> String.compare b c = Lt -> String.compare a c = Lt.
Proof.
  revert b c. induction a as [|x a IH]; intros [|y b] [|z c]; simpl;
    try discriminate; try reflexivity.
  unfold Ascii.compare.
  destruct (N.compare_spec (N_of_ascii x) (N_of_ascii y)) as [Hxy|Hxy|Hxy];
    destruct (N.compare_spec (N_of_ascii y) (N_of_ascii z)) as [Hyz|Hyz|Hyz];
    try discriminate; intros H1 H2.
  - rewrite Hxy, Hyz, N.compare_refl. eauto.
  - rewrite Hxy. now rewrite (proj2 (N.compare_lt_iff _ _) Hyz).
  - rewrite <- Hyz. now rewrite (proj2 (N.compare_lt_iff _ _) Hxy).
  - now rewrite (proj2 (N.compare_lt_iff _ _) (N.lt_trans _ _ _ Hxy Hyz)).
Qed.

Lemma ltb_trans (a b c : string) :
  String.ltb a b = true -> String.ltb b c = true -> String.ltb a c = true.
Proof.
  unfold String.ltb.
  destruct (String.compare a b) eqn:Hab; try discriminate.
  destruct (String.compare b c) eqn:Hbc; try discriminate.
  now rewrite (compare_Lt_trans _ _ _ Hab Hbc).
Qed.

Lemma ltb_asym (a b : string) : String.ltb a b = true -> String.ltb b a = false.
Proof.
  intros H. destruct (String.ltb b a) eqn:Hba; [| reflexivity].
  pose proof (ltb_trans _ _ _ H Hba) as Haa. now rewrite ltb_irrefl in Haa.
Qed.

Lemma ltb_empty (s : string) : String.ltb s "" = false.
Proof. destruct s; reflexivity. Qed.

(** Two strings are equal or one is below the other. *)
Lemma ltb_total (a b : string) :
  String.ltb a b = true \/ a = b \/ String.ltb b a = true.
Proof.
  unfold String.ltb. rewrite (String.compare_antisym b a).
  destruct (String.compare a b) eqn:Hab; simpl; auto.
  right. left. now apply String.compare_eq_iff.
Qed.

Lemma str_gt_irrefl (s : string) : str_gt s s = false.
Proof. apply ltb_irrefl. Qed.

Lemma validateDependencies_spec (workOrders : list WorkOrder) (err : ValidationError) :
  In err (validateDependencies workOrders) <->
  exists wo id parent,
    In wo workOrders /\ In id (dependsOnWorkOrderIds (data wo)) /\
    map_get (workOrderMapOf workOrders) id = Some parent /\
    str_gt (endDate (data parent)) (startDate (data wo)) = true /\
    err = dependencyViolation wo parent.
Proof.
  unfold validateDependencies. rewrite in_flat_map. split.
  - intros [wo [Hwo Herr]]. rewrite in_flat_map in Herr.
    destruct Herr as [parent [Hp Herr]].
    apply In_definedOnly in Hp. destruct Hp as [id [Hid Hget]].
    destruct (str_gt (endDate (data parent)) (startDate (data wo))) eqn:Hgt.
    + destruct Herr as [Herr | []]. exists wo, id, parent. auto.
    + destruct Herr.
  - intros [wo [id [parent [Hwo [Hid [Hget [Hgt Herr]]]]]]].
    exists wo. split; [exact Hwo |]. rewrite in_flat_map.
    exists parent. split.
    + apply In_definedOnly. exists id. auto.
    + rewrite Hgt. left. auto.
Qed.

(** C4. At the failing input the dependency check departs from the
    claim in both directions, on dates written in two ISO forms: it emits
    an error for a parent that ends at the very instant its child starts
    (12:00:00Z against 12:00:00.000Z), and none for a parent that ends
    half a second after its child starts (12:00:00.500Z against
    12:00:00Z).  The check compares the two strings, where its comment
    asks that the parent complete before the child starts. *)
Lemma validateDependencies_not_instant_order :
  (fromISO (endDate (data noonParent)) = Some 1770724800000
   /\ fromISO (startDate (data noonChild)) = Some 1770724800000
   /\ validateDependencies [noonParent; noonChild]
      = [dependencyViolation noonChild noonParent])
  /\
  (fromISO (endDate (data lateParent)) = Some 1770724800500
   /\ fromISO (startDate (data earlyChild)) = Some 1770724800000
   /\ validateDependencies [lateParent; earlyChild] = []).
Proof. repeat split; reflexivity. Qed.

(** ** JavaScript maps *)

Section JsMapFacts.

Variable V : Type.
Implicit Types (m : JsMap V) (k : string) (v : V).

Lemma map_get_set_eq m k v : map_get (map_set m k v) k = Some v.
Proof.
  induction m as [|[k' v'] m IH]; simpl.
  - now rewrite String.eqb_refl.
  - destruct (String.eqb k' k) eqn:E; simpl; rewrite E; auto.
Qed.

Lemma map_get_set_ne m k k' v :
  k <> k' -> map_get (map_set m k v) k' = map_get m k'.
Proof.
  intros Hne. induction m as [|[k0 v0] m IH]; simpl.
  - apply String.eqb_neq in Hne. now rewrite Hne.
  - destruct (String.eqb k0 k) eqn:E; simpl.
    + apply String.eqb_eq in E. subst k0.
      apply String.eqb_neq in Hne. now rewrite Hne.
    + destruct (String.eqb k0 k'); auto.
Qed.

Lemma map_get_Some_In m k v : map_get m k = Some v -> In (k, v) m.
Proof.
  induction m as [|[k' v'] m IH]; simpl; [discriminate |].
  destruct (String.eqb k' k) eqn:E.
  - apply String.eqb_eq in E. intros H. left. congruence.
  - intros H. right. auto.
Qed.

Lemma map_get_None_keys m k : map_get m k = None <-> ~ In k (map_keys m).
Proof.
  induction m as [|[k' v'] m IH]; simpl; [tauto |].
  destruct (String.eqb k' k) eqn:E.
  - apply String.eqb_eq in E. split; [discriminate | intros H; exfalso; auto].
  - apply String.eqb_neq in E. rewrite IH. tauto.
Qed.

Lemma map_get_Some_keys m k v : map_get m k = Some v -> In k (map_keys m).
Proof.
  intros H. apply map_get_Some_In in H.
  unfold map_keys. apply in_map_iff. now exists (k, v).
Qed.

Lemma map_keys_In_get m k : In k (map_keys m) -> exists v, map_get m k = Some v.
Proof.
  intros H. destruct (map_get m k) as [v|] eqn:E; [now exists v |].
  apply map_get_None_keys in E. contradiction.
Qed.

Lemma map_keys_set m k v :
  map_keys (map_set m k v)
  = if existsb (String.eqb k) (map_keys m) then map_keys m else map_keys m ++ [k].
Proof.
  induction m as [|[k' v'] m IH]; simpl; [reflexivity |].
  rewrite (String.eqb_sym k k').
  destruct (String.eqb k' k) eqn:E; simpl.
  - apply String.eqb_eq in E. now subst.
  - rewrite IH. now destruct (existsb (String.eqb k) (map_keys m)).
Qed.

Lemma existsb_eqb_In k (l : list string) :
  existsb (String.eqb k) l = true <-> In k l.
Proof.
  rewrite existsb_exists. split.
  - intros [x [Hin Hx]]. apply String.eqb_eq in Hx. now subst.
  - intros H. exists k. split; [exact H | apply String.eqb_refl].
Qed.

Lemma map_keys_set_present m k v :
  In k (map_keys m) -> map_keys (map_set m k v) = map_keys m.
Proof.
  intros H. rewrite map_keys_set.
  now rewrite (proj2 (existsb_eqb_In k (map_keys m)) H).
Qed.

Lemma map_keys_set_In m k k' v :
  In k' (map_keys (map_set m k v)) <-> k' = k \/ In k' (map_keys m).
Proof.
  rewrite map_keys_set.
  destruct (existsb (String.eqb k) (map_keys m)) eqn:E.
  - apply existsb_eqb_In in E. split; [tauto | intros [->|H]; auto].
  - rewrite in_app_iff. simpl. split; [intros [H|[H|[]]]; auto | intros [->|H]; auto].
Qed.

Lemma map_keys_set_NoDup m k v :
  NoDup (map_keys m) -> NoDup (map_keys (map_set m k v)).
Proof.
  intros H. rewrite map_keys_set.
  destruct (existsb (String.eqb k) (map_keys m)) eqn:E; [exact H |].
  assert (Hk : ~ In k (map_keys m)).
  { intros Hin. apply existsb_eqb_In in Hin. congruence. }
  clear E. induction (map_keys m) as [|x l IH]; simpl.
  - constructor; [intros [] | constructor].
  - inversion H; subst. constructor.
    + rewrite in_app_iff. simpl. intros [Hx | [Hx | []]]; [contradiction |].
      subst. apply Hk. now left.
    + apply IH; [assumption | intros Hin; apply Hk; now right].
Qed.

End JsMapFacts.

(** ** Metrics *)

Lemma addNumber_comm (a b : number) : addNumber a b = addNumber b a.
Proof. destruct a, b; simpl; try reflexivity. f_equal. lia. Qed.

Lemma addNumber_assoc (a b c : number) :
  addNumber a (addNumber b c) = addNumber (addNumber a b) c.
Proof. destruct a, b, c; simpl; try reflexivity. f_equal. lia. Qed.

Lemma totalDelay_fold (changes : list WorkOrderChange) :
  forall (delays : list Z) (acc : Z),
    map delayMinutes changes = map Some delays ->
    fold_left (fun sum c => addNumber sum (maxZero (delayMinutes c))) changes (Some acc)
    = Some (acc + positiveDelaySum delays).
Proof.
  induction changes as [|c rest IH]; intros delays acc H.
  - destruct delays; [| discriminate]. simpl. f_equal.
    unfold positiveDelaySum. simpl. lia.
  - destruct delays as [|d delays]; [discriminate |].
    simpl in H. inversion H as [[Hd Hrest]].
    simpl. rewrite Hd. simpl. rewrite (IH delays _ Hrest). f_equal.
    unfold positiveDelaySum. simpl. lia.
Qed.

Lemma totalDelay_fold_NaN (changes : list WorkOrderChange) :
  fold_left (fun sum c => addNumber sum (maxZero (delayMinutes c))) changes None
  = None.
Proof.
  induction changes as [|c rest IH]; simpl; [reflexivity | exact IH].
Qed.

Lemma totalDelay_NaN (changes : list WorkOrderChange) :
  forall (acc : number) (c : WorkOrderChange),
    In c changes -> delayMinutes c = None ->
    fold_left (fun sum c => addNumber sum (maxZero (delayMinutes c))) changes acc
    = None.
Proof.
  induction changes as [|c0 rest IH]; intros acc c Hin Hc; [destruct Hin |].
  simpl. destruct Hin as [-> | Hin].
  - rewrite Hc. simpl. destruct acc; simpl; apply totalDelay_fold_NaN.
  - now apply (IH _ c).
Qed.

Lemma positiveDelaySum_delayed (delays : list Z) :
  positiveDelaySum delays = sumOfDelayed delays.
Proof.
  unfold positiveDelaySum, sumOfDelayed.
  induction delays as [|d delays IH]; simpl; [reflexivity |].
  destruct (0 <? d) eqn:E; simpl; rewrite IH.
  - apply Z.ltb_lt in E. lia.
  - apply Z.ltb_ge in E. lia.
Qed.

Lemma utilization_fold_keep (workOrders : list WorkOrder) (post : list WorkCenter)
    (k : string) (x : Q) (util : JsMap Q) :
  (forall wc', In wc' post -> docId wc' <> k) ->
  map_get util k = Some x ->
  map_get (fold_left (fun u w => map_set u (docId w) (utilizationOf w workOrders))
                     post util) k = Some x.
Proof.
  revert util. induction post as [|w post IH]; intros util Hpost H; simpl; [exact H |].
  apply IH.
  - intros wc' Hin. apply Hpost. now right.
  - rewrite map_get_set_ne; [exact H |]. apply Hpost. now left.
Qed.

Lemma utilization_fold_last (workOrders : list WorkOrder)
    (pre post : list WorkCenter) (wc : WorkCenter) (util : JsMap Q) :
  (forall wc', In wc' post -> docId wc' <> docId wc) ->
  map_get (fold_left (fun u w => map_set u (docId w) (utilizationOf w workOrders))
                     (pre ++ wc :: post) util) (docId wc)
  = Some (utilizationOf wc workOrders).
Proof.
  intros Hpost. rewrite fold_left_app. simpl.
  apply utilization_fold_keep; [exact Hpost | apply map_get_set_eq].
Qed.

(** 480 minutes of work on a week of 2700 shift minutes are reported as
    the double 17.78.  69 minutes on a week of 480 are reported as 14.37:
    the quotient is 14.375, but the double product that [Math.round] sees
    lies just below 1437.5. *)
Example utilization_sample :
  utilizationOf (mkWorkCenter "wc-1" weekShifts [])
    [mkWorkOrder "wo-1" "wc-1" "" "" 480 false []] = Double.div 1778 100
  /\ utilizationOf
       (mkWorkCenter "wc-1" [{| dayOfWeek := 1; startHour := 8; endHour := 16 |}] [])
       [mkWorkOrder "wo-1" "wc-1" "" "" 69 false []] = Double.div 1437 100.
Proof. split; vm_compute; reflexivity. Qed.

(** C8. In the metrics, [totalDelayMinutes] is the sum over the change
    records of [max(0, delayMinutes)], which is the sum of the delays that
    are positive: a change with a delay of zero or less adds nothing (the
    delays being numbers; a delay that is NaN makes the total NaN).
    [workOrdersAffected] is the number of change records; and a work
    center whose shifts add up to zero weekly minutes is reported with
    utilisation 0 under its id. *)
Theorem calculateMetrics_spec :
  forall (changes : list WorkOrderChange) (workOrders : list WorkOrder)
         (workCenters : list WorkCenter),
    let m := calculateMetrics changes workOrders workCenters in
    (forall delays : list Z,
        map delayMinutes changes = map Some delays ->
        totalDelayMinutes m = Some (positiveDelaySum delays)
        /\ positiveDelaySum delays = sumOfDelayed delays)
    /\ (forall c, In c changes -> delayMinutes c = None ->
          totalDelayMinutes m = None)
    /\ workOrdersAffected m = Z.of_nat (List.length changes)
    /\ (forall pre wc post,
          workCenters = pre ++ wc :: post ->
          (forall wc', In wc' post -> docId wc' <> docId wc) ->
          weeklyShiftMinutes wc = 0 ->
          map_get (workCenterUtilization m) (docId wc) = Some 0%Q).
Proof.
  intros changes workOrders workCenters m. unfold m, calculateMetrics. simpl.
  split; [| split; [| split]].
  - intros delays H. split; [| apply positiveDelaySum_delayed].
    now rewrite (totalDelay_fold changes delays 0 H).
  - intros c Hin Hc. now apply (totalDelay_NaN changes (Some 0) c).
  - reflexivity.
  - intros pre wc post Hsplit Hpost Hzero. subst workCenters.
    rewrite utilization_fold_last by exact Hpost.
    unfold utilizationOf. rewrite Hzero. reflexivity.
Qed.

Lemma calculateMetrics_spec_witness :
  totalDelayMinutes
    (calculateMetrics [delayedBy "wo-1" 30; delayedBy "wo-2" (-15); delayedBy "wo-3" 45]
       [noonParent] [mkWorkCenter "wc-1" weekShifts []; idleWorkCenter])
  = Some 75
  /\ map_get (workCenterUtilization
                (calculateMetrics
                   [delayedBy "wo-1" 30; delayedBy "wo-2" (-15); delayedBy "wo-3" 45]
                   [noonParent] [mkWorkCenter "wc-1" weekShifts []; idleWorkCenter]))
             (docId idleWorkCenter) = Some 0%Q.
Proof.
  pose proof (calculateMetrics_spec
                [delayedBy "wo-1" 30; delayedBy "wo-2" (-15); delayedBy "wo-3" 45]
                [noonParent] [mkWorkCenter "wc-1" weekShifts []; idleWorkCenter])
    as [Htotal [_ [_ Hidle]]].
  split.
  - exact (proj1 (Htotal [30; -15; 45] eq_refl)).
  - apply (Hidle [mkWorkCenter "wc-1" weekShifts []] idleWorkCenter []).
    + reflexivity.
    + intros wc' [].
    + reflexivity.
Defined.

(** ** The slot search: blockers and the next candidate *)

Lemma earliest_fold (periods : list (string * string)) (init : string) :
  let r := fold_left (fun earliest period =>
             if str_lt (snd period) earliest then snd period else earliest)
             periods init in
  (r = init \/ In r (map snd periods))
  /\ str_lt init r = false
  /\ (forall p, In p periods -> str_lt (snd p) r = false).
Proof.
  revert init. induction periods as [|p rest IH]; intros init; simpl.
  - repeat split; [now left | apply ltb_irrefl | intros p []].
  - set (e' := if str_lt (snd p) init then snd p else init).
    destruct (IH e') as [Hin [Hlow Hall]].
    set (r := fold_left _ rest e') in *.
    assert (He' : (str_lt (snd p) init = true /\ e' = snd p)
                  \/ (str_lt (snd p) init = false /\ e' = init)).
    { unfold e'. destruct (str_lt (snd p) init); auto. }
    unfold str_lt in *.
    repeat split.
    + destruct Hin as [Hr | Hr]; [| now right; right].
      destruct He' as [[_ E] | [_ E]]; rewrite E in Hr; auto.
    + destruct He' as [[Hlt E] | [Hlt E]]; rewrite E in Hlow; [| exact Hlow].
      destruct (String.ltb init r) eqn:Hir; [| reflexivity].
      now rewrite (ltb_trans _ _ _ Hlt Hir) in Hlow.
    + intros q [Hq | Hq]; [subst q | now apply Hall].
      destruct He' as [[Hlt E] | [Hlt E]]; rewrite E in Hlow; [exact Hlow |].
      destruct (String.ltb (snd p) r) eqn:Hpr; [| reflexivity].
      destruct (ltb_total init r) as [H | [H | H]].
      * congruence.
      * subst r. congruence.
      * now rewrite (ltb_trans _ _ _ Hpr H) in Hlt.
Qed.

Lemma In_blockingPeriods (cs ce : string) (workOrder : WorkOrder)
    (all : list WorkOrder) (wc : WorkCenter) (p : string * string) :
  In p (blockingPeriods cs ce workOrder all wc) <->
  (exists wo, In wo all /\ sameWorkCenterOther workOrder wo = true
      /\ timeRangesOverlap cs ce (startDate (data wo)) (endDate (data wo)) = true
      /\ p = (startDate (data wo), endDate (data wo)))
  \/ (exists w, In w (maintenanceWindows (data wc))
      /\ timeRangesOverlap cs ce (windowStartDate w) (windowEndDate w) = true
      /\ p = (windowStartDate w, windowEndDate w)).
Proof.
  unfold blockingPeriods. rewrite in_app_iff, !in_map_iff.
  split; intros [[x [Hx Hin]] | [x [Hx Hin]]]; [left | right | left | right].
  - apply filter_In in Hin. destruct Hin as [Hin Hb].
    apply andb_true_iff in Hb. exists x. intuition.
  - apply filter_In in Hin. exists x. intuition.
  - exists x. destruct Hin as [Hs [Ho Hp]]. split; [now symmetry |].
    apply filter_In. now rewrite Hs, Ho.
  - exists x. destruct Hin as [Ho Hp]. split; [now symmetry |].
    now apply filter_In.
Qed.

Lemma blocker_ends_later (cs ce s e : string) :
  timeRangesOverlap cs ce s e = true ->
  exists t t', fromISO cs = Some t /\ fromISO e = Some t' /\ t < t'.
Proof.
  unfold timeRangesOverlap. intros H. apply andb_true_iff in H.
  destruct H as [H _]. apply dt_lt_valid in H.
  destruct H as [x [y [Hx [Hy Hlt]]]]. now exists x, y.
Qed.

Lemma sameWorkCenterOther_true (workOrder wo : WorkOrder) :
  sameWorkCenterOther workOrder wo = true <->
  docId wo <> docId workOrder
  /\ workCenterId (data wo) = workCenterId (data workOrder).
Proof.
  unfold sameWorkCenterOther.
  rewrite andb_true_iff, negb_true_iff, String.eqb_neq, String.eqb_eq. tauto.
Qed.

Lemma isSlotAvailable_blockingPeriods (cs ce : string) (workOrder : WorkOrder)
    (all : list WorkOrder) (wc : WorkCenter) :
  isSlotAvailable cs ce workOrder all wc = true
  <-> blockingPeriods cs ce workOrder all wc = [].
Proof.
  unfold isSlotAvailable, blockingPeriods, overlapsWithMaintenance.
  destruct (filter _ all) as [|x l]; simpl.
  - rewrite negb_true_iff. split.
    + intros H.
      destruct (filter _ (maintenanceWindows (data wc))) as [|w ws] eqn:Hf;
        [reflexivity |].
      assert (Hin : In w (w :: ws)) by now left.
      rewrite <- Hf in Hin. apply filter_In in Hin. destruct Hin as [Hin Hov].
      assert (Ht : existsb (fun window =>
                 dt_lt (fromISO cs) (fromISO (windowEndDate window))
                 && dt_lt (fromISO (windowStartDate window)) (fromISO ce))
                 (maintenanceWindows (data wc)) = true).
      { apply existsb_exists. exists w. split; [exact Hin | exact Hov]. }
      congruence.
    + intros H.
      destruct (existsb _ (maintenanceWindows (data wc))) eqn:E; [| reflexivity].
      apply existsb_exists in E. destruct E as [w [Hin Hov]].
      assert (Hw : In w (filter (fun window =>
                 timeRangesOverlap cs ce (windowStartDate window)
                   (windowEndDate window)) (maintenanceWindows (data wc)))).
      { apply filter_In. split; [exact Hin | exact Hov]. }
      destruct (filter _ (maintenanceWindows (data wc))); [destruct Hw | discriminate].
  - split; discriminate.
Qed.

(** X27. In the slot search the blocking periods of a candidate interval
    are the intervals of the other work orders of the same work center
    that overlap it, maintenance work orders included, and the
    maintenance windows of the work center that overlap it, and nothing
    else.  [isSlotAvailable] accepts the candidate exactly when there is
    no blocking period.  When there is one, the next candidate start is
    the end of one of the blocking periods; when there is none and the
    candidate start is the instant [t], it is [t] plus one hour. *)
Theorem blockingPeriods_exact :
  forall (cs ce : string) (workOrder : WorkOrder) (all : list WorkOrder)
         (wc : WorkCenter),
    (forall p, In p (blockingPeriods cs ce workOrder all wc) <->
       (exists wo, In wo all
           /\ docId wo <> docId workOrder
           /\ workCenterId (data wo) = workCenterId (data workOrder)
           /\ timeRangesOverlap cs ce (startDate (data wo)) (endDate (data wo)) = true
           /\ p = (startDate (data wo), endDate (data wo)))
       \/ (exists w, In w (maintenanceWindows (data wc))
           /\ timeRangesOverlap cs ce (windowStartDate w) (windowEndDate w) = true
           /\ p = (windowStartDate w, windowEndDate w)))
    /\ (isSlotAvailable cs ce workOrder all wc = true
        <-> blockingPeriods cs ce workOrder all wc = [])
    /\ (blockingPeriods cs ce workOrder all wc <> [] ->
        exists next,
          findNextPotentialStart cs ce workOrder all wc = Ok next
          /\ In next (map snd (blockingPeriods cs ce workOrder all wc)))
    /\ (forall t, blockingPeriods cs ce workOrder all wc = [] ->
        fromISO cs = Some t ->
        findNextPotentialStart cs ce workOrder all wc = Ok (toISO (t + msPerHour))).
Proof.
  intros cs ce workOrder all wc. split; [| split; [| split]].
  - intros p. rewrite In_blockingPeriods.
    split; (intros [[wo H] | H]; [left; exists wo | right; exact H]).
    + destruct H as [Hin [Hs Hrest]]. apply sameWorkCenterOther_true in Hs.
      destruct Hs as [Hid Hwc]. auto.
    + destruct H as [Hin [Hid [Hwc Hrest]]]. split; [exact Hin |].
      split; [| exact Hrest]. apply sameWorkCenterOther_true. auto.
  - apply isSlotAvailable_blockingPeriods.
  - intros Hb. unfold findNextPotentialStart.
    destruct (blockingPeriods cs ce workOrder all wc) as [|first rest];
      [now destruct Hb |].
    destruct (earliest_fold (first :: rest) (snd first)) as [Hin _].
    eexists. split; [reflexivity |].
    destruct Hin as [-> | Hin]; [now left | exact Hin].
  - intros t Hb Ht. unfold findNextPotentialStart. rewrite Hb, Ht.
    unfold plusHours. now rewrite Z.mul_1_l.
Qed.

Lemma blockingPeriods_exact_witness :
  exists next,
    findNextPotentialStart "2026-02-10T11:00:00.000Z" "2026-02-10T13:00:00.000Z"
      seeker [blockerSharp; seeker] (mkWorkCenter "wc-1" weekShifts []) = Ok next
    /\ In next
         (map snd (blockingPeriods "2026-02-10T11:00:00.000Z" "2026-02-10T13:00:00.000Z"
                     seeker [blockerSharp; seeker] (mkWorkCenter "wc-1" weekShifts []))).
Proof.
  apply (proj1 (proj2 (proj2 (blockingPeriods_exact
                  "2026-02-10T11:00:00.000Z" "2026-02-10T13:00:00.000Z"
                  seeker [blockerSharp; seeker] (mkWorkCenter "wc-1" weekShifts []))))).
  discriminate.
Defined.

(** C10. At the failing input two work orders block the candidate
    interval 11:00 to 13:00 on wc-1, one ending at 12:00:00.500Z and a
    maintenance work order ending at 12:00:00Z.  The search moves the
    candidate start to 12:00:00.500Z, the end of the first, which is not
    the earliest end among the blocking intervals: the ends are compared
    as strings, where the comment of the reduce asks for the earliest end
    time of the blocking periods. *)
Lemma next_start_not_earliest_instant :
  let wc := mkWorkCenter "wc-1" weekShifts [] in
  let all := [blockerLate; blockerSharp; seeker] in
  In (startDate (data blockerSharp), endDate (data blockerSharp))
     (blockingPeriods (startDate (data seeker)) (endDate (data seeker)) seeker all wc)
  /\ findNextPotentialStart (startDate (data seeker)) (endDate (data seeker))
       seeker all wc = Ok (endDate (data blockerLate))
  /\ fromISO (endDate (data blockerLate)) = Some 1770724800500
  /\ fromISO (endDate (data blockerSharp)) = Some 1770724800000.
Proof. simpl. repeat split; try reflexivity. right. left. reflexivity. Qed.

(** ** Rescheduling is decided on the text of the dates *)

Lemma changesOf_Ok (x : result ReflowResult) (cs : list WorkOrderChange) :
  changesOf x = Ok cs -> exists r, x = Ok r /\ changes r = cs.
Proof.
  destruct x as [r|e]; simpl; [| discriminate].
  intros H. exists r. split; congruence.
Qed.

Example reflow_mixedFormInput :
  changesOf (reflow mixedFormInput) = Ok [noonChildChange].
Proof. vm_compute. reflexivity. Qed.

(** C9. There is an input whose dates, read as instants, are a valid
    schedule, with the parent's end written without milliseconds and the
    child's start with them, for which reflow records a change of the
    child: the new start is another string for the same instant, and the
    delay is 0 minutes. *)
Theorem reschedule_decided_on_strings :
  exists (input : ReflowInput) (r : ReflowResult) (c : WorkOrderChange) (t : Z),
    denotesValidSchedule input = true
    /\ reflow input = Ok r
    /\ In c (changes r)
    /\ newStartDate c <> originalStartDate c
    /\ fromISO (originalStartDate c) = Some t
    /\ fromISO (newStartDate c) = Some t
    /\ delayMinutes c = Some 0.
Proof.
  destruct (changesOf_Ok _ _ reflow_mixedFormInput) as [r [Hr Hc]].
  exists mixedFormInput, r, noonChildChange, 1770724800000.
  rewrite Hc. repeat split; try reflexivity.
  - exact Hr.
  - now left.
  - discriminate.
Qed.

(** ** The dependency graph *)

Lemma NoDup_In_get {V : Type} (m : JsMap V) (k : string) (v : V) :
  NoDup (map_keys m) -> In (k, v) m -> map_get m k = Some v.
Proof.
  induction m as [|[k' v'] m IH]; simpl; intros Hnd Hin; [destruct Hin |].
  inversion Hnd as [|? ? Hnotin Hnd']; subst.
  destruct Hin as [Heq | Hin].
  - inversion Heq; subst. now rewrite String.eqb_refl.
  - destruct (String.eqb k' k) eqn:E.
    + apply String.eqb_eq in E. subst k'. exfalso. apply Hnotin.
      unfold map_keys. apply in_map_iff. now exists (k, v).
    + auto.
Qed.

Lemma initial_graph_keys (workOrders : list WorkOrder) (g0 : Graph) (k : string) :
  In k (map_keys (fold_left (fun g wo => map_set g (docId wo) (initialNode wo))
                            workOrders g0))
  <-> In k (map_keys g0) \/ In k (map docId workOrders).
Proof.
  revert g0. induction workOrders as [|wo rest IH]; intros g0; simpl; [tauto |].
  rewrite IH, map_keys_set_In. split; intros H; intuition.
Qed.

Lemma initial_graph_NoDup (workOrders : list WorkOrder) (g0 : Graph) :
  NoDup (map_keys g0) ->
  NoDup (map_keys (fold_left (fun g wo => map_set g (docId wo) (initialNode wo))
                             workOrders g0)).
Proof.
  revert g0. induction workOrders as [|wo rest IH]; intros g0 H; simpl; [exact H |].
  apply IH. now apply map_keys_set_NoDup.
Qed.

(** The number of keys equals the number of work orders only when no
    docId repeats. *)
Lemma initial_graph_length (workOrders : list WorkOrder) (g0 : Graph) :
  (List.length (map_keys (fold_left
       (fun g wo => map_set g (docId wo) (initialNode wo)) workOrders g0))
   <= List.length (map_keys g0) + List.length workOrders)%nat
  /\ (List.length (map_keys (fold_left
       (fun g wo => map_set g (docId wo) (initialNode wo)) workOrders g0))
      = (List.length (map_keys g0) + List.length workOrders)%nat ->
      NoDup (map docId workOrders)
      /\ forall k, In k (map docId workOrders) -> ~ In k (map_keys g0)).
Proof.
  revert g0. induction workOrders as [|wo rest IH]; intros g0; simpl.
  - split; [lia |]. intros _. split; [constructor | intros k []].
  - destruct (IH (map_set g0 (docId wo) (initialNode wo))) as [Hle Heq].
    assert (Hset : (List.length (map_keys (map_set g0 (docId wo) (initialNode wo)))
                    <= S (List.length (map_keys g0)))%nat
                   /\ (List.length (map_keys (map_set g0 (docId wo) (initialNode wo)))
                       = S (List.length (map_keys g0)) -> ~ In (docId wo) (map_keys g0))).
    { rewrite map_keys_set.
      destruct (existsb (String.eqb (docId wo)) (map_keys g0)) eqn:E.
      - split; [lia | intros; lia].
      - rewrite length_app. simpl. split; [lia |]. intros _ Hin.
        apply existsb_eqb_In in Hin. congruence. }
    destruct Hset as [Hset1 Hset2]. split; [lia |].
    intros Hlen.
    assert (Hl1 : List.length (map_keys (map_set g0 (docId wo) (initialNode wo)))
                  = S (List.length (map_keys g0))) by lia.
    destruct Heq as [Hnd Hfresh]; [lia |]. split.
    + constructor; [| exact Hnd]. intros Hin. apply (Hfresh _ Hin).
      apply map_keys_set_In. now left.
    + intros k [Hk | Hk].
      * subst k. now apply Hset2.
      * intros Hin. apply (Hfresh _ Hk). apply map_keys_set_In. now right.
Qed.

Lemma linkParents_keys (graph graph' : Graph) (wo : WorkOrder) (ps : list string) :
  linkParents graph wo ps = Ok graph' ->
  map_keys graph' = map_keys graph
  /\ (forall p, In p ps -> In p (map_keys graph))
  /\ (forall k, option_map parents (map_get graph' k)
                = option_map parents (map_get graph k)).
Proof.
  revert graph. induction ps as [|p ps IH]; intros graph; simpl.
  - intros H. inversion H. repeat split; auto. intros p [].
  - destruct (map_get graph p) as [node|] eqn:Hget; [| discriminate].
    intros H. apply IH in H. destruct H as [Hk [Hps Hpar]].
    assert (Hin : In p (map_keys graph)) by (eapply map_get_Some_keys; eauto).
    rewrite map_keys_set_present in Hk by exact Hin.
    repeat split.
    + exact Hk.
    + intros q [Hq | Hq]; [now subst q |].
      rewrite <- (map_keys_set_present _ graph p (pushChild node (docId wo)) Hin).
      auto.
    + intros k. rewrite Hpar.
      destruct (string_dec p k) as [-> | Hne].
      * now rewrite map_get_set_eq, Hget.
      * now rewrite map_get_set_ne.
Qed.

Lemma linkAll_keys (graph graph' : Graph) (workOrders : list WorkOrder) :
  linkAll graph workOrders = Ok graph' ->
  map_keys graph' = map_keys graph
  /\ (forall wo p, In wo workOrders -> In p (dependsOnWorkOrderIds (data wo)) ->
        In p (map_keys graph))
  /\ (forall k, option_map parents (map_get graph' k)
                = option_map parents (map_get graph k)).
Proof.
  revert graph. induction workOrders as [|wo rest IH]; intros graph; simpl.
  - intros H. inversion H. repeat split; auto. intros wo p [].
  - intros H. apply bind_Ok_inv in H. destruct H as [g1 [H1 H2]].
    apply linkParents_keys in H1. destruct H1 as [Hk1 [Hps1 Hpar1]].
    apply IH in H2. destruct H2 as [Hk2 [Hps2 Hpar2]].
    repeat split.
    + congruence.
    + intros w p [Hw | Hw] Hp; [subst w; auto |].
      rewrite <- Hk1. eauto.
    + intros k. now rewrite Hpar2, Hpar1.
Qed.

Lemma buildDependencyGraph_keys (workOrders : list WorkOrder) (graph : Graph) :
  buildDependencyGraph workOrders = Ok graph ->
  NoDup (map_keys graph)
  /\ (forall k, In k (map_keys graph) <-> In k (map docId workOrders))
  /\ (forall wo p, In wo workOrders -> In p (dependsOnWorkOrderIds (data wo)) ->
        In p (map docId workOrders))
  /\ (List.length graph = List.length workOrders -> NoDup (map docId workOrders))
  /\ (List.length graph <= List.length workOrders)%nat.
Proof.
  unfold buildDependencyGraph. intros H. apply linkAll_keys in H.
  destruct H as [Hk [Hps _]].
  assert (Hiff : forall k, In k (map_keys graph) <-> In k (map docId workOrders)).
  { intros k. rewrite Hk, initial_graph_keys. simpl. tauto. }
  assert (Hlen : List.length graph = List.length (map_keys graph))
    by (unfold map_keys; now rewrite length_map).
  destruct (initial_graph_length workOrders []) as [Hle Heq]. simpl in Hle, Heq.
  rewrite <- Hk in Hle, Heq.
  repeat split.
  - rewrite Hk. apply initial_graph_NoDup. constructor.
  - apply Hiff.
  - apply Hiff.
  - intros wo p Hwo Hp. apply Hiff. rewrite Hk. eauto.
  - intros Hl. apply Heq. lia.
  - lia.
Qed.

(** ** Kahn's loop *)

Lemma NoDup_snoc {A : Type} (l : list A) (x : A) :
  NoDup l -> ~ In x l -> NoDup (l ++ [x]).
Proof.
  induction l as [|y l IH]; simpl; intros Hnd Hx.
  - constructor; [intros [] | constructor].
  - inversion Hnd; subst. constructor.
    + rewrite in_app_iff. simpl. intros [H | [H | []]]; [contradiction |].
      subst. apply Hx. now left.
    + apply IH; [assumption | intros H; apply Hx; now right].
Qed.

Lemma decrement_Some (inDegree : JsMap number) (c : string) (n : Z) :
  decrement inDegree c = Some n <-> map_get inDegree c = Some (Some (n + 1)).
Proof.
  unfold decrement. destruct (map_get inDegree c) as [[d|]|]; split; intros H;
    try discriminate; inversion H; repeat f_equal; lia.
Qed.

Lemma kahnInv_set_other (graph : Graph) (inDegree : JsMap number)
    (queue sorted : list string) (c : string) :
  kahnInv graph inDegree queue sorted ->
  decrement inDegree c <> Some 0 ->
  kahnInv graph (map_set inDegree c (decrement inDegree c)) queue sorted.
Proof.
  intros [Hnd [Hdeg Hkeys]] Hnz. repeat split.
  - exact Hnd.
  - intros id Hin. destruct (Hdeg _ Hin) as [d [Hd Hle]].
    destruct (string_dec c id) as [<- | Hne].
    + rewrite map_get_set_eq. exists (d - 1). split; [| lia].
      f_equal. apply decrement_Some. rewrite Hd. repeat f_equal. lia.
    + rewrite map_get_set_ne by exact Hne. eauto.
  - intros id d Hget. destruct (string_dec c id) as [<- | Hne].
    + rewrite map_get_set_eq in Hget. inversion Hget as [Hdec].
      apply decrement_Some in Hdec. eauto.
    + rewrite map_get_set_ne in Hget by exact Hne. eauto.
Qed.

Lemma kahnInv_set_zero (graph : Graph) (inDegree : JsMap number)
    (queue sorted : list string) (c : string) :
  kahnInv graph inDegree queue sorted ->
  decrement inDegree c = Some 0 ->
  kahnInv graph (map_set inDegree c (Some 0)) (queue ++ [c]) sorted.
Proof.
  intros [Hnd [Hdeg Hkeys]] Hz. apply decrement_Some in Hz. simpl in Hz.
  assert (Hfresh : ~ In c (sorted ++ queue)).
  { intros Hin. destruct (Hdeg _ Hin) as [d [Hd Hle]]. rewrite Hz in Hd.
    inversion Hd. lia. }
  repeat split.
  - rewrite app_assoc. now apply NoDup_snoc.
  - intros id Hin. rewrite app_assoc, in_app_iff in Hin.
    destruct (string_dec c id) as [<- | Hne].
    + rewrite map_get_set_eq. exists 0. split; [reflexivity | lia].
    + rewrite map_get_set_ne by exact Hne.
      destruct Hin as [Hin | [Hin | []]]; [auto | contradiction].
  - intros id d Hget. destruct (string_dec c id) as [<- | Hne].
    + eauto.
    + rewrite map_get_set_ne in Hget by exact Hne. eauto.
Qed.

Lemma releaseChildren_inv (graph : Graph) (sorted childIds : list string) :
  forall (inDegree : JsMap number) (queue : list string),
    kahnInv graph inDegree queue sorted ->
    kahnInv graph (fst (releaseChildren childIds inDegree queue))
            (snd (releaseChildren childIds inDegree queue)) sorted.
Proof.
  induction childIds as [|c rest IH]; intros inDegree queue Hinv; simpl; [exact Hinv |].
  pose proof (kahnInv_set_other graph inDegree queue sorted c Hinv) as Hother.
  pose proof (kahnInv_set_zero graph inDegree queue sorted c Hinv) as Hzero.
  destruct (decrement inDegree c) as [[|q|q]|]; apply IH;
    solve [apply Hzero; reflexivity | apply Hother; discriminate].
Qed.

Lemma kahn_inv (graph : Graph) (fuel : nat) :
  forall (inDegree : JsMap number) (queue sorted result : list string),
    kahnInv graph inDegree queue sorted ->
    kahn fuel graph inDegree queue sorted = Ok result ->
    NoDup result /\ (forall id, In id result -> In id (map_keys graph)).
Proof.
  induction fuel as [|fuel IH]; intros inDegree queue sorted result Hinv Hk.
  - destruct queue as [|nodeId queue]; simpl in Hk; [| discriminate].
    inversion Hk; subst. destruct Hinv as [Hnd [Hdeg Hkeys]].
    rewrite app_nil_r in *. split; [exact Hnd |].
    intros id Hin. destruct (Hdeg _ Hin) as [d [Hd _]]. eauto.
  - destruct queue as [|nodeId queue]; simpl in Hk.
    + inversion Hk; subst. destruct Hinv as [Hnd [Hdeg Hkeys]].
      rewrite app_nil_r in *. split; [exact Hnd |].
      intros id Hin. destruct (Hdeg _ Hin) as [d [Hd _]]. eauto.
    + destruct (map_get graph nodeId) as [node|]; [| discriminate].
      destruct (releaseChildren (children node) inDegree queue) as [inDegree' queue'] eqn:Hrel.
      apply IH in Hk; [exact Hk |].
      pose proof (releaseChildren_inv graph (sorted ++ [nodeId]) (children node)
                    inDegree queue) as Hstep.
      rewrite Hrel in Hstep. apply Hstep.
      destruct Hinv as [Hnd [Hdeg Hkeys]]. repeat split.
      * now rewrite <- app_assoc.
      * intros id Hin. apply Hdeg. now rewrite <- app_assoc in Hin.
      * exact Hkeys.
Qed.

Lemma NoDup_map_fst_filter {A B : Type} (p : A * B -> bool) (l : list (A * B)) :
  NoDup (map fst l) -> NoDup (map fst (filter p l)).
Proof.
  induction l as [|x l IH]; simpl; intros H; [constructor |].
  inversion H as [|? ? Hx Hl]; subst.
  destruct (p x); simpl; [constructor |]; auto.
  intros Hin. apply Hx. apply in_map_iff in Hin. destruct Hin as [y [Hy Hin]].
  apply filter_In in Hin. apply in_map_iff. exists y. tauto.
Qed.

Lemma initialInDegree_keys (graph : Graph) :
  map_keys (initialInDegree graph) = map_keys graph.
Proof.
  unfold initialInDegree, map_keys. rewrite map_map. reflexivity.
Qed.

Lemma kahnInv_initial (graph : Graph) :
  NoDup (map_keys graph) ->
  kahnInv graph (initialInDegree graph) (initialQueue (initialInDegree graph)) [].
Proof.
  intros Hnd. unfold kahnInv. rewrite app_nil_l. repeat split.
  - apply NoDup_map_fst_filter.
    change (NoDup (map_keys (initialInDegree graph))).
    now rewrite initialInDegree_keys.
  - intros id Hin. unfold initialQueue in Hin. apply in_map_iff in Hin.
    destruct Hin as [[k v] [Hk Hin]]. simpl in Hk. subst k.
    apply filter_In in Hin. destruct Hin as [Hin Hv]. simpl in Hv.
    destruct v as [[| |]|]; try discriminate.
    exists 0. split; [| lia]. apply NoDup_In_get; [| exact Hin].
    now rewrite initialInDegree_keys.
  - intros id d Hget. rewrite <- initialInDegree_keys.
    eapply map_get_Some_keys; eauto.
Qed.

Lemma resolveAll_length (ids : list string) (workOrders : list WorkOrder)
    (idxs : list nat) :
  resolveAll ids workOrders = Ok idxs -> List.length idxs = List.length ids.
Proof.
  revert idxs. induction ids as [|id ids IH]; intros idxs; simpl.
  - intros H. now inversion H.
  - destruct (lastIndexOf id workOrders 0); [| discriminate].
    destruct (resolveAll ids workOrders) as [rest|]; simpl; [| discriminate].
    intros H. inversion H. simpl. f_equal. now apply IH.
Qed.

Lemma NoDup_incl_length_le (l l' : list string) :
  NoDup l -> incl l l' -> (List.length l <= List.length l')%nat.
Proof. apply NoDup_incl_length. Qed.

(** What a successful topological sort says about its input. *)
Lemma topologicalSort_Ok (workOrders : list WorkOrder) (sorted : list nat) :
  topologicalSort workOrders = Ok sorted ->
  NoDup (map docId workOrders)
  /\ (exists graph, buildDependencyGraph workOrders = Ok graph
                    /\ detectCycles graph = Ok None)
  /\ (forall wo p, In wo workOrders -> In p (dependsOnWorkOrderIds (data wo)) ->
        In p (map docId workOrders)).
Proof.
  unfold topologicalSort. intros H.
  apply bind_Ok_inv in H. destruct H as [graph [Hg H]].
  apply bind_Ok_inv in H. destruct H as [cycleError [Hc H]].
  destruct cycleError as [e|]; [discriminate |].
  apply bind_Ok_inv in H. destruct H as [ids [Hk H]].
  destruct (Nat.eqb (List.length ids) (List.length workOrders)) eqn:Hlen;
    [| discriminate].
  apply Nat.eqb_eq in Hlen.
  destruct (buildDependencyGraph_keys _ _ Hg) as [Hnd [Hiff [Hdeps [Hlen' Hle]]]].
  apply (kahn_inv graph _ _ _ _ _ (kahnInv_initial graph Hnd)) in Hk.
  destruct Hk as [Hids Hincl].
  assert (Hl : (List.length ids <= List.length (map_keys graph))%nat)
    by (apply NoDup_incl_length; assumption).
  unfold map_keys in Hl. rewrite length_map in Hl.
  repeat split.
  - apply Hlen'. lia.
  - exists graph. auto.
  - exact Hdeps.
Qed.

(** ** What an empty list of validation errors says *)

Lemma flat_map_nil {A B : Type} (f : A -> list B) (l : list A) :
  flat_map f l = [] <-> forall x, In x l -> f x = [].
Proof.
  induction l as [|a l IH]; simpl.
  - split; [intros _ x [] | reflexivity].
  - split.
    + intros H. apply app_eq_nil in H. destruct H as [Ha Hl].
      intros x [<- | Hx]; [exact Ha | now apply IH].
    + intros H. rewrite (H a) by now left. simpl. apply IH. auto.
Qed.

Lemma map_of_keep {V : Type} (entries : list (string * V)) (m0 : JsMap V)
    (k : string) (v : V) :
  ~ In k (map fst entries) -> map_get m0 k = Some v ->
  map_get (fold_left (fun m e => map_set m (fst e) (snd e)) entries m0) k = Some v.
Proof.
  revert m0. induction entries as [|[k' v'] rest IH]; intros m0 Hk H; simpl;
    [exact H |].
  simpl in Hk. apply IH; [tauto |].
  rewrite map_get_set_ne; [exact H | tauto].
Qed.

Lemma map_of_get_last {V : Type} (entries : list (string * V)) (m0 : JsMap V)
    (k : string) (v : V) :
  NoDup (map fst entries) -> In (k, v) entries ->
  map_get (fold_left (fun m e => map_set m (fst e) (snd e)) entries m0) k = Some v.
Proof.
  revert m0. induction entries as [|[k' v'] rest IH]; intros m0 Hnd Hin;
    [destruct Hin |].
  simpl in *. inversion Hnd as [|? ? Hfresh Hnd']; subst.
  destruct Hin as [Heq | Hin].
  - inversion Heq; subst. apply map_of_keep; [exact Hfresh | apply map_get_set_eq].
  - now apply IH.
Qed.

Lemma map_of_get_In {V : Type} (entries : list (string * V)) (m0 : JsMap V)
    (k : string) (v : V) :
  map_get (fold_left (fun m e => map_set m (fst e) (snd e)) entries m0) k = Some v ->
  In (k, v) entries \/ map_get m0 k = Some v.
Proof.
  revert m0. induction entries as [|[k' v'] rest IH]; intros m0 H; simpl in *;
    [now right |].
  apply IH in H. destruct H as [H | H]; [now left; right |].
  destruct (string_dec k' k) as [-> | Hne].
  - rewrite map_get_set_eq in H. inversion H. now left; left.
  - rewrite map_get_set_ne in H by exact Hne. now right.
Qed.

Lemma workOrderMapOf_get (workOrders : list WorkOrder) (wo : WorkOrder) :
  NoDup (map docId workOrders) -> In wo workOrders ->
  map_get (workOrderMapOf workOrders) (docId wo) = Some wo.
Proof.
  intros Hnd Hin. unfold workOrderMapOf, map_of. apply map_of_get_last.
  - now rewrite map_map.
  - apply in_map_iff. now exists wo.
Qed.

Lemma workOrderMapOf_In (workOrders : list WorkOrder) (id : string) (wo : WorkOrder) :
  map_get (workOrderMapOf workOrders) id = Some wo ->
  In wo workOrders /\ docId wo = id.
Proof.
  unfold workOrderMapOf, map_of. intros H. apply map_of_get_In in H.
  destruct H as [H | H]; [| discriminate].
  apply in_map_iff in H. destruct H as [w [Hw Hin]]. inversion Hw; subst. auto.
Qed.

Lemma workCenterMapOf_In (workCenters : list WorkCenter) (id : string)
    (wc : WorkCenter) :
  map_get (workCenterMapOf workCenters) id = Some wc ->
  In wc workCenters /\ docId wc = id.
Proof.
  unfold workCenterMapOf, map_of. intros H. apply map_of_get_In in H.
  destruct H as [H | H]; [| discriminate].
  apply in_map_iff in H. destruct H as [w [Hw Hin]]. inversion Hw; subst. auto.
Qed.

Lemma find_docId_unique (workOrders : list WorkOrder) (wo : WorkOrder) :
  NoDup (map docId workOrders) -> In wo workOrders ->
  find (fun w => String.eqb (docId w) (docId wo)) workOrders = Some wo.
Proof.
  induction workOrders as [|w rest IH]; simpl; intros Hnd Hin; [destruct Hin |].
  inversion Hnd as [|? ? Hfresh Hnd']; subst.
  destruct Hin as [-> | Hin].
  - now rewrite String.eqb_refl.
  - destruct (String.eqb (docId w) (docId wo)) eqn:E.
    + apply String.eqb_eq in E. exfalso. apply Hfresh. rewrite E.
      apply in_map_iff. now exists wo.
    + auto.
Qed.

(** With distinct docIds, the parents found with [find] are the parents
    found in the map. *)
Lemma parentsOf_map (workOrders : list WorkOrder) (wo : WorkOrder) :
  NoDup (map docId workOrders) ->
  parentsOf wo workOrders
  = definedOnly (map (map_get (workOrderMapOf workOrders))
                     (dependsOnWorkOrderIds (data wo))).
Proof.
  intros Hnd. unfold parentsOf. apply f_equal. apply map_ext. intros id.
  destruct (map_get (workOrderMapOf workOrders) id) as [p|] eqn:Hget.
  - apply workOrderMapOf_In in Hget. destruct Hget as [Hin <-].
    now apply find_docId_unique.
  - destruct (find (fun w => String.eqb (docId w) id) workOrders) as [p|] eqn:Hf;
      [| reflexivity].
    apply find_some in Hf. destruct Hf as [Hin Hid]. apply String.eqb_eq in Hid.
    subst id. rewrite workOrderMapOf_get in Hget by assumption. discriminate.
Qed.

Lemma validateDependencies_nil (workOrders : list WorkOrder) :
  validateDependencies workOrders = [] ->
  forall wo parent, In wo workOrders ->
    In parent (definedOnly (map (map_get (workOrderMapOf workOrders))
                                (dependsOnWorkOrderIds (data wo)))) ->
    str_gt (endDate (data parent)) (startDate (data wo)) = false.
Proof.
  intros Hnil wo parent Hwo Hp.
  destruct (str_gt (endDate (data parent)) (startDate (data wo))) eqn:Hgt;
    [| reflexivity].
  exfalso. apply In_definedOnly in Hp. destruct Hp as [id [Hid Hget]].
  assert (Hin : In (dependencyViolation wo parent) (validateDependencies workOrders)).
  { apply validateDependencies_spec. exists wo, id, parent. auto. }
  rewrite Hnil in Hin. destruct Hin.
Qed.

Lemma addToGroup_groupOf (groups : JsMap (list WorkOrder)) (wo : WorkOrder)
    (k : string) :
  groupOf (addToGroup groups wo) k
  = groupOf groups k ++ (if onWorkCenter k wo then [wo] else []).
Proof.
  unfold addToGroup, onWorkCenter, groupOf.
  destruct (String.eqb (workCenterId (data wo)) k) eqn:E.
  - apply String.eqb_eq in E. subst k.
    destruct (map_get groups (workCenterId (data wo))) as [orders|];
      now rewrite map_get_set_eq.
  - apply String.eqb_neq in E. rewrite app_nil_r.
    destruct (map_get groups (workCenterId (data wo))); now rewrite map_get_set_ne.
Qed.

Lemma groupBy_fold (workOrders : list WorkOrder) (g0 : JsMap (list WorkOrder))
    (k : string) :
  groupOf (fold_left addToGroup workOrders g0) k
  = groupOf g0 k ++ filter (onWorkCenter k) workOrders.
Proof.
  revert g0. induction workOrders as [|wo rest IH]; intros g0; simpl.
  - now rewrite app_nil_r.
  - rewrite IH, addToGroup_groupOf, <- app_assoc.
    now destruct (onWorkCenter k wo).
Qed.

Lemma conflictsIn_nil (wcId : string) (orders : list WorkOrder) :
  conflictsIn wcId orders = [] ->
  forall l1 a l2 b l3, orders = l1 ++ a :: l2 ++ b :: l3 -> overlapping a b = false.
Proof.
  induction orders as [|wo rest IH]; intros Hnil l1 a l2 b l3 Hsplit.
  - destruct l1; discriminate.
  - simpl in Hnil. apply app_eq_nil in Hnil. destruct Hnil as [Hhead Hrest].
    destruct l1 as [|x l1]; simpl in Hsplit; inversion Hsplit; subst.
    + assert (Hb : (if overlapping a b then [workCenterConflict wcId a b] else []) = []).
      { apply (proj1 (flat_map_nil _ _) Hhead). rewrite in_app_iff. right. now left. }
      destruct (overlapping a b); [discriminate | reflexivity].
    + eapply IH; eauto.
Qed.

Lemma filter_split {A : Type} (p : A -> bool) (l1 l2 l3 : list A) (a b : A) :
  p a = true -> p b = true ->
  filter p (l1 ++ a :: l2 ++ b :: l3)
  = filter p l1 ++ a :: filter p l2 ++ b :: filter p l3.
Proof.
  intros Ha Hb. rewrite filter_app. simpl. rewrite Ha, filter_app. simpl.
  now rewrite Hb.
Qed.

Lemma validateWorkCenterConflicts_nil (workOrders : list WorkOrder) :
  validateWorkCenterConflicts workOrders = [] ->
  forall l1 a l2 b l3, workOrders = l1 ++ a :: l2 ++ b :: l3 ->
    workCenterId (data a) = workCenterId (data b) ->
    overlapping a b = false /\ overlapping b a = false.
Proof.
  intros Hnil l1 a l2 b l3 Hsplit Hwc.
  set (k := workCenterId (data a)).
  pose proof (groupBy_fold workOrders [] k) as Hgroup.
  change (fold_left addToGroup workOrders []) with (groupByWorkCenter workOrders)
    in Hgroup.
  change (groupOf [] k) with (@nil WorkOrder) in Hgroup. simpl in Hgroup.
  assert (Ha : onWorkCenter k a = true) by apply String.eqb_refl.
  assert (Hb : onWorkCenter k b = true).
  { unfold onWorkCenter, k. rewrite Hwc. apply String.eqb_refl. }
  rewrite Hsplit, (filter_split _ l1 l2 l3 a b Ha Hb) in Hgroup.
  unfold groupOf in Hgroup.
  destruct (map_get (groupByWorkCenter (l1 ++ a :: l2 ++ b :: l3)) k)
    as [orders|] eqn:Hget.
  - rewrite <- Hsplit in Hget. apply map_get_Some_In in Hget.
    unfold validateWorkCenterConflicts in Hnil.
    pose proof (proj1 (flat_map_nil _ _) Hnil _ Hget) as Hc. simpl in Hc.
    pose proof (conflictsIn_nil k orders Hc _ _ _ _ _ Hgroup) as Hab.
    split; [exact Hab |]. unfold overlapping in *.
    now rewrite timeRangesOverlap_sym.
  - destruct (filter (onWorkCenter k) l1); discriminate.
Qed.

Lemma validateShiftBoundaries_nil (workOrders : list WorkOrder)
    (workCenters : list WorkCenter) :
  validateShiftBoundaries workOrders workCenters = [] ->
  forall wo, In wo workOrders ->
    exists wc, map_get (workCenterMapOf workCenters) (workCenterId (data wo)) = Some wc
      /\ shifts (data wc) <> []
      /\ isWithinShiftHours (startDate (data wo)) (shifts (data wc)) = true.
Proof.
  intros Hnil wo Hwo. unfold validateShiftBoundaries in Hnil.
  pose proof (proj1 (flat_map_nil _ _) Hnil _ Hwo) as H. simpl in H.
  destruct (map_get (workCenterMapOf workCenters) (workCenterId (data wo)))
    as [wc|]; [| discriminate].
  exists wc. apply app_eq_nil in H. destruct H as [H1 H2].
  repeat split.
  - destruct (shifts (data wc)); [discriminate | discriminate].
  - destruct (isWithinShiftHours (startDate (data wo)) (shifts (data wc)));
      [reflexivity | discriminate].
Qed.

Lemma validateMaintenanceWindows_nil (workOrders : list WorkOrder)
    (workCenters : list WorkCenter) :
  validateMaintenanceWindows workOrders workCenters = [] ->
  forall wo wc, In wo workOrders ->
    map_get (workCenterMapOf workCenters) (workCenterId (data wo)) = Some wc ->
    overlapsWithMaintenance (startDate (data wo)) (endDate (data wo))
      (maintenanceWindows (data wc)) = false.
Proof.
  intros Hnil wo wc Hwo Hget. unfold validateMaintenanceWindows in Hnil.
  pose proof (proj1 (flat_map_nil _ _) Hnil _ Hwo) as H. simpl in H.
  rewrite Hget in H.
  destruct (overlapsWithMaintenance _ _ _); [discriminate | reflexivity].
Qed.

Lemma validateAll_nil (workOrders : list WorkOrder) (workCenters : list WorkCenter) :
  validateAll workOrders workCenters = Ok [] ->
  validateDependencies workOrders = []
  /\ validateWorkCenterConflicts workOrders = []
  /\ validateShiftBoundaries workOrders workCenters = []
  /\ validateMaintenanceWindows workOrders workCenters = [].
Proof.
  unfold validateAll. intros H.
  apply bind_Ok_inv in H. destruct H as [graph [_ H]].
  apply bind_Ok_inv in H. destruct H as [cycleError [_ H]].
  injection H as Happ.
  apply app_eq_nil in Happ. destruct Happ as [_ Happ].
  apply app_eq_nil in Happ. destruct Happ as [H1 Happ].
  apply app_eq_nil in Happ. destruct Happ as [H2 Happ].
  apply app_eq_nil in Happ. destruct Happ as [H3 H4].
  repeat split; assumption.
Qed.

Lemma reflowRun_Ok (input : ReflowInput) (r : ReflowResult) :
  reflow input = Ok r ->
  exists sorted h,
    topologicalSort (workOrders input) = Ok sorted
    /\ processAll (workCenterMapOf (workCenters input)) sorted
         {| callerWorkOrders := workOrders input;
            workingCopies := workOrders input;
            changeLog := [] |} = (h, Ok tt)
    /\ validateAll (workingCopies h) (workCenters input) = Ok []
    /\ updatedWorkOrders r = workingCopies h
    /\ changes r = changeLog h
    /\ metrics r = calculateMetrics (changeLog h) (workingCopies h) (workCenters input).
Proof.
  unfold reflow, reflowRun. simpl.
  destruct (topologicalSort (workOrders input)) as [sorted|e]; [| discriminate].
  destruct (processAll _ sorted _) as [h [[]|e]] eqn:Hp; [| discriminate].
  destruct (validateAll (workingCopies h) (workCenters input)) as [[|err errs]|e] eqn:Hv;
    simpl; try discriminate.
  intros H. inversion H; subst. simpl. exists sorted, h. auto 10.
Qed.

(** ** The scheduling loop writes dates only *)

Lemma strip_reschedule (wo : WorkOrder) (s e : string) :
  strip (reschedule wo s e) = strip wo.
Proof. reflexivity. Qed.

Lemma map_strip_docId (l l' : list WorkOrder) :
  map strip l = map strip l' -> map docId l = map docId l'.
Proof.
  intros H. assert (E : forall x, map docId x = map docId (map strip x)).
  { intros x. rewrite map_map. reflexivity. }
  now rewrite (E l), (E l'), H.
Qed.

Lemma assign_strip (l : list WorkOrder) (i : nat) (wo wo' : WorkOrder) :
  nth_error l i = Some wo -> strip wo' = strip wo ->
  map strip (assign i wo' l) = map strip l.
Proof.
  revert i. induction l as [|w l IH]; intros [|i]; simpl; try discriminate.
  - intros H E. inversion H; subst. now rewrite E.
  - intros H E. f_equal. now apply IH.
Qed.

Lemma assign_nth_other (l : list WorkOrder) (i j : nat) (wo' : WorkOrder) :
  i <> j -> nth_error (assign i wo' l) j = nth_error l j.
Proof.
  revert i j. induction l as [|w l IH]; intros [|i] [|j] Hne; simpl; auto.
  - contradiction.
Qed.

Lemma assign_length (l : list WorkOrder) (i : nat) (wo' : WorkOrder) :
  List.length (assign i wo' l) = List.length l.
Proof.
  revert i. induction l as [|w l IH]; intros [|i]; simpl; auto.
Qed.

(** One turn of the loop: either nothing is written, or the work order at
    [i], which is not a maintenance order, gets new dates and one change
    is logged for it. *)
Lemma processWorkOrder_cases (workCenterMap : JsMap WorkCenter) (i : nat)
    (h h' : Heap) (r : result unit) :
  processWorkOrder workCenterMap i h = (h', r) ->
  h' = h
  \/ exists wo s e c,
       nth_error (workingCopies h) i = Some wo
       /\ isMaintenance (data wo) = false
       /\ calculateEarliestStartTime wo (workingCopies h) workCenterMap = Ok s
       /\ s <> startDate (data wo)
       /\ workOrderId c = docId wo
       /\ newStartDate c = s
       /\ originalStartDate c = startDate (data wo)
       /\ h' = {| callerWorkOrders := callerWorkOrders h;
                  workingCopies := assign i (reschedule wo s e) (workingCopies h);
                  changeLog := changeLog h ++ [c] |}.
Proof.
  unfold processWorkOrder.
  destruct (nth_error (workingCopies h) i) as [wo|] eqn:Hnth;
    [| intros H; inversion H; now left].
  destruct (isMaintenance (data wo)) eqn:Hm; [intros H; inversion H; now left |].
  destruct (calculateEarliestStartTime wo (workingCopies h) workCenterMap)
    as [s|err] eqn:Hs; [| intros H; inversion H; now left].
  destruct (String.eqb s (startDate (data wo))) eqn:Heq;
    [intros H; inversion H; now left |].
  destruct (map_get workCenterMap (workCenterId (data wo))) as [wc|];
    [| intros H; inversion H; now left].
  destruct (calculateEndDateWithShifts s (durationMinutes (data wo)) (shifts (data wc)))
    as [e|err]; [| intros H; inversion H; now left].
  intros H. inversion H; subst. right.
  apply String.eqb_neq in Heq.
  eexists wo, s, e, _. repeat split; try eassumption; reflexivity.
Qed.

Lemma processAll_frame (workCenterMap : JsMap WorkCenter) (sorted : list nat) :
  forall (h h' : Heap) (r : result unit),
    processAll workCenterMap sorted h = (h', r) ->
    callerWorkOrders h' = callerWorkOrders h
    /\ map strip (workingCopies h') = map strip (workingCopies h)
    /\ (forall j wo, nth_error (workingCopies h) j = Some wo ->
          isMaintenance (data wo) = true ->
          nth_error (workingCopies h') j = Some wo)
    /\ (forall c, In c (changeLog h') ->
          In c (changeLog h)
          \/ exists wo, In wo (workingCopies h) /\ isMaintenance (data wo) = false
                        /\ workOrderId c = docId wo).
Proof.
  induction sorted as [|i rest IH]; intros h h' r H; simpl in H.
  - inversion H; subst. repeat split; auto.
  - destruct (processWorkOrder workCenterMap i h) as [h1 r1] eqn:Hstep.
    assert (Hone : callerWorkOrders h1 = callerWorkOrders h
              /\ map strip (workingCopies h1) = map strip (workingCopies h)
              /\ (forall j wo, nth_error (workingCopies h) j = Some wo ->
                    isMaintenance (data wo) = true ->
                    nth_error (workingCopies h1) j = Some wo)
              /\ (forall c, In c (changeLog h1) ->
                    In c (changeLog h)
                    \/ exists wo, In wo (workingCopies h)
                         /\ isMaintenance (data wo) = false
                         /\ workOrderId c = docId wo)).
    { apply processWorkOrder_cases in Hstep.
      destruct Hstep as [-> | [wo [s [e [c [Hnth [Hm [_ [_ [Hid [_ [_ ->]]]]]]]]]]]].
      - repeat split; auto.
      - simpl. repeat split.
        + now apply assign_strip with (wo := wo).
        + intros j w Hj Hw. rewrite assign_nth_other; [exact Hj |].
          intros ->. rewrite Hnth in Hj. inversion Hj; subst. congruence.
        + intros c' Hc'. rewrite in_app_iff in Hc'.
          destruct Hc' as [Hc' | [<- | []]]; [now left |].
          right. exists wo. repeat split; auto. eapply nth_error_In; eauto. }
    destruct Hone as [Hc1 [Hs1 [Hm1 Hl1]]].
    assert (Hrest : exists r', processAll workCenterMap rest h1 = (h', r')
                    \/ h' = h1).
    { destruct r1 as [u|err].
      - exists r. now left.
      - exists r. right. now inversion H. }
    destruct Hrest as [r' [Hrest | ->]]; [| repeat split; auto].
    apply IH in Hrest. destruct Hrest as [Hc2 [Hs2 [Hm2 Hl2]]].
    repeat split.
    + congruence.
    + congruence.
    + auto.
    + intros c Hc. destruct (Hl2 c Hc) as [Hin | [wo [Hin [Hm Hid]]]]; [auto |].
      right.
      assert (Hex : exists wo0, In wo0 (workingCopies h) /\ strip wo0 = strip wo).
      { assert (Hin' : In (strip wo) (map strip (workingCopies h))).
        { rewrite <- Hs1. now apply in_map. }
        apply in_map_iff in Hin'. destruct Hin' as [wo0 [E Hin0]]. eauto. }
      destruct Hex as [wo0 [Hin0 E]]. exists wo0.
      assert (Eid : docId wo0 = docId wo) by (now injection E).
      assert (Em : isMaintenance (data wo0) = isMaintenance (data wo)).
      { unfold strip, reschedule in E. now injection E. }
      repeat split; congruence.
Qed.

Lemma NoDup_docId_inj (l : list WorkOrder) (a b : WorkOrder) :
  NoDup (map docId l) -> In a l -> In b l -> docId a = docId b -> a = b.
Proof.
  induction l as [|w l IH]; simpl; intros Hnd Ha Hb E; [destruct Ha |].
  inversion Hnd as [|? ? Hfresh Hnd']; subst.
  destruct Ha as [-> | Ha], Hb as [-> | Hb]; auto.
  - exfalso. apply Hfresh. rewrite E. now apply in_map.
  - exfalso. apply Hfresh. rewrite <- E. now apply in_map.
Qed.

(** ** Maintenance work orders *)

(** C5. When reflow returns, every maintenance work order of the input is
    in [updatedWorkOrders], at its place and with the dates of the input,
    and no change record carries its id. *)
Theorem maintenance_unchanged :
  forall (input : ReflowInput) (r : ReflowResult),
    reflow input = Ok r ->
    forall (j : nat) (wo : WorkOrder),
      nth_error (workOrders input) j = Some wo ->
      isMaintenance (data wo) = true ->
      nth_error (updatedWorkOrders r) j = Some wo
      /\ (forall c, In c (changes r) -> workOrderId c <> docId wo).
Proof.
  intros input r Hr j wo Hj Hm.
  apply reflowRun_Ok in Hr.
  destruct Hr as [sorted [h [Hsort [Hproc [_ [Hu [Hc _]]]]]]].
  apply processAll_frame in Hproc. simpl in Hproc.
  destruct Hproc as [_ [_ [Hkeep Hlog]]].
  rewrite Hu, Hc. split; [now apply Hkeep |].
  intros c Hin Hid. destruct (Hlog c Hin) as [[] | [wo' [Hin' [Hm' Hid']]]].
  apply topologicalSort_Ok in Hsort. destruct Hsort as [Hnd _].
  assert (E : wo' = wo).
  { apply (NoDup_docId_inj (workOrders input)); auto.
    - eapply nth_error_In; eauto.
    - congruence. }
  subst wo'. congruence.
Qed.

Example reflow_maintenanceInput :
  updatedOf (reflow maintenanceInput)
  = Ok [maintenanceOrder;
        mkWorkOrder "wo-d" "wc-1" "2026-02-10T15:00:00.000Z"
                    "2026-02-10T17:00:00.000Z" 120 false []].
Proof. vm_compute. reflexivity. Qed.

Lemma reflow_maintenanceResult : reflow maintenanceInput = Ok maintenanceResult.
Proof.
  unfold maintenanceResult.
  destruct (reflow maintenanceInput) as [r|e] eqn:H; [reflexivity |].
  vm_compute in H. discriminate H.
Qed.

Lemma maintenance_unchanged_witness :
  nth_error (updatedWorkOrders maintenanceResult) 0 = Some maintenanceOrder
  /\ (forall c, In c (changes maintenanceResult) ->
        workOrderId c <> docId maintenanceOrder).
Proof.
  apply (maintenance_unchanged maintenanceInput maintenanceResult
           reflow_maintenanceResult 0%nat maintenanceOrder); reflexivity.
Defined.

(** ** The returned schedule *)

Lemma no_overlap_disjoint (s1 e1 s2 e2 : string) (a0 a1 b0 b1 t : Z) :
  timeRangesOverlap s1 e1 s2 e2 = false ->
  fromISO s1 = Some a0 -> fromISO e1 = Some a1 ->
  fromISO s2 = Some b0 -> fromISO e2 = Some b1 ->
  ~ (a0 <= t < a1 /\ b0 <= t < b1).
Proof.
  intros Hno H1 H2 H3 H4 [Ha Hb].
  assert (Hov : timeRangesOverlap s1 e1 s2 e2 = true).
  { apply (timeRangesOverlap_instants s1 e1 s2 e2 a0 a1 b0 b1); auto. lia. }
  congruence.
Qed.

Lemma overlapsWithMaintenance_false (start end_ : string)
    (windows : list MaintenanceWindow) :
  overlapsWithMaintenance start end_ windows = false ->
  forall w, In w windows ->
    timeRangesOverlap start end_ (windowStartDate w) (windowEndDate w) = false.
Proof.
  intros H w Hw.
  destruct (timeRangesOverlap start end_ (windowStartDate w) (windowEndDate w)) eqn:E;
    [| reflexivity].
  assert (Ht : overlapsWithMaintenance start end_ windows = true).
  { apply overlapsWithMaintenance_exists. now exists w. }
  congruence.
Qed.

Lemma reflow_validated (input : ReflowInput) (r : ReflowResult) :
  reflow input = Ok r ->
  NoDup (map docId (updatedWorkOrders r))
  /\ map strip (updatedWorkOrders r) = map strip (workOrders input)
  /\ validateAll (updatedWorkOrders r) (workCenters input) = Ok [].
Proof.
  intros Hr. apply reflowRun_Ok in Hr.
  destruct Hr as [sorted [h [Hsort [Hproc [Hval [Hu _]]]]]].
  apply processAll_frame in Hproc. simpl in Hproc.
  destruct Hproc as [_ [Hstrip _]].
  apply topologicalSort_Ok in Hsort. destruct Hsort as [Hnd _].
  rewrite Hu. repeat split; auto.
  now rewrite (map_strip_docId _ _ Hstrip).
Qed.

(** X28. When reflow returns, in [updatedWorkOrders]: two work orders at
    different places of the list and on the same work center do not
    overlap, so that, where their four dates read as instants, no instant
    lies in both of their half-open intervals; and no work order overlaps
    a maintenance window of its work center. *)
Theorem reflow_result_no_overlap :
  forall (input : ReflowInput) (r : ReflowResult),
    reflow input = Ok r ->
    let U := updatedWorkOrders r in
    (forall l1 a l2 b l3, U = l1 ++ a :: l2 ++ b :: l3 ->
        workCenterId (data a) = workCenterId (data b) ->
        timeRangesOverlap (startDate (data a)) (endDate (data a))
                          (startDate (data b)) (endDate (data b)) = false
        /\ forall sa ea sb eb t,
             fromISO (startDate (data a)) = Some sa ->
             fromISO (endDate (data a)) = Some ea ->
             fromISO (startDate (data b)) = Some sb ->
             fromISO (endDate (data b)) = Some eb ->
             ~ (sa <= t < ea /\ sb <= t < eb))
    /\ (forall wo, In wo U ->
        exists wc, In wc (workCenters input)
          /\ docId wc = workCenterId (data wo)
          /\ forall w, In w (maintenanceWindows (data wc)) ->
               timeRangesOverlap (startDate (data wo)) (endDate (data wo))
                                 (windowStartDate w) (windowEndDate w) = false
               /\ forall s e ws we t,
                    fromISO (startDate (data wo)) = Some s ->
                    fromISO (endDate (data wo)) = Some e ->
                    fromISO (windowStartDate w) = Some ws ->
                    fromISO (windowEndDate w) = Some we ->
                    ~ (s <= t < e /\ ws <= t < we)).
Proof.
  intros input r Hr U.
  destruct (reflow_validated input r Hr) as [Hnd [_ Hval]]. fold U in Hnd, Hval.
  apply validateAll_nil in Hval. destruct Hval as [Hdeps [Hconf [Hshift Hmaint]]].
  repeat split.
  - destruct (validateWorkCenterConflicts_nil U Hconf l1 a l2 b l3 H H0) as [Hab _].
    exact Hab.
  - intros sa ea sb eb t H1 H2 H3 H4.
    destruct (validateWorkCenterConflicts_nil U Hconf l1 a l2 b l3 H H0) as [Hab _].
    now apply (no_overlap_disjoint _ _ _ _ sa ea sb eb t Hab).
  - intros wo Hwo.
    destruct (validateShiftBoundaries_nil U (workCenters input) Hshift wo Hwo)
      as [wc [Hget _]].
    pose proof (validateMaintenanceWindows_nil U (workCenters input) Hmaint wo wc
                  Hwo Hget) as Hno.
    destruct (workCenterMapOf_In _ _ _ Hget) as [Hin Hid].
    exists wc. repeat split; auto.
    + now apply (overlapsWithMaintenance_false _ _ _ Hno).
    + intros s e ws we t H1 H2 H3 H4.
      apply (no_overlap_disjoint (startDate (data wo)) (endDate (data wo))
               (windowStartDate w) (windowEndDate w) s e ws we t); auto.
      now apply (overlapsWithMaintenance_false _ _ _ Hno).
Qed.

Lemma reflow_result_no_overlap_witness :
  timeRangesOverlap "2026-02-10T13:00:00.000Z" "2026-02-10T15:00:00.000Z"
                    "2026-02-10T15:00:00.000Z" "2026-02-10T17:00:00.000Z" = false.
Proof.
  apply (proj1 (reflow_result_no_overlap maintenanceInput maintenanceResult
                  reflow_maintenanceResult)
               [] maintenanceOrder []
               (mkWorkOrder "wo-d" "wc-1" "2026-02-10T15:00:00.000Z"
                            "2026-02-10T17:00:00.000Z" 120 false []) []);
    reflexivity.
Defined.

(** C1. At the failing input, a parent on wc-1 that ends at 12:00:00.500Z
    and its child on wc-2 that starts at 12:00:00Z, reflow returns the
    two work orders as they are, with no change: the child starts half a
    second before its parent ends.  The two dates are compared as
    strings, where the comments of the scheduler and of the validator ask
    that all dependencies complete first. *)
Lemma reflow_returns_child_before_parent_end :
  updatedOf (reflow lateParentInput) = Ok [lateParent; earlyChild]
  /\ changesOf (reflow lateParentInput) = Ok []
  /\ In (docId lateParent) (dependsOnWorkOrderIds (data earlyChild))
  /\ fromISO (startDate (data earlyChild)) = Some 1770724800000
  /\ fromISO (endDate (data lateParent)) = Some 1770724800500.
Proof.
  repeat split; try (vm_compute; reflexivity). now left.
Qed.

(** ** Running reflow twice *)

(** C6, the counterexample. The first call leaves wo-a at 08:00 with its
    stored end 09:00 and puts wo-b at 09:00; the second call finds that
    the 120 minutes of wo-a from 08:00 run into wo-b and moves wo-a. *)
Lemma reflow_twice_changes :
  updatedOf (reflow staleEndInput) = Ok staleEndOnce
  /\ changesOf (reflow staleEndAgain)
     = Ok [{| workOrderId := "wo-a";
              changeWorkOrderNumber := "wo-a";
              originalStartDate := "2026-02-10T08:00:00.000Z";
              originalEndDate := "2026-02-10T09:00:00.000Z";
              newStartDate := "2026-02-10T10:00:00.000Z";
              newEndDate := "2026-02-10T12:00:00.000Z";
              delayMinutes := Some 180;
              reason := "Rescheduled for optimization" |}].
Proof. split; vm_compute; reflexivity. Qed.

(** The topological sort reads ids, numbers and dependencies only. *)

Lemma linkParents_strip (graph : Graph) (wo : WorkOrder) (ps : list string) :
  linkParents graph (strip wo) ps = linkParents graph wo ps.
Proof.
  revert graph. induction ps as [|p ps IH]; intros graph; simpl; [reflexivity |].
  destruct (map_get graph p); [apply IH | reflexivity].
Qed.

Lemma linkAll_strip (graph : Graph) (l : list WorkOrder) :
  linkAll graph (map strip l) = linkAll graph l.
Proof.
  revert graph. induction l as [|wo l IH]; intros graph; simpl; [reflexivity |].
  change (dependsOnWorkOrderIds (data (strip wo)))
    with (dependsOnWorkOrderIds (data wo)).
  rewrite linkParents_strip.
  destruct (linkParents graph wo (dependsOnWorkOrderIds (data wo))); simpl;
    [apply IH | reflexivity].
Qed.

Lemma initial_graph_strip (l : list WorkOrder) (g0 : Graph) :
  fold_left (fun g wo => map_set g (docId wo) (initialNode wo)) (map strip l) g0
  = fold_left (fun g wo => map_set g (docId wo) (initialNode wo)) l g0.
Proof.
  revert g0. induction l as [|wo l IH]; intros g0; simpl; [reflexivity |]. apply IH.
Qed.

Lemma buildDependencyGraph_strip (l : list WorkOrder) :
  buildDependencyGraph (map strip l) = buildDependencyGraph l.
Proof.
  unfold buildDependencyGraph. now rewrite initial_graph_strip, linkAll_strip.
Qed.

Lemma lastIndexOf_strip (id : string) (l : list WorkOrder) (i : nat) :
  lastIndexOf id (map strip l) i = lastIndexOf id l i.
Proof.
  revert i. induction l as [|wo l IH]; intros i; simpl; [reflexivity |].
  now rewrite IH.
Qed.

Lemma resolveAll_strip (ids : list string) (l : list WorkOrder) :
  resolveAll ids (map strip l) = resolveAll ids l.
Proof.
  induction ids as [|id ids IH]; simpl; [reflexivity |].
  now rewrite lastIndexOf_strip, IH.
Qed.

Lemma topologicalSort_strip (l : list WorkOrder) :
  topologicalSort (map strip l) = topologicalSort l.
Proof.
  unfold topologicalSort. rewrite buildDependencyGraph_strip.
  destruct (buildDependencyGraph l) as [graph|]; cbn [bind]; [| reflexivity].
  destruct (detectCycles graph) as [[e|]|]; cbn [bind]; try reflexivity.
  destruct (kahn (S (List.length graph)) graph (initialInDegree graph)
              (initialQueue (initialInDegree graph)) []) as [sorted|];
    cbn [bind]; [| reflexivity].
  now rewrite length_map, resolveAll_strip.
Qed.

Lemma topologicalSort_same_frame (l l' : list WorkOrder) :
  map strip l = map strip l' -> topologicalSort l = topologicalSort l'.
Proof.
  intros H. now rewrite <- (topologicalSort_strip l), H, topologicalSort_strip.
Qed.

Lemma validate_graph_strip (l l' : list WorkOrder) :
  map strip l = map strip l' ->
  buildDependencyGraph l = buildDependencyGraph l'.
Proof.
  intros H. now rewrite <- (buildDependencyGraph_strip l), H, buildDependencyGraph_strip.
Qed.

Lemma lastIndexOf_valid (id : string) (l : list WorkOrder) (k j : nat) :
  lastIndexOf id l k = Some j ->
  (k <= j)%nat /\ exists wo, nth_error l (j - k) = Some wo.
Proof.
  revert k. induction l as [|w l IH]; intros k; simpl; [discriminate |].
  destruct (lastIndexOf id l (S k)) as [j'|] eqn:E.
  - intros H. inversion H; subst. apply IH in E. destruct E as [Hle [wo Hwo]].
    split; [lia |]. exists wo.
    replace (j - k)%nat with (S (j - S k)) by lia. exact Hwo.
  - destruct (String.eqb (docId w) id); [| discriminate].
    intros H. inversion H; subst. split; [lia |]. exists w.
    now rewrite Nat.sub_diag.
Qed.

Lemma resolveAll_valid (ids : list string) (l : list WorkOrder) (idxs : list nat) :
  resolveAll ids l = Ok idxs ->
  forall i, In i idxs -> exists wo, nth_error l i = Some wo.
Proof.
  revert idxs. induction ids as [|id ids IH]; intros idxs; simpl.
  - intros H. inversion H. intros i [].
  - destruct (lastIndexOf id l 0) as [j|] eqn:E; [| discriminate].
    destruct (resolveAll ids l) as [rest|]; simpl; [| discriminate].
    intros H. inversion H; subst. intros i [<- | Hi].
    + apply lastIndexOf_valid in E. destruct E as [_ [wo Hwo]].
      exists wo. now rewrite Nat.sub_0_r in Hwo.
    + now apply (IH rest).
Qed.

Lemma topologicalSort_valid (l : list WorkOrder) (sorted : list nat) :
  topologicalSort l = Ok sorted ->
  forall i, In i sorted -> exists wo, nth_error l i = Some wo.
Proof.
  unfold topologicalSort. intros H.
  apply bind_Ok_inv in H. destruct H as [graph [_ H]].
  apply bind_Ok_inv in H. destruct H as [cycleError [_ H]].
  destruct cycleError; [discriminate |].
  apply bind_Ok_inv in H. destruct H as [ids [_ H]].
  destruct (Nat.eqb (List.length ids) (List.length l)); [| discriminate].
  now apply resolveAll_valid with (ids := ids).
Qed.

Lemma adjustToShiftStart_within (date : string) (wc : WorkCenter) :
  isWithinShiftHours date (shifts (data wc)) = true ->
  adjustToShiftStart date wc = Ok date.
Proof.
  unfold isWithinShiftHours, adjustToShiftStart.
  destruct (fromISO date) as [dt|]; [| discriminate].
  destruct (shiftOn (shifts (data wc)) dt) as [shift|]; [| discriminate].
  intros H. apply andb_true_iff in H. destruct H as [H1 H2].
  apply Z.leb_le in H1. apply Z.ltb_lt in H2.
  destruct (Z.ltb_spec (hour dt * 60 + minute dt) (startHour shift * 60)); [lia |].
  destruct (Z.leb_spec (endHour shift * 60) (hour dt * 60 + minute dt)); [lia |].
  reflexivity.
Qed.

Lemma latestParentEnd_cases (parents : list WorkOrder) (init : string) :
  let r := fold_left (fun latest parent =>
             if str_gt (endDate (data parent)) latest
             then endDate (data parent) else latest) parents init in
  r = init \/ exists p, In p parents /\ r = endDate (data p).
Proof.
  revert init. induction parents as [|p rest IH]; intros init; simpl; [now left |].
  destruct (IH (if str_gt (endDate (data p)) init then endDate (data p) else init))
    as [H | [q [Hq H]]].
  - destruct (str_gt (endDate (data p)) init).
    + right. exists p. split; [now left | exact H].
    + now left.
  - right. exists q. split; [now right | exact H].
Qed.

Lemma In_two_split {A : Type} (l : list A) (a b : A) :
  In a l -> In b l -> a <> b ->
  exists l1 l2 l3, l = l1 ++ a :: l2 ++ b :: l3 \/ l = l1 ++ b :: l2 ++ a :: l3.
Proof.
  intros Ha Hb Hne. apply in_split in Ha. destruct Ha as [l1 [l2 ->]].
  rewrite in_app_iff in Hb. simpl in Hb.
  destruct Hb as [Hb | [Hb | Hb]]; [| congruence |].
  - apply in_split in Hb. destruct Hb as [m1 [m2 ->]].
    exists m1, m2, l2. right. now rewrite <- app_assoc.
  - apply in_split in Hb. destruct Hb as [m1 [m2 ->]].
    exists l1, m1, m2. now left.
Qed.

Lemma filter_nil {A : Type} (p : A -> bool) (l : list A) :
  (forall x, In x l -> p x = false) -> filter p l = [].
Proof.
  induction l as [|a l IH]; simpl; intros H; [reflexivity |].
  rewrite (H a) by now left. apply IH. auto.
Qed.

(** On a validated schedule with consistent end dates, the earliest start
    of a work order is the start it has. *)
Lemma calculateEarliestStartTime_settled (U : list WorkOrder)
    (wcs : list WorkCenter) (wo : WorkOrder) :
  NoDup (map docId U) ->
  validateAll U wcs = Ok [] ->
  endDatesConsistent U wcs ->
  In wo U -> isMaintenance (data wo) = false ->
  calculateEarliestStartTime wo U (workCenterMapOf wcs) = Ok (startDate (data wo)).
Proof.
  intros Hnd Hval Hcons Hwo Hm.
  apply validateAll_nil in Hval. destruct Hval as [Hdeps [Hconf [Hshift Hmaint]]].
  destruct (validateShiftBoundaries_nil U wcs Hshift wo Hwo) as [wc [Hget [_ Hin]]].
  unfold calculateEarliestStartTime. rewrite Hget.
  assert (Hcand : match parentsOf wo U with
                  | [] => startDate (data wo)
                  | _ :: _ =>
                      if str_gt (latestParentEnd (parentsOf wo U)) (startDate (data wo))
                      then latestParentEnd (parentsOf wo U)
                      else startDate (data wo)
                  end = startDate (data wo)).
  { destruct (parentsOf wo U) as [|p ps] eqn:Hps; [reflexivity |].
    assert (Hle : str_gt (latestParentEnd (p :: ps)) (startDate (data wo)) = false).
    { destruct (latestParentEnd_cases (p :: ps) "") as [E | [q [Hq E]]];
        fold (latestParentEnd (p :: ps)) in E; rewrite E.
      - apply ltb_empty.
      - apply (validateDependencies_nil U Hdeps wo q Hwo).
        rewrite <- parentsOf_map by exact Hnd. now rewrite Hps. }
    now rewrite Hle. }
  rewrite Hcand. unfold findNextAvailableSlot.
  change (searchSlot 1000 (startDate (data wo)) wo U wc)
    with (do candidateStart <- adjustToShiftStart (startDate (data wo)) wc;
          do candidateEnd <- calculateEndDateWithShifts candidateStart
                               (durationMinutes (data wo)) (shifts (data wc));
          if isSlotAvailable candidateStart candidateEnd wo U wc
          then Ok candidateStart
          else
            do next <- findNextPotentialStart candidateStart candidateEnd wo U wc;
            searchSlot 999 next wo U wc).
  rewrite (adjustToShiftStart_within _ _ Hin). cbn [bind].
  rewrite (Hcons wo wc Hwo Hm Hget). cbn [bind].
  assert (Hfree : isSlotAvailable (startDate (data wo)) (endDate (data wo)) wo U wc
                  = true).
  { unfold isSlotAvailable. rewrite filter_nil.
    - now rewrite (validateMaintenanceWindows_nil U wcs Hmaint wo wc Hwo Hget).
    - intros w Hw. destruct (sameWorkCenterOther wo w) eqn:Hother; [| reflexivity].
      simpl. unfold sameWorkCenterOther in Hother.
      apply andb_true_iff in Hother. destruct Hother as [Hid Hwc].
      apply negb_true_iff, String.eqb_neq in Hid. apply String.eqb_eq in Hwc.
      assert (Hne : wo <> w) by (intros ->; now apply Hid).
      destruct (In_two_split U wo w Hwo Hw Hne) as [l1 [l2 [l3 [E | E]]]].
      + destruct (validateWorkCenterConflicts_nil U Hconf l1 wo l2 w l3 E
                    (eq_sym Hwc)) as [H _]. exact H.
      + destruct (validateWorkCenterConflicts_nil U Hconf l1 w l2 wo l3 E Hwc)
          as [_ H]. exact H. }
  now rewrite Hfree.
Qed.

Lemma processAll_settled (U : list WorkOrder) (wcs : list WorkCenter)
    (caller : list WorkOrder) (log : list WorkOrderChange) (sorted : list nat) :
  NoDup (map docId U) ->
  validateAll U wcs = Ok [] ->
  endDatesConsistent U wcs ->
  (forall i, In i sorted -> exists wo, nth_error U i = Some wo) ->
  processAll (workCenterMapOf wcs) sorted
    {| callerWorkOrders := caller; workingCopies := U; changeLog := log |}
  = ({| callerWorkOrders := caller; workingCopies := U; changeLog := log |}, Ok tt).
Proof.
  intros Hnd Hval Hcons. induction sorted as [|i rest IH]; intros Hvalid;
    [reflexivity |].
  simpl. destruct (Hvalid i (or_introl eq_refl)) as [wo Hnth].
  assert (Hstep : processWorkOrder (workCenterMapOf wcs) i
            {| callerWorkOrders := caller; workingCopies := U; changeLog := log |}
          = ({| callerWorkOrders := caller; workingCopies := U; changeLog := log |},
             Ok tt)).
  { unfold processWorkOrder. simpl. rewrite Hnth.
    destruct (isMaintenance (data wo)) eqn:Hm; [reflexivity |].
    rewrite (calculateEarliestStartTime_settled U wcs wo Hnd Hval Hcons
               (nth_error_In _ _ Hnth) Hm).
    now rewrite String.eqb_refl. }
  rewrite Hstep. apply IH. intros j Hj. apply Hvalid. now right.
Qed.

Lemma endDatesConsistentb_spec (U : list WorkOrder) (wcs : list WorkCenter) :
  endDatesConsistentb U wcs = true -> endDatesConsistent U wcs.
Proof.
  unfold endDatesConsistentb, endDatesConsistent. rewrite forallb_forall.
  intros H wo wc Hwo Hm Hget. specialize (H wo Hwo).
  unfold endDateConsistent in H. rewrite Hm, Hget in H. simpl in H.
  destruct (calculateEndDateWithShifts _ _ _) as [e|]; [| discriminate].
  apply String.eqb_eq in H. now subst.
Qed.

(** C6, as the code has it. When reflow succeeds and every work order of
    the result that is not a maintenance order has the endDate that
    [calculateEndDateWithShifts] gives for its startDate and duration,
    running reflow again on the result, with the original work centers and
    manufacturing orders, succeeds with an empty list of changes and the
    same work orders. *)
Theorem reflow_idempotent_on_consistent_ends :
  forall (input : ReflowInput) (r : ReflowResult),
    reflow input = Ok r ->
    endDatesConsistentb (updatedWorkOrders r) (workCenters input) = true ->
    exists r', reflow (rerunOf input r) = Ok r'
               /\ changes r' = []
               /\ updatedWorkOrders r' = updatedWorkOrders r.
Proof.
  intros input r Hr Hcons. apply endDatesConsistentb_spec in Hcons.
  destruct (reflow_validated input r Hr) as [Hnd [Hstrip Hval]].
  apply reflowRun_Ok in Hr. destruct Hr as [sorted [h [Hsort _]]].
  rewrite <- (topologicalSort_same_frame _ _ Hstrip) in Hsort.
  pose proof (topologicalSort_valid _ _ Hsort) as Hvalid.
  unfold reflow, reflowRun, rerunOf. cbn [workOrders workCenters workingCopies].
  rewrite Hsort.
  rewrite (processAll_settled (updatedWorkOrders r) (workCenters input)
             (updatedWorkOrders r) [] sorted Hnd Hval Hcons Hvalid).
  cbn [workingCopies]. rewrite Hval. cbn [snd changeLog workingCopies].
  eexists. repeat split.
Qed.

Lemma reflow_cascadeResult : reflow cascadeInput = Ok cascadeResult.
Proof.
  unfold cascadeResult.
  destruct (reflow cascadeInput) as [r|e] eqn:H; [reflexivity |].
  vm_compute in H. discriminate H.
Qed.

Lemma reflow_idempotent_on_consistent_ends_witness :
  exists r', reflow (rerunOf cascadeInput cascadeResult) = Ok r'
             /\ changes r' = []
             /\ updatedWorkOrders r' = updatedWorkOrders cascadeResult.
Proof.
  apply (reflow_idempotent_on_consistent_ends cascadeInput cascadeResult
           reflow_cascadeResult).
  vm_compute. reflexivity.
Defined.

(** ** Cycle detection *)

Lemma whites_set_white (colors : JsMap color) (k : string) (c : color) :
  map_get colors k = Some WHITE -> isWhite c = false ->
  S (whites (map_set colors k c)) = whites colors.
Proof.
  unfold whites. induction colors as [|[k' c'] colors IH]; simpl; [discriminate |].
  destruct (String.eqb k' k) eqn:E; simpl.
  - intros H Hc. inversion H; subst. simpl. now rewrite Hc.
  - intros H Hc. destruct (isWhite c'); simpl; rewrite <- (IH H Hc); reflexivity.
Qed.

Lemma whites_set_other (colors : JsMap color) (k : string) (c0 c : color) :
  map_get colors k = Some c0 -> isWhite c0 = false -> isWhite c = false ->
  whites (map_set colors k c) = whites colors.
Proof.
  unfold whites. induction colors as [|[k' c'] colors IH]; simpl; [discriminate |].
  destruct (String.eqb k' k) eqn:E; simpl.
  - intros H H0 Hc. inversion H; subst. now rewrite H0, Hc.
  - intros H H0 Hc. destruct (isWhite c'); simpl; now rewrite (IH H H0 Hc).
Qed.

Lemma whites_pos (colors : JsMap color) (k : string) :
  map_get colors k = Some WHITE -> (1 <= whites colors)%nat.
Proof.
  intros H. rewrite <- (whites_set_white colors k GRAY H eq_refl). lia.
Qed.

Lemma whites_le_length (colors : JsMap color) :
  (whites colors <= List.length colors)%nat.
Proof. unfold whites. apply filter_length_le. Qed.

Lemma blackened_refl (colors : JsMap color) : blackened colors colors.
Proof. repeat split; auto. Qed.

Lemma blackened_trans (c1 c2 c3 : JsMap color) :
  blackened c1 c2 -> blackened c2 c3 -> blackened c1 c3.
Proof.
  intros [K1 [W1 [N1 B1]]] [K2 [W2 [N2 B2]]]. repeat split.
  - congruence.
  - lia.
  - intros k c H Hc. apply N2; auto.
  - intros k H. destruct (B1 k H) as [H' | H'].
    + auto.
    + right. apply N2; [exact H' | discriminate].
Qed.

Lemma blackClosed_reach (graph : Graph) (colors : JsMap color) (x y : string) :
  blackClosed graph colors -> map_get colors x = Some BLACK ->
  reach graph x y -> map_get colors y = Some BLACK.
Proof.
  intros Hc Hx Hr. induction Hr as [x p He | x p y He Hr IH].
  - eapply Hc; eauto.
  - apply IH. eapply Hc; eauto.
Qed.

(** Colouring a white node gray keeps the black nodes as they are. *)
Lemma gray_keeps_black (graph : Graph) (colors : JsMap color) (v : string) :
  map_get colors v = Some WHITE ->
  blackClosed graph colors -> blackAcyclic graph colors ->
  blackClosed graph (map_set colors v GRAY)
  /\ blackAcyclic graph (map_set colors v GRAY).
Proof.
  intros Hv Hc Ha.
  assert (Hb : forall x, map_get (map_set colors v GRAY) x = Some BLACK ->
                         x <> v /\ map_get colors x = Some BLACK).
  { intros x Hx. destruct (string_dec v x) as [<- | Hne].
    - rewrite map_get_set_eq in Hx. discriminate.
    - rewrite map_get_set_ne in Hx by exact Hne. split; [congruence | exact Hx]. }
  split.
  - intros x p Hx He. destruct (Hb x Hx) as [_ Hx'].
    pose proof (Hc x p Hx' He) as Hp.
    destruct (string_dec v p) as [<- | Hne]; [congruence |].
    now rewrite map_get_set_ne.
  - intros x Hx. destruct (Hb x Hx) as [_ Hx']. now apply Ha.
Qed.

(** Colouring a gray node black, once all its parents are black. *)
Lemma finish_keeps_closed (graph : Graph) (colors : JsMap color) (v : string) :
  map_get colors v = Some GRAY ->
  (forall p, edge graph v p -> map_get colors p = Some BLACK) ->
  blackClosed graph colors -> blackAcyclic graph colors ->
  blackClosed graph (map_set colors v BLACK)
  /\ blackAcyclic graph (map_set colors v BLACK).
Proof.
  intros Hv Hparents Hc Ha.
  assert (Hkeep : forall x, map_get colors x = Some BLACK ->
                            map_get (map_set colors v BLACK) x = Some BLACK).
  { intros x Hx. destruct (string_dec v x) as [<- | Hne].
    - apply map_get_set_eq.
    - now rewrite map_get_set_ne. }
  assert (Hself : ~ reach graph v v).
  { intros Hr.
    assert (Hfirst : exists p, edge graph v p /\ (p = v \/ reach graph p v)).
    { inversion Hr; subst; eauto. }
    destruct Hfirst as [p [He [-> | Hpv]]].
    - rewrite (Hparents v He) in Hv. discriminate.
    - pose proof (blackClosed_reach graph colors p v Hc (Hparents p He) Hpv) as Hb.
      rewrite Hb in Hv. discriminate. }
  split.
  - intros x p Hx He. apply Hkeep.
    destruct (string_dec v x) as [<- | Hne].
    + now apply Hparents.
    + rewrite map_get_set_ne in Hx by exact Hne. eapply Hc; eauto.
  - intros x Hx. destruct (string_dec v x) as [<- | Hne]; [exact Hself |].
    rewrite map_get_set_ne in Hx by exact Hne. now apply Ha.
Qed.

Lemma visitParents_good (graph : Graph) (fuel : nat) (v : string)
    (path1 : list string) :
  (forall p colors,
      map_keys colors = map_keys graph -> map_get colors p = Some WHITE ->
      blackClosed graph colors -> blackAcyclic graph colors ->
      (whites colors <= fuel)%nat ->
      dfsGood graph colors p (dfs fuel graph p colors path1)) ->
  forall ps colors,
    map_keys colors = map_keys graph -> map_get colors v = Some GRAY ->
    blackClosed graph colors -> blackAcyclic graph colors ->
    (whites colors <= fuel)%nat ->
    (forall p, In p ps -> In p (map_keys graph)) ->
    (forall p, edge graph v p -> map_get colors p = Some BLACK \/ In p ps) ->
    visitGood graph colors v
      (visitParents (fun p c => dfs fuel graph p c path1) v path1 ps colors).
Proof.
  intros Hrec. induction ps as [|p ps IH];
    intros colors Hkeys Hv Hclosed Hacyc Hfuel Hps Hcover; simpl.
  - exists colors. split; [apply blackened_refl |]. split; [exact Hv |].
    split; [reflexivity |].
    apply finish_keeps_closed; auto.
    intros p He. destruct (Hcover p He) as [H | []]. exact H.
  - assert (Hin : In p (map_keys colors)).
    { rewrite Hkeys. apply Hps. now left. }
    apply map_keys_In_get in Hin. destruct Hin as [col Hp]. rewrite Hp.
    destruct col.
    + specialize (Hrec p colors Hkeys Hp Hclosed Hacyc Hfuel).
      destruct (dfs fuel graph p colors path1) as [cyc | colors2 | e];
        simpl in Hrec; [exact I | | exact Hrec].
      destruct Hrec as [Hbl [Hpb [Hc2 Ha2]]].
      pose proof Hbl as [K2 [W2 [N2 B2]]].
      assert (Hgo : visitGood graph colors2 v
                (visitParents (fun p c => dfs fuel graph p c path1) v path1 ps colors2)).
      { apply IH; auto.
        - congruence.
        - apply N2; [exact Hv | discriminate].
        - lia.
        - intros q Hq. apply Hps. now right.
        - intros q He. destruct (Hcover q He) as [H | [<- | H]].
          + left. apply N2; [exact H | discriminate].
          + now left.
          + now right. }
      destruct (visitParents _ v path1 ps colors2) as [cyc | colors3 | e];
        simpl in *; auto.
      destruct Hgo as [last [Hbl3 Hrest]]. exists last.
      split; [eapply blackened_trans; eauto | exact Hrest].
    + exact I.
    + apply IH; auto.
      * intros q Hq. apply Hps. now right.
      * intros q He. destruct (Hcover q He) as [H | [<- | H]]; auto.
Qed.

Lemma dfs_good (graph : Graph) :
  wellFormedGraph graph ->
  forall fuel v colors path,
    map_keys colors = map_keys graph -> map_get colors v = Some WHITE ->
    blackClosed graph colors -> blackAcyclic graph colors ->
    (whites colors <= fuel)%nat ->
    dfsGood graph colors v (dfs fuel graph v colors path).
Proof.
  intros Hwf. induction fuel as [|fuel IH];
    intros v colors path Hkeys Hv Hclosed Hacyc Hfuel.
  - pose proof (whites_pos colors v Hv). lia.
  - simpl.
    assert (Hin : In v (map_keys graph)).
    { rewrite <- Hkeys. eapply map_get_Some_keys; eauto. }
    apply map_keys_In_get in Hin. destruct Hin as [node Hnode]. rewrite Hnode.
    destruct (gray_keeps_black graph colors v Hv Hclosed Hacyc) as [Hc1 Ha1].
    pose proof (whites_set_white colors v GRAY Hv eq_refl) as Hw1.
    assert (Hk1 : map_keys (map_set colors v GRAY) = map_keys graph).
    { rewrite map_keys_set_present; [exact Hkeys |].
      eapply map_get_Some_keys; eauto. }
    pose proof (visitParents_good graph fuel v (path ++ [v])
                  (fun p c => IH p c (path ++ [v]))
                  (parents node) (map_set colors v GRAY) Hk1
                  (map_get_set_eq _ colors v GRAY) Hc1 Ha1) as Hvisit.
    assert (Hgo : visitGood graph (map_set colors v GRAY) v
              (visitParents (fun p c => dfs fuel graph p c (path ++ [v])) v
                 (path ++ [v]) (parents node) (map_set colors v GRAY))).
    { apply Hvisit.
      - lia.
      - intros p Hp. apply (Hwf v p). now exists node.
      - intros p [node' [Hn' Hp]]. right. congruence. }
    destruct (visitParents _ v (path ++ [v]) (parents node) (map_set colors v GRAY))
      as [cyc | colors' | e]; simpl in *; auto.
    destruct Hgo as [last [[K [W [N B]]] [Hlast [-> [Hc' Ha']]]]].
    repeat split; auto.
    + rewrite map_keys_set_present by (eapply map_get_Some_keys; eauto).
      rewrite K. apply map_keys_set_present. eapply map_get_Some_keys; eauto.
    + rewrite (whites_set_other last v GRAY BLACK Hlast eq_refl eq_refl). lia.
    + intros k c Hk Hc.
      assert (Hne : v <> k) by (intros <-; congruence).
      rewrite map_get_set_ne by exact Hne. apply N; [| exact Hc].
      now rewrite map_get_set_ne.
    + intros k Hk. destruct (string_dec v k) as [<- | Hne].
      * right. apply map_get_set_eq.
      * rewrite map_get_set_ne by exact Hne. apply B.
        now rewrite map_get_set_ne.
    + apply map_get_set_eq.
Qed.

Lemma blackened_noGray (colors colors' : JsMap color) :
  blackened colors colors' -> noGray colors -> noGray colors'.
Proof.
  intros [K [_ [N B]]] Hng k Hk.
  assert (Hin : In k (map_keys colors)).
  { rewrite <- K. eapply map_get_Some_keys; eauto. }
  apply map_keys_In_get in Hin. destruct Hin as [c Hc].
  destruct c.
  - destruct (B k Hc); congruence.
  - now apply (Hng k).
  - rewrite (N k BLACK Hc) in Hk; discriminate.
Qed.

Lemma scanNodes_good (graph : Graph) :
  wellFormedGraph graph ->
  forall ids colors,
    map_keys colors = map_keys graph -> noGray colors ->
    blackClosed graph colors -> blackAcyclic graph colors ->
    (forall id, In id ids -> In id (map_keys graph)) ->
    scanGood graph colors ids (scanNodes graph ids colors).
Proof.
  intros Hwf. induction ids as [|id ids IH];
    intros colors Hkeys Hng Hclosed Hacyc Hids; simpl.
  - exists colors. repeat split; auto. intros id [].
  - assert (Hin : In id (map_keys colors)).
    { rewrite Hkeys. apply Hids. now left. }
    apply map_keys_In_get in Hin. destruct Hin as [c Hc]. rewrite Hc.
    assert (Hrest : forall i, In i ids -> In i (map_keys graph)).
    { intros i Hi. apply Hids. now right. }
    destruct c.
    + assert (Hfuel : (whites colors <= List.length graph)%nat).
      { pose proof (whites_le_length colors) as Hle.
        assert (E : List.length colors = List.length graph).
        { unfold map_keys in Hkeys.
          rewrite <- (length_map fst colors), Hkeys. apply length_map. }
        lia. }
      pose proof (dfs_good graph Hwf (List.length graph) id colors [] Hkeys Hc
                    Hclosed Hacyc Hfuel) as Hd.
      destruct (dfs (List.length graph) graph id colors []) as [cyc | colors2 | e];
        simpl in Hd; [exact I | | exact Hd].
      destruct Hd as [Hbl [Hb [Hc2 Ha2]]].
      pose proof Hbl as [K2 [_ [N2 _]]].
      assert (Hgo : scanGood graph colors2 ids (scanNodes graph ids colors2)).
      { apply IH; auto.
        - congruence.
        - eapply blackened_noGray; eauto. }
      destruct (scanNodes graph ids colors2) as [[err|]|e]; simpl in *; auto.
      destruct Hgo as [colors' [Hbl' [Hng' [Hc' [Ha' Hall]]]]].
      exists colors'. repeat split; auto; try (apply (blackened_trans _ _ _ Hbl Hbl')).
      intros i [<- | Hi]; [| now apply Hall].
      destruct Hbl' as [_ [_ [N3 _]]]. apply N3; [exact Hb | discriminate].
    + exfalso. now apply (Hng id).
    + pose proof (IH colors Hkeys Hng Hclosed Hacyc Hrest) as Hgo.
      destruct (scanNodes graph ids colors) as [[err|]|e]; simpl in *; auto.
      destruct Hgo as [colors' [Hbl' [Hng' [Hc' [Ha' Hall]]]]].
      exists colors'. repeat split; auto; try apply Hbl'.
      intros i [<- | Hi]; [| now apply Hall].
      destruct Hbl' as [_ [_ [N3 _]]]. apply N3; [exact Hc | discriminate].
Qed.

Lemma all_white_get (graph : Graph) (k : string) (c : color) :
  map_get (map (fun e => (fst e, WHITE)) graph) k = Some c -> c = WHITE.
Proof.
  induction graph as [|[k' n] graph IH]; simpl; [discriminate |].
  destruct (String.eqb k' k); [congruence | exact IH].
Qed.

(** The search never gets stuck, and when it reports no cycle the graph
    has none. *)
Lemma detectCycles_sound (graph : Graph) :
  wellFormedGraph graph ->
  match detectCycles graph with
  | Throw _ => False
  | Ok (Some _) => True
  | Ok None => forall x, ~ reach graph x x
  end.
Proof.
  intros Hwf. unfold detectCycles.
  set (colors := map (fun e => (fst e, WHITE)) graph : JsMap color).
  assert (Hkeys : map_keys colors = map_keys graph).
  { unfold colors, map_keys. rewrite map_map. reflexivity. }
  assert (Hwhite : forall k c, map_get colors k = Some c -> c = WHITE)
    by (intros k c; apply all_white_get).
  pose proof (scanNodes_good graph Hwf (map_keys colors) colors Hkeys) as Hs.
  assert (Hgo : scanGood graph colors (map_keys colors)
                  (scanNodes graph (map_keys colors) colors)).
  { apply Hs.
    - intros k Hk. apply Hwhite in Hk. discriminate.
    - intros x p Hx. apply Hwhite in Hx. discriminate.
    - intros x Hx. apply Hwhite in Hx. discriminate.
    - intros id Hid. now rewrite <- Hkeys. }
  destruct (scanNodes graph (map_keys colors) colors) as [[err|]|e]; simpl in *; auto.
  destruct Hgo as [colors' [_ [_ [_ [Hacyc Hall]]]]].
  intros x Hr. apply (Hacyc x); [| exact Hr]. apply Hall.
  rewrite Hkeys.
  assert (He : exists p, edge graph x p) by (inversion Hr; subst; eauto).
  destruct He as [p [node [Hnode _]]]. eapply map_get_Some_keys; eauto.
Qed.

(** ** The graph of a list of work orders *)

Lemma fold_left_map_entries {A V : Type} (h : A -> string * V) (l : list A)
    (m0 : JsMap V) :
  fold_left (fun m e => map_set m (fst e) (snd e)) (map h l) m0
  = fold_left (fun m x => map_set m (fst (h x)) (snd (h x))) l m0.
Proof.
  revert m0. induction l as [|x l IH]; intros m0; simpl; [reflexivity | apply IH].
Qed.

Lemma initial_graph_get (workOrders : list WorkOrder) (k : string)
    (node : DependencyNode) :
  map_get (fold_left (fun g wo => map_set g (docId wo) (initialNode wo))
                     workOrders []) k = Some node ->
  exists wo, In wo workOrders /\ docId wo = k /\ node = initialNode wo.
Proof.
  intros H.
  change (fold_left (fun g wo => map_set g (docId wo) (initialNode wo)) workOrders [])
    with (fold_left (fun m x => map_set m (fst (docId x, initialNode x))
                                        (snd (docId x, initialNode x)))
                    workOrders ([] : Graph)) in H.
  rewrite <- (fold_left_map_entries (fun wo => (docId wo, initialNode wo))) in H.
  apply map_of_get_In in H. destruct H as [H | H]; [| discriminate].
  apply in_map_iff in H. destruct H as [wo [E Hin]]. inversion E; subst. eauto.
Qed.

Lemma initial_graph_get_unique (workOrders : list WorkOrder) (wo : WorkOrder) :
  NoDup (map docId workOrders) -> In wo workOrders ->
  map_get (fold_left (fun g w => map_set g (docId w) (initialNode w))
                     workOrders []) (docId wo) = Some (initialNode wo).
Proof.
  intros Hnd Hin.
  change (fold_left (fun g w => map_set g (docId w) (initialNode w)) workOrders [])
    with (fold_left (fun m x => map_set m (fst (docId x, initialNode x))
                                        (snd (docId x, initialNode x)))
                    workOrders ([] : Graph)).
  rewrite <- (fold_left_map_entries (fun w => (docId w, initialNode w))).
  apply map_of_get_last.
  - now rewrite map_map.
  - apply in_map_iff. now exists wo.
Qed.

Lemma buildDependencyGraph_edges (workOrders : list WorkOrder) (graph : Graph) :
  buildDependencyGraph workOrders = Ok graph ->
  (forall x p, edge graph x p -> dependsOn workOrders x p)
  /\ (NoDup (map docId workOrders) ->
      forall x p, dependsOn workOrders x p -> edge graph x p).
Proof.
  unfold buildDependencyGraph. intros H. apply linkAll_keys in H.
  destruct H as [_ [_ Hpar]]. split.
  - intros x p [node [Hnode Hp]]. specialize (Hpar x). rewrite Hnode in Hpar.
    destruct (map_get (fold_left (fun g wo => map_set g (docId wo) (initialNode wo))
                                 workOrders []) x) as [n0|] eqn:H0;
      [| discriminate].
    apply initial_graph_get in H0. destruct H0 as [wo [Hin [Hid ->]]].
    simpl in Hpar. inversion Hpar as [E]. exists wo. rewrite <- E. auto.
  - intros Hnd x p [wo [Hin [Hid Hp]]]. subst x. specialize (Hpar (docId wo)).
    rewrite (initial_graph_get_unique workOrders wo Hnd Hin) in Hpar.
    destruct (map_get graph (docId wo)) as [node|] eqn:Hnode; [| discriminate].
    simpl in Hpar. inversion Hpar as [E]. exists node. split; [exact Hnode |].
    now rewrite E.
Qed.

Lemma buildDependencyGraph_wellFormed (workOrders : list WorkOrder) (graph : Graph) :
  buildDependencyGraph workOrders = Ok graph -> wellFormedGraph graph.
Proof.
  intros H x p He.
  destruct (buildDependencyGraph_edges _ _ H) as [Hdep _].
  destruct (buildDependencyGraph_keys _ _ H) as [_ [Hiff [Hex _]]].
  destruct (Hdep x p He) as [wo [Hin [_ Hp]]]. apply Hiff. eauto.
Qed.

Lemma linkParents_total (graph : Graph) (wo : WorkOrder) (ps : list string) :
  (forall p, In p ps -> In p (map_keys graph)) ->
  exists graph', linkParents graph wo ps = Ok graph'.
Proof.
  revert graph. induction ps as [|p ps IH]; intros graph Hps; simpl; [eauto |].
  assert (Hin : In p (map_keys graph)) by (apply Hps; now left).
  destruct (map_keys_In_get _ graph p Hin) as [node Hnode]. rewrite Hnode.
  apply IH. intros q Hq. rewrite map_keys_set_present by exact Hin.
  apply Hps. now right.
Qed.

Lemma linkAll_total (graph : Graph) (l : list WorkOrder) :
  (forall wo p, In wo l -> In p (dependsOnWorkOrderIds (data wo)) ->
     In p (map_keys graph)) ->
  exists graph', linkAll graph l = Ok graph'.
Proof.
  revert graph. induction l as [|wo l IH]; intros graph H; simpl; [eauto |].
  destruct (linkParents_total graph wo (dependsOnWorkOrderIds (data wo)))
    as [g1 Hg1]; [intros p Hp; apply (H wo p); auto; now left |].
  rewrite Hg1. cbn [bind]. apply IH.
  apply linkParents_keys in Hg1. destruct Hg1 as [Hk _].
  intros w p Hw Hp. rewrite Hk. apply (H w p); auto. now right.
Qed.

Lemma allDependenciesExist_spec (workOrders : list WorkOrder) :
  allDependenciesExist workOrders = true ->
  forall wo p, In wo workOrders -> In p (dependsOnWorkOrderIds (data wo)) ->
    In p (map docId workOrders).
Proof.
  unfold allDependenciesExist. rewrite forallb_forall. intros H wo p Hwo Hp.
  specialize (H wo Hwo). rewrite forallb_forall in H. specialize (H p Hp).
  apply existsb_exists in H. destruct H as [w [Hw E]].
  apply String.eqb_eq in E. subst p. now apply in_map.
Qed.

Lemma buildDependencyGraph_total (workOrders : list WorkOrder) :
  allDependenciesExist workOrders = true ->
  exists graph, buildDependencyGraph workOrders = Ok graph.
Proof.
  intros H. unfold buildDependencyGraph. apply linkAll_total.
  intros wo p Hwo Hp. apply initial_graph_keys. right.
  eapply allDependenciesExist_spec; eauto.
Qed.

Lemma chain_reach (workOrders : list WorkOrder) (graph : Graph) :
  (forall x p, dependsOn workOrders x p -> edge graph x p) ->
  forall a b, dependsOnChain workOrders a b -> reach graph a b.
Proof.
  intros H a b Hc. induction Hc as [a b Hd | a b c Hd Hc IH].
  - apply reach_one. auto.
  - eapply reach_more; eauto.
Qed.

Lemma kahn_total (graph : Graph) :
  forall fuel inDegree queue sorted,
    kahnInv graph inDegree queue sorted ->
    (List.length (map_keys graph) < fuel + List.length sorted)%nat ->
    exists result, kahn fuel graph inDegree queue sorted = Ok result.
Proof.
  induction fuel as [|fuel IH]; intros inDegree queue sorted Hinv Hfuel.
  - destruct queue as [|id queue]; simpl; [eauto |].
    exfalso. destruct Hinv as [Hnd [Hdeg Hkeys]].
    assert (Hincl : incl (sorted ++ id :: queue) (map_keys graph)).
    { intros x Hx. destruct (Hdeg x Hx) as [d [Hd _]]. eauto. }
    pose proof (NoDup_incl_length Hnd Hincl) as Hlen.
    rewrite length_app in Hlen. simpl in Hlen, Hfuel. lia.
  - destruct queue as [|id queue]; simpl; [eauto |].
    pose proof Hinv as [Hnd [Hdeg Hkeys]].
    assert (Hid : In id (map_keys graph)).
    { destruct (Hdeg id) as [d [Hd _]]; [| eauto].
      rewrite in_app_iff. right. now left. }
    destruct (map_keys_In_get _ graph id Hid) as [node Hnode]. rewrite Hnode.
    destruct (releaseChildren (children node) inDegree queue)
      as [inDegree' queue'] eqn:Hrel.
    apply IH.
    + pose proof (releaseChildren_inv graph (sorted ++ [id]) (children node)
                    inDegree queue) as Hstep.
      rewrite Hrel in Hstep. apply Hstep. repeat split.
      * now rewrite <- app_assoc.
      * intros x Hx. apply Hdeg. now rewrite <- app_assoc in Hx.
      * exact Hkeys.
    + rewrite length_app. simpl. lia.
Qed.

(** The sort of work orders with a cycle, when every dependency exists. *)
Lemma topologicalSort_cycle (l : list WorkOrder) :
  allDependenciesExist l = true -> hasCycle l ->
  exists e, topologicalSort l = Throw e
            /\ (e = CircularDependency \/ e = TopologicalSortFailed)
            /\ (NoDup (map docId l) -> e = CircularDependency).
Proof.
  intros Hdeps [a Hcycle]. unfold topologicalSort.
  destruct (buildDependencyGraph_total l Hdeps) as [graph Hg]. rewrite Hg.
  cbn [bind].
  pose proof (detectCycles_sound graph (buildDependencyGraph_wellFormed l graph Hg))
    as Hsound.
  destruct (detectCycles graph) as [[err|]|e]; cbn [bind].
  - exists CircularDependency. auto.
  - destruct (buildDependencyGraph_edges l graph Hg) as [_ Hedge].
    destruct (buildDependencyGraph_keys l graph Hg) as [Hnd [_ [_ [Hlen Hle]]]].
    assert (Hdup : ~ NoDup (map docId l)).
    { intros Hn. apply (Hsound a). apply (chain_reach l graph (Hedge Hn)). exact Hcycle. }
    destruct (kahn_total graph (S (List.length graph)) (initialInDegree graph)
                (initialQueue (initialInDegree graph)) []
                (kahnInv_initial graph Hnd)) as [sorted Hk].
    { unfold map_keys. rewrite length_map. simpl. lia. }
    rewrite Hk. cbn [bind].
    apply (kahn_inv graph _ _ _ _ _ (kahnInv_initial graph Hnd)) in Hk.
    destruct Hk as [Hs Hincl].
    pose proof (NoDup_incl_length Hs Hincl) as Hl.
    unfold map_keys in Hl. rewrite length_map in Hl.
    destruct (Nat.eqb (List.length sorted) (List.length l)) eqn:E.
    + apply Nat.eqb_eq in E. exfalso. apply Hdup. apply Hlen. lia.
    + exists TopologicalSortFailed. repeat split; auto. intros Hn. contradiction.
  - contradiction.
Qed.

(** C3, as the code has it. For every input whose dependencies all name
    existing work orders and whose work orders contain a dependency
    cycle, reflow throws before the scheduling loop starts: the working
    copies and the caller's work orders are as they were and no change is
    logged. The error is the circular-dependency error of the cycle
    search when the docIds are distinct, and otherwise that one or the
    cycle error of the topological sort. *)
Theorem cycle_rejected_before_scheduling :
  forall input : ReflowInput,
    allDependenciesExist (workOrders input) = true ->
    hasCycle (workOrders input) ->
    exists e, reflowRun input = (untouched input, Throw e)
              /\ (e = CircularDependency \/ e = TopologicalSortFailed)
              /\ (NoDup (map docId (workOrders input)) -> e = CircularDependency).
Proof.
  intros input Hdeps Hcycle.
  destruct (topologicalSort_cycle (workOrders input) Hdeps Hcycle)
    as [e [Hsort He]].
  exists e. split; [| exact He].
  unfold reflowRun. cbn [workingCopies]. now rewrite Hsort.
Qed.

Lemma mutualInput_hasCycle : hasCycle (workOrders mutualInput).
Proof.
  exists "wo-1". apply chain_more with (b := "wo-2").
  - eexists. split; [left; reflexivity |]. split; [reflexivity | now left].
  - apply chain_one. eexists. split; [right; left; reflexivity |].
    split; [reflexivity | now left].
Qed.

Lemma cycle_rejected_before_scheduling_witness :
  exists e, reflowRun mutualInput = (untouched mutualInput, Throw e)
            /\ (e = CircularDependency \/ e = TopologicalSortFailed)
            /\ (NoDup (map docId (workOrders mutualInput)) -> e = CircularDependency).
Proof.
  apply (cycle_rejected_before_scheduling mutualInput).
  - reflexivity.
  - exact mutualInput_hasCycle.
Defined.

Example reflow_mutualInput :
  reflowRun mutualInput = (untouched mutualInput, Throw CircularDependency).
Proof. vm_compute. reflexivity. Qed.

(** C3, the counterexample. A work order that depends on itself and on a
    missing id is rejected for the missing id, not for the cycle. *)
Lemma cycle_with_dangling_dependency :
  hasCycle (workOrders ghostInput)
  /\ reflow ghostInput = Throw (DanglingDependency "wo-1" "ghost").
Proof.
  split.
  - exists "wo-1". apply chain_one. eexists.
    split; [left; reflexivity |]. split; [reflexivity | now left].
  - vm_compute. reflexivity.
Qed.

(** ** Working time and the end of a work order *)

Example workingMs_monday_afternoon :
  workingMs weekShifts 1770652800000 1770714000000 = 2 * msPerHour.
Proof. reflexivity. Qed.

Lemma msPerDay_pos : 0 < msPerDay.
Proof. reflexivity. Qed.

Lemma startOfDay_dayIndex (t : Z) : startOfDay t = dayIndex t * msPerDay.
Proof.
  unfold startOfDay, dayIndex.
  pose proof (Z.div_mod t msPerDay) as H. unfold msPerDay in *. lia.
Qed.

Lemma dayIndex_bounds (t : Z) :
  dayIndex t * msPerDay <= t < (dayIndex t + 1) * msPerDay.
Proof.
  unfold dayIndex. pose proof (Z.div_mod t msPerDay).
  pose proof (Z.mod_pos_bound t msPerDay msPerDay_pos). unfold msPerDay in *. lia.
Qed.

Lemma dayIndex_unique (t D : Z) :
  D * msPerDay <= t < (D + 1) * msPerDay -> dayIndex t = D.
Proof.
  intros H. pose proof (dayIndex_bounds t) as Ht. unfold msPerDay in *. nia.
Qed.

Lemma dayIndex_mono (a b : Z) : a <= b -> dayIndex a <= dayIndex b.
Proof. intros H. unfold dayIndex. apply Z.div_le_mono; [reflexivity | exact H]. Qed.

Lemma nextDay_dayIndex (t : Z) : nextDay t = (dayIndex t + 1) * msPerDay.
Proof.
  unfold nextDay. rewrite startOfDay_dayIndex. f_equal.
  apply dayIndex_unique. pose proof (dayIndex_bounds t). unfold msPerDay in *. lia.
Qed.

Lemma shiftOn_day (shifts : list Shift) (t : Z) :
  shiftOn shifts t = shiftOn shifts (dayIndex t * msPerDay).
Proof.
  unfold shiftOn, weekday. fold (dayIndex t).
  replace (dayIndex t * msPerDay / msPerDay) with (dayIndex t); [reflexivity |].
  symmetry. apply Z.div_mul. discriminate.
Qed.

Lemma workInDay_nonneg (shifts : list Shift) (D a b : Z) :
  0 <= workInDay shifts D a b.
Proof. unfold workInDay. destruct (shiftOn shifts (D * msPerDay)); lia. Qed.

Lemma workInDay_add (shifts : list Shift) (D a b c : Z) :
  a <= b <= c ->
  workInDay shifts D a c = workInDay shifts D a b + workInDay shifts D b c.
Proof. intros H. unfold workInDay. destruct (shiftOn shifts (D * msPerDay)); lia. Qed.

Lemma workInDay_before (shifts : list Shift) (D a b : Z) :
  b <= D * msPerDay -> workInDay shifts D a b = 0.
Proof. intros H. unfold workInDay. destruct (shiftOn shifts (D * msPerDay)); lia. Qed.

Lemma workInDay_after (shifts : list Shift) (D a b : Z) :
  (D + 1) * msPerDay <= a -> workInDay shifts D a b = 0.
Proof. intros H. unfold workInDay. destruct (shiftOn shifts (D * msPerDay)); lia. Qed.

Lemma sumDays_app (f : Z -> Z) (D : Z) (n m : nat) :
  sumDays f D (n + m) = sumDays f D n + sumDays f (D + Z.of_nat n) m.
Proof.
  revert D. induction n as [|n IH]; intros D.
  - cbn [sumDays Nat.add]. rewrite Z.add_0_r. lia.
  - change (S n + m)%nat with (S (n + m)). cbn [sumDays]. rewrite IH.
    replace (D + 1 + Z.of_nat n) with (D + Z.of_nat (S n)) by lia. lia.
Qed.

Lemma sumDays_zero (f : Z -> Z) (D : Z) (n : nat) :
  (forall d, D <= d < D + Z.of_nat n -> f d = 0) -> sumDays f D n = 0.
Proof.
  revert D. induction n as [|n IH]; intros D H; simpl; [reflexivity |].
  rewrite (H D) by lia. rewrite IH; [reflexivity |]. intros d Hd. apply H. lia.
Qed.

Lemma sumDays_ext (f g : Z -> Z) (D : Z) (n : nat) :
  (forall d, D <= d < D + Z.of_nat n -> f d = g d) -> sumDays f D n = sumDays g D n.
Proof.
  revert D. induction n as [|n IH]; intros D H; simpl; [reflexivity |].
  rewrite (H D) by lia. rewrite (IH (D + 1)); [reflexivity |].
  intros d Hd. apply H. lia.
Qed.

Lemma sumDays_add (f g : Z -> Z) (D : Z) (n : nat) :
  sumDays (fun d => f d + g d) D n = sumDays f D n + sumDays g D n.
Proof.
  revert D. induction n as [|n IH]; intros D; simpl; [reflexivity |].
  rewrite IH. lia.
Qed.

Lemma sumDays_nonneg (f : Z -> Z) (D : Z) (n : nat) :
  (forall d, 0 <= f d) -> 0 <= sumDays f D n.
Proof.
  intros H. revert D. induction n as [|n IH]; intros D; simpl; [lia |].
  specialize (H D). specialize (IH (D + 1)). lia.
Qed.

(** The working time of [a, b) over any range of days that covers it. *)
Lemma workingMs_range (shifts : list Shift) (a b D : Z) (n : nat) :
  D <= dayIndex a -> dayIndex b < D + Z.of_nat n ->
  workingMs shifts a b = sumDays (fun d => workInDay shifts d a b) D n.
Proof.
  intros HD Hn. unfold workingMs.
  pose proof (dayIndex_bounds a) as Ha. pose proof (dayIndex_bounds b) as Hb.
  destruct (Z_le_gt_dec (dayIndex a) (dayIndex b)) as [Hab | Hab].
  - remember (Z.to_nat (dayIndex a - D)) as k1 eqn:E1.
    remember (Z.to_nat (dayIndex b - dayIndex a + 1)) as k2 eqn:E2.
    remember (Z.to_nat (D + Z.of_nat n - dayIndex b - 1)) as k3 eqn:E3.
    assert (En : n = (k1 + (k2 + k3))%nat) by lia.
    rewrite En, !sumDays_app.
    rewrite (sumDays_zero _ D k1), (sumDays_zero _ _ k3).
    + replace (D + Z.of_nat k1) with (dayIndex a) by lia. lia.
    + intros d Hd. apply workInDay_before.
      assert (dayIndex b + 1 <= d) by lia. unfold msPerDay in *. nia.
    + intros d Hd. apply workInDay_after.
      assert (d + 1 <= dayIndex a) by lia. unfold msPerDay in *. nia.
  - replace (Z.to_nat (dayIndex b - dayIndex a + 1)) with 0%nat by lia. simpl.
    symmetry. apply sumDays_zero. intros d Hd.
    destruct (Z_le_gt_dec d (dayIndex b)).
    + apply workInDay_after.
      assert (d + 1 <= dayIndex a) by lia. unfold msPerDay in *. nia.
    + apply workInDay_before.
      assert (dayIndex b + 1 <= d) by lia. unfold msPerDay in *. nia.
Qed.

Lemma workingMs_nonneg (shifts : list Shift) (a b : Z) : 0 <= workingMs shifts a b.
Proof. apply sumDays_nonneg. intros d. apply workInDay_nonneg. Qed.

Lemma workingMs_add (shifts : list Shift) (a b c : Z) :
  a <= b <= c ->
  workingMs shifts a c = workingMs shifts a b + workingMs shifts b c.
Proof.
  intros H.
  pose proof (dayIndex_mono a b (proj1 H)). pose proof (dayIndex_mono b c (proj2 H)).
  set (n := Z.to_nat (dayIndex c - dayIndex a + 1)).
  rewrite (workingMs_range shifts a c (dayIndex a) n) by lia.
  rewrite (workingMs_range shifts a b (dayIndex a) n) by lia.
  rewrite (workingMs_range shifts b c (dayIndex a) n) by lia.
  rewrite <- sumDays_add. apply sumDays_ext. intros d _.
  now apply workInDay_add.
Qed.

Lemma workingMs_mono (shifts : list Shift) (a b c : Z) :
  a <= b <= c -> workingMs shifts a b <= workingMs shifts a c.
Proof.
  intros H. rewrite (workingMs_add shifts a b c H).
  pose proof (workingMs_nonneg shifts b c). lia.
Qed.

(** Inside one day: from [a] up to [b], at most the next midnight. *)
Lemma workingMs_one_day (shifts : list Shift) (a b : Z) :
  a <= b <= nextDay a ->
  workingMs shifts a b = workInDay shifts (dayIndex a) a b.
Proof.
  intros H. rewrite nextDay_dayIndex in H.
  rewrite (workingMs_range shifts a b (dayIndex a) 2).
  - simpl. rewrite (workInDay_before shifts (dayIndex a + 1)) by lia. lia.
  - lia.
  - assert (dayIndex b <= dayIndex a + 1); [| lia].
    pose proof (dayIndex_bounds b). unfold msPerDay in *. nia.
Qed.

Lemma shiftOn_In (shifts : list Shift) (t : Z) (shift : Shift) :
  shiftOn shifts t = Some shift -> In shift shifts.
Proof. unfold shiftOn. intros H. apply find_some in H. tauto. Qed.

Lemma shiftsWithinDay_spec (shifts : list Shift) (shift : Shift) :
  shiftsWithinDay shifts = true -> In shift shifts ->
  startHour shift <= 24 /\ endHour shift <= 24.
Proof.
  unfold shiftsWithinDay. rewrite forallb_forall. intros H Hin.
  specialize (H shift Hin). apply andb_true_iff in H.
  now rewrite !Z.leb_le in H.
Qed.

(** One turn of the loop moves the cursor forward inside its day, or to
    the next midnight, and takes off [remaining] exactly the working time
    it passes; before the new cursor less than [remaining] has elapsed. *)
Lemma exactStep_spec (shifts : list Shift) (cur rem : Z) :
  shiftsWithinDay shifts = true -> 0 < rem ->
  cur < fst (exactStep shifts cur rem) <= nextDay cur
  /\ 0 <= snd (exactStep shifts cur rem) <= rem
  /\ workingMs shifts cur (fst (exactStep shifts cur rem))
     = rem - snd (exactStep shifts cur rem)
  /\ (forall t, cur <= t < fst (exactStep shifts cur rem) ->
        workingMs shifts cur t < rem).
Proof.
  intros Hmid Hrem.
  pose proof (dayIndex_bounds cur) as Hday.
  pose proof (nextDay_dayIndex cur) as Hnext.
  pose proof (startOfDay_dayIndex cur) as Hstart.
  assert (Hone : forall x, cur <= x <= nextDay cur ->
            workingMs shifts cur x = workInDay shifts (dayIndex cur) cur x)
    by (intros x; apply workingMs_one_day).
  unfold exactStep. rewrite (shiftOn_day shifts cur).
  unfold workInDay in Hone.
  destruct (shiftOn shifts (dayIndex cur * msPerDay)) as [shift|] eqn:Hs.
  - assert (Hend : startHour shift <= 24 /\ endHour shift <= 24).
    { apply (shiftsWithinDay_spec shifts); [exact Hmid |].
      eapply shiftOn_In; eauto. }
    unfold plusHours. rewrite Hstart.
    set (D := dayIndex cur) in *.
    destruct (Z.ltb_spec cur (D * msPerDay + startHour shift * msPerHour)) as [H1|H1];
      [| destruct (Z.leb_spec (D * msPerDay + endHour shift * msPerHour) cur)
           as [H2|H2];
         [| destruct (Z.leb_spec rem
                        (D * msPerDay + endHour shift * msPerHour - cur)) as [H3|H3]]];
      cbn [fst snd]; unfold msPerDay, msPerHour in *;
      (split; [lia |]); (split; [lia |]);
      (split; [rewrite Hone by lia; lia | intros t Ht; rewrite Hone by lia; lia]).
  - cbn [fst snd]. unfold msPerDay in *.
    split; [lia |]. split; [lia |].
    split; [rewrite Hone by lia; lia | intros t Ht; rewrite Hone by lia; lia].
Qed.

Lemma exactWalk_spec (shifts : list Shift) :
  shiftsWithinDay shifts = true ->
  forall fuel cur rem e,
    exactWalk fuel shifts cur rem = Ok e ->
    cur <= e
    /\ workingMs shifts cur e = Z.max 0 rem
    /\ (forall t, cur <= t < e -> workingMs shifts cur t < rem).
Proof.
  intros Hmid. induction fuel as [|fuel IH]; intros cur rem e H; simpl in H;
    [discriminate |].
  destruct (Z.leb_spec rem 0) as [Hle | Hgt].
  - inversion H; subst. split; [lia |]. split; [| intros t Ht; lia].
    rewrite workingMs_one_day.
    + pose proof (workInDay_nonneg shifts (dayIndex e) e e).
      unfold workInDay in *. destruct (shiftOn shifts (dayIndex e * msPerDay)); lia.
    + rewrite nextDay_dayIndex. pose proof (dayIndex_bounds e). lia.
  - destruct (exactStep_spec shifts cur rem Hmid Hgt) as [Hc [Hr [Hw Hbefore]]].
    destruct (exactStep shifts cur rem) as [cur' rem']. cbn [fst snd] in *.
    apply IH in H. destruct H as [Hle' [Hw' Hbefore']].
    split; [lia |]. split.
    + rewrite (workingMs_add shifts cur cur' e) by lia. lia.
    + intros t Ht. destruct (Z_lt_ge_dec t cur') as [Hlt | Hge].
      * apply Hbefore. lia.
      * rewrite (workingMs_add shifts cur cur' t) by lia.
        specialize (Hbefore' t). lia.
Qed.

(** *** When the loop comes to an end *)

Lemma exactWalk_more_fuel (shifts : list Shift) (k : nat) :
  forall fuel cur rem e,
    exactWalk fuel shifts cur rem = Ok e ->
    exactWalk (fuel + k) shifts cur rem = Ok e.
Proof.
  induction fuel as [|fuel IH]; intros cur rem e H; simpl in *; [discriminate |].
  destruct (rem <=? 0); [exact H |].
  destruct (exactStep shifts cur rem) as [c r]. now apply IH.
Qed.

Lemma exactWalk_unroll (shifts : list Shift) (fuel : nat) (cur rem : Z) :
  0 < rem ->
  exactWalk (S fuel) shifts cur rem
  = exactWalk fuel shifts (fst (exactStep shifts cur rem))
                           (snd (exactStep shifts cur rem)).
Proof.
  intros H. simpl. destruct (Z.leb_spec rem 0); [lia |].
  now destruct (exactStep shifts cur rem).
Qed.

Lemma workingMs_reversed (shifts : list Shift) (a b : Z) :
  b <= a -> workingMs shifts a b = 0.
Proof.
  intros H. pose proof (dayIndex_mono b a H) as Hd.
  rewrite (workingMs_range shifts a b (dayIndex a) 1) by lia.
  simpl. unfold workInDay.
  destruct (shiftOn shifts (dayIndex a * msPerDay)); lia.
Qed.

Lemma exactStep_settled (shifts : list Shift) (cur rem : Z) :
  shiftsWithinDay shifts = true -> settled shifts cur -> 0 < rem ->
  (rem <= workingMs shifts cur (nextDay cur)
   /\ exactStep shifts cur rem = (cur + rem, 0))
  \/ (workingMs shifts cur (nextDay cur) < rem
      /\ exactStep shifts cur rem
         = (nextDay cur, rem - workingMs shifts cur (nextDay cur))).
Proof.
  intros Hmid Hset Hrem.
  pose proof (dayIndex_bounds cur) as Hday.
  pose proof (nextDay_dayIndex cur) as Hnext.
  pose proof (startOfDay_dayIndex cur) as Hstart.
  rewrite (workingMs_one_day shifts cur (nextDay cur)) by lia.
  unfold settled in Hset. unfold exactStep, workInDay.
  rewrite (shiftOn_day shifts cur) in *.
  destruct (shiftOn shifts (dayIndex cur * msPerDay)) as [shift|] eqn:Hs.
  - assert (Hend : startHour shift <= 24 /\ endHour shift <= 24).
    { apply (shiftsWithinDay_spec shifts); [exact Hmid |].
      eapply shiftOn_In; eauto. }
    unfold plusHours in *. rewrite Hstart in *. rewrite Hnext.
    set (D := dayIndex cur) in *.
    destruct (Z.ltb_spec cur (D * msPerDay + startHour shift * msPerHour)) as [H1|H1];
      [lia |].
    destruct (Z.leb_spec (D * msPerDay + endHour shift * msPerHour) cur) as [H2|H2].
    + right. unfold msPerDay, msPerHour in *. split; [lia |]. f_equal. lia.
    + destruct (Z.leb_spec rem (D * msPerDay + endHour shift * msPerHour - cur))
        as [H3|H3]; [left | right]; unfold msPerDay, msPerHour in *;
        (split; [lia |]); f_equal; lia.
  - right. split; [lia |]. f_equal. lia.
Qed.

(** In at most two turns the loop has either placed all the remaining
    work inside the day of the cursor, or reached the next midnight with
    the working time of the rest of the day taken off. *)
Lemma day_progress (shifts : list Shift) (cur rem : Z) :
  shiftsWithinDay shifts = true -> 0 < rem ->
  (rem <= workingMs shifts cur (nextDay cur) ->
     exists e, exactWalk 3 shifts cur rem = Ok e)
  /\ (workingMs shifts cur (nextDay cur) < rem ->
     exists k, (k <= 2)%nat /\ forall fuel,
       exactWalk (k + fuel) shifts cur rem
       = exactWalk fuel shifts (nextDay cur)
           (rem - workingMs shifts cur (nextDay cur))).
Proof.
  intros Hmid Hrem.
  assert (Hfinish : forall c r, 0 < r ->
            exactStep shifts c r = (c + r, 0) ->
            forall fuel, exactWalk (S (S fuel)) shifts c r = Ok (c + r)).
  { intros c r Hr E fuel. rewrite exactWalk_unroll by exact Hr. now rewrite E. }
  assert (Hmove : forall c r r', 0 < r ->
            exactStep shifts c r = (nextDay c, r') ->
            forall fuel, exactWalk (S fuel) shifts c r
                         = exactWalk fuel shifts (nextDay c) r').
  { intros c r r' Hr E fuel. rewrite exactWalk_unroll by exact Hr. now rewrite E. }
  destruct (shiftOn shifts cur) as [shift|] eqn:Hs.
  - destruct (Z_lt_ge_dec cur (plusHours (startOfDay cur) (startHour shift)))
      as [Hbefore | Hafter].
    + (* the cursor is in front of the shift: one jump first *)
      assert (Hjump : exactStep shifts cur rem
                      = (plusHours (startOfDay cur) (startHour shift), rem)).
      { unfold exactStep. rewrite Hs.
        destruct (Z.ltb_spec cur (plusHours (startOfDay cur) (startHour shift)));
          [reflexivity | lia]. }
      destruct (exactStep_spec shifts cur rem Hmid Hrem) as [Hc [_ [Hw _]]].
      rewrite Hjump in Hc, Hw. cbn [fst snd] in Hc, Hw.
      set (c1 := plusHours (startOfDay cur) (startHour shift)) in *.
      destruct (Z.eq_dec c1 (nextDay cur)) as [Hlast | Hsame].
      * rewrite <- Hlast, Hw. split; [lia |]. intros _.
        exists 1%nat. split; [lia |]. intros fuel.
        change (1 + fuel)%nat with (S fuel).
        rewrite exactWalk_unroll by exact Hrem. rewrite Hjump. cbn [fst snd].
        f_equal. lia.
      * assert (Hd1 : dayIndex c1 = dayIndex cur).
        { apply dayIndex_unique. pose proof (dayIndex_bounds cur).
          rewrite nextDay_dayIndex in *. lia. }
        assert (Hn1 : nextDay c1 = nextDay cur) by (now rewrite !nextDay_dayIndex, Hd1).
        assert (Hset : settled shifts c1).
        { unfold settled. rewrite (shiftOn_day shifts c1), Hd1, <- shiftOn_day, Hs.
          rewrite startOfDay_dayIndex, Hd1, <- startOfDay_dayIndex. fold c1. lia. }
        assert (Hsplit : workingMs shifts cur (nextDay cur)
                         = workingMs shifts c1 (nextDay cur)).
        { rewrite (workingMs_add shifts cur c1 (nextDay cur)) by lia. lia. }
        rewrite Hsplit, <- Hn1.
        destruct (exactStep_settled shifts c1 rem Hmid Hset Hrem)
          as [[Hle E] | [Hlt E]].
        -- split; [| lia]. intros _. exists (c1 + rem).
           rewrite exactWalk_unroll by exact Hrem. rewrite Hjump. cbn [fst snd].
           rewrite exactWalk_unroll by exact Hrem. rewrite E. reflexivity.
        -- split; [lia |]. intros _. exists 2%nat. split; [lia |]. intros fuel.
           change (2 + fuel)%nat with (S (S fuel)).
           rewrite exactWalk_unroll by exact Hrem. rewrite Hjump. cbn [fst snd].
           now apply Hmove.
    + assert (Hset : settled shifts cur) by (unfold settled; rewrite Hs; lia).
      destruct (exactStep_settled shifts cur rem Hmid Hset Hrem) as [[Hle E] | [Hlt E]].
      * split; [| lia]. intros _. exists (cur + rem). now apply Hfinish.
      * split; [lia |]. intros _. exists 1%nat. split; [lia |]. intros fuel.
        now apply Hmove.
  - assert (Hset : settled shifts cur) by (unfold settled; now rewrite Hs).
    destruct (exactStep_settled shifts cur rem Hmid Hset Hrem) as [[Hle E] | [Hlt E]].
    + split; [| lia]. intros _. exists (cur + rem). now apply Hfinish.
    + split; [lia |]. intros _. exists 1%nat. split; [lia |]. intros fuel.
      now apply Hmove.
Qed.

(** With [2n + 1] turns the loop places any amount of work that fits in
    the first [n] days, counted from the start of the cursor's day. *)
Lemma walk_days (shifts : list Shift) :
  shiftsWithinDay shifts = true ->
  forall (n fuel : nat) (cur rem : Z),
    (2 * n + 1 <= fuel)%nat ->
    rem <= workingMs shifts cur (startOfDay cur + Z.of_nat n * msPerDay) ->
    exists e, exactWalk fuel shifts cur rem = Ok e.
Proof.
  intros Hmid. induction n as [|n IH]; intros fuel cur rem Hfuel Hfit.
  - assert (Hz : rem <= 0).
    { rewrite workingMs_reversed in Hfit; [exact Hfit |].
      rewrite startOfDay_dayIndex. pose proof (dayIndex_bounds cur). lia. }
    destruct fuel as [|fuel]; [lia |]. simpl.
    destruct (Z.leb_spec rem 0); [eauto | lia].
  - destruct (Z_le_gt_dec rem 0) as [Hz | Hpos].
    { destruct fuel as [|fuel]; [lia |]. simpl.
      destruct (Z.leb_spec rem 0); [eauto | lia]. }
    destruct (day_progress shifts cur rem Hmid) as [Hin Hout]; [lia |].
    destruct (Z_le_gt_dec rem (workingMs shifts cur (nextDay cur))) as [Hle | Hgt].
    + destruct (Hin Hle) as [e He]. exists e.
      replace fuel with (3 + (fuel - 3))%nat by lia.
      now apply exactWalk_more_fuel.
    + destruct Hout as [k [Hk Hgo]]; [lia |].
      replace fuel with (k + (fuel - k))%nat by lia. rewrite Hgo.
      apply IH; [lia |].
      assert (Hnext : nextDay cur = startOfDay cur + msPerDay).
      { rewrite nextDay_dayIndex, startOfDay_dayIndex. lia. }
      assert (Hsod : startOfDay (nextDay cur) = nextDay cur).
      { rewrite startOfDay_dayIndex. rewrite (nextDay_dayIndex cur) at 2. f_equal.
        apply dayIndex_unique. rewrite nextDay_dayIndex. unfold msPerDay. lia. }
      rewrite Hsod.
      pose proof (dayIndex_bounds cur) as Hday.
      rewrite (workingMs_add shifts cur (nextDay cur)
                 (startOfDay cur + Z.of_nat (S n) * msPerDay)) in Hfit.
      * replace (nextDay cur + Z.of_nat n * msPerDay)
          with (startOfDay cur + Z.of_nat (S n) * msPerDay) by lia.
        lia.
      * rewrite Hnext, startOfDay_dayIndex. unfold msPerDay in *. lia.
Qed.

(** A full day's working time depends on the day of the week only. *)
Lemma workInDay_full_period (shifts : list Shift) (D : Z) :
  workInDay shifts (D + 7) ((D + 7) * msPerDay) ((D + 7 + 1) * msPerDay)
  = workInDay shifts D (D * msPerDay) ((D + 1) * msPerDay).
Proof.
  unfold workInDay.
  assert (E : shiftOn shifts ((D + 7) * msPerDay) = shiftOn shifts (D * msPerDay)).
  { unfold shiftOn, weekday. rewrite !Z.div_mul by discriminate.
    replace (D + 7 + 3) with (D + 3 + 1 * 7) by lia.
    now rewrite Z.mod_add by discriminate. }
  rewrite E. destruct (shiftOn shifts (D * msPerDay)); [| reflexivity].
  unfold msPerDay, msPerHour. lia.
Qed.

Lemma workingMs_full_days (shifts : list Shift) (D : Z) (n : nat) :
  workingMs shifts (D * msPerDay) ((D + Z.of_nat n) * msPerDay)
  = sumDays (fun d => workInDay shifts d (d * msPerDay) ((d + 1) * msPerDay)) D n.
Proof.
  assert (Ha : dayIndex (D * msPerDay) = D).
  { apply dayIndex_unique. unfold msPerDay. lia. }
  assert (Hb : dayIndex ((D + Z.of_nat n) * msPerDay) = D + Z.of_nat n).
  { apply dayIndex_unique. unfold msPerDay. lia. }
  rewrite (workingMs_range shifts _ _ D (n + 1)) by lia.
  rewrite sumDays_app. simpl sumDays at 2.
  rewrite (workInDay_before shifts (D + Z.of_nat n)) by lia.
  rewrite !Z.add_0_r. apply sumDays_ext. intros d Hd.
  unfold workInDay. destruct (shiftOn shifts (d * msPerDay)); [| reflexivity].
  unfold msPerDay, msPerHour. nia.
Qed.

(** Seven days in a row hold one week's working time, whatever the day
    they start on. *)
Lemma workingMs_week (shifts : list Shift) (D : Z) :
  workingMs shifts (D * msPerDay) ((D + 7) * msPerDay) = weeklyWorkMs shifts.
Proof.
  assert (Hstep : forall d,
            workingMs shifts ((d + 1) * msPerDay) ((d + 1 + 7) * msPerDay)
            = workingMs shifts (d * msPerDay) ((d + 7) * msPerDay)).
  { intros d.
    change 7 with (Z.of_nat 7). rewrite !workingMs_full_days.
    change 7%nat with (1 + 6)%nat at 2. rewrite sumDays_app.
    change 7%nat with (6 + 1)%nat. rewrite sumDays_app.
    cbn [sumDays]. change (Z.of_nat 1) with 1. change (Z.of_nat 6) with 6.
    replace (d + 1 + 6) with (d + 7) by lia.
    rewrite (workInDay_full_period shifts d). lia. }
  unfold weeklyWorkMs. change (7 * msPerDay) with ((0 + 7) * msPerDay).
  change 0 with (0 * msPerDay) at 2.
  destruct (Z_le_gt_dec 0 D) as [Hpos | Hneg].
  - rewrite <- (Z2Nat.id D Hpos). induction (Z.to_nat D) as [|n IH]; [reflexivity |].
    rewrite Nat2Z.inj_succ. unfold Z.succ. now rewrite Hstep.
  - replace D with (- Z.of_nat (Z.to_nat (- D))) by lia.
    induction (Z.to_nat (- D)) as [|n IH]; [reflexivity |].
    rewrite <- IH. rewrite Nat2Z.inj_succ. unfold Z.succ.
    rewrite <- (Hstep (- (Z.of_nat n + 1))).
    replace (- (Z.of_nat n + 1) + 1) with (- Z.of_nat n) by lia. reflexivity.
Qed.

Lemma workingMs_weeks (shifts : list Shift) (D : Z) (k : nat) :
  workingMs shifts (D * msPerDay) ((D + 7 * Z.of_nat k) * msPerDay)
  = Z.of_nat k * weeklyWorkMs shifts.
Proof.
  induction k as [|k IH].
  - simpl. rewrite Z.add_0_r. apply workingMs_reversed. lia.
  - rewrite (workingMs_add shifts _ ((D + 7 * Z.of_nat k) * msPerDay)).
    + rewrite IH.
      replace (D + 7 * Z.of_nat (S k)) with (D + 7 * Z.of_nat k + 7) by lia.
      rewrite workingMs_week. lia.
    + unfold msPerDay. lia.
Qed.

(** ** ISO text and instants *)

Lemma list_ascii_app (s1 s2 : string) :
  list_ascii_of_string (s1 ++ s2)
  = list_ascii_of_string s1 ++ list_ascii_of_string s2.
Proof. induction s1 as [|c s1 IH]; simpl; [reflexivity | now rewrite IH]. Qed.

Lemma digit_val_char (n : Z) : digit_val (digit_char n) = Some (n mod 10).
Proof.
  pose proof (Z.mod_pos_bound n 10 eq_refl) as H.
  unfold digit_char.
  assert (E : n mod 10 = 0 \/ n mod 10 = 1 \/ n mod 10 = 2 \/ n mod 10 = 3
              \/ n mod 10 = 4 \/ n mod 10 = 5 \/ n mod 10 = 6 \/ n mod 10 = 7
              \/ n mod 10 = 8 \/ n mod 10 = 9) by lia.
  repeat (destruct E as [E | E]; [rewrite E; reflexivity |]).
  rewrite E. reflexivity.
Qed.

Lemma digits_app (k j : nat) :
  forall (acc : Z) (l : list ascii),
    digits (k + j) acc l
    = obind (digits k acc l) (fun '(v, l') => digits j v l').
Proof.
  induction k as [|k IH]; intros acc l; simpl; [reflexivity |].
  destruct l as [|c l]; [reflexivity |].
  destruct (digit_val c); [apply IH | reflexivity].
Qed.

Lemma digits_pad (k : nat) :
  forall (n acc : Z) (rest : list ascii),
    0 <= n < 10 ^ Z.of_nat k ->
    digits k acc (list_ascii_of_string (pad k n) ++ rest)
    = Some (acc * 10 ^ Z.of_nat k + n, rest).
Proof.
  induction k as [|k IH]; intros n acc rest Hn.
  - simpl in *. f_equal. f_equal. lia.
  - rewrite Nat2Z.inj_succ, Z.pow_succ_r in * by lia.
    cbn [pad]. rewrite list_ascii_app, <- app_assoc.
    replace (S k) with (k + 1)%nat by lia. rewrite digits_app.
    rewrite IH.
    + cbn [obind list_ascii_of_string app digits]. rewrite digit_val_char.
      f_equal. f_equal.
      pose proof (Z.div_mod n 10). lia.
    + pose proof (Z.div_mod n 10). pose proof (Z.mod_pos_bound n 10). lia.
Qed.

(** The fields of the time of day. *)
Lemma time_fields (r : Z) :
  0 <= r < msPerDay ->
  0 <= r / msPerHour <= 23
  /\ 0 <= r / msPerMinute mod 60 <= 59
  /\ 0 <= r / msPerSecond mod 60 <= 59
  /\ 0 <= r mod 1000 <= 999
  /\ r / msPerHour * msPerHour + r / msPerMinute mod 60 * msPerMinute
     + r / msPerSecond mod 60 * msPerSecond + r mod 1000 = r.
Proof.
  unfold msPerDay, msPerHour, msPerMinute, msPerSecond. intros H.
  pose proof (Z.div_mod r 3600000). pose proof (Z.mod_pos_bound r 3600000).
  pose proof (Z.div_mod r 60000). pose proof (Z.mod_pos_bound r 60000).
  pose proof (Z.div_mod r 1000). pose proof (Z.mod_pos_bound r 1000).
  pose proof (Z.div_mod (r / 60000) 60). pose proof (Z.mod_pos_bound (r / 60000) 60).
  pose proof (Z.div_mod (r / 1000) 60). pose proof (Z.mod_pos_bound (r / 1000) 60).
  assert (E1 : r / 60000 / 60 = r / 3600000).
  { rewrite Z.div_div by lia. reflexivity. }
  assert (E2 : r / 1000 / 60 = r / 60000).
  { rewrite Z.div_div by lia. reflexivity. }
  lia.
Qed.

Lemma allFrom_spec (f : Z -> bool) (p : positive) :
  forall z, allFrom p z f = true -> forall k, z <= k < z + Z.pos p -> f k = true.
Proof.
  induction p as [p IH | p IH |]; intros z H k Hk; simpl in H.
  - apply andb_true_iff in H. destruct H as [H H3].
    apply andb_true_iff in H. destruct H as [H1 H2].
    destruct (Z_lt_ge_dec k (z + Z.pos p)); [apply (IH z H1); lia |].
    destruct (Z_lt_ge_dec k (z + Z.pos p + Z.pos p));
      [apply (IH _ H2); lia |].
    replace k with (z + Z.pos p + Z.pos p) by lia. exact H3.
  - apply andb_true_iff in H. destruct H as [H1 H2].
    destruct (Z_lt_ge_dec k (z + Z.pos p)); [apply (IH z H1); lia |].
    apply (IH _ H2). lia.
  - replace k with z by lia. exact H.
Qed.

Lemma eraDayOk_all : allFrom 146097 0 eraDayOk = true.
Proof. vm_compute. reflexivity. Qed.

Lemma isLeapYear_era (y era : Z) : isLeapYear (y + era * 400) = isLeapYear y.
Proof.
  unfold isLeapYear.
  replace ((y + era * 400) mod 4) with (y mod 4)
    by (replace (y + era * 400) with (y + era * 100 * 4) by lia;
        now rewrite Z.mod_add).
  replace ((y + era * 400) mod 100) with (y mod 100)
    by (replace (y + era * 400) with (y + era * 4 * 100) by lia;
        now rewrite Z.mod_add).
  replace ((y + era * 400) mod 400) with (y mod 400)
    by (now rewrite Z.mod_add).
  reflexivity.
Qed.

Lemma daysInMonth_era (y m era : Z) :
  daysInMonth (y + era * 400) m = daysInMonth y m.
Proof. unfold daysInMonth. now rewrite isLeapYear_era. Qed.

(** [civil_from_days] gives a date of the calendar, and [days_from_civil]
    counts it back. *)
Lemma civil_roundtrip (z : Z) :
  let '(y, m, d) := civil_from_days z in
  1 <= m <= 12 /\ 1 <= d <= daysInMonth y m /\ days_from_civil y m d = z.
Proof.
  unfold civil_from_days.
  set (z' := z + 719468). set (era := z' / 146097).
  set (doe := z' - era * 146097).
  assert (Hdoe : 0 <= doe < 0 + 146097).
  { unfold doe, era. pose proof (Z.div_mod z' 146097).
    pose proof (Z.mod_pos_bound z' 146097). lia. }
  pose proof (allFrom_spec eraDayOk 146097 0 eraDayOk_all doe Hdoe) as Hok.
  unfold eraDayOk in Hok.
  set (yoe := (doe - doe / 1460 + doe / 36524 - doe / 146096) / 365) in *.
  set (doy := doe - (365 * yoe + yoe / 4 - yoe / 100)) in *.
  set (mp := (5 * doy + 2) / 153) in *.
  set (d := doy - (153 * mp + 2) / 5 + 1) in *.
  set (m := if mp <? 10 then mp + 3 else mp - 9) in *.
  repeat (apply andb_true_iff in Hok; destruct Hok as [Hok ?]).
  repeat match goal with
         | H : (_ <=? _) = true |- _ => apply Z.leb_le in H
         | H : (_ =? _) = true |- _ => apply Z.eqb_eq in H
         end.
  apply Z.leb_le in Hok.
  assert (Hy : (if m <=? 2 then yoe + era * 400 + 1 else yoe + era * 400)
               = (if m <=? 2 then yoe + 1 else yoe) + era * 400)
    by (destruct (m <=? 2); lia).
  rewrite Hy, daysInMonth_era. repeat split; try lia.
  unfold days_from_civil.
  assert (Hy' : (if m <=? 2
                 then (if m <=? 2 then yoe + 1 else yoe) + era * 400 - 1
                 else (if m <=? 2 then yoe + 1 else yoe) + era * 400)
                = yoe + era * 400) by (destruct (m <=? 2); lia).
  rewrite Hy'.
  assert (He : (yoe + era * 400) / 400 = era).
  { rewrite Z.div_add by lia. rewrite Z.div_small by lia. lia. }
  rewrite He. replace (yoe + era * 400 - era * 400) with yoe by lia.
  unfold doe, z' in *. lia.
Qed.

Lemma daysInMonth_le_31 (y m : Z) : daysInMonth y m <= 31.
Proof.
  unfold daysInMonth.
  destruct (m =? 2); [destruct (isLeapYear y); lia |].
  destruct ((m =? 4) || (m =? 6) || (m =? 9) || (m =? 11)); lia.
Qed.

(** The day count of a date before year 0 or after year 9999. *)
Lemma days_from_civil_outside (y m d : Z) :
  1 <= m <= 12 -> 1 <= d <= 31 ->
  (y <= -1 -> days_from_civil y m d < -719528)
  /\ (10000 <= y -> 2932896 < days_from_civil y m d).
Proof.
  intros Hm Hd. unfold days_from_civil.
  set (y' := if m <=? 2 then y - 1 else y).
  set (mm := if 2 <? m then m - 3 else m + 9).
  assert (Hy' : (m <= 2 /\ y' = y - 1) \/ (2 < m /\ y' = y)).
  { unfold y'. destruct (Z.leb_spec m 2); [left | right]; lia. }
  assert (Hmm : (m <= 2 /\ mm = m + 9) \/ (2 < m /\ mm = m - 3)).
  { unfold mm. destruct (Z.ltb_spec 2 m); [right | left]; lia. }
  pose proof (Z.div_mod y' 400). pose proof (Z.mod_pos_bound y' 400).
  set (era := y' / 400) in *.
  set (yoe := y' - era * 400).
  pose proof (Z.div_mod yoe 4). pose proof (Z.mod_pos_bound yoe 4).
  pose proof (Z.div_mod yoe 100). pose proof (Z.mod_pos_bound yoe 100).
  pose proof (Z.div_mod (153 * mm + 2) 5). pose proof (Z.mod_pos_bound (153 * mm + 2) 5).
  assert (Hyoe : 0 <= yoe <= 399) by (unfold yoe; lia).
  split; intros Hy; lia.
Qed.

Lemma civil_year_range (z : Z) :
  -719528 <= z <= 2932896 ->
  let '(y, m, d) := civil_from_days z in 0 <= y <= 9999.
Proof.
  intros Hz. pose proof (civil_roundtrip z) as H.
  destruct (civil_from_days z) as [[y m] d]. destruct H as [Hm [Hd Hback]].
  pose proof (daysInMonth_le_31 y m).
  destruct (days_from_civil_outside y m d Hm) as [Hlo Hhi]; [lia |].
  destruct (Z_le_gt_dec y (-1)); [specialize (Hlo ltac:(lia)); lia |].
  destruct (Z_le_gt_dec 10000 y); [specialize (Hhi ltac:(lia)); lia |].
  lia.
Qed.


Lemma lit_cons (c : ascii) (l : list ascii) : lit c (c :: l) = Some l.
Proof. simpl. now rewrite Ascii.eqb_refl. Qed.

(** Reading back what [toISO] writes, for the years 0000 to 9999. *)
Lemma fromISO_toISO (t : Z) : inFourDigitYears t -> fromISO (toISO t) = Some t.
Proof.
  unfold inFourDigitYears. intros Ht.
  pose proof (Z.div_mod t msPerDay ltac:(discriminate)) as Hdm.
  pose proof (Z.mod_pos_bound t msPerDay msPerDay_pos) as Hr.
  assert (Hz : -719528 <= t / msPerDay <= 2932896).
  { unfold msPerDay in *. lia. }
  pose proof (civil_year_range (t / msPerDay) Hz) as Hy.
  pose proof (civil_roundtrip (t / msPerDay)) as Hc.
  unfold toISO, fromISO.
  destruct (civil_from_days (t / msPerDay)) as [[y m] d].
  destruct Hc as [Hm [Hd Hback]].
  pose proof (daysInMonth_le_31 y m) as H31.
  destruct (time_fields (t mod msPerDay) Hr) as [HH [HM [HS [Hms Hsum]]]].
  replace ((0 <=? y) && (y <=? 9999)) with true
    by (symmetry; apply andb_true_iff; rewrite !Z.leb_le; lia).
  repeat rewrite list_ascii_app.
  change (list_ascii_of_string "-") with ["-"%char].
  change (list_ascii_of_string "T") with ["T"%char].
  change (list_ascii_of_string ":") with [":"%char].
  change (list_ascii_of_string ".") with ["."%char].
  change (list_ascii_of_string "Z") with ["Z"%char].
  rewrite (digits_pad 4 y 0) by (simpl; lia). cbn [obind].
  cbn [app]. rewrite lit_cons. cbn [obind].
  rewrite (digits_pad 2 m 0) by (simpl; lia). cbn [obind].
  cbn [app]. rewrite lit_cons. cbn [obind].
  rewrite (digits_pad 2 d 0) by (simpl; lia). cbn [obind].
  cbn [app]. rewrite lit_cons. cbn [obind].
  rewrite (digits_pad 2 _ 0) by (simpl; lia). cbn [obind].
  cbn [app]. rewrite lit_cons. cbn [obind].
  rewrite (digits_pad 2 _ 0) by (simpl; lia). cbn [obind].
  cbn [app]. rewrite lit_cons. cbn [obind].
  rewrite (digits_pad 2 _ 0) by (simpl; lia). cbn [obind].
  unfold fraction. cbn [app].
  change (lit "Z" ("."%char :: list_ascii_of_string (pad 3 (t mod msPerDay mod 1000))
                   ++ ["Z"%char])) with (@None (list ascii)).
  rewrite lit_cons. cbn [obind].
  rewrite (digits_pad 3 _ 0) by (simpl; lia). cbn [obind].
  rewrite lit_cons.
  replace ((1 <=? 0 * 10 ^ Z.of_nat 2 + m) && (0 * 10 ^ Z.of_nat 2 + m <=? 12)
           && (1 <=? 0 * 10 ^ Z.of_nat 2 + d)
           && (0 * 10 ^ Z.of_nat 2 + d <=? daysInMonth (0 * 10 ^ Z.of_nat 4 + y)
                                          (0 * 10 ^ Z.of_nat 2 + m))
           && (0 * 10 ^ Z.of_nat 2 + t mod msPerDay / msPerHour <=? 23)
           && (0 * 10 ^ Z.of_nat 2 + t mod msPerDay / msPerMinute mod 60 <=? 59)
           && (0 * 10 ^ Z.of_nat 2 + t mod msPerDay / msPerSecond mod 60 <=? 59))
    with true.
  - rewrite !Z.mul_0_l, !Z.add_0_l, Hback. cbn [obind]. f_equal.
    unfold msPerDay, msPerHour, msPerMinute, msPerSecond in *. lia.
  - symmetry. rewrite !Z.mul_0_l, !Z.add_0_l.
    repeat (apply andb_true_iff; split); apply Z.leb_le; lia.
Qed.


Lemma exactWalk_throws (shifts : list Shift) :
  forall fuel cur rem err,
    exactWalk fuel shifts cur rem = Throw err -> err = ShiftIterationsExceeded.
Proof.
  induction fuel as [|fuel IH]; intros cur rem err H; simpl in H.
  - now inversion H.
  - destruct (rem <=? 0); [discriminate |].
    destruct (exactStep shifts cur rem) as [c r]. eapply IH; eauto.
Qed.

(** Without working time in the week there is none anywhere. *)
Lemma workingMs_idle (shifts : list Shift) (a b : Z) :
  weeklyWorkMs shifts = 0 -> workingMs shifts a b = 0.
Proof.
  intros Hidle. destruct (Z_le_gt_dec b a) as [Hba | Hab];
    [now apply workingMs_reversed |].
  pose proof (dayIndex_bounds a) as Ha. pose proof (dayIndex_bounds b) as Hb.
  pose proof (dayIndex_mono a b ltac:(lia)) as Hd.
  set (k := Z.to_nat (dayIndex b - dayIndex a + 1)).
  pose proof (workingMs_weeks shifts (dayIndex a) k) as Hw. rewrite Hidle in Hw.
  assert (Hend : b <= (dayIndex a + 7 * Z.of_nat k) * msPerDay).
  { unfold k, msPerDay in *. nia. }
  rewrite (workingMs_add shifts _ a) in Hw by lia.
  rewrite (workingMs_add shifts a b) in Hw by lia.
  pose proof (workingMs_nonneg shifts (dayIndex a * msPerDay) a).
  pose proof (workingMs_nonneg shifts a b).
  pose proof (workingMs_nonneg shifts b ((dayIndex a + 7 * Z.of_nat k) * msPerDay)).
  lia.
Qed.

(** The loop comes to an end, within its 1000 turns, for any amount of
    work up to 71 weeks of working time. *)
Lemma exactWalk_returns (shifts : list Shift) (start rem : Z) :
  shiftsWithinDay shifts = true ->
  rem <= 71 * weeklyWorkMs shifts ->
  exists e, exactWalk maxShiftIterations shifts start rem = Ok e.
Proof.
  intros Hmid Hrem.
  apply (walk_days shifts Hmid 498 maxShiftIterations start rem).
  - unfold maxShiftIterations. lia.
  - pose proof (dayIndex_bounds start) as Hs.
    rewrite startOfDay_dayIndex.
    pose proof (workingMs_weeks shifts (dayIndex start + 1) 71) as Hw.
    replace (dayIndex start + 1 + 7 * Z.of_nat 71) with (dayIndex start + 498)
      in Hw by lia.
    replace (dayIndex start * msPerDay + Z.of_nat 498 * msPerDay)
      with ((dayIndex start + 498) * msPerDay) by lia.
    rewrite (workingMs_add shifts start ((dayIndex start + 1) * msPerDay))
      by (unfold msPerDay in *; lia).
    pose proof (workingMs_nonneg shifts start ((dayIndex start + 1) * msPerDay)).
    lia.
Qed.


(** ** Each work order is processed once *)

Lemma lastIndexOf_docId (id : string) (l : list WorkOrder) (k j : nat) :
  lastIndexOf id l k = Some j ->
  exists wo, nth_error l (j - k) = Some wo /\ docId wo = id /\ (k <= j)%nat.
Proof.
  revert k. induction l as [|w l IH]; intros k; simpl; [discriminate |].
  destruct (lastIndexOf id l (S k)) as [j'|] eqn:E.
  - intros H. inversion H; subst. apply IH in E. destruct E as [wo [Hwo [Hid Hle]]].
    exists wo. replace (j - k)%nat with (S (j - S k)) by lia.
    repeat split; auto. lia.
  - destruct (String.eqb (docId w) id) eqn:Heq; [| discriminate].
    intros H. inversion H; subst. exists w. rewrite Nat.sub_diag.
    apply String.eqb_eq in Heq. repeat split; auto.
Qed.

Lemma resolveAll_In (ids : list string) (l : list WorkOrder) (idxs : list nat) :
  resolveAll ids l = Ok idxs ->
  forall i, In i idxs ->
    exists wo, nth_error l i = Some wo /\ In (docId wo) ids.
Proof.
  revert idxs. induction ids as [|id ids IH]; intros idxs; simpl.
  - intros H. inversion H. intros i [].
  - destruct (lastIndexOf id l 0) as [j|] eqn:E; [| discriminate].
    destruct (resolveAll ids l) as [rest|]; simpl; [| discriminate].
    intros H. inversion H; subst. intros i [<- | Hi].
    + apply lastIndexOf_docId in E. destruct E as [wo [Hwo [Hid _]]].
      rewrite Nat.sub_0_r in Hwo. eauto.
    + destruct (IH rest eq_refl i Hi) as [wo [Hwo Hin]]. eauto.
Qed.

Lemma resolveAll_NoDup (ids : list string) (l : list WorkOrder) (idxs : list nat) :
  NoDup ids -> resolveAll ids l = Ok idxs -> NoDup idxs.
Proof.
  revert idxs. induction ids as [|id ids IH]; intros idxs Hnd; simpl.
  - intros H. inversion H. constructor.
  - destruct (lastIndexOf id l 0) as [j|] eqn:E; [| discriminate].
    destruct (resolveAll ids l) as [rest|] eqn:Hrest; simpl; [| discriminate].
    intros H. inversion H; subst. inversion Hnd as [|? ? Hfresh Hnd']; subst.
    constructor; [| now apply IH].
    intros Hin. destruct (resolveAll_In _ _ _ Hrest j Hin) as [wo [Hwo Hid]].
    apply lastIndexOf_docId in E. destruct E as [wo' [Hwo' [Hid' _]]].
    rewrite Nat.sub_0_r in Hwo'. rewrite Hwo in Hwo'. inversion Hwo'; subst.
    contradiction.
Qed.

Lemma topologicalSort_NoDup (l : list WorkOrder) (sorted : list nat) :
  topologicalSort l = Ok sorted -> NoDup sorted.
Proof.
  unfold topologicalSort. intros H.
  apply bind_Ok_inv in H. destruct H as [graph [Hg H]].
  apply bind_Ok_inv in H. destruct H as [cycleError [_ H]].
  destruct cycleError; [discriminate |].
  apply bind_Ok_inv in H. destruct H as [ids [Hk H]].
  destruct (Nat.eqb (List.length ids) (List.length l)); [| discriminate].
  destruct (buildDependencyGraph_keys _ _ Hg) as [Hnd _].
  apply (kahn_inv graph _ _ _ _ _ (kahnInv_initial graph Hnd)) in Hk.
  now apply resolveAll_NoDup with (ids := ids) (l := l).
Qed.

Lemma assign_nth_same (l : list WorkOrder) (i : nat) (wo wo' : WorkOrder) :
  nth_error l i = Some wo -> nth_error (assign i wo' l) i = Some wo'.
Proof.
  revert i. induction l as [|w l IH]; intros [|i]; simpl; try discriminate; auto.
Qed.

(** Turns of the loop for other work orders leave the one at [i] alone. *)
Lemma processAll_keeps (workCenterMap : JsMap WorkCenter) (i : nat)
    (sorted : list nat) :
  forall (h h' : Heap) (r : result unit),
    processAll workCenterMap sorted h = (h', r) ->
    ~ In i sorted ->
    nth_error (workingCopies h') i = nth_error (workingCopies h) i.
Proof.
  induction sorted as [|j rest IH]; intros h h' r H Hi; simpl in H.
  - now inversion H.
  - destruct (processWorkOrder workCenterMap j h) as [h1 r1] eqn:Hstep.
    assert (Hone : nth_error (workingCopies h1) i = nth_error (workingCopies h) i).
    { apply processWorkOrder_cases in Hstep.
      destruct Hstep as [-> | [wo [s [e [c [_ [_ [_ [_ [_ [_ [_ ->]]]]]]]]]]]];
        [reflexivity |].
      simpl. apply assign_nth_other. intros ->. apply Hi. now left. }
    destruct r1 as [u|err].
    + rewrite <- Hone. apply (IH h1 h' r H). intros Hin. apply Hi. now right.
    + inversion H; subst. exact Hone.
Qed.

(** The work order of a logged change is stored with the dates of the
    change, and its end is the one [calculateEndDateWithShifts] gave. *)
Lemma processWorkOrder_stored (workCenterMap : JsMap WorkCenter) (i : nat)
    (h h' : Heap) (r : result unit) (c : WorkOrderChange) :
  processWorkOrder workCenterMap i h = (h', r) ->
  In c (changeLog h') ->
  In c (changeLog h)
  \/ exists wo wc,
       nth_error (workingCopies h') i = Some wo
       /\ isMaintenance (data wo) = false
       /\ docId wo = workOrderId c
       /\ startDate (data wo) = newStartDate c
       /\ endDate (data wo) = newEndDate c
       /\ map_get workCenterMap (workCenterId (data wo)) = Some wc
       /\ calculateEndDateWithShifts (startDate (data wo))
            (durationMinutes (data wo)) (shifts (data wc))
          = Ok (endDate (data wo)).
Proof.
  unfold processWorkOrder.
  destruct (nth_error (workingCopies h) i) as [wo|] eqn:Hnth;
    [| intros H; inversion H; subst; now left].
  destruct (isMaintenance (data wo)) eqn:Hm;
    [intros H; inversion H; subst; now left |].
  destruct (calculateEarliestStartTime wo (workingCopies h) workCenterMap)
    as [s|err]; [| intros H; inversion H; subst; now left].
  destruct (String.eqb s (startDate (data wo)));
    [intros H; inversion H; subst; now left |].
  destruct (map_get workCenterMap (workCenterId (data wo))) as [wc|] eqn:Hwc;
    [| intros H; inversion H; subst; now left].
  destruct (calculateEndDateWithShifts s (durationMinutes (data wo)) (shifts (data wc)))
    as [e|err] eqn:He; [| intros H; inversion H; subst; now left].
  intros H Hin. inversion H; subst. simpl in Hin. rewrite in_app_iff in Hin.
  destruct Hin as [Hin | [<- | []]]; [now left |].
  right. exists (reschedule wo s e), wc. simpl.
  repeat split; auto. now apply assign_nth_same with (wo := wo).
Qed.

Lemma processAll_stored (workCenterMap : JsMap WorkCenter) (sorted : list nat) :
  forall (h h' : Heap) (r : result unit) (c : WorkOrderChange),
    NoDup sorted ->
    processAll workCenterMap sorted h = (h', r) ->
    In c (changeLog h') ->
    In c (changeLog h)
    \/ exists wo wc,
         In wo (workingCopies h')
         /\ isMaintenance (data wo) = false
         /\ docId wo = workOrderId c
         /\ startDate (data wo) = newStartDate c
         /\ endDate (data wo) = newEndDate c
         /\ map_get workCenterMap (workCenterId (data wo)) = Some wc
         /\ calculateEndDateWithShifts (startDate (data wo))
              (durationMinutes (data wo)) (shifts (data wc))
            = Ok (endDate (data wo)).
Proof.
  induction sorted as [|i rest IH]; intros h h' r c Hnd H Hin; simpl in H.
  - inversion H; subst. now left.
  - inversion Hnd as [|? ? Hfresh Hnd']; subst.
    destruct (processWorkOrder workCenterMap i h) as [h1 r1] eqn:Hstep.
    assert (Hkeep : forall wo, nth_error (workingCopies h1) i = Some wo ->
                      In wo (workingCopies h')).
    { intros wo Hwo. apply nth_error_In with (n := i).
      destruct r1 as [u|err].
      - now rewrite (processAll_keeps workCenterMap i rest h1 h' r H Hfresh).
      - now inversion H; subst. }
    destruct r1 as [u|err].
    + destruct (IH h1 h' r c Hnd' H Hin) as [Hc | Hc]; [| now right].
      destruct (processWorkOrder_stored _ _ _ _ _ c Hstep Hc)
        as [Hold | [wo [wc [Hwo Hrest]]]]; [now left |].
      right. exists wo, wc. split; [now apply Hkeep | exact Hrest].
    + inversion H; subst.
      destruct (processWorkOrder_stored _ _ _ _ _ c Hstep Hin)
        as [Hold | [wo [wc [Hwo Hrest]]]]; [now left |].
      right. exists wo, wc. split; [now apply Hkeep | exact Hrest].
Qed.


(** ** Shift hours on instants *)

Lemma minutes_of_day (t : Z) :
  hour t * 60 + minute t = (t mod msPerDay) / msPerMinute.
Proof.
  unfold hour, minute, msPerDay, msPerHour, msPerMinute.
  pose proof (Z.mod_pos_bound t 86400000 ltac:(lia)) as Hr.
  assert (E : t mod 3600000 = (t mod 86400000) mod 3600000).
  { pose proof (Z.div_mod t 86400000 ltac:(lia)).
    pose proof (Z.div_mod (t mod 86400000) 3600000 ltac:(lia)).
    pose proof (Z.mod_pos_bound (t mod 86400000) 3600000 ltac:(lia)).
    symmetry.
    apply Z.mod_unique with
      (q := 24 * (t / 86400000) + (t mod 86400000) / 3600000); lia. }
  rewrite E. set (r := t mod 86400000) in *.
  pose proof (Z.div_mod r 3600000 ltac:(lia)).
  pose proof (Z.mod_pos_bound r 3600000 ltac:(lia)).
  pose proof (Z.div_mod (r mod 3600000) 60000 ltac:(lia)).
  pose proof (Z.mod_pos_bound (r mod 3600000) 60000 ltac:(lia)).
  apply Z.div_unique with (r := (r mod 3600000) mod 60000); lia.
Qed.

Lemma within_shift_minutes (t h : Z) :
  (h * 60 <=? hour t * 60 + minute t) = (plusHours (startOfDay t) h <=? t).
Proof.
  rewrite minutes_of_day. unfold plusHours, startOfDay, msPerHour, msPerMinute.
  pose proof (Z.mod_pos_bound t msPerDay msPerDay_pos) as Hr.
  set (r := t mod msPerDay) in *.
  pose proof (Z.div_mod r 60000 ltac:(lia)).
  pose proof (Z.mod_pos_bound r 60000 ltac:(lia)).
  destruct (Z.leb_spec (h * 60) (r / 60000)), (Z.leb_spec (t - r + h * 3600000) t);
    try reflexivity; lia.
Qed.

Lemma isWithinShiftHours_isWorking (date : string) (shifts : list Shift) :
  isWithinShiftHours date shifts
  = match fromISO date with
    | Some t => isWorking shifts t
    | None => false
    end.
Proof.
  unfold isWithinShiftHours, isWorking.
  destruct (fromISO date) as [t|]; [| reflexivity].
  destruct (shiftOn shifts t) as [shift|]; [| reflexivity].
  rewrite within_shift_minutes. f_equal.
  rewrite Z.ltb_antisym, (Z.ltb_antisym (plusHours _ _) t).
  now rewrite within_shift_minutes.
Qed.


(** ** The next shift start *)

Lemma startsInDay_spec (shifts : list Shift) (shift : Shift) :
  startsInDay shifts = true -> In shift shifts -> 0 <= startHour shift <= 23.
Proof.
  unfold startsInDay. rewrite forallb_forall. intros H Hin.
  specialize (H shift Hin). apply andb_true_iff in H.
  now rewrite !Z.leb_le in H.
Qed.

Lemma properShifts_spec (shifts : list Shift) (shift : Shift) :
  properShifts shifts = true -> In shift shifts ->
  0 <= startHour shift /\ startHour shift < endHour shift /\ endHour shift <= 24.
Proof.
  unfold properShifts. rewrite forallb_forall. intros H Hin.
  specialize (H shift Hin). rewrite !andb_true_iff in H.
  now rewrite !Z.leb_le, Z.ltb_lt in H.
Qed.

Lemma properShifts_startsInDay (shifts : list Shift) :
  properShifts shifts = true -> startsInDay shifts = true.
Proof.
  intros H. unfold startsInDay. apply forallb_forall. intros s Hs.
  destruct (properShifts_spec shifts s H Hs) as [H0 [H1 H2]].
  apply andb_true_iff. rewrite !Z.leb_le. lia.
Qed.

Lemma properShifts_withinDay (shifts : list Shift) :
  properShifts shifts = true -> shiftsWithinDay shifts = true.
Proof.
  intros H. unfold shiftsWithinDay. apply forallb_forall. intros s Hs.
  destruct (properShifts_spec shifts s H Hs) as [H0 [H1 H2]].
  apply andb_true_iff. rewrite !Z.leb_le. lia.
Qed.

Lemma shiftOn_same_day (shifts : list Shift) (t u : Z) :
  dayIndex t = dayIndex u -> shiftOn shifts t = shiftOn shifts u.
Proof. intros H. now rewrite (shiftOn_day shifts t), (shiftOn_day shifts u), H. Qed.

(** A shift start lies in the day of the instants it is computed from. *)
Lemma shiftStart_day (t h : Z) :
  0 <= h <= 23 -> dayIndex (plusHours (startOfDay t) h) = dayIndex t.
Proof.
  intros Hh. apply dayIndex_unique. rewrite startOfDay_dayIndex.
  unfold plusHours, msPerHour, msPerDay. lia.
Qed.

Lemma startOfDay_same_day (t u : Z) :
  dayIndex t = dayIndex u -> startOfDay t = startOfDay u.
Proof. intros H. now rewrite !startOfDay_dayIndex, H. Qed.

Lemma same_day_between (a u b : Z) :
  a <= u <= b -> dayIndex a = dayIndex b -> dayIndex u = dayIndex a.
Proof.
  intros H E. pose proof (dayIndex_mono a u (proj1 H)).
  pose proof (dayIndex_mono u b (proj2 H)). lia.
Qed.

Lemma before_nextDay (c u : Z) : u < nextDay c -> c <= u -> dayIndex u = dayIndex c.
Proof.
  intros H1 H2. rewrite nextDay_dayIndex in H1.
  apply dayIndex_unique. pose proof (dayIndex_bounds c). lia.
Qed.

Lemma nextDay_after (c : Z) : c < nextDay c.
Proof. rewrite nextDay_dayIndex. pose proof (dayIndex_bounds c). lia. Qed.

(** What the loop returns is the first shift start at or after the cursor. *)
Lemma nextShiftStartFrom_spec (shifts : list Shift) :
  startsInDay shifts = true ->
  forall (fuel : nat) (c r : Z),
    nextShiftStartFrom fuel shifts c = Ok r ->
    c <= r /\ isShiftStart shifts r
    /\ (forall u, c <= u < r -> ~ isShiftStart shifts u).
Proof.
  intros Hs. induction fuel as [|fuel IH]; intros c r H; simpl in H;
    [discriminate |].
  assert (Hlater : nextShiftStartFrom fuel shifts (nextDay c) = Ok r ->
            (forall shift, shiftOn shifts c = Some shift ->
               plusHours (startOfDay c) (startHour shift) < c) ->
            c <= r /\ isShiftStart shifts r
            /\ (forall u, c <= u < r -> ~ isShiftStart shifts u)).
  { intros Hrec Hpast. destruct (IH _ _ Hrec) as [Hle [Hstart Hmin]].
    pose proof (nextDay_after c). repeat split; [lia | exact Hstart |].
    intros u Hu [shift [Hon Heq]].
    destruct (Z_lt_ge_dec u (nextDay c)) as [Hday | Hday].
    - pose proof (before_nextDay c u Hday (proj1 Hu)) as Hd.
      rewrite (shiftOn_same_day shifts u c Hd) in Hon.
      rewrite (startOfDay_same_day u c Hd) in Heq.
      specialize (Hpast shift Hon). lia.
    - apply (Hmin u); [lia |]. now exists shift. }
  destruct (shiftOn shifts c) as [shift|] eqn:Hon.
  - destruct (Z.leb_spec c (plusHours (startOfDay c) (startHour shift))) as [Hle | Hgt].
    + inversion H; subst r. clear Hlater.
      pose proof (startsInDay_spec shifts shift Hs (shiftOn_In _ _ _ Hon)) as Hh.
      pose proof (shiftStart_day c (startHour shift) Hh) as Hd.
      repeat split; [exact Hle | |].
      * exists shift. split.
        -- now rewrite (shiftOn_same_day shifts _ c Hd).
        -- now rewrite (startOfDay_same_day _ c Hd).
      * intros u Hu [shift' [Hon' Heq]].
        assert (Hdu : dayIndex u = dayIndex c).
        { apply (same_day_between c u (plusHours (startOfDay c) (startHour shift)));
            [lia | now symmetry]. }
        rewrite (shiftOn_same_day shifts u c Hdu), Hon in Hon'.
        inversion Hon'; subst shift'.
        rewrite (startOfDay_same_day u c Hdu) in Heq. lia.
    + apply Hlater; [exact H |]. intros shift' E. inversion E; subst. exact Hgt.
  - apply Hlater; [exact H |]. intros shift' E. discriminate.
Qed.

(** Among seven days in a row every day of the week occurs. *)
Lemma weekday_cover (k D : Z) :
  0 <= k <= 6 ->
  exists n : nat, (n < 7)%nat /\ weekday ((D + Z.of_nat n) * msPerDay) mod 7 = k.
Proof.
  intros Hk. exists (Z.to_nat ((k - D - 4) mod 7)).
  pose proof (Z.mod_pos_bound (k - D - 4) 7 ltac:(lia)) as Hb.
  split; [lia |]. rewrite Z2Nat.id by lia.
  unfold weekday. rewrite Z.div_mul by discriminate.
  pose proof (Z.div_mod (k - D - 4) 7 ltac:(lia)) as E.
  set (m := (k - D - 4) mod 7) in *. set (q := (k - D - 4) / 7) in *.
  replace (D + m + 3) with ((k - 1) + (- q) * 7) by lia.
  rewrite Z.mod_add by lia.
  destruct (Z.eq_dec k 0) as [-> | Hk0].
  - reflexivity.
  - rewrite (Z.mod_small (k - 1) 7) by lia.
    replace (k - 1 + 1) with k by lia. apply Z.mod_small. lia.
Qed.

Lemma someShiftInWeek_day (shifts : list Shift) (D : Z) :
  someShiftInWeek shifts = true ->
  exists n : nat, (n < 7)%nat
    /\ shiftOn shifts ((D + Z.of_nat n) * msPerDay) <> None.
Proof.
  unfold someShiftInWeek. intros H. apply existsb_exists in H.
  destruct H as [s [Hin Hs]]. apply andb_true_iff in Hs.
  rewrite !Z.leb_le in Hs.
  destruct (weekday_cover (dayOfWeek s) D Hs) as [n [Hn Hw]].
  exists n. split; [exact Hn |]. unfold shiftOn. intros Hnone.
  apply (find_none _ _ Hnone s) in Hin. rewrite Hw, Z.eqb_refl in Hin.
  discriminate.
Qed.

Lemma noShiftInWeek_shiftOn (shifts : list Shift) (t : Z) :
  someShiftInWeek shifts = false -> shiftOn shifts t = None.
Proof.
  unfold someShiftInWeek, shiftOn. intros H.
  destruct (find _ shifts) as [s|] eqn:Hf; [| reflexivity].
  apply find_some in Hf. destruct Hf as [Hin Heq]. apply Z.eqb_eq in Heq.
  exfalso. rewrite <- not_true_iff_false in H. apply H.
  apply existsb_exists. exists s. split; [exact Hin |].
  pose proof (Z.mod_pos_bound (weekday t) 7 ltac:(lia)).
  apply andb_true_iff. rewrite !Z.leb_le. lia.
Qed.

(** From a midnight the loop stops on the first day that has a shift. *)
Lemma nextShiftStartFrom_midnight (shifts : list Shift) :
  startsInDay shifts = true ->
  forall (n fuel : nat) (D : Z),
    (n < fuel)%nat ->
    shiftOn shifts ((D + Z.of_nat n) * msPerDay) <> None ->
    exists r, nextShiftStartFrom fuel shifts (D * msPerDay) = Ok r
              /\ r < (D + Z.of_nat n + 1) * msPerDay.
Proof.
  intros Hs. induction n as [|n IH]; intros fuel D Hfuel Hday;
    (destruct fuel as [|fuel]; [lia |]); simpl.
  - rewrite Z.add_0_r in Hday.
    destruct (shiftOn shifts (D * msPerDay)) as [shift|] eqn:Hon; [| contradiction].
    pose proof (startsInDay_spec shifts shift Hs (shiftOn_In _ _ _ Hon)) as Hh.
    assert (Hsd : startOfDay (D * msPerDay) = D * msPerDay).
    { rewrite startOfDay_dayIndex. f_equal. apply dayIndex_unique.
      unfold msPerDay. lia. }
    rewrite Hsd.
    destruct (Z.leb_spec (D * msPerDay) (plusHours (D * msPerDay) (startHour shift)))
      as [Hle | Hgt]; [| unfold plusHours, msPerHour in Hgt; lia].
    eexists. split; [reflexivity |]. unfold plusHours, msPerHour, msPerDay. lia.
  - assert (Hsd : startOfDay (D * msPerDay) = D * msPerDay).
    { rewrite startOfDay_dayIndex. f_equal. apply dayIndex_unique.
      unfold msPerDay. lia. }
    assert (Hnext : nextDay (D * msPerDay) = (D + 1) * msPerDay).
    { rewrite nextDay_dayIndex. f_equal. f_equal. apply dayIndex_unique.
      unfold msPerDay. lia. }
    assert (Hrec : exists r, nextShiftStartFrom fuel shifts ((D + 1) * msPerDay) = Ok r
                             /\ r < (D + Z.of_nat (S n) + 1) * msPerDay).
    { destruct (IH fuel (D + 1)) as [r [Hr Hb]]; [lia | |].
      - replace (D + 1 + Z.of_nat n) with (D + Z.of_nat (S n)) by lia. exact Hday.
      - exists r. split; [exact Hr |].
        replace (D + Z.of_nat (S n) + 1) with (D + 1 + Z.of_nat n + 1) by lia.
        exact Hb. }
    destruct (shiftOn shifts (D * msPerDay)) as [shift|] eqn:Hon.
    + pose proof (startsInDay_spec shifts shift Hs (shiftOn_In _ _ _ Hon)) as Hh.
      rewrite Hsd.
      destruct (Z.leb_spec (D * msPerDay) (plusHours (D * msPerDay) (startHour shift)))
        as [Hle | Hgt]; [| unfold plusHours, msPerHour in Hgt; lia].
      eexists. split; [reflexivity |]. unfold plusHours, msPerHour, msPerDay. lia.
    + rewrite Hnext. exact Hrec.
Qed.

Lemma nextShiftStartFrom_returns (shifts : list Shift) (c : Z) (fuel : nat) :
  startsInDay shifts = true -> someShiftInWeek shifts = true ->
  (8 <= fuel)%nat ->
  exists r, nextShiftStartFrom fuel shifts c = Ok r /\ r < c + 8 * msPerDay.
Proof.
  intros Hs Hsome Hfuel. destruct fuel as [|fuel]; [lia |]. simpl.
  pose proof (dayIndex_bounds c) as Hc.
  assert (Hrec : exists r, nextShiftStartFrom fuel shifts (nextDay c) = Ok r
                           /\ r < c + 8 * msPerDay).
  { rewrite nextDay_dayIndex.
    destruct (someShiftInWeek_day shifts (dayIndex c + 1) Hsome) as [n [Hn Hday]].
    destruct (nextShiftStartFrom_midnight shifts Hs n fuel (dayIndex c + 1))
      as [r [Hr Hb]]; [lia | exact Hday |].
    exists r. split; [exact Hr |]. unfold msPerDay in *. lia. }
  destruct (shiftOn shifts c) as [shift|] eqn:Hon; [| exact Hrec].
  destruct (Z.leb_spec c (plusHours (startOfDay c) (startHour shift))); [| exact Hrec].
  pose proof (startsInDay_spec shifts shift Hs (shiftOn_In _ _ _ Hon)) as Hh.
  eexists. split; [reflexivity |].
  rewrite startOfDay_dayIndex. unfold plusHours, msPerHour, msPerDay in *. lia.
Qed.

Lemma nextShiftStartFrom_none (shifts : list Shift) :
  someShiftInWeek shifts = false ->
  forall (fuel : nat) (c : Z), nextShiftStartFrom fuel shifts c = Throw NoNextShiftStart.
Proof.
  intros Hnone. induction fuel as [|fuel IH]; intros c; simpl; [reflexivity |].
  now rewrite (noShiftInWeek_shiftOn shifts c Hnone).
Qed.

Lemma findNextShiftStart_cases (date : string) (shifts : list Shift) (t : Z) :
  startsInDay shifts = true ->
  fromISO date = Some t ->
  (someShiftInWeek shifts = true ->
   exists r, findNextShiftStart date shifts = Ok (toISO r)
             /\ t <= r < t + 8 * msPerDay
             /\ isShiftStart shifts r
             /\ (forall u, t <= u < r -> ~ isShiftStart shifts u))
  /\ (someShiftInWeek shifts = false ->
      findNextShiftStart date shifts = Throw NoNextShiftStart).
Proof.
  intros Hs Ht. unfold findNextShiftStart. rewrite Ht. split.
  - intros Hsome.
    destruct (nextShiftStartFrom_returns shifts t 100 Hs Hsome) as [r [Hr Hb]];
      [lia |].
    destruct (nextShiftStartFrom_spec shifts Hs _ _ _ Hr) as [Hle [Hstart Hmin]].
    exists r. rewrite Hr. cbn [bind]. repeat split; auto.
  - intros Hnone. now rewrite (nextShiftStartFrom_none shifts Hnone).
Qed.

(** X1. For shifts that start at an hour from 0 to 23 and a valid date:
    when some shift is on a day of the week, [findNextShiftStart] returns
    the ISO text of the first shift start at or after the date, less than
    eight days later; when no shift is, it throws. *)
Theorem findNextShiftStart_first :
  forall (date : string) (shifts : list Shift) (t : Z),
    startsInDay shifts = true ->
    fromISO date = Some t ->
    (someShiftInWeek shifts = true ->
     exists r, findNextShiftStart date shifts = Ok (toISO r)
               /\ t <= r < t + 8 * msPerDay
               /\ isShiftStart shifts r
               /\ (forall u, t <= u < r -> ~ isShiftStart shifts u))
    /\ (someShiftInWeek shifts = false ->
        findNextShiftStart date shifts = Throw NoNextShiftStart).
Proof. intros date shifts t. apply findNextShiftStart_cases. Qed.

Lemma findNextShiftStart_first_witness :
  exists r, findNextShiftStart "2026-02-13T18:30:00.000Z" weekShifts = Ok (toISO r)
            /\ 1771007400000 <= r < 1771007400000 + 8 * msPerDay
            /\ isShiftStart weekShifts r
            /\ (forall u, 1771007400000 <= u < r -> ~ isShiftStart weekShifts u).
Proof.
  apply (proj1 (findNextShiftStart_first "2026-02-13T18:30:00.000Z" weekShifts
                  1771007400000 eq_refl eq_refl)).
  reflexivity.
Defined.


(** ** Moving a start into shift hours *)

Lemma isShiftStart_isWorking (shifts : list Shift) (r : Z) :
  properShifts shifts = true -> isShiftStart shifts r -> isWorking shifts r = true.
Proof.
  intros Hp [shift [Hon Heq]]. unfold isWorking. rewrite Hon.
  destruct (properShifts_spec shifts shift Hp (shiftOn_In _ _ _ Hon)) as [H0 [H1 H2]].
  apply andb_true_iff. rewrite Z.leb_le, Z.ltb_lt.
  unfold plusHours, msPerHour in *. lia.
Qed.

(** The start of the shift of a working instant is a shift start. *)
Lemma isWorking_shift_start (shifts : list Shift) (u : Z) :
  startsInDay shifts = true -> isWorking shifts u = true ->
  exists shift, shiftOn shifts u = Some shift
    /\ plusHours (startOfDay u) (startHour shift) <= u
    /\ isShiftStart shifts (plusHours (startOfDay u) (startHour shift)).
Proof.
  intros Hs. unfold isWorking.
  destruct (shiftOn shifts u) as [shift|] eqn:Hon; [| discriminate].
  intros H. apply andb_true_iff in H. destruct H as [H1 _]. apply Z.leb_le in H1.
  exists shift. repeat split; [exact H1 |].
  pose proof (startsInDay_spec shifts shift Hs (shiftOn_In _ _ _ Hon)) as Hh.
  pose proof (shiftStart_day u (startHour shift) Hh) as Hd.
  exists shift. split.
  - now rewrite (shiftOn_same_day shifts _ u Hd).
  - now rewrite (startOfDay_same_day _ u Hd).
Qed.

Lemma adjustToShiftStart_cases :
  forall (date : string) (wc : WorkCenter) (t : Z),
    properShifts (shifts (data wc)) = true ->
    fromISO date = Some t ->
    (someShiftInWeek (shifts (data wc)) = true ->
     exists s, t <= s
       /\ isWorking (shifts (data wc)) s = true
       /\ (forall u, t <= u < s -> isWorking (shifts (data wc)) u = false)
       /\ adjustToShiftStart date wc = Ok (if s =? t then date else toISO s))
    /\ (someShiftInWeek (shifts (data wc)) = false ->
        adjustToShiftStart date wc = Throw NoNextShiftStart).
Proof.
  intros date wc t Hp Ht. set (sh := shifts (data wc)) in *.
  pose proof (properShifts_startsInDay sh Hp) as Hs.
  unfold adjustToShiftStart. fold sh. rewrite Ht. split.
  - intros Hsome.
    (* what the call of findNextShiftStart gives when [t] is not working
       and no shift of its day starts at or after it *)
    assert (Hnext : isWorking sh t = false ->
              (forall shift, shiftOn sh t = Some shift ->
                 plusHours (startOfDay t) (startHour shift) <= t) ->
              exists s, t <= s /\ isWorking sh s = true
                /\ (forall u, t <= u < s -> isWorking sh u = false)
                /\ findNextShiftStart date sh = Ok (if s =? t then date else toISO s)).
    { intros Hidle Hpast.
      destruct (findNextShiftStart_cases date sh t Hs Ht) as [Hfind _].
      destruct (Hfind Hsome) as [r [Hr [[Hle _] [Hstart Hmin]]]].
      pose proof (isShiftStart_isWorking sh r Hp Hstart) as Hwork.
      assert (Hne : r <> t) by (intros ->; congruence).
      exists r. repeat split; auto.
      - intros u Hu. destruct (isWorking sh u) eqn:Hwu; [| reflexivity].
        exfalso.
        destruct (isWorking_shift_start sh u Hs Hwu) as [shift [Hon [Hsu Hst]]].
        destruct (Z_lt_ge_dec (plusHours (startOfDay u) (startHour shift)) t)
          as [Hbefore | Hafter].
        + (* the shift of [u] started before [t]: same day, so [t] works *)
          assert (Hd : dayIndex t = dayIndex u).
          { pose proof (startsInDay_spec sh shift Hs (shiftOn_In _ _ _ Hon)) as Hh.
            pose proof (shiftStart_day u (startHour shift) Hh) as Hd.
            rewrite <- Hd.
            apply (same_day_between (plusHours (startOfDay u) (startHour shift)) t u);
              [lia | exact Hd]. }
          unfold isWorking in Hidle, Hwu.
          rewrite (shiftOn_same_day sh t u Hd), Hon in Hidle. rewrite Hon in Hwu.
          rewrite (startOfDay_same_day t u Hd) in Hidle.
          apply andb_true_iff in Hwu. destruct Hwu as [_ Hend].
          apply Z.ltb_lt in Hend.
          apply andb_false_iff in Hidle. rewrite Z.leb_gt, Z.ltb_ge in Hidle. lia.
        + apply (Hmin (plusHours (startOfDay u) (startHour shift))); [lia | exact Hst].
      - rewrite Hr. destruct (Z.eqb_spec r t); [contradiction | reflexivity]. }
    destruct (shiftOn sh t) as [shift|] eqn:Hon.
    + destruct (properShifts_spec sh shift Hp (shiftOn_In _ _ _ Hon)) as [H0 [H1 H2]].
      rewrite Z.ltb_antisym, !within_shift_minutes.
      destruct (Z.leb_spec (plusHours (startOfDay t) (startHour shift)) t)
        as [Hstarted | Hearly]; cbn [negb].
      * destruct (Z.leb_spec (plusHours (startOfDay t) (endHour shift)) t)
          as [Hover | Hin].
        -- apply Hnext.
           ++ unfold isWorking. rewrite Hon. apply andb_false_iff. right.
              now apply Z.ltb_ge.
           ++ intros shift' E. inversion E; subst. exact Hstarted.
        -- exists t. rewrite Z.eqb_refl. repeat split; [lia | | intros u Hu; lia].
           unfold isWorking. rewrite Hon. apply andb_true_iff.
           now rewrite Z.leb_le, Z.ltb_lt.
      * set (s := plusHours (startOfDay t) (startHour shift)) in *.
        assert (Hh : 0 <= startHour shift <= 23) by lia.
        pose proof (shiftStart_day t (startHour shift) Hh) as Hd. fold s in Hd.
        exists s. repeat split; [lia | |  |].
        -- apply isShiftStart_isWorking; [exact Hp |]. exists shift. split.
           ++ now rewrite (shiftOn_same_day sh s t Hd).
           ++ now rewrite (startOfDay_same_day s t Hd).
        -- intros u Hu.
           assert (Hdu : dayIndex u = dayIndex t).
           { apply (same_day_between t u s); [lia | now symmetry]. }
           unfold isWorking. rewrite (shiftOn_same_day sh u t Hdu), Hon.
           rewrite (startOfDay_same_day u t Hdu). fold s.
           apply andb_false_iff. left. apply Z.leb_gt. lia.
        -- destruct (Z.eqb_spec s t); [lia | reflexivity].
    + apply Hnext.
      * unfold isWorking. now rewrite Hon.
      * intros shift E. discriminate.
  - intros Hnone. rewrite (noShiftInWeek_shiftOn sh t Hnone).
    destruct (findNextShiftStart_cases date sh t Hs Ht) as [_ Hthrow]. auto.
Qed.

(** X2. For shifts that start at an hour of their day and end later, by
    midnight, and a valid date: [adjustToShiftStart] returns the date
    itself when it lies in shift hours, and otherwise the ISO text of the
    first later instant that does, which is a shift start; when no shift
    is on a day of the week it throws. *)
Theorem adjustToShiftStart_first_working :
  forall (date : string) (wc : WorkCenter) (t : Z),
    properShifts (shifts (data wc)) = true ->
    fromISO date = Some t ->
    (someShiftInWeek (shifts (data wc)) = true ->
     exists s, t <= s
       /\ isWorking (shifts (data wc)) s = true
       /\ (forall u, t <= u < s -> isWorking (shifts (data wc)) u = false)
       /\ adjustToShiftStart date wc = Ok (if s =? t then date else toISO s))
    /\ (someShiftInWeek (shifts (data wc)) = false ->
        adjustToShiftStart date wc = Throw NoNextShiftStart).
Proof. exact adjustToShiftStart_cases. Qed.

Lemma adjustToShiftStart_first_working_witness :
  exists s, 1770706800000 <= s
    /\ isWorking weekShifts s = true
    /\ (forall u, 1770706800000 <= u < s -> isWorking weekShifts u = false)
    /\ adjustToShiftStart "2026-02-10T07:00:00.000Z" (mkWorkCenter "wc-1" weekShifts [])
       = Ok (if s =? 1770706800000 then "2026-02-10T07:00:00.000Z" else toISO s).
Proof.
  apply (proj1 (adjustToShiftStart_first_working "2026-02-10T07:00:00.000Z"
                  (mkWorkCenter "wc-1" weekShifts []) 1770706800000
                  eq_refl eq_refl)).
  reflexivity.
Defined.


(** ** Reading back a date that was written *)

Lemma days_from_civil_inside (y m d : Z) :
  1 <= m <= 12 -> 1 <= d <= 31 -> 0 <= y <= 9999 ->
  -719528 <= days_from_civil y m d <= 2932896.
Proof.
  intros Hm Hd Hy. unfold days_from_civil.
  set (y' := if m <=? 2 then y - 1 else y).
  set (mm := if 2 <? m then m - 3 else m + 9).
  assert (Hy' : (m <= 2 /\ y' = y - 1) \/ (2 < m /\ y' = y)).
  { unfold y'. destruct (Z.leb_spec m 2); [left | right]; lia. }
  assert (Hmm : (m <= 2 /\ mm = m + 9) \/ (2 < m /\ mm = m - 3)).
  { unfold mm. destruct (Z.ltb_spec 2 m); [right | left]; lia. }
  pose proof (Z.div_mod y' 400). pose proof (Z.mod_pos_bound y' 400).
  set (era := y' / 400) in *.
  set (yoe := y' - era * 400).
  pose proof (Z.div_mod yoe 4). pose proof (Z.mod_pos_bound yoe 4).
  pose proof (Z.div_mod yoe 100). pose proof (Z.mod_pos_bound yoe 100).
  pose proof (Z.div_mod (153 * mm + 2) 5). pose proof (Z.mod_pos_bound (153 * mm + 2) 5).
  assert (Hyoe : 0 <= yoe <= 399) by (unfold yoe; lia).
  lia.
Qed.

(** A date written by [toISO] reads back as the instant it was written
    from, or not at all. *)
Lemma fromISO_toISO_inv (s t : Z) : fromISO (toISO s) = Some t -> t = s.
Proof.
  intros H.
  assert (Hcase : inFourDigitYears s \/ fromISO (toISO s) = None).
  { pose proof (civil_roundtrip (s / msPerDay)) as Hc.
    pose proof (Z.div_mod s msPerDay ltac:(discriminate)) as Hdm.
    pose proof (Z.mod_pos_bound s msPerDay msPerDay_pos) as Hr.
    unfold toISO.
    destruct (civil_from_days (s / msPerDay)) as [[y m] d].
    destruct Hc as [Hm [Hd Hback]].
    pose proof (daysInMonth_le_31 y m) as H31.
    destruct ((0 <=? y) && (y <=? 9999)) eqn:Hy.
    - left. apply andb_true_iff in Hy. rewrite !Z.leb_le in Hy.
      pose proof (days_from_civil_inside y m d Hm ltac:(lia) Hy) as Hin.
      unfold inFourDigitYears, msPerDay in *. lia.
    - right. destruct (0 <=? y); reflexivity. }
  destruct Hcase as [Hin | Hnone]; [| congruence].
  rewrite (fromISO_toISO s Hin) in H. now inversion H.
Qed.


(** ** Doubles that hold integers *)

Lemma nearestEven_multiple (m d : Z) : 0 < d -> Double.nearestEven (m * d) d = m.
Proof.
  intros Hd. unfold Double.nearestEven.
  rewrite Z.div_mul by lia. rewrite Z.mod_mul by lia.
  destruct (Z.ltb_spec (2 * 0) d); [reflexivity | lia].
Qed.

Lemma Qred_inject_Z (a : Z) : Qred (inject_Z a) = inject_Z a.
Proof.
  unfold Qred, inject_Z.
  pose proof (Z.ggcd_gcd a 1) as Hg.
  pose proof (Z.ggcd_correct_divisors a 1) as Hd.
  destruct (Z.ggcd a 1) as [g [aa bb]]. simpl in Hg.
  rewrite Z.gcd_1_r in Hg. subst g. destruct Hd as [Ha Hb].
  rewrite Z.mul_1_l in Ha, Hb. subst aa. rewrite <- Hb. reflexivity.
Qed.

Lemma Qred_integer (a : Z) (p : positive) : Qred (a * Zpos p # p) = inject_Z a.
Proof.
  rewrite (Qred_complete (a * Zpos p # p) (inject_Z a)).
  - apply Qred_inject_Z.
  - unfold Qeq, inject_Z. simpl. lia.
Qed.

(** A real result that is an integer of at most 53 bits is not rounded. *)
Lemma round_integer (x : Q) (A : Z) :
  (x == inject_Z A)%Q -> Z.abs A <= Double.maxExactInteger ->
  Double.round x = inject_Z A.
Proof.
  intros Hx HA. destruct x as [n d]. unfold Qeq in Hx. simpl in Hx.
  rewrite Z.mul_1_r in Hx. subst n.
  unfold Double.round. cbn [Qnum Qden].
  destruct (Z.eqb_spec (Z.abs (A * Zpos d)) 0) as [H0|H0].
  - assert (A = 0) by nia. subst. reflexivity.
  - assert (HA0 : A <> 0) by (intros ->; apply H0; reflexivity).
    rewrite Z.abs_mul, (Z.abs_eq (Zpos d)) by lia.
    set (a := Z.abs A) in *. assert (Ha : 0 < a) by (unfold a; lia).
    pose proof (Z.log2_nonneg (Zpos d)) as Hld.
    set (k := Z.log2 (Zpos d) + 1).
    replace (a * Zpos d * 2 ^ k / Zpos d) with (a * 2 ^ k)
      by (replace (a * Zpos d * 2 ^ k) with (a * 2 ^ k * Zpos d) by ring;
          now rewrite Z.div_mul by lia).
    rewrite Z.log2_mul_pow2 by (unfold k; lia).
    replace (k + Z.log2 a - k - 52) with (Z.log2 a - 52) by lia.
    assert (Hlog : Z.log2 a < 54).
    { apply Z.log2_lt_pow2; [exact Ha |]. unfold Double.maxExactInteger in HA.
      change (2 ^ 54) with (2 * 2 ^ 53). lia. }
    assert (Hv : (if 0 <=? Z.log2 a - 52
                  then inject_Z (Double.nearestEven (a * Zpos d)
                                   (Zpos d * 2 ^ (Z.log2 a - 52))
                                 * 2 ^ (Z.log2 a - 52))
                  else Qred (Double.nearestEven (a * Zpos d * 2 ^ (- (Z.log2 a - 52)))
                               (Zpos d)
                             # Z.to_pos (2 ^ (- (Z.log2 a - 52)))))
                 = inject_Z a).
    { destruct (Z.leb_spec 0 (Z.log2 a - 52)) as [He|He].
      - assert (E : Z.log2 a = 52 \/ Z.log2 a = 53) by lia.
        destruct E as [E|E]; rewrite E.
        + change (2 ^ (52 - 52)) with 1. rewrite !Z.mul_1_r.
          now rewrite nearestEven_multiple by lia.
        + change (2 ^ (53 - 52)) with 2.
          assert (E2 : a = 2 ^ 53).
          { pose proof (proj2 (Z.log2_le_pow2 a 53 Ha) ltac:(lia)).
            unfold Double.maxExactInteger in HA. lia. }
          rewrite E2.
          replace (2 ^ 53 * Zpos d) with (2 ^ 52 * (Zpos d * 2))
            by (change (2 ^ 53) with (2 ^ 52 * 2); ring).
          rewrite nearestEven_multiple by lia. reflexivity.
      - set (P := 2 ^ (- (Z.log2 a - 52))).
        assert (HP : 0 < P) by (apply Z.pow_pos_nonneg; lia).
        replace (a * Zpos d * P) with (a * P * Zpos d) by ring.
        rewrite nearestEven_multiple by lia.
        rewrite <- (Z2Pos.id P HP) at 1. apply Qred_integer. }
    rewrite Hv.
    destruct (Z.ltb_spec (A * Zpos d) 0) as [Hneg|Hpos].
    + unfold Qopp, inject_Z. simpl. f_equal. unfold a. nia.
    + f_equal. unfold a. nia.
Qed.

Lemma Double_add_integers (a b : Z) :
  Z.abs (a + b) <= Double.maxExactInteger ->
  Double.add (inject_Z a) (inject_Z b) = inject_Z (a + b).
Proof.
  intros H. apply round_integer; [| exact H].
  unfold Qeq, Qplus, inject_Z. simpl. lia.
Qed.

Lemma Double_sub_integers (a b : Z) :
  Z.abs (a - b) <= Double.maxExactInteger ->
  Double.sub (inject_Z a) (inject_Z b) = inject_Z (a - b).
Proof.
  intros H. apply round_integer; [| exact H].
  unfold Qeq, Qminus, Qplus, Qopp, inject_Z. simpl. lia.
Qed.

Lemma Double_mul_integers (a b : Z) :
  Z.abs (a * b) <= Double.maxExactInteger ->
  Double.mul (inject_Z a) (inject_Z b) = inject_Z (a * b).
Proof.
  intros H. apply round_integer; [| exact H].
  unfold Qeq, Qmult, inject_Z. simpl. lia.
Qed.

Lemma Double_div_integers (a b : Z) :
  0 < b -> Z.abs a <= Double.maxExactInteger ->
  Double.div (inject_Z (a * b)) (inject_Z b) = inject_Z a.
Proof.
  intros Hb H. apply round_integer; [| exact H].
  destruct b as [|p|p]; try lia.
  unfold Qeq, Qdiv, Qmult, Qinv, inject_Z. simpl. lia.
Qed.

Lemma Double_trunc_integer (a : Z) : Double.trunc (inject_Z a) = a.
Proof. unfold Double.trunc, inject_Z. simpl. apply Z.quot_1_r. Qed.

Lemma Double_mathRound_integer (a : Z) : Double.mathRound (inject_Z a) = a.
Proof.
  unfold Double.mathRound, Qfloor, Qplus, inject_Z. simpl.
  replace (a * 2 + 1) with (1 + a * 2) by lia.
  rewrite Z.div_add by discriminate. reflexivity.
Qed.

Lemma Qle_bool_integers (a b : Z) : Qle_bool (inject_Z a) (inject_Z b) = (a <=? b).
Proof. unfold Qle_bool, inject_Z. simpl. now rewrite !Z.mul_1_r. Qed.

Lemma Qeq_bool_integers (a b : Z) : Qeq_bool (inject_Z a) (inject_Z b) = (a =? b).
Proof. unfold Qeq_bool, inject_Z. simpl. now rewrite !Z.mul_1_r. Qed.

(** ** Luxon's minutes on whole numbers *)

Lemma diffMinutes_whole (later earlier A : Z) :
  later - earlier = A * msPerMinute -> Z.abs A <= Double.maxExactInteger ->
  diffMinutes later earlier = inject_Z A.
Proof.
  intros H HA. unfold diffMinutes. rewrite H.
  apply Double_div_integers; [reflexivity | exact HA].
Qed.

Lemma minutesAsMillis_whole (R : Z) :
  0 <= R <= 1440 ->
  minutesAsMillis (inject_Z R) = inject_Z (msPerMinute * R).
Proof.
  intros HR. unfold minutesAsMillis.
  assert (Hown : Double.mul (inject_Z msPerMinute) (inject_Z R)
                 = inject_Z (msPerMinute * R)).
  { apply Double_mul_integers. unfold Double.maxExactInteger, msPerMinute.
    change (2 ^ 53) with 9007199254740992. lia. }
  rewrite Hown, Double_trunc_integer.
  change 1000%Q with (inject_Z 1000).
  rewrite Double_mul_integers
    by (unfold Double.maxExactInteger, msPerMinute;
        change (2 ^ 53) with 9007199254740992; lia).
  rewrite Double_sub_integers
    by (rewrite Z.sub_diag; unfold Double.maxExactInteger; simpl; lia).
  rewrite Z.sub_diag. reflexivity.
Qed.

Lemma plusMinutes_whole (t R : Z) :
  0 <= R <= 1440 ->
  Z.abs t + msPerDay <= Double.maxExactInteger ->
  instantOf (plusMinutes t (inject_Z R)) = t + R * msPerMinute.
Proof.
  intros HR Ht. unfold plusMinutes, instantOf.
  rewrite minutesAsMillis_whole by exact HR.
  change 0%Q with (inject_Z 0). rewrite Qeq_bool_integers.
  destruct (Z.eqb_spec (msPerMinute * R) 0) as [E|E].
  - rewrite Double_trunc_integer. lia.
  - rewrite Double_add_integers, Double_trunc_integer; [lia |].
    unfold msPerMinute, msPerDay in *. lia.
Qed.

(** ** The code walks the shifts in whole milliseconds *)

Lemma onWholeMinute_day (t : Z) : onWholeMinute (startOfDay t).
Proof.
  unfold onWholeMinute, startOfDay, msPerMinute.
  pose proof (Z.div_mod t msPerDay ltac:(discriminate)) as H.
  replace (t - t mod msPerDay) with ((t / msPerDay * 1440) * 60000)
    by (unfold msPerDay in *; lia).
  apply Z.mod_mul. discriminate.
Qed.

Lemma onWholeMinute_plusHours (t h : Z) :
  onWholeMinute t -> onWholeMinute (plusHours t h).
Proof.
  unfold onWholeMinute, plusHours, msPerMinute, msPerHour. intros H.
  replace (t + h * 3600000) with (t + (h * 60) * 60000) by lia.
  now rewrite Z.mod_add by discriminate.
Qed.

Lemma onWholeMinute_add (t r : Z) :
  onWholeMinute t -> onWholeMinute (t + r * msPerMinute).
Proof.
  unfold onWholeMinute. intros H. now rewrite Z.mod_add by discriminate.
Qed.

Lemma onWholeMinute_diff (a b : Z) :
  onWholeMinute a -> onWholeMinute b ->
  a - b = (a - b) / msPerMinute * msPerMinute.
Proof.
  unfold onWholeMinute, msPerMinute. intros Ha Hb.
  pose proof (Z.div_mod (a - b) 60000 ltac:(discriminate)) as H.
  assert (Hm : (a - b) mod 60000 = 0).
  { rewrite Zminus_mod, Ha, Hb. reflexivity. }
  lia.
Qed.

Lemma startOfDay_le (t : Z) : startOfDay t <= t < startOfDay t + msPerDay.
Proof.
  unfold startOfDay. pose proof (Z.mod_pos_bound t msPerDay msPerDay_pos). lia.
Qed.

Lemma nextDay_startOfDay (t : Z) : nextDay t = startOfDay t + msPerDay.
Proof.
  unfold nextDay, startOfDay.
  replace (t + msPerDay) with (t + 1 * msPerDay) by lia.
  rewrite Z.mod_add by discriminate. lia.
Qed.

(** One turn from a cursor on a whole minute, with whole minutes left:
    the code and the walk in milliseconds take the same turn. *)
Lemma walkStep_exact (shifts : list Shift) (cur R : Z) :
  shiftsWithinDay shifts = true ->
  onWholeMinute cur ->
  0 < R <= Double.maxExactInteger ->
  Z.abs cur + msPerDay <= Double.maxExactInteger ->
  exists c r,
    exactStep shifts cur (R * msPerMinute) = (c, r * msPerMinute)
    /\ walkStep shifts cur (inject_Z R) = (c, inject_Z r)
    /\ onWholeMinute c
    /\ 0 <= r <= R.
Proof.
  intros Hmid Hcur HR Hbound.
  pose proof (onWholeMinute_day cur) as Hday.
  pose proof (startOfDay_le cur) as Hsod.
  pose proof (nextDay_startOfDay cur) as Hnext.
  assert (Hnd : onWholeMinute (nextDay cur)).
  { unfold nextDay. apply onWholeMinute_day. }
  unfold exactStep, walkStep.
  destruct (shiftOn shifts cur) as [shift|] eqn:Hs.
  - assert (Hend : startHour shift <= 24 /\ endHour shift <= 24).
    { apply (shiftsWithinDay_spec shifts); [exact Hmid |].
      eapply shiftOn_In; eauto. }
    pose proof (onWholeMinute_plusHours _ (startHour shift) Hday) as Hss.
    pose proof (onWholeMinute_plusHours _ (endHour shift) Hday) as Hse.
    destruct (Z.ltb_spec cur (plusHours (startOfDay cur) (startHour shift))) as [H1|H1].
    + exists (plusHours (startOfDay cur) (startHour shift)), R.
      repeat split; auto; lia.
    + destruct (Z.leb_spec (plusHours (startOfDay cur) (endHour shift)) cur) as [H2|H2].
      * exists (nextDay cur), R. repeat split; auto; lia.
      * set (shiftEnd := plusHours (startOfDay cur) (endHour shift)) in *.
        pose proof (onWholeMinute_diff shiftEnd cur Hse Hcur) as Hdiff.
        set (A := (shiftEnd - cur) / msPerMinute) in *.
        assert (HA : 0 < A <= 1440).
        { unfold shiftEnd, plusHours, msPerHour, msPerDay, msPerMinute in *. lia. }
        rewrite (diffMinutes_whole shiftEnd cur A Hdiff)
          by (unfold Double.maxExactInteger; change (2 ^ 53) with 9007199254740992; lia).
        rewrite Qle_bool_integers.
        replace (R * msPerMinute <=? shiftEnd - cur) with (R <=? A)
          by (rewrite Hdiff; unfold msPerMinute;
              destruct (Z.leb_spec R A), (Z.leb_spec (R * 60000) (A * 60000));
              try reflexivity; lia).
        destruct (Z.leb_spec R A) as [H3|H3].
        -- exists (cur + R * msPerMinute), 0.
           rewrite plusMinutes_whole by (try exact Hbound; lia).
           repeat split; auto; try lia. now apply onWholeMinute_add.
        -- exists (nextDay cur), (R - A).
           rewrite Double_sub_integers by lia.
           repeat split; auto; try lia.
           f_equal. rewrite Hdiff. lia.
  - exists (nextDay cur), R. repeat split; auto; lia.
Qed.

Lemma walkShifts_exact (shifts : list Shift) :
  shiftsWithinDay shifts = true ->
  forall (fuel : nat) (cur R : Z),
    onWholeMinute cur ->
    0 <= R <= Double.maxExactInteger ->
    Z.abs cur + (Z.of_nat fuel + 1) * msPerDay <= Double.maxExactInteger ->
    walkShifts fuel shifts cur (inject_Z R) = exactWalk fuel shifts cur (R * msPerMinute).
Proof.
  intros Hmid. induction fuel as [|fuel IH]; intros cur R Hcur HR Hbound;
    [reflexivity |].
  cbn [walkShifts exactWalk].
  change 0%Q with (inject_Z 0). rewrite Qle_bool_integers.
  replace (R * msPerMinute <=? 0) with (R <=? 0)
    by (unfold msPerMinute; destruct (Z.leb_spec R 0), (Z.leb_spec (R * 60000) 0);
        try reflexivity; lia).
  destruct (Z.leb_spec R 0) as [H0|H0]; [reflexivity |].
  destruct (walkStep_exact shifts cur R Hmid Hcur ltac:(lia)
              ltac:(unfold msPerDay in *; lia)) as [c [r [He [Hw [Hc Hr]]]]].
  pose proof (exactStep_spec shifts cur (R * msPerMinute) Hmid
                ltac:(unfold msPerMinute; lia)) as [Hle _].
  rewrite He, Hw. rewrite He in Hle. cbn [fst] in Hle.
  apply IH; [exact Hc | lia |].
  pose proof (nextDay_startOfDay cur). pose proof (startOfDay_le cur).
  rewrite Nat2Z.inj_succ in Hbound. unfold msPerDay in *. lia.
Qed.

(** ** The instants that [fromISO] reads *)

Lemma digit_val_bound (c : ascii) (v : Z) : digit_val c = Some v -> 0 <= v <= 9.
Proof.
  unfold digit_val.
  destruct ((48 <=? Z.of_N (N_of_ascii c)) && (Z.of_N (N_of_ascii c) <=? 57)) eqn:E;
    [| discriminate].
  apply andb_true_iff in E. rewrite !Z.leb_le in E.
  intros H. inversion H. lia.
Qed.

Lemma digits_bound (k : nat) :
  forall (acc : Z) (l l' : list ascii) (v : Z),
    digits k acc l = Some (v, l') ->
    acc * 10 ^ Z.of_nat k <= v < (acc + 1) * 10 ^ Z.of_nat k.
Proof.
  induction k as [|k IH]; intros acc l l' v H.
  - simpl in H. inversion H. simpl. lia.
  - simpl in H. destruct l as [|c l]; [discriminate |].
    destruct (digit_val c) as [d|] eqn:Hd; [| discriminate].
    apply digit_val_bound in Hd. apply IH in H.
    rewrite Nat2Z.inj_succ, Z.pow_succ_r by lia.
    assert (0 < 10 ^ Z.of_nat k) by (apply Z.pow_pos_nonneg; lia).
    nia.
Qed.

Lemma fraction_bound (l : list ascii) (ms : Z) :
  fraction l = Some ms -> 0 <= ms < 1000.
Proof.
  unfold fraction.
  destruct (lit "Z" l) as [[|? ?]|]; try discriminate.
  - intros H. inversion H. lia.
  - destruct (lit "." l) as [l1|]; cbn [obind]; [| discriminate].
    destruct (digits 3 0 l1) as [[v l2]|] eqn:Hd; cbn [obind]; [| discriminate].
    apply digits_bound in Hd.
    destruct (lit "Z" l2) as [[|? ?]|]; try discriminate.
    intros H. inversion H. subst. simpl in Hd. lia.
Qed.

Lemma fromISO_bounds (s : string) (t : Z) :
  fromISO s = Some t -> inFourDigitYears t.
Proof.
  unfold fromISO.
  destruct (digits 4 0 (list_ascii_of_string s)) as [[y l0]|] eqn:Hy;
    cbn [obind]; [| discriminate].
  destruct (lit "-" l0) as [l1|]; cbn [obind]; [| discriminate].
  destruct (digits 2 0 l1) as [[m l2]|] eqn:Hm; cbn [obind]; [| discriminate].
  destruct (lit "-" l2) as [l3|]; cbn [obind]; [| discriminate].
  destruct (digits 2 0 l3) as [[d l4]|] eqn:Hd; cbn [obind]; [| discriminate].
  destruct (lit "T" l4) as [l5|]; cbn [obind]; [| discriminate].
  destruct (digits 2 0 l5) as [[hh l6]|] eqn:Hhh; cbn [obind]; [| discriminate].
  destruct (lit ":" l6) as [l7|]; cbn [obind]; [| discriminate].
  destruct (digits 2 0 l7) as [[mi l8]|] eqn:Hmi; cbn [obind]; [| discriminate].
  destruct (lit ":" l8) as [l9|]; cbn [obind]; [| discriminate].
  destruct (digits 2 0 l9) as [[ss l10]|] eqn:Hss; cbn [obind]; [| discriminate].
  destruct (fraction l10) as [ms|] eqn:Hms; cbn [obind]; [| discriminate].
  destruct ((1 <=? m) && (m <=? 12) && (1 <=? d) && (d <=? daysInMonth y m)
            && (hh <=? 23) && (mi <=? 59) && (ss <=? 59)) eqn:Hok; [| discriminate].
  apply andb_true_iff in Hok. destruct Hok as [Hok Hs59].
  apply andb_true_iff in Hok. destruct Hok as [Hok Hm59].
  apply andb_true_iff in Hok. destruct Hok as [Hok Hh23].
  apply andb_true_iff in Hok. destruct Hok as [Hok Hdim].
  apply andb_true_iff in Hok. destruct Hok as [Hok Hd1].
  apply andb_true_iff in Hok. destruct Hok as [Hm1 Hm12].
  apply Z.leb_le in Hs59, Hm59, Hh23, Hdim, Hd1, Hm1, Hm12.
  apply digits_bound in Hy, Hm, Hd, Hhh, Hmi, Hss. apply fraction_bound in Hms.
  simpl in Hy, Hm, Hd, Hhh, Hmi, Hss.
  pose proof (daysInMonth_le_31 y m) as H31.
  pose proof (days_from_civil_inside y m d ltac:(lia) ltac:(lia) ltac:(lia)) as Hin.
  intros H5. inversion H5. subst t.
  unfold inFourDigitYears, msPerDay, msPerHour, msPerMinute, msPerSecond. lia.
Qed.

(** ** The end date from a start on a whole minute *)

Lemma calculateEndDateWithShifts_exact (s : string) (start d : Z)
    (shifts : list Shift) :
  shiftsWithinDay shifts = true ->
  fromISO s = Some start -> onWholeMinute start -> isSafeDuration d ->
  calculateEndDateWithShifts s d shifts
  = (do e <- exactWalk maxShiftIterations shifts start (d * msPerMinute);
     Ok (toISO e)).
Proof.
  intros Hmid Hs Hwhole Hd. unfold calculateEndDateWithShifts. rewrite Hs.
  rewrite (walkShifts_exact shifts Hmid); [reflexivity | exact Hwhole | exact Hd |].
  apply fromISO_bounds in Hs. unfold inFourDigitYears in Hs.
  unfold Double.maxExactInteger, maxShiftIterations, msPerDay.
  change (2 ^ 53) with 9007199254740992. lia.
Qed.

(** The ways [walkShifts] can end: with an instant, or on its guard. *)
Lemma walkShifts_throws (shifts : list Shift) :
  forall (fuel : nat) (cur : Z) (rem : Q) (err : error),
    walkShifts fuel shifts cur rem = Throw err -> err = ShiftIterationsExceeded.
Proof.
  induction fuel as [|fuel IH]; intros cur rem err H; simpl in H.
  - now inversion H.
  - destruct (Qle_bool rem 0); [discriminate |].
    destruct (walkStep shifts cur rem) as [c r]. eapply IH; eauto.
Qed.

(** From a start on a whole minute the walk ends on a whole minute. *)
Lemma exactWalk_whole (shifts : list Shift) :
  shiftsWithinDay shifts = true ->
  forall (fuel : nat) (cur R e : Z),
    onWholeMinute cur ->
    0 <= R <= Double.maxExactInteger ->
    Z.abs cur + (Z.of_nat fuel + 1) * msPerDay <= Double.maxExactInteger ->
    exactWalk fuel shifts cur (R * msPerMinute) = Ok e ->
    onWholeMinute e.
Proof.
  intros Hmid. induction fuel as [|fuel IH]; intros cur R e Hcur HR Hbound H;
    [discriminate |].
  cbn [exactWalk] in H.
  destruct (Z.leb_spec (R * msPerMinute) 0) as [H0|H0].
  - inversion H; subst. exact Hcur.
  - assert (HR0 : 0 < R) by (unfold msPerMinute in H0; lia).
    destruct (walkStep_exact shifts cur R Hmid Hcur ltac:(lia)
                ltac:(unfold msPerDay in *; lia)) as [c [r [He [_ [Hc Hr]]]]].
    pose proof (exactStep_spec shifts cur (R * msPerMinute) Hmid H0) as [Hle _].
    rewrite He in H, Hle. cbn [fst] in Hle.
    apply (IH c r e Hc ltac:(lia)); [| exact H].
    pose proof (nextDay_startOfDay cur). pose proof (startOfDay_le cur).
    rewrite Nat2Z.inj_succ in Hbound. unfold msPerDay in *. lia.
Qed.

(** What a returned end is, for a start on a whole minute: the first
    instant by which the duration has elapsed in working time. *)
Lemma calculateEndDateWithShifts_Ok_inv (s : string) (start d : Z)
    (shifts : list Shift) (m : string) :
  shiftsWithinDay shifts = true ->
  fromISO s = Some start -> onWholeMinute start -> isSafeDuration d ->
  calculateEndDateWithShifts s d shifts = Ok m ->
  exists e,
    m = toISO e /\ start <= e /\ onWholeMinute e
    /\ workingMs shifts start e = d * msPerMinute
    /\ (forall t, start <= t < e -> workingMs shifts start t < d * msPerMinute).
Proof.
  intros Hmid Hs Hwhole Hd H.
  rewrite (calculateEndDateWithShifts_exact s start d shifts Hmid Hs Hwhole Hd) in H.
  apply bind_Ok_inv in H. destruct H as [e [Hwalk He]].
  inversion He; subst m.
  destruct (exactWalk_spec shifts Hmid _ _ _ _ Hwalk) as [Hle [Hwork Hfirst]].
  exists e. split; [reflexivity |]. split; [exact Hle |]. split.
  - apply (exactWalk_whole shifts Hmid _ _ _ _ Hwhole Hd) in Hwalk; [exact Hwalk |].
    apply fromISO_bounds in Hs. unfold inFourDigitYears in Hs.
    unfold Double.maxExactInteger, maxShiftIterations, msPerDay.
    change (2 ^ 53) with 9007199254740992. lia.
  - split; [| exact Hfirst].
    rewrite Hwork. apply Z.max_r. unfold isSafeDuration in Hd. unfold msPerMinute. lia.
Qed.


(** ** The slot that the search returns *)

Lemma isSlotAvailable_true (s e : string) (workOrder : WorkOrder)
    (all : list WorkOrder) (wc : WorkCenter) :
  isSlotAvailable s e workOrder all wc = true <->
  (forall other, In other all -> docId other <> docId workOrder ->
     workCenterId (data other) = workCenterId (data workOrder) ->
     timeRangesOverlap s e (startDate (data other)) (endDate (data other)) = false)
  /\ (forall w, In w (maintenanceWindows (data wc)) ->
        timeRangesOverlap s e (windowStartDate w) (windowEndDate w) = false).
Proof.
  unfold isSlotAvailable. split.
  - destruct (filter _ all) as [|x l] eqn:Hf; [| discriminate].
    intros Hm. apply negb_true_iff in Hm. split.
    + intros other Hin Hid Hwc.
      destruct (timeRangesOverlap s e _ _) eqn:Ho; [| reflexivity].
      exfalso.
      assert (Hx : In other (filter (fun wo =>
                 sameWorkCenterOther workOrder wo
                 && timeRangesOverlap s e (startDate (data wo)) (endDate (data wo)))
                 all)).
      { apply filter_In. split; [exact Hin |]. unfold sameWorkCenterOther.
        apply String.eqb_neq in Hid. apply String.eqb_eq in Hwc.
        now rewrite Hid, Hwc, Ho. }
      rewrite Hf in Hx. destruct Hx.
    + intros w Hw. now apply (overlapsWithMaintenance_false _ _ _ Hm).
  - intros [Hothers Hwindows].
    destruct (filter _ all) as [|x l] eqn:Hf.
    + apply negb_true_iff. unfold overlapsWithMaintenance.
      destruct (existsb _ (maintenanceWindows (data wc))) eqn:He; [| reflexivity].
      apply existsb_exists in He. destruct He as [w [Hw Ho]].
      specialize (Hwindows w Hw). unfold timeRangesOverlap in Hwindows. congruence.
    + exfalso.
      assert (Hx : In x (filter (fun wo =>
                 sameWorkCenterOther workOrder wo
                 && timeRangesOverlap s e (startDate (data wo)) (endDate (data wo)))
                 all)) by (rewrite Hf; now left).
      apply filter_In in Hx. destruct Hx as [Hin Hb].
      apply andb_true_iff in Hb. destruct Hb as [Hsame Ho].
      unfold sameWorkCenterOther in Hsame. apply andb_true_iff in Hsame.
      destruct Hsame as [Hid Hwc]. apply negb_true_iff, String.eqb_neq in Hid.
      apply String.eqb_eq in Hwc. rewrite (Hothers x Hin Hid Hwc) in Ho.
      discriminate.
Qed.

Lemma searchSlot_Ok (workOrder : WorkOrder) (all : list WorkOrder) (wc : WorkCenter) :
  forall (fuel : nat) (from c : string),
    searchSlot fuel from workOrder all wc = Ok c ->
    exists candidate e,
      adjustToShiftStart candidate wc = Ok c
      /\ calculateEndDateWithShifts c (durationMinutes (data workOrder))
           (shifts (data wc)) = Ok e
      /\ isSlotAvailable c e workOrder all wc = true.
Proof.
  induction fuel as [|fuel IH]; intros from c H; simpl in H; [discriminate |].
  apply bind_Ok_inv in H. destruct H as [c1 [Hadj H]].
  apply bind_Ok_inv in H. destruct H as [e1 [Hend H]].
  destruct (isSlotAvailable c1 e1 workOrder all wc) eqn:Hfree.
  - inversion H; subst c1. exists from, e1. auto.
  - apply bind_Ok_inv in H. destruct H as [next [_ H]]. eauto.
Qed.

Lemma calculateEndDateWithShifts_valid (s : string) (d : Z) (shifts : list Shift)
    (e : string) :
  calculateEndDateWithShifts s d shifts = Ok e -> exists t, fromISO s = Some t.
Proof.
  unfold calculateEndDateWithShifts. destruct (fromISO s) as [t|]; [eauto |].
  destruct (d <=? 0); discriminate.
Qed.

Lemma adjustToShiftStart_valid (date : string) (wc : WorkCenter) (c : string) :
  adjustToShiftStart date wc = Ok c -> exists t, fromISO date = Some t.
Proof.
  unfold adjustToShiftStart, findNextShiftStart.
  destruct (fromISO date) as [t|]; [eauto | discriminate].
Qed.

(** The next candidate lies after the rejected one. *)
Lemma findNextPotentialStart_later (cs ce : string) (workOrder : WorkOrder)
    (all : list WorkOrder) (wc : WorkCenter) (next : string) (t t' : Z) :
  findNextPotentialStart cs ce workOrder all wc = Ok next ->
  fromISO cs = Some t -> fromISO next = Some t' -> t < t'.
Proof.
  unfold findNextPotentialStart. intros H Ht Ht'.
  destruct (blockingPeriods cs ce workOrder all wc) as [|first rest] eqn:Hb.
  - rewrite Ht in H. inversion H; subst next.
    apply fromISO_toISO_inv in Ht'. unfold plusHours, msPerHour in Ht'. lia.
  - destruct (earliest_fold (first :: rest) (snd first)) as [Hin _].
    set (r := fold_left _ (first :: rest) (snd first)) in *.
    assert (Hnext : r = next) by (now inversion H). clear H.
    rewrite Hnext in Hin.
    assert (Hmem : In next (map snd (first :: rest))).
    { destruct Hin as [-> | Hin]; [now left | exact Hin]. }
    apply in_map_iff in Hmem. destruct Hmem as [[s e] [He Hq]]. simpl in He.
    subst e. rewrite <- Hb in Hq. apply In_blockingPeriods in Hq.
    assert (Ho : timeRangesOverlap cs ce s next = true).
    { destruct Hq as [[wo [_ [_ [Ho Hpe]]]] | [w [_ [Ho Hpe]]]];
        inversion Hpe; subst; exact Ho. }
    destruct (blocker_ends_later cs ce s next Ho) as [x [y [Hx [Hy Hlt]]]].
    congruence.
Qed.

(** The search moves forward: what it returns is an instant in shift
    hours, at or after the instant it was started from. *)
Lemma searchSlot_later (workOrder : WorkOrder) (all : list WorkOrder)
    (wc : WorkCenter) :
  properShifts (shifts (data wc)) = true ->
  forall (fuel : nat) (from c : string),
    searchSlot fuel from workOrder all wc = Ok c ->
    exists t0 tc, fromISO from = Some t0 /\ fromISO c = Some tc /\ t0 <= tc
                  /\ isWorking (shifts (data wc)) tc = true.
Proof.
  intros Hp. induction fuel as [|fuel IH]; intros from c H; simpl in H;
    [discriminate |].
  apply bind_Ok_inv in H. destruct H as [c1 [Hadj H]].
  apply bind_Ok_inv in H. destruct H as [e1 [Hend H]].
  destruct (adjustToShiftStart_valid _ _ _ Hadj) as [t0 Ht0].
  destruct (calculateEndDateWithShifts_valid _ _ _ _ Hend) as [t1 Ht1].
  assert (Hc1 : t0 <= t1 /\ isWorking (shifts (data wc)) t1 = true).
  { destruct (adjustToShiftStart_cases from wc t0 Hp Ht0) as [Hsome Hnone].
    destruct (someShiftInWeek (shifts (data wc))).
    - destruct (Hsome eq_refl) as [s [Hle [Hwork [_ Hres]]]].
      rewrite Hres in Hadj. inversion Hadj as [Hc]. clear Hadj.
      destruct (Z.eqb_spec s t0) as [-> | Hne].
      + subst c1. rewrite Ht0 in Ht1. inversion Ht1; subst. split; [lia | exact Hwork].
      + subst c1. apply fromISO_toISO_inv in Ht1. subst t1. auto.
    - rewrite (Hnone eq_refl) in Hadj. discriminate. }
  destruct (isSlotAvailable c1 e1 workOrder all wc).
  - inversion H; subst c1. exists t0, t1. tauto.
  - apply bind_Ok_inv in H. destruct H as [next [Hnext H]].
    destruct (IH _ _ H) as [tn [tc [Htn [Htc [Hle Hwork]]]]].
    pose proof (findNextPotentialStart_later _ _ _ _ _ _ _ _ Hnext Ht1 Htn).
    exists t0, tc. repeat split; auto. lia.
Qed.

(** X3. The start that [findNextAvailableSlot] returns has been put into
    shift hours by [adjustToShiftStart], and the interval from it to the
    end that [calculateEndDateWithShifts] gives for the work order's
    duration overlaps no other work order of the same work center and no
    maintenance window of the work center.  When every shift starts at an
    hour of its day and ends later, by midnight, the start is within
    shift hours, and, where the date the search was started from and the
    returned start read as instants, the second is not before the first
    and is working time. *)
Theorem findNextAvailableSlot_free :
  forall (startFrom : string) (workOrder : WorkOrder) (all : list WorkOrder)
         (wc : WorkCenter) (c : string),
    findNextAvailableSlot startFrom workOrder all wc = Ok c ->
    (exists candidate e,
       adjustToShiftStart candidate wc = Ok c
       /\ calculateEndDateWithShifts c (durationMinutes (data workOrder))
            (shifts (data wc)) = Ok e
       /\ (forall other, In other all -> docId other <> docId workOrder ->
             workCenterId (data other) = workCenterId (data workOrder) ->
             timeRangesOverlap c e (startDate (data other)) (endDate (data other))
             = false)
       /\ (forall w, In w (maintenanceWindows (data wc)) ->
             timeRangesOverlap c e (windowStartDate w) (windowEndDate w) = false))
    /\ (properShifts (shifts (data wc)) = true ->
        isWithinShiftHours c (shifts (data wc)) = true
        /\ forall t0 tc, fromISO startFrom = Some t0 -> fromISO c = Some tc ->
             t0 <= tc /\ isWorking (shifts (data wc)) tc = true).
Proof.
  intros startFrom workOrder all wc c H. unfold findNextAvailableSlot in H. split.
  - destruct (searchSlot_Ok workOrder all wc _ _ _ H) as [cand [e [Hadj [Hend Hfree]]]].
    apply isSlotAvailable_true in Hfree. destruct Hfree as [Ho Hw].
    exists cand, e. auto.
  - intros Hp.
    destruct (searchSlot_later workOrder all wc Hp _ _ _ H)
      as [t0 [tc [Ht0 [Htc [Hle Hwork]]]]].
    split.
    + rewrite isWithinShiftHours_isWorking, Htc. exact Hwork.
    + intros t0' tc' Ht0' Htc'. rewrite Ht0 in Ht0'. rewrite Htc in Htc'.
      inversion Ht0'; inversion Htc'; subst. auto.
Qed.

Lemma findNextAvailableSlot_free_witness :
  isWithinShiftHours "2026-02-10T12:00:00Z" weekShifts = true
  /\ forall t0 tc,
       fromISO "2026-02-10T11:00:00.000Z" = Some t0 ->
       fromISO "2026-02-10T12:00:00Z" = Some tc ->
       t0 <= tc /\ isWorking weekShifts tc = true.
Proof.
  apply (proj2 (findNextAvailableSlot_free "2026-02-10T11:00:00.000Z" seeker
                  [blockerSharp; seeker] (mkWorkCenter "wc-1" weekShifts [])
                  "2026-02-10T12:00:00Z" ltac:(vm_compute; reflexivity))).
  reflexivity.
Defined.


(** ** More on the end date of a work order *)

(** One millisecond is working time or it is not. *)
Lemma workingMs_instant (shifts : list Shift) (u : Z) :
  workingMs shifts u (u + 1) = if isWorking shifts u then 1 else 0.
Proof.
  pose proof (dayIndex_bounds u) as Hu.
  rewrite workingMs_one_day by (rewrite nextDay_dayIndex; lia).
  unfold workInDay, isWorking. rewrite <- (shiftOn_day shifts u).
  destruct (shiftOn shifts u) as [shift|]; [| reflexivity].
  unfold plusHours. rewrite startOfDay_dayIndex.
  destruct (Z.leb_spec (dayIndex u * msPerDay + startHour shift * msPerHour) u),
           (Z.ltb_spec u (dayIndex u * msPerDay + endHour shift * msPerHour));
    cbn [andb]; lia.
Qed.

(** X4. For shifts whose hours lie within the day, starts on a whole
    minute and whole durations: a later start or a longer duration never
    gives an earlier end. *)
Theorem calculateEndDateWithShifts_monotone :
  forall (s1 s2 : string) (d1 d2 : Z) (shifts : list Shift) (t1 t2 : Z)
         (m1 m2 : string),
    shiftsWithinDay shifts = true ->
    0 <= d1 <= d2 -> isSafeDuration d2 ->
    fromISO s1 = Some t1 -> fromISO s2 = Some t2 -> t1 <= t2 ->
    onWholeMinute t1 -> onWholeMinute t2 ->
    calculateEndDateWithShifts s1 d1 shifts = Ok m1 ->
    calculateEndDateWithShifts s2 d2 shifts = Ok m2 ->
    exists e1 e2, m1 = toISO e1 /\ m2 = toISO e2 /\ e1 <= e2.
Proof.
  intros s1 s2 d1 d2 shifts t1 t2 m1 m2 Hmid Hd Hsafe Ht1 Ht2 Hle Hw1 Hw2 H1 H2.
  assert (Hd1 : isSafeDuration d1) by (unfold isSafeDuration in *; lia).
  destruct (calculateEndDateWithShifts_Ok_inv _ _ _ _ _ Hmid Ht1 Hw1 Hd1 H1)
    as [e1 [Hm1 [Hle1 [_ [Hwk1 Hf1]]]]].
  destruct (calculateEndDateWithShifts_Ok_inv _ _ _ _ _ Hmid Ht2 Hw2 Hsafe H2)
    as [e2 [Hm2 [Hle2 [_ [Hwk2 Hf2]]]]].
  exists e1, e2. repeat split; auto.
  destruct (Z_lt_ge_dec e2 e1) as [Hlt | Hge]; [| lia].
  exfalso. specialize (Hf1 e2 ltac:(lia)).
  rewrite (workingMs_add shifts t1 t2 e2) in Hf1 by lia.
  pose proof (workingMs_nonneg shifts t1 t2). unfold msPerMinute in *. lia.
Qed.

Lemma calculateEndDateWithShifts_monotone_witness :
  exists e1 e2, "2026-02-10T17:00:00.000Z" = toISO e1
    /\ "2026-02-11T09:00:00.000Z" = toISO e2 /\ e1 <= e2.
Proof.
  apply (calculateEndDateWithShifts_monotone
           "2026-02-10T16:00:00.000Z" "2026-02-10T16:00:00.000Z" 60 120 weekShifts
           1770739200000 1770739200000);
    try reflexivity; try lia.
  unfold isSafeDuration. vm_compute. split; discriminate.
Defined.

(** X5. For shifts whose hours lie within the day, a start on a whole
    minute and a positive whole duration: the end that
    [calculateEndDateWithShifts] returns comes after the start, and the
    millisecond before it is working time, so a work order never ends in
    the gap between two shifts. *)
Theorem calculateEndDateWithShifts_ends_in_shift :
  forall (s : string) (start d : Z) (shifts : list Shift) (m : string),
    shiftsWithinDay shifts = true ->
    fromISO s = Some start -> onWholeMinute start ->
    0 < d -> isSafeDuration d ->
    calculateEndDateWithShifts s d shifts = Ok m ->
    exists e, m = toISO e /\ start < e /\ isWorking shifts (e - 1) = true.
Proof.
  intros s start d shifts m Hmid Hs Hwhole Hd Hsafe H.
  destruct (calculateEndDateWithShifts_Ok_inv _ _ _ _ _ Hmid Hs Hwhole Hsafe H)
    as [e [Hm [Hle [_ [Hw Hf]]]]].
  assert (Hlt : start < e).
  { destruct (Z.eq_dec start e) as [-> | Hne]; [| lia].
    rewrite workingMs_reversed in Hw by lia. unfold msPerMinute in Hw. lia. }
  exists e. repeat split; auto.
  specialize (Hf (e - 1) ltac:(lia)).
  rewrite (workingMs_add shifts start (e - 1) e) in Hw by lia.
  pose proof (workingMs_instant shifts (e - 1)) as Hi.
  replace (e - 1 + 1) with e in Hi by lia.
  destruct (isWorking shifts (e - 1)); [reflexivity | lia].
Qed.

Lemma calculateEndDateWithShifts_ends_in_shift_witness :
  exists e,
    "2026-02-11T09:00:00.000Z" = toISO e /\ 1770739200000 < e
    /\ isWorking weekShifts (e - 1) = true.
Proof.
  apply (calculateEndDateWithShifts_ends_in_shift
           "2026-02-10T16:00:00.000Z" 1770739200000 120 weekShifts);
    try reflexivity; try lia.
  unfold isSafeDuration. vm_compute. split; discriminate.
Defined.

(** Off a whole minute the remaining minutes are a rounded fraction, and
    within days of the epoch the rounding reaches the end date: 1838
    minutes and then 1048 minutes end one millisecond before the 2886
    minutes done in one go. *)
Example end_off_the_minute_near_epoch :
  calculateEndDateWithShifts "1969-12-26T13:37:20.071Z" 1838 everyDayShifts
  = Ok "1969-12-30T08:15:20.071Z"
  /\ calculateEndDateWithShifts "1969-12-30T08:15:20.071Z" 1048 everyDayShifts
     = Ok "1969-12-31T16:43:20.071Z"
  /\ calculateEndDateWithShifts "1969-12-26T13:37:20.071Z" 2886 everyDayShifts
     = Ok "1969-12-31T16:43:20.072Z".
Proof. repeat split; vm_compute; reflexivity. Qed.

(** X6. For shifts whose hours lie within the day, a start on a whole
    minute and whole durations: doing [d1] minutes and then, from the end
    of those, [d2] minutes ends when [d1 + d2] minutes done in one go
    end. *)
Theorem calculateEndDateWithShifts_split :
  forall (s : string) (start d1 d2 : Z) (shifts : list Shift) (m m2 m12 : string),
    shiftsWithinDay shifts = true ->
    fromISO s = Some start -> onWholeMinute start ->
    0 <= d1 -> 0 <= d2 -> isSafeDuration (d1 + d2) ->
    calculateEndDateWithShifts s d1 shifts = Ok m ->
    calculateEndDateWithShifts m d2 shifts = Ok m2 ->
    calculateEndDateWithShifts s (d1 + d2) shifts = Ok m12 ->
    m2 = m12.
Proof.
  intros s start d1 d2 shifts m m2 m12 Hmid Hs Hwhole Hd1 Hd2 Hsafe H1 H2 H12.
  assert (Hs1 : isSafeDuration d1) by (unfold isSafeDuration in *; lia).
  assert (Hs2 : isSafeDuration d2) by (unfold isSafeDuration in *; lia).
  destruct (calculateEndDateWithShifts_Ok_inv _ _ _ _ _ Hmid Hs Hwhole Hs1 H1)
    as [e1 [Hm [Hle1 [Hwhole1 [Hw1 Hf1]]]]].
  destruct (calculateEndDateWithShifts_valid _ _ _ _ H2) as [a2 Ha2].
  assert (Ea : a2 = e1) by (rewrite Hm in Ha2; now apply fromISO_toISO_inv in Ha2).
  subst a2.
  destruct (calculateEndDateWithShifts_Ok_inv _ _ _ _ _ Hmid Ha2 Hwhole1 Hs2 H2)
    as [e2 [Hm2 [Hle2 [_ [Hw2 Hf2]]]]].
  destruct (calculateEndDateWithShifts_Ok_inv _ _ _ _ _ Hmid Hs Hwhole Hsafe H12)
    as [e12 [Hm12 [Hle12 [_ [Hw12 Hf12]]]]].
  assert (Hsum : workingMs shifts start e2 = (d1 + d2) * msPerMinute).
  { rewrite (workingMs_add shifts start e1 e2) by lia. lia. }
  assert (E : e2 = e12).
  { destruct (Z_lt_ge_dec e12 e2) as [Hlt | Hge].
    - exfalso. destruct (Z_lt_ge_dec e12 e1) as [Hlt1 | Hge1].
      + specialize (Hf1 e12 ltac:(lia)). unfold msPerMinute in *. lia.
      + specialize (Hf2 e12 ltac:(lia)).
        rewrite (workingMs_add shifts start e1 e12) in Hw12 by lia. lia.
    - destruct (Z.eq_dec e2 e12) as [E | Hne]; [exact E |].
      exfalso. specialize (Hf12 e2 ltac:(lia)). lia. }
  now rewrite Hm2, Hm12, E.
Qed.

Lemma calculateEndDateWithShifts_split_witness :
  "2026-02-11T10:00:00.000Z" = "2026-02-11T10:00:00.000Z".
Proof.
  apply (calculateEndDateWithShifts_split "2026-02-10T16:00:00.000Z" 1770739200000
           120 60 weekShifts "2026-02-11T09:00:00.000Z");
    try reflexivity; try lia.
  unfold isSafeDuration. vm_compute. split; discriminate.
Defined.


(** ** What reflow returns, against what it was given *)

Lemma strip_eq_reschedule (u wo : WorkOrder) :
  strip u = strip wo -> u = reschedule wo (startDate (data u)) (endDate (data u)).
Proof.
  destruct u as [id ty [n mo wc s e d mt deps]].
  destruct wo as [id' ty' [n' mo' wc' s' e' d' mt' deps']].
  unfold strip, reschedule. simpl. intros H. inversion H. reflexivity.
Qed.

Lemma map_nth_error_eq {A B : Type} (f : A -> B) (l l' : list A) (i : nat) (a : A) :
  map f l = map f l' -> nth_error l i = Some a ->
  exists a', nth_error l' i = Some a' /\ f a' = f a.
Proof.
  intros Hmap Hnth. apply (map_nth_error f) in Hnth. rewrite Hmap in Hnth.
  rewrite nth_error_map in Hnth.
  destruct (nth_error l' i) as [a'|]; [| discriminate].
  inversion Hnth. eauto.
Qed.

Lemma docId_nth_error_inj (l : list WorkOrder) (i j : nat) (a b : WorkOrder) :
  NoDup (map docId l) -> nth_error l i = Some a -> nth_error l j = Some b ->
  docId a = docId b -> i = j.
Proof.
  intros Hnd Hi Hj E.
  pose proof (map_nth_error docId _ _ Hi) as Hi'.
  pose proof (map_nth_error docId _ _ Hj) as Hj'.
  apply (proj1 (NoDup_nth_error (map docId l)) Hnd).
  - apply nth_error_Some. rewrite Hi'. discriminate.
  - rewrite Hi', Hj', E. reflexivity.
Qed.

(** X7. When reflow returns, [updatedWorkOrders] is the list of the
    input's work orders, in the same order, each with all its fields but
    possibly new start and end dates. *)
Theorem reflow_rewrites_dates_only :
  forall (input : ReflowInput) (r : ReflowResult),
    reflow input = Ok r ->
    List.length (updatedWorkOrders r) = List.length (workOrders input)
    /\ forall (i : nat) (wo : WorkOrder),
         nth_error (workOrders input) i = Some wo ->
         exists s e, nth_error (updatedWorkOrders r) i = Some (reschedule wo s e).
Proof.
  intros input r Hr. apply reflowRun_Ok in Hr.
  destruct Hr as [sorted [h [_ [Hproc [_ [Hu _]]]]]].
  apply processAll_frame in Hproc. simpl in Hproc.
  destruct Hproc as [_ [Hstrip _]]. rewrite Hu. split.
  - rewrite <- (length_map strip (workingCopies h)), Hstrip. apply length_map.
  - intros i wo Hnth.
    destruct (map_nth_error_eq strip _ (workingCopies h) i wo (eq_sym Hstrip) Hnth)
      as [u [Hu' E]].
    exists (startDate (data u)), (endDate (data u)).
    now rewrite Hu', (strip_eq_reschedule u wo E).
Qed.

Lemma reflow_rewrites_dates_only_witness :
  exists s e, nth_error (updatedWorkOrders maintenanceResult) 1
              = Some (reschedule displacedOrder s e).
Proof.
  apply (proj2 (reflow_rewrites_dates_only maintenanceInput maintenanceResult
                  reflow_maintenanceResult) 1%nat displacedOrder).
  reflexivity.
Defined.

(** One turn of the loop, with the change it logs. *)
Lemma processWorkOrder_log (workCenterMap : JsMap WorkCenter) (i : nat)
    (h h' : Heap) (r : result unit) :
  processWorkOrder workCenterMap i h = (h', r) ->
  h' = h
  \/ exists wo c,
       nth_error (workingCopies h) i = Some wo
       /\ recordsMoveOf c wo
       /\ h' = {| callerWorkOrders := callerWorkOrders h;
                  workingCopies :=
                    assign i (reschedule wo (newStartDate c) (newEndDate c))
                           (workingCopies h);
                  changeLog := changeLog h ++ [c] |}.
Proof.
  unfold processWorkOrder.
  destruct (nth_error (workingCopies h) i) as [wo|] eqn:Hnth;
    [| intros H; inversion H; now left].
  destruct (isMaintenance (data wo)) eqn:Hm; [intros H; inversion H; now left |].
  destruct (calculateEarliestStartTime wo (workingCopies h) workCenterMap)
    as [s|err] eqn:Hs; [| intros H; inversion H; now left].
  destruct (String.eqb s (startDate (data wo))) eqn:Heq;
    [intros H; inversion H; now left |].
  destruct (map_get workCenterMap (workCenterId (data wo))) as [wc|];
    [| intros H; inversion H; now left].
  destruct (calculateEndDateWithShifts s (durationMinutes (data wo)) (shifts (data wc)))
    as [e|err]; [| intros H; inversion H; now left].
  intros H. inversion H; subst. right.
  apply String.eqb_neq in Heq.
  exists wo,
    {| workOrderId := docId wo;
       changeWorkOrderNumber := workOrderNumber (data wo);
       originalStartDate := startDate (data wo);
       originalEndDate := endDate (data wo);
       newStartDate := s;
       newEndDate := e;
       delayMinutes := calculateDelayMinutes (endDate (data wo)) e;
       reason := generateChangeReason (reschedule wo s e)
                   (assign i (reschedule wo s e) (workingCopies h)) workCenterMap |}.
  unfold recordsMoveOf. repeat split; try assumption.
Qed.

(** The loop over work orders that are each processed once: what it
    logs, and where the work orders it logged and the others end up. *)
Lemma processAll_log (workCenterMap : JsMap WorkCenter) (sorted : list nat) :
  forall (h h' : Heap) (r : result unit),
    NoDup sorted ->
    NoDup (map docId (workingCopies h)) ->
    processAll workCenterMap sorted h = (h', r) ->
    exists log,
      changeLog h' = changeLog h ++ log
      /\ NoDup (map workOrderId log)
      /\ (forall c, In c log ->
            exists i wo, In i sorted
              /\ nth_error (workingCopies h) i = Some wo
              /\ recordsMoveOf c wo
              /\ nth_error (workingCopies h') i
                 = Some (reschedule wo (newStartDate c) (newEndDate c)))
      /\ (forall i wo, nth_error (workingCopies h) i = Some wo ->
            (forall c, In c log -> workOrderId c <> docId wo) ->
            nth_error (workingCopies h') i = Some wo).
Proof.
  induction sorted as [|i rest IH]; intros h h' r Hnd Hids H; simpl in H.
  - inversion H; subst. exists []. rewrite app_nil_r.
    repeat split; [constructor | intros c [] | auto].
  - inversion Hnd as [|? ? Hfresh Hnd']; subst.
    destruct (processWorkOrder workCenterMap i h) as [h1 r1] eqn:Hstep.
    (* the rest of the loop, from [h1] *)
    assert (Hrest : exists log,
              changeLog h' = changeLog h1 ++ log
              /\ NoDup (map workOrderId log)
              /\ (forall c, In c log ->
                    exists j wo, In j rest
                      /\ nth_error (workingCopies h1) j = Some wo
                      /\ recordsMoveOf c wo
                      /\ nth_error (workingCopies h') j
                         = Some (reschedule wo (newStartDate c) (newEndDate c)))
              /\ (forall j wo, nth_error (workingCopies h1) j = Some wo ->
                    (forall c, In c log -> workOrderId c <> docId wo) ->
                    nth_error (workingCopies h') j = Some wo)
              /\ nth_error (workingCopies h') i = nth_error (workingCopies h1) i
              /\ (NoDup (map docId (workingCopies h1)) -> True)).
    { destruct r1 as [u|err].
      - assert (Hids1 : NoDup (map docId (workingCopies h1))).
        { apply processWorkOrder_cases in Hstep.
          destruct Hstep as [-> | [wo [s [e [c [Hn [_ [_ [_ [_ [_ [_ ->]]]]]]]]]]]];
            [exact Hids |].
          simpl. rewrite (map_strip_docId _ (workingCopies h)); [exact Hids |].
          now apply assign_strip with (wo := wo). }
        destruct (IH h1 h' r Hnd' Hids1 H) as [log [Hlog [Hn [Hin Hout]]]].
        exists log. repeat split; auto.
        now apply (processAll_keeps workCenterMap i rest h1 h' r H).
      - inversion H; subst. exists []. rewrite app_nil_r.
        repeat split; [constructor | intros c [] | auto]. }
    destruct Hrest as [log [Hlog [Hn [Hin [Hout [Hkeep _]]]]]].
    apply processWorkOrder_log in Hstep.
    destruct Hstep as [-> | [wo [c [Hnth [Hrec ->]]]]].
    + exists log. repeat split; auto.
      intros c Hc. destruct (Hin c Hc) as [j [w [Hj Hrest]]].
      exists j, w. split; [now right | exact Hrest].
    + cbn [workingCopies changeLog] in *.
      exists (c :: log). repeat split.
      * rewrite Hlog, <- app_assoc. reflexivity.
      * simpl. constructor; [| exact Hn].
        intros Hdup. apply in_map_iff in Hdup. destruct Hdup as [c' [Eid Hc']].
        destruct (Hin c' Hc') as [j [w [Hj [Hw [Hrec' _]]]]].
        assert (Hji : j <> i) by (intros ->; contradiction).
        rewrite assign_nth_other in Hw by congruence.
        apply Hji. apply (docId_nth_error_inj (workingCopies h) j i w wo Hids Hw Hnth).
        destruct Hrec as [_ [Hid _]]. destruct Hrec' as [_ [Hid' _]]. congruence.
      * intros c' [<- | Hc'].
        -- exists i, wo.
           split; [now left |]. split; [exact Hnth |]. split; [exact Hrec |].
           rewrite Hkeep. now apply assign_nth_same with (wo := wo).
        -- destruct (Hin c' Hc') as [j [w [Hj [Hw [Hrec' Hfin]]]]].
           assert (Hji : j <> i) by (intros ->; contradiction).
           rewrite assign_nth_other in Hw by congruence.
           exists j, w. split; [now right |]. split; [exact Hw |].
           split; [exact Hrec' | exact Hfin].
      * intros j w Hw Hnone.
        assert (Hji : j <> i).
        { intros ->. rewrite Hnth in Hw. inversion Hw; subst w.
          apply (Hnone c); [now left |]. now destruct Hrec as [_ [Hid _]]. }
        apply Hout.
        -- rewrite assign_nth_other by congruence. exact Hw.
        -- intros c' Hc'. apply Hnone. now right.
Qed.

(** X8. When reflow returns, the changes are a faithful log of what
    moved: no two changes carry the same work order id; every change
    carries the id, the number and the dates of a work order of the input
    that is not a maintenance order, a new start other than its start, and
    the delay between its end and the new end, and that work order is
    returned at its place with the new dates of the change; and a work
    order of which no change carries the id is returned as it was. *)
Theorem reflow_change_log :
  forall (input : ReflowInput) (r : ReflowResult),
    reflow input = Ok r ->
    NoDup (map workOrderId (changes r))
    /\ (forall c, In c (changes r) ->
          exists i wo,
            nth_error (workOrders input) i = Some wo
            /\ recordsMoveOf c wo
            /\ nth_error (updatedWorkOrders r) i
               = Some (reschedule wo (newStartDate c) (newEndDate c)))
    /\ (forall i wo, nth_error (workOrders input) i = Some wo ->
          (forall c, In c (changes r) -> workOrderId c <> docId wo) ->
          nth_error (updatedWorkOrders r) i = Some wo).
Proof.
  intros input r Hr. apply reflowRun_Ok in Hr.
  destruct Hr as [sorted [h [Hsort [Hproc [_ [Hu [Hch _]]]]]]].
  pose proof (topologicalSort_NoDup _ _ Hsort) as Hnd.
  apply topologicalSort_Ok in Hsort. destruct Hsort as [Hids _].
  destruct (processAll_log _ _ (untouched input) h (Ok tt) Hnd Hids Hproc)
    as [log [Hlog [Hn [Hin Hout]]]].
  simpl in Hlog, Hin, Hout. rewrite Hu, Hch, Hlog. repeat split.
  - exact Hn.
  - intros c Hc. destruct (Hin c Hc) as [i [wo [_ Hrest]]]. eauto.
  - exact Hout.
Qed.

Lemma reflow_change_log_witness :
  NoDup (map workOrderId (changes maintenanceResult)).
Proof.
  apply (proj1 (reflow_change_log maintenanceInput maintenanceResult
                  reflow_maintenanceResult)).
Defined.


(** ** The end date of a work order *)

(** C2, the counterexample. With no shift at all, and with 400000 minutes
    of work on the Monday-to-Friday shifts (although that much working
    time has elapsed 1050 days later), the loop uses up its 1000 turns and
    the function throws.  From a start one millisecond past 16:59 on
    1969-12-28, with 1621 minutes of work on shifts from 8 to 17 every
    day, the function returns 08:00:00.000 on 1970-01-01, one millisecond
    before that much working time has elapsed: the minutes that remain
    after the first shift are a rounded fraction.  And reflow returns
    wo-a, which it did not move, with its stored end 09:00, 60 working
    minutes after its start, for a duration of 120 minutes. *)
Lemma calculateEndDateWithShifts_gives_up :
  calculateEndDateWithShifts "2026-02-10T08:00:00.000Z" 60 []
  = Throw ShiftIterationsExceeded
  /\ (fromISO "2026-02-10T08:00:00.000Z" = Some 1770710400000
      /\ calculateEndDateWithShifts "2026-02-10T08:00:00.000Z" 400000 weekShifts
         = Throw ShiftIterationsExceeded
      /\ 400000 * msPerMinute
         <= workingMs weekShifts 1770710400000 (1770710400000 + 1050 * msPerDay))
  /\ (fromISO "1969-12-28T16:59:00.001Z" = Some (-284459999)
      /\ calculateEndDateWithShifts "1969-12-28T16:59:00.001Z" 1621 everyDayShifts
         = Ok (toISO 28800000)
      /\ workingMs everyDayShifts (-284459999) 28800000 < 1621 * msPerMinute)
  /\ (updatedOf (reflow staleEndInput) = Ok staleEndOnce
      /\ In staleEndOrder staleEndOnce
      /\ isMaintenance (data staleEndOrder) = false
      /\ durationMinutes (data staleEndOrder) = 120
      /\ fromISO (startDate (data staleEndOrder)) = Some 1770710400000
      /\ fromISO (endDate (data staleEndOrder)) = Some 1770714000000
      /\ workingMs weekShifts 1770710400000 1770714000000 = 60 * msPerMinute).
Proof.
  split; [vm_compute; reflexivity |].
  split.
  { split; [vm_compute; reflexivity |].
    split; [vm_compute; reflexivity |].
    vm_compute. discriminate. }
  split.
  { split; [vm_compute; reflexivity |].
    split; [vm_compute; reflexivity |].
    vm_compute. reflexivity. }
  split; [vm_compute; reflexivity |].
  split; [now left |].
  repeat split; vm_compute; reflexivity.
Qed.

(** C2, as the code has it. For shifts whose hours lie within the day, a
    start date that reads as an instant on a whole minute, and a duration
    that is a whole number of minutes from 0 to 2^53: when
    [calculateEndDateWithShifts] returns, the result is the ISO text of
    the first instant [e] at or after the start by which [durationMinutes]
    of working time have elapsed (the text reads back as [e] in the years
    0000 to 9999); it does return whenever the duration is at most 71
    times the working time of a week; and it throws when there is work to
    place and no working time in the week.  When reflow returns, the work
    order of every change it logged is stored with the end that
    [calculateEndDateWithShifts] gives for its start, its duration and the
    shifts of its work center; and a work order of the input of which no
    change carries the id is returned as it was, with the end it had. *)
Theorem end_date_after_working_time :
  (forall (startDate : string) (start durationMinutes : Z) (shifts : list Shift),
     shiftsWithinDay shifts = true ->
     fromISO startDate = Some start ->
     onWholeMinute start ->
     isSafeDuration durationMinutes ->
     (forall endDate,
        calculateEndDateWithShifts startDate durationMinutes shifts = Ok endDate ->
        exists e,
          endDate = toISO e
          /\ (inFourDigitYears e -> fromISO endDate = Some e)
          /\ start <= e
          /\ workingMs shifts start e = durationMinutes * msPerMinute
          /\ (forall t, start <= t < e ->
                workingMs shifts start t < durationMinutes * msPerMinute))
     /\ (durationMinutes * msPerMinute <= 71 * weeklyWorkMs shifts ->
         exists endDate,
           calculateEndDateWithShifts startDate durationMinutes shifts = Ok endDate)
     /\ (0 < durationMinutes -> weeklyWorkMs shifts = 0 ->
         calculateEndDateWithShifts startDate durationMinutes shifts
         = Throw ShiftIterationsExceeded))
  /\ (forall (input : ReflowInput) (r : ReflowResult) (c : WorkOrderChange),
        reflow input = Ok r -> In c (changes r) ->
        exists wo wc,
          In wo (updatedWorkOrders r)
          /\ isMaintenance (data wo) = false
          /\ docId wo = workOrderId c
          /\ startDate (data wo) = newStartDate c
          /\ endDate (data wo) = newEndDate c
          /\ map_get (workCenterMapOf (workCenters input)) (workCenterId (data wo))
             = Some wc
          /\ calculateEndDateWithShifts (startDate (data wo))
               (durationMinutes (data wo)) (shifts (data wc))
             = Ok (endDate (data wo)))
  /\ (forall (input : ReflowInput) (r : ReflowResult) (i : nat) (wo : WorkOrder),
        reflow input = Ok r ->
        nth_error (workOrders input) i = Some wo ->
        (forall c, In c (changes r) -> workOrderId c <> docId wo) ->
        nth_error (updatedWorkOrders r) i = Some wo).
Proof.
  split; [| split].
  - intros startDate start durationMinutes shifts Hmid Hs Hwhole Hsafe.
    rewrite (calculateEndDateWithShifts_exact startDate start durationMinutes shifts
               Hmid Hs Hwhole Hsafe).
    assert (Hdur : 0 <= durationMinutes) by (unfold isSafeDuration in Hsafe; lia).
    split; [| split].
    + intros endDate H.
      apply bind_Ok_inv in H. destruct H as [e [Hwalk He]]. inversion He; subst.
      destruct (exactWalk_spec shifts Hmid _ _ _ _ Hwalk) as [Hle [Hwork Hfirst]].
      exists e. repeat split; auto.
      * intros Hyears. now apply fromISO_toISO.
      * rewrite Hwork. apply Z.max_r. unfold msPerMinute. lia.
    + intros Hbound.
      destruct (exactWalk_returns shifts start _ Hmid Hbound) as [e He].
      exists (toISO e). now rewrite He.
    + intros Hpos Hidle.
      destruct (exactWalk maxShiftIterations shifts start
                  (durationMinutes * msPerMinute)) as [e|err] eqn:Hwalk.
      * destruct (exactWalk_spec shifts Hmid _ _ _ _ Hwalk) as [_ [Hwork _]].
        rewrite (workingMs_idle shifts start e Hidle) in Hwork.
        unfold msPerMinute in Hwork. lia.
      * simpl. now rewrite (exactWalk_throws shifts _ _ _ _ Hwalk).
  - intros input r c Hr Hc. apply reflowRun_Ok in Hr.
    destruct Hr as [sorted [h [Hsort [Hproc [_ [Hu [Hch _]]]]]]].
    rewrite Hch in Hc. rewrite Hu.
    apply topologicalSort_NoDup in Hsort.
    destruct (processAll_stored _ _ _ _ _ c Hsort Hproc Hc) as [[] | Hex].
    exact Hex.
  - intros input r i wo Hr Hnth Hno. apply reflowRun_Ok in Hr.
    destruct Hr as [sorted [h [Hsort [Hproc [_ [Hu [Hch _]]]]]]].
    pose proof (topologicalSort_NoDup _ _ Hsort) as Hnd.
    apply topologicalSort_Ok in Hsort. destruct Hsort as [Hids _].
    destruct (processAll_log _ _ (untouched input) h (Ok tt) Hnd Hids Hproc)
      as [log [Hlog [_ [_ Hout]]]].
    simpl in Hlog, Hout. rewrite Hch, Hlog in Hno. rewrite Hu.
    now apply Hout.
Qed.

Lemma end_date_after_working_time_witness :
  shiftsWithinDay weekShifts = true
  /\ fromISO "2026-02-10T16:00:00.000Z" = Some 1770739200000
  /\ onWholeMinute 1770739200000
  /\ isSafeDuration 120
  /\ exists e,
       "2026-02-11T09:00:00.000Z" = toISO e
       /\ (inFourDigitYears e -> fromISO "2026-02-11T09:00:00.000Z" = Some e)
       /\ 1770739200000 <= e
       /\ workingMs weekShifts 1770739200000 e = 120 * msPerMinute
       /\ (forall t, 1770739200000 <= t < e ->
             workingMs weekShifts 1770739200000 t < 120 * msPerMinute).
Proof.
  assert (Hsafe : isSafeDuration 120)
    by (unfold isSafeDuration; vm_compute; split; discriminate).
  split; [reflexivity |]. split; [reflexivity |]. split; [reflexivity |].
  split; [exact Hsafe |].
  apply (proj1 (proj1 end_date_after_working_time "2026-02-10T16:00:00.000Z"
                  1770739200000 120 weekShifts eq_refl eq_refl eq_refl Hsafe)).
  vm_compute. reflexivity.
Defined.


(** ** Shift hours of the returned schedule *)

(** X9. For a date that reads as the instant [t]: [isWithinShiftHours],
    which compares the hour and the minute of the date with the hours of
    the shift of its day, holds exactly when [t] is at or after the start
    and before the end of that shift: seconds and milliseconds make no
    difference. *)
Theorem isWithinShiftHours_instants :
  forall (date : string) (shifts : list Shift) (t : Z),
    fromISO date = Some t ->
    (isWithinShiftHours date shifts = true <->
     exists shift,
       shiftOn shifts t = Some shift
       /\ startOfDay t + startHour shift * msPerHour <= t
          < startOfDay t + endHour shift * msPerHour).
Proof.
  intros date shifts t Ht.
  rewrite isWithinShiftHours_isWorking, Ht. unfold isWorking, plusHours.
  split.
  - destruct (shiftOn shifts t) as [shift|] eqn:Hon; [| discriminate].
    intros H. apply andb_true_iff in H. rewrite Z.leb_le, Z.ltb_lt in H.
    exists shift. auto.
  - intros [shift [-> H]]. apply andb_true_iff.
    now rewrite Z.leb_le, Z.ltb_lt.
Qed.

Lemma isWithinShiftHours_instants_witness :
  isWithinShiftHours "2026-02-10T16:59:59.999Z" weekShifts = true <->
  exists shift,
    shiftOn weekShifts 1770742799999 = Some shift
    /\ startOfDay 1770742799999 + startHour shift * msPerHour <= 1770742799999
       < startOfDay 1770742799999 + endHour shift * msPerHour.
Proof.
  apply (isWithinShiftHours_instants "2026-02-10T16:59:59.999Z" weekShifts
           1770742799999).
  reflexivity.
Defined.

(** X10. When reflow returns, every returned work order, maintenance or
    not, is on a work center of the input that has shifts, and its start
    is within the shift hours of its day: where the start reads as an
    instant, that instant is working time.  So is the start of every
    maintenance work order of the input. *)
Theorem reflow_starts_in_shift :
  forall (input : ReflowInput) (r : ReflowResult),
    reflow input = Ok r ->
    (forall wo, In wo (updatedWorkOrders r) ->
       exists wc,
         map_get (workCenterMapOf (workCenters input)) (workCenterId (data wo))
         = Some wc
         /\ shifts (data wc) <> []
         /\ isWithinShiftHours (startDate (data wo)) (shifts (data wc)) = true
         /\ forall t, fromISO (startDate (data wo)) = Some t ->
              isWorking (shifts (data wc)) t = true)
    /\ (forall wo, In wo (workOrders input) -> isMaintenance (data wo) = true ->
          exists wc,
            map_get (workCenterMapOf (workCenters input)) (workCenterId (data wo))
            = Some wc
            /\ isWithinShiftHours (startDate (data wo)) (shifts (data wc)) = true).
Proof.
  intros input r Hr.
  destruct (reflow_validated input r Hr) as [_ [_ Hval]].
  apply validateAll_nil in Hval. destruct Hval as [_ [_ [Hshift _]]].
  assert (Hall : forall wo, In wo (updatedWorkOrders r) ->
            exists wc,
              map_get (workCenterMapOf (workCenters input)) (workCenterId (data wo))
              = Some wc
              /\ shifts (data wc) <> []
              /\ isWithinShiftHours (startDate (data wo)) (shifts (data wc)) = true)
    by (apply validateShiftBoundaries_nil; exact Hshift).
  split.
  - intros wo Hwo. destruct (Hall wo Hwo) as [wc [Hget [Hne Hin]]].
    exists wc. repeat split; auto.
    intros t Ht. rewrite isWithinShiftHours_isWorking, Ht in Hin. exact Hin.
  - intros wo Hwo Hm. apply In_nth_error in Hwo. destruct Hwo as [j Hj].
    apply reflowRun_Ok in Hr.
    destruct Hr as [sorted [h [_ [Hproc [_ [Hu _]]]]]].
    apply processAll_frame in Hproc. simpl in Hproc.
    destruct Hproc as [_ [_ [Hkeep _]]].
    specialize (Hkeep j wo Hj Hm). rewrite <- Hu in Hkeep.
    apply nth_error_In in Hkeep.
    destruct (Hall wo Hkeep) as [wc [Hget [_ Hin]]]. eauto.
Qed.

Lemma reflow_starts_in_shift_witness :
  exists wc,
    map_get (workCenterMapOf (workCenters maintenanceInput))
            (workCenterId (data maintenanceOrder)) = Some wc
    /\ isWithinShiftHours (startDate (data maintenanceOrder)) (shifts (data wc)) = true.
Proof.
  apply (proj2 (reflow_starts_in_shift maintenanceInput maintenanceResult
                  reflow_maintenanceResult) maintenanceOrder).
  - left. reflexivity.
  - reflexivity.
Defined.


(** ** A dependency on a work order that does not exist *)

Lemma linkParents_Throw (graph : Graph) (wo : WorkOrder) (ps : list string)
    (e : error) :
  linkParents graph wo ps = Throw e ->
  exists p, In p ps /\ ~ In p (map_keys graph)
            /\ e = DanglingDependency (workOrderNumber (data wo)) p.
Proof.
  revert graph. induction ps as [|p ps IH]; intros graph; simpl; [discriminate |].
  destruct (map_get graph p) as [node|] eqn:Hget.
  - intros H. apply IH in H. destruct H as [q [Hq [Hnot He]]].
    exists q. repeat split; [now right | | exact He].
    rewrite map_keys_set_present in Hnot by (eapply map_get_Some_keys; eauto).
    exact Hnot.
  - intros H. inversion H. exists p. repeat split; [now left |].
    now apply map_get_None_keys.
Qed.

Lemma linkAll_Throw (graph : Graph) (l : list WorkOrder) (e : error) :
  linkAll graph l = Throw e ->
  exists wo p, In wo l /\ In p (dependsOnWorkOrderIds (data wo))
               /\ ~ In p (map_keys graph)
               /\ e = DanglingDependency (workOrderNumber (data wo)) p.
Proof.
  revert graph. induction l as [|wo l IH]; intros graph; simpl; [discriminate |].
  destruct (linkParents graph wo (dependsOnWorkOrderIds (data wo))) as [g1|e1] eqn:H1;
    cbn [bind].
  - intros H. apply IH in H. destruct H as [w [p [Hw [Hp [Hnot He]]]]].
    exists w, p. repeat split; [now right | exact Hp | | exact He].
    apply linkParents_keys in H1. destruct H1 as [Hk _]. now rewrite <- Hk.
  - intros H. inversion H; subst e1. apply linkParents_Throw in H1.
    destruct H1 as [p [Hp [Hnot He]]]. exists wo, p. repeat split; auto.
Qed.

Lemma allDependenciesExist_false (workOrders : list WorkOrder) :
  allDependenciesExist workOrders = false ->
  forall graph, buildDependencyGraph workOrders <> Ok graph.
Proof.
  intros Hfalse graph Hg.
  destruct (buildDependencyGraph_keys _ _ Hg) as [_ [_ [Hex _]]].
  rewrite <- not_true_iff_false in Hfalse. apply Hfalse.
  unfold allDependenciesExist. apply forallb_forall. intros wo Hwo.
  apply forallb_forall. intros p Hp. apply existsb_exists.
  specialize (Hex wo p Hwo Hp). apply in_map_iff in Hex.
  destruct Hex as [w [Hid Hw]]. exists w. split; [exact Hw |].
  now apply String.eqb_eq.
Qed.

(** X11. When some work order lists a dependency id that no work order
    carries, [buildDependencyGraph] throws the error that names such a
    work order and the missing id, and so do its three callers: the
    topological sort, [validateAll] (which throws instead of returning a
    list of errors) and reflow. *)
Theorem dangling_dependency_rejected :
  forall (input : ReflowInput),
    allDependenciesExist (workOrders input) = false ->
    exists wo p,
      In wo (workOrders input)
      /\ In p (dependsOnWorkOrderIds (data wo))
      /\ ~ In p (map docId (workOrders input))
      /\ buildDependencyGraph (workOrders input)
         = Throw (DanglingDependency (workOrderNumber (data wo)) p)
      /\ topologicalSort (workOrders input)
         = Throw (DanglingDependency (workOrderNumber (data wo)) p)
      /\ validateAll (workOrders input) (workCenters input)
         = Throw (DanglingDependency (workOrderNumber (data wo)) p)
      /\ reflow input = Throw (DanglingDependency (workOrderNumber (data wo)) p).
Proof.
  intros input Hfalse.
  pose proof (allDependenciesExist_false _ Hfalse) as Hno.
  destruct (buildDependencyGraph (workOrders input)) as [graph|e] eqn:Hg;
    [exfalso; now apply (Hno graph) |].
  pose proof Hg as Hthrow. unfold buildDependencyGraph in Hthrow.
  apply linkAll_Throw in Hthrow. destruct Hthrow as [wo [p [Hwo [Hp [Hnot He]]]]].
  exists wo, p. subst e. repeat split; auto.
  - intros Hin. apply Hnot. apply initial_graph_keys. now right.
  - unfold topologicalSort. now rewrite Hg.
  - unfold validateAll. now rewrite Hg.
  - unfold reflow, reflowRun. cbn [workingCopies]. unfold topologicalSort.
    now rewrite Hg.
Qed.

Lemma dangling_dependency_rejected_witness :
  exists wo p,
    In wo (workOrders ghostInput)
    /\ In p (dependsOnWorkOrderIds (data wo))
    /\ ~ In p (map docId (workOrders ghostInput))
    /\ buildDependencyGraph (workOrders ghostInput)
       = Throw (DanglingDependency (workOrderNumber (data wo)) p)
    /\ topologicalSort (workOrders ghostInput)
       = Throw (DanglingDependency (workOrderNumber (data wo)) p)
    /\ validateAll (workOrders ghostInput) (workCenters ghostInput)
       = Throw (DanglingDependency (workOrderNumber (data wo)) p)
    /\ reflow ghostInput = Throw (DanglingDependency (workOrderNumber (data wo)) p).
Proof.
  apply (dangling_dependency_rejected ghostInput). reflexivity.
Defined.


(** ** A returned work order can be scheduled where it is *)

Lemma find_workCenter_unique (workCenters : list WorkCenter) (wc : WorkCenter) :
  NoDup (map docId workCenters) -> In wc workCenters ->
  find (fun w => String.eqb (docId w) (docId wc)) workCenters = Some wc.
Proof.
  induction workCenters as [|w rest IH]; simpl; intros Hnd Hin; [destruct Hin |].
  inversion Hnd as [|? ? Hfresh Hnd']; subst.
  destruct Hin as [-> | Hin].
  - now rewrite String.eqb_refl.
  - destruct (String.eqb (docId w) (docId wc)) eqn:E.
    + apply String.eqb_eq in E. exfalso. apply Hfresh. rewrite E.
      apply in_map_iff. now exists wc.
    + auto.
Qed.

Lemma existsb_false {A : Type} (p : A -> bool) (l : list A) :
  (forall x, In x l -> p x = false) -> existsb p l = false.
Proof.
  induction l as [|a l IH]; simpl; intros H; [reflexivity |].
  rewrite (H a) by now left. apply IH. auto.
Qed.

(** X12. When reflow returns and no two work centers of the input share
    a docId, [canScheduleAt] accepts every returned work order at the
    dates it was returned with. *)
Theorem reflow_result_can_be_scheduled :
  forall (input : ReflowInput) (r : ReflowResult),
    reflow input = Ok r ->
    NoDup (map docId (workCenters input)) ->
    forall wo, In wo (updatedWorkOrders r) ->
      canScheduleAt wo (startDate (data wo)) (endDate (data wo))
                    (updatedWorkOrders r) (workCenters input) = true.
Proof.
  intros input r Hr Hwcs wo Hwo.
  destruct (reflow_validated input r Hr) as [Hnd [_ Hval]].
  set (U := updatedWorkOrders r) in *.
  apply validateAll_nil in Hval. destruct Hval as [Hdeps [Hconf [Hshift Hmaint]]].
  destruct (validateShiftBoundaries_nil U _ Hshift wo Hwo) as [wc [Hget _]].
  pose proof (validateMaintenanceWindows_nil U _ Hmaint wo wc Hwo Hget) as Hno.
  destruct (workCenterMapOf_In _ _ _ Hget) as [Hin Hid].
  unfold canScheduleAt. rewrite <- Hid.
  rewrite (find_workCenter_unique _ wc Hwcs Hin).
  rewrite existsb_false.
  - rewrite Hno. apply negb_true_iff. apply existsb_false.
    intros parent Hp. rewrite (parentsOf_map U wo Hnd) in Hp.
    apply (validateDependencies_nil U Hdeps wo parent Hwo Hp).
  - intros other Ho. apply filter_In in Ho. destruct Ho as [Ho Hsame].
    unfold sameWorkCenterOther in Hsame. apply andb_true_iff in Hsame.
    destruct Hsame as [Hne Hwc]. apply negb_true_iff, String.eqb_neq in Hne.
    apply String.eqb_eq in Hwc.
    assert (Hdiff : wo <> other) by congruence.
    destruct (In_two_split U wo other Hwo Ho Hdiff) as [l1 [l2 [l3 [Hs | Hs]]]].
    + destruct (validateWorkCenterConflicts_nil U Hconf _ _ _ _ _ Hs (eq_sym Hwc))
        as [Hab _]. exact Hab.
    + destruct (validateWorkCenterConflicts_nil U Hconf _ _ _ _ _ Hs Hwc)
        as [_ Hba]. exact Hba.
Qed.

Lemma reflow_result_can_be_scheduled_witness :
  canScheduleAt (reschedule displacedOrder "2026-02-10T15:00:00.000Z"
                            "2026-02-10T17:00:00.000Z")
    "2026-02-10T15:00:00.000Z" "2026-02-10T17:00:00.000Z"
    (updatedWorkOrders maintenanceResult) (workCenters maintenanceInput) = true.
Proof.
  apply (reflow_result_can_be_scheduled maintenanceInput maintenanceResult
           reflow_maintenanceResult).
  - repeat constructor. intros [].
  - vm_compute. right. left. reflexivity.
Defined.


Lemma existsb_filter_conflicts (workOrder : WorkOrder) (s e : string)
    (all : list WorkOrder) :
  existsb (fun other =>
    timeRangesOverlap s e (startDate (data other)) (endDate (data other)))
    (filter (sameWorkCenterOther workOrder) all)
  = match filter (fun wo =>
            sameWorkCenterOther workOrder wo
            && timeRangesOverlap s e (startDate (data wo)) (endDate (data wo)))
          all with
    | [] => false
    | _ :: _ => true
    end.
Proof.
  induction all as [|wo all IH]; simpl; [reflexivity |].
  destruct (sameWorkCenterOther workOrder wo); simpl; [| exact IH].
  destruct (timeRangesOverlap s e (startDate (data wo)) (endDate (data wo)));
    simpl; [reflexivity | exact IH].
Qed.

(** X13. The validator's [canScheduleAt] and the slot test of the
    scheduler agree: with the work center that [find] yields for the work
    order, a slot can be scheduled exactly when [isSlotAvailable] accepts
    it and no parent of the work order has an endDate above the slot's
    start in the order of the ISO strings; without such a work center it
    cannot. *)
Theorem canScheduleAt_isSlotAvailable :
  forall (workOrder : WorkOrder) (s e : string) (all : list WorkOrder)
         (workCenters : list WorkCenter),
    canScheduleAt workOrder s e all workCenters
    = match find (fun wc => String.eqb (docId wc) (workCenterId (data workOrder)))
                 workCenters with
      | None => false
      | Some wc =>
          isSlotAvailable s e workOrder all wc
          && forallb (fun parent => negb (str_gt (endDate (data parent)) s))
                     (parentsOf workOrder all)
      end.
Proof.
  intros workOrder s e all workCenters. unfold canScheduleAt, isSlotAvailable.
  destruct (find (fun wc => String.eqb (docId wc) (workCenterId (data workOrder)))
             workCenters) as [wc|]; [| reflexivity].
  rewrite existsb_filter_conflicts.
  destruct (filter (fun wo =>
              sameWorkCenterOther workOrder wo
              && timeRangesOverlap s e (startDate (data wo)) (endDate (data wo)))
              all); [| reflexivity].
  destruct (overlapsWithMaintenance s e (maintenanceWindows (data wc)));
    [reflexivity |].
  cbn [negb andb].
  induction (parentsOf workOrder all) as [|p ps IH]; simpl; [reflexivity |].
  destruct (str_gt (endDate (data p)) s); simpl; [reflexivity | exact IH].
Qed.


(** ** Parents and children *)

Lemma In_getChildren (id : string) (workOrders : list WorkOrder) (c : WorkOrder) :
  In c (getChildren id workOrders)
  <-> In c workOrders /\ In id (dependsOnWorkOrderIds (data c)).
Proof.
  unfold getChildren. rewrite filter_In, existsb_exists. split.
  - intros [Hin [x [Hx E]]]. apply String.eqb_eq in E. subst x. auto.
  - intros [Hin Hid]. split; [exact Hin |]. exists id. split; [exact Hid |].
    apply String.eqb_refl.
Qed.

Lemma In_parentsOf (workOrders : list WorkOrder) (c p : WorkOrder) :
  NoDup (map docId workOrders) ->
  In p (parentsOf c workOrders)
  <-> In p workOrders /\ In (docId p) (dependsOnWorkOrderIds (data c)).
Proof.
  intros Hnd. unfold parentsOf. rewrite In_definedOnly. split.
  - intros [id [Hid Hf]]. apply find_some in Hf. destruct Hf as [Hin E].
    apply String.eqb_eq in E. subst id. auto.
  - intros [Hin Hid]. exists (docId p). split; [exact Hid |].
    now apply find_docId_unique.
Qed.

(** X14. Among work orders with distinct docIds, [getParents] and
    [getChildren] are two views of the same relation: [p] is among the
    parents of [c] exactly when [c] is among the children of [p], which is
    exactly when [c] lists the docId of [p] as a dependency.  For an id
    that no work order carries, [getParents] is empty. *)
Theorem getParents_getChildren :
  forall (workOrders : list WorkOrder),
    NoDup (map docId workOrders) ->
    (forall c p, In c workOrders -> In p workOrders ->
       (In p (getParents (docId c) workOrders)
        <-> In c (getChildren (docId p) workOrders))
       /\ (In c (getChildren (docId p) workOrders)
           <-> In (docId p) (dependsOnWorkOrderIds (data c))))
    /\ (forall id, ~ In id (map docId workOrders) -> getParents id workOrders = []).
Proof.
  intros workOrders Hnd. split.
  - intros c p Hc Hp. unfold getParents.
    rewrite (find_docId_unique workOrders c Hnd Hc).
    rewrite (In_parentsOf workOrders c p Hnd), In_getChildren. tauto.
  - intros id Hid. unfold getParents.
    destruct (find (fun wo => String.eqb (docId wo) id) workOrders) as [wo|] eqn:Hf;
      [| reflexivity].
    apply find_some in Hf. destruct Hf as [Hin E]. apply String.eqb_eq in E.
    exfalso. apply Hid. rewrite <- E. now apply in_map.
Qed.

Lemma getParents_getChildren_witness :
  In lateParent (getParents (docId earlyChild) (workOrders lateParentInput)).
Proof.
  assert (Hnd : NoDup (map docId (workOrders lateParentInput))).
  { repeat constructor; simpl; intuition discriminate. }
  destruct (proj1 (getParents_getChildren (workOrders lateParentInput) Hnd)
              earlyChild lateParent) as [Hdual Hdep].
  - right. left. reflexivity.
  - left. reflexivity.
  - apply Hdual, Hdep. left. reflexivity.
Defined.


(** ** The errors of the topological sort *)

Lemma lastIndexOf_total (id : string) (l : list WorkOrder) :
  In id (map docId l) -> forall k, exists j, lastIndexOf id l k = Some j.
Proof.
  induction l as [|w l IH]; simpl; intros Hin k; [destruct Hin |].
  destruct (lastIndexOf id l (S k)) as [j|] eqn:E; [eauto |].
  destruct Hin as [Hid | Hin].
  - rewrite Hid, String.eqb_refl. eauto.
  - destruct (IH Hin (S k)) as [j Hj]. congruence.
Qed.

Lemma resolveAll_total (ids : list string) (l : list WorkOrder) :
  (forall id, In id ids -> In id (map docId l)) ->
  exists idxs, resolveAll ids l = Ok idxs.
Proof.
  induction ids as [|id ids IH]; intros H; simpl; [eauto |].
  destruct (lastIndexOf_total id l (H id (or_introl eq_refl)) 0%nat) as [j Hj].
  rewrite Hj. destruct IH as [rest Hrest]; [intros x Hx; apply H; now right |].
  rewrite Hrest. cbn [bind]. eauto.
Qed.

(** The sort throws one of three errors, and no other. *)
Lemma topologicalSort_Throw (l : list WorkOrder) (e : error) :
  topologicalSort l = Throw e ->
  (exists n p, e = DanglingDependency n p)
  \/ e = CircularDependency \/ e = TopologicalSortFailed.
Proof.
  unfold topologicalSort.
  destruct (buildDependencyGraph l) as [graph|e0] eqn:Hg; cbn [bind].
  - pose proof (detectCycles_sound graph (buildDependencyGraph_wellFormed l graph Hg))
      as Hsound.
    destruct (detectCycles graph) as [[err|]|e1]; cbn [bind];
      [intros H; inversion H; auto | | contradiction].
    destruct (buildDependencyGraph_keys l graph Hg) as [Hnd [Hiff _]].
    destruct (kahn_total graph (S (List.length graph)) (initialInDegree graph)
                (initialQueue (initialInDegree graph)) []
                (kahnInv_initial graph Hnd)) as [sorted Hk].
    { unfold map_keys. rewrite length_map. simpl. lia. }
    rewrite Hk. cbn [bind].
    destruct (Nat.eqb (List.length sorted) (List.length l));
      [| intros H; inversion H; auto].
    apply (kahn_inv graph _ _ _ _ _ (kahnInv_initial graph Hnd)) in Hk.
    destruct Hk as [_ Hincl].
    destruct (resolveAll_total sorted l) as [idxs Hidxs];
      [intros id Hid; apply Hiff; auto |].
    rewrite Hidxs. discriminate.
  - intros H. inversion H; subst e0. unfold buildDependencyGraph in Hg.
    apply linkAll_Throw in Hg. destruct Hg as [wo [p [_ [_ [_ He]]]]]. eauto.
Qed.

(** ** All descendants *)

Lemma enqueueChildren_spec (cs : list WorkOrder) :
  forall (d q : list string),
    NoDup d ->
    exists added,
      enqueueChildren cs d q = (d ++ added, q ++ added)
      /\ NoDup (d ++ added)
      /\ (forall x, In x added -> exists c, In c cs /\ docId c = x)
      /\ (forall c, In c cs -> In (docId c) (d ++ added)).
Proof.
  induction cs as [|c cs IH]; intros d q Hnd; simpl.
  - exists []. rewrite !app_nil_r. repeat split; auto; intros x [].
  - destruct (existsb (String.eqb (docId c)) d) eqn:E.
    + destruct (IH d q Hnd) as [added [Heq [Hn [Hfrom Hall]]]].
      exists added. repeat split; auto.
      * intros x Hx. destruct (Hfrom x Hx) as [c' [Hc' E']]. eauto.
      * intros c' [<- | Hc']; [| auto].
        apply in_app_iff. left. now apply existsb_eqb_In.
    + assert (Hfresh : ~ In (docId c) d).
      { intros Hin. apply existsb_eqb_In in Hin. congruence. }
      destruct (IH (d ++ [docId c]) (q ++ [docId c]) (NoDup_snoc d _ Hnd Hfresh))
        as [added [Heq [Hn [Hfrom Hall]]]].
      exists (docId c :: added).
      replace (d ++ docId c :: added) with ((d ++ [docId c]) ++ added)
        by (now rewrite <- app_assoc).
      replace (q ++ docId c :: added) with ((q ++ [docId c]) ++ added)
        by (now rewrite <- app_assoc).
      repeat split; auto.
      * intros x [<- | Hx]; [eauto |].
        destruct (Hfrom x Hx) as [c' [Hc' E']]. eauto.
      * intros c' [<- | Hc']; [| auto].
        apply in_app_iff. left. apply in_app_iff. right. now left.
Qed.

(** The loop ends within its bound; what it collects are docIds of work
    orders that have dependencies, the children of every id that was in
    the queue among them. *)
Lemma collectDescendants_total (workOrders : list WorkOrder) :
  forall (fuel : nat) (q d : list string),
    NoDup d ->
    (forall x, In x d ->
       exists w, In w workOrders /\ docId w = x
                 /\ dependsOnWorkOrderIds (data w) <> []) ->
    (List.length q + List.length workOrders <= fuel + List.length d)%nat ->
    exists d',
      collectDescendants fuel workOrders q d = Ok d'
      /\ NoDup d'
      /\ (forall x, In x d' ->
            exists w, In w workOrders /\ docId w = x
                      /\ dependsOnWorkOrderIds (data w) <> [])
      /\ (forall x, In x d -> In x d')
      /\ (forall cur c, In cur q -> In c (getChildren cur workOrders) ->
            In (docId c) d').
Proof.
  induction fuel as [|fuel IH]; intros q d Hnd Hdeps Hfuel.
  - assert (Hlen : (List.length d <= List.length workOrders)%nat).
    { pose proof (length_map docId workOrders) as Hl.
      assert (Hincl : incl d (map docId workOrders)).
      { intros x Hx. destruct (Hdeps x Hx) as [w [Hw [<- _]]]. now apply in_map. }
      pose proof (NoDup_incl_length Hnd Hincl). unfold WorkOrder in *. lia. }
    destruct q as [|cur q]; [| simpl in Hfuel; unfold WorkOrder in *; lia].
    exists d. simpl. repeat split; auto. intros cur c [].
  - destruct q as [|cur q]; simpl.
    + exists d. repeat split; auto. intros cur c [].
    + destruct (enqueueChildren_spec (getChildren cur workOrders) d q Hnd)
        as [added [Heq [Hn [Hfrom Hall]]]].
      rewrite Heq.
      assert (Hdeps' : forall x, In x (d ++ added) ->
                exists w, In w workOrders /\ docId w = x
                          /\ dependsOnWorkOrderIds (data w) <> []).
      { intros x Hx. apply in_app_iff in Hx. destruct Hx as [Hx | Hx]; [auto |].
        destruct (Hfrom x Hx) as [c [Hc E]]. apply In_getChildren in Hc.
        destruct Hc as [Hin Hid]. exists c. repeat split; auto.
        intros Hnil. rewrite Hnil in Hid. destruct Hid. }
      destruct (IH (q ++ added) (d ++ added) Hn Hdeps') as [d' [Hok [Hn' [Hd' [Hsub Hkids]]]]].
      { rewrite !length_app. simpl in Hfuel. lia. }
      exists d'. repeat split; auto.
      * intros x Hx. apply Hsub. apply in_app_iff. now left.
      * intros cur' c [<- | Hcur] Hc.
        -- apply Hsub. now apply Hall.
        -- apply (Hkids cur' c); [| exact Hc]. apply in_app_iff. now left.
Qed.

Lemma collectDescendants_nil (fuel : nat) (workOrders : list WorkOrder)
    (d : list string) :
  collectDescendants fuel workOrders [] d = Ok d.
Proof. destruct fuel; reflexivity. Qed.

(** A sort of work orders that all have dependencies comes to nothing. *)
Lemma topologicalSort_no_root (l : list WorkOrder) (sorted : list nat) :
  (forall wo, In wo l -> dependsOnWorkOrderIds (data wo) <> []) ->
  topologicalSort l = Ok sorted -> l = [].
Proof.
  intros Hdeps Hsort. pose proof (topologicalSort_Ok l sorted Hsort) as [Hnd _].
  unfold topologicalSort in Hsort.
  apply bind_Ok_inv in Hsort. destruct Hsort as [graph [Hg H]].
  apply bind_Ok_inv in H. destruct H as [cycleError [_ H]].
  destruct cycleError; [discriminate |].
  apply bind_Ok_inv in H. destruct H as [ids [Hk H]].
  destruct (Nat.eqb (List.length ids) (List.length l)) eqn:Hlen; [| discriminate].
  apply Nat.eqb_eq in Hlen.
  assert (Hq : initialQueue (initialInDegree graph) = []).
  { unfold initialQueue, initialInDegree.
    rewrite filter_nil; [reflexivity |].
    intros [k v] Hin. apply in_map_iff in Hin. destruct Hin as [[k' node] [E Hin]].
    inversion E; subst. simpl.
    assert (Hedge : map_get graph k = Some node).
    { apply NoDup_In_get; [| exact Hin].
      now destruct (buildDependencyGraph_keys l graph Hg). }
    destruct (parents node) as [|p ps] eqn:Hp; [| reflexivity].
    exfalso.
    pose proof Hg as Hg'. unfold buildDependencyGraph in Hg'.
    apply linkAll_keys in Hg'. destruct Hg' as [_ [_ Hpar]].
    specialize (Hpar k). rewrite Hedge in Hpar. simpl in Hpar.
    destruct (map_get (fold_left (fun g wo => map_set g (docId wo) (initialNode wo))
                                 l []) k) as [n0|] eqn:H0; [| discriminate].
    apply initial_graph_get in H0. destruct H0 as [wo [Hwo [_ ->]]].
    simpl in Hpar. inversion Hpar as [E']. rewrite Hp in E'.
    now apply (Hdeps wo Hwo). }
  rewrite Hq in Hk. destruct (List.length graph); simpl in Hk;
    inversion Hk; subst ids; destruct l; [reflexivity | discriminate
                                          | reflexivity | discriminate].
Qed.

(** X15. [getAllDescendants] never returns a work order.  When no work
    order lists the id as a dependency it returns the empty list.  When
    one does, the work orders it collects are sorted on their own, without
    the work order they descend from, and [topologicalSort] throws one of
    its three errors. *)
Theorem getAllDescendants_never_lists :
  forall (workOrderId : string) (workOrders : list WorkOrder),
    (getChildren workOrderId workOrders = [] ->
     getAllDescendants workOrderId workOrders = Ok [])
    /\ (getChildren workOrderId workOrders <> [] ->
        exists e, getAllDescendants workOrderId workOrders = Throw e
          /\ ((exists n p, e = DanglingDependency n p)
              \/ e = CircularDependency \/ e = TopologicalSortFailed)).
Proof.
  intros id wos. unfold getAllDescendants.
  destruct (collectDescendants_total wos (S (List.length wos)) [id] [])
    as [d [Hok [Hnd [Hdeps [_ Hkids]]]]];
    [constructor | intros x [] | simpl; lia |].
  rewrite Hok. cbn [bind]. split.
  - intros Hnone.
    assert (Hd : d = []).
    { assert (Hrun : collectDescendants (S (List.length wos)) wos [id] [] = Ok []).
      { cbn [collectDescendants]. rewrite Hnone. cbn [enqueueChildren].
        apply collectDescendants_nil. }
      rewrite Hrun in Hok. now inversion Hok. }
    subst d. simpl.
    rewrite (filter_nil (fun _ : BaseDocument WorkOrderData => false) wos)
      by reflexivity.
    reflexivity.
  - intros Hsome.
    set (D := filter (fun wo => existsb (String.eqb (docId wo)) d) wos).
    destruct (topologicalSort D) as [sorted|e] eqn:Hsort; cbn [bind].
    + exfalso.
      pose proof (topologicalSort_Ok D sorted Hsort) as [HndD _].
      assert (HD : D = []).
      { apply (topologicalSort_no_root D sorted); [| exact Hsort].
        intros wo Hwo. pose proof Hwo as Hwo'. apply filter_In in Hwo'.
        destruct Hwo' as [Hin Hmem]. apply existsb_exists in Hmem.
        destruct Hmem as [x [Hx E]]. apply String.eqb_eq in E. subst x.
        destruct (Hdeps _ Hx) as [w [Hw [Hid Hne]]].
        assert (HwD : In w D).
        { apply filter_In. split; [exact Hw |]. apply existsb_exists.
          exists (docId wo). split; [exact Hx |]. rewrite Hid. apply String.eqb_refl. }
        now rewrite (NoDup_docId_inj D wo w HndD Hwo HwD (eq_sym Hid)). }
      destruct (getChildren id wos) as [|c cs] eqn:Hc; [contradiction |].
      assert (HcD : In c D).
      { assert (Hin : In c (getChildren id wos)) by (rewrite Hc; now left).
        apply filter_In. split.
        - apply In_getChildren in Hin. tauto.
        - apply existsb_exists. exists (docId c). split; [| apply String.eqb_refl].
          apply (Hkids id c); [now left | exact Hin]. }
      rewrite HD in HcD. destruct HcD.
    + exists e. split; [reflexivity |]. exact (topologicalSort_Throw D e Hsort).
Qed.

Lemma getAllDescendants_never_lists_witness :
  exists e,
    getAllDescendants "wo-1" (workOrders cascadeInput) = Throw e
    /\ ((exists n p, e = DanglingDependency n p)
        \/ e = CircularDependency \/ e = TopologicalSortFailed).
Proof.
  apply (proj2 (getAllDescendants_never_lists "wo-1" (workOrders cascadeInput))).
  vm_compute. discriminate.
Defined.


(** ** The order of the topological sort *)

Lemma childrenOf_set (graph : Graph) (p k : string) (node : DependencyNode) :
  childrenOf (map_set graph p node) k
  = if String.eqb p k then children node else childrenOf graph k.
Proof.
  unfold childrenOf. destruct (String.eqb p k) eqn:E.
  - apply String.eqb_eq in E. subst k. now rewrite map_get_set_eq.
  - apply String.eqb_neq in E. now rewrite map_get_set_ne.
Qed.

Lemma count_occ_snoc (l : list string) (y x : string) :
  count_occ string_dec (l ++ [y]) x
  = (count_occ string_dec l x + if String.eqb y x then 1 else 0)%nat.
Proof.
  rewrite count_occ_app. simpl. destruct (string_dec y x) as [-> | Hne].
  - now rewrite String.eqb_refl.
  - apply String.eqb_neq in Hne. now rewrite Hne.
Qed.

Lemma linkParents_children (wo : WorkOrder) (ps : list string) :
  forall (graph graph' : Graph),
    linkParents graph wo ps = Ok graph' ->
    forall k x,
      count_occ string_dec (childrenOf graph' k) x
      = (count_occ string_dec (childrenOf graph k) x
         + if String.eqb (docId wo) x then count_occ string_dec ps k else 0)%nat.
Proof.
  induction ps as [|p ps IH]; intros graph graph' H k x; simpl in H.
  - inversion H; subst. simpl. destruct (String.eqb (docId wo) x); lia.
  - destruct (map_get graph p) as [node|] eqn:Hget; [| discriminate].
    rewrite (IH _ _ H k x), childrenOf_set. simpl.
    destruct (string_dec p k) as [-> | Hne].
    + rewrite String.eqb_refl. unfold childrenOf. rewrite Hget.
      cbn [pushChild children]. rewrite count_occ_snoc.
      destruct (String.eqb (docId wo) x); lia.
    + apply String.eqb_neq in Hne. rewrite Hne.
      destruct (String.eqb (docId wo) x); lia.
Qed.

Lemma linkAll_children (l : list WorkOrder) :
  forall (graph graph' : Graph),
    linkAll graph l = Ok graph' ->
    forall k x,
      count_occ string_dec (childrenOf graph' k) x
      = (count_occ string_dec (childrenOf graph k) x + childCount l k x)%nat.
Proof.
  induction l as [|wo l IH]; intros graph graph' H k x; simpl in H.
  - inversion H; subst. unfold childCount. simpl. lia.
  - apply bind_Ok_inv in H. destruct H as [g1 [H1 H2]].
    rewrite (IH _ _ H2 k x), (linkParents_children _ _ _ _ H1 k x).
    unfold childCount. simpl. lia.
Qed.

Lemma childCount_fresh (l : list WorkOrder) (k x : string) :
  ~ In x (map docId l) -> childCount l k x = O.
Proof.
  unfold childCount. induction l as [|w l IH]; simpl; intros H; [reflexivity |].
  destruct (String.eqb (docId w) x) eqn:E.
  - apply String.eqb_eq in E. tauto.
  - rewrite IH by tauto. reflexivity.
Qed.

Lemma childCount_unique (l : list WorkOrder) (k : string) (w : WorkOrder) :
  NoDup (map docId l) -> In w l ->
  childCount l k (docId w)
  = count_occ string_dec (dependsOnWorkOrderIds (data w)) k.
Proof.
  induction l as [|v l IH]; simpl; intros Hnd Hin; [destruct Hin |].
  inversion Hnd as [|? ? Hfresh Hnd']; subst.
  change (childCount (v :: l) k (docId w))
    with ((if String.eqb (docId v) (docId w)
           then count_occ string_dec (dependsOnWorkOrderIds (data v)) k else O)
          + childCount l k (docId w))%nat.
  destruct Hin as [-> | Hin].
  - rewrite String.eqb_refl, childCount_fresh by exact Hfresh. lia.
  - destruct (String.eqb (docId v) (docId w)) eqn:E.
    + apply String.eqb_eq in E. exfalso. apply Hfresh. rewrite E. now apply in_map.
    + rewrite IH by assumption. reflexivity.
Qed.

Lemma initial_graph_children (workOrders : list WorkOrder) (k : string) :
  childrenOf (fold_left (fun g wo => map_set g (docId wo) (initialNode wo))
                        workOrders []) k = [].
Proof.
  unfold childrenOf.
  destruct (map_get _ k) as [node|] eqn:H; [| reflexivity].
  apply initial_graph_get in H. destruct H as [wo [_ [_ ->]]]. reflexivity.
Qed.

(** The node of a work order in the graph carries its dependencies. *)
Lemma buildDependencyGraph_node (workOrders : list WorkOrder) (graph : Graph)
    (x : string) (node : DependencyNode) :
  buildDependencyGraph workOrders = Ok graph ->
  map_get graph x = Some node ->
  exists wo, In wo workOrders /\ docId wo = x
             /\ parents node = dependsOnWorkOrderIds (data wo).
Proof.
  intros Hg Hnode. unfold buildDependencyGraph in Hg.
  apply linkAll_keys in Hg. destruct Hg as [_ [_ Hpar]].
  specialize (Hpar x). rewrite Hnode in Hpar.
  destruct (map_get (fold_left (fun g wo => map_set g (docId wo) (initialNode wo))
                               workOrders []) x) as [n0|] eqn:H0; [| discriminate].
  apply initial_graph_get in H0. destruct H0 as [wo [Hin [Hid ->]]].
  simpl in Hpar. inversion Hpar. eauto.
Qed.

Lemma buildDependencyGraph_mirrored (workOrders : list WorkOrder) (graph : Graph) :
  NoDup (map docId workOrders) ->
  buildDependencyGraph workOrders = Ok graph -> mirrored graph.
Proof.
  intros Hnd Hg n x node Hnode.
  destruct (buildDependencyGraph_node _ _ _ _ Hg Hnode) as [wo [Hin [Hid Hpar]]].
  unfold buildDependencyGraph in Hg.
  rewrite (linkAll_children _ _ _ Hg n x), initial_graph_children. simpl.
  subst x. rewrite (childCount_unique workOrders n wo Hnd Hin). now rewrite Hpar.
Qed.


Lemma existsb_eqb_snoc (p n : string) (sorted : list string) :
  existsb (String.eqb p) (sorted ++ [n])
  = existsb (String.eqb p) sorted || String.eqb p n.
Proof. rewrite existsb_app. simpl. now rewrite orb_false_r. Qed.

Lemma pendingParents_snoc (sorted : list string) (n : string) (node : DependencyNode) :
  ~ In n sorted ->
  pendingParents sorted node
  = (pendingParents (sorted ++ [n]) node
     + count_occ string_dec (parents node) n)%nat.
Proof.
  intros Hfresh. unfold pendingParents.
  induction (parents node) as [|p ps IH]; simpl; [reflexivity |].
  rewrite existsb_eqb_snoc.
  destruct (string_dec p n) as [-> | Hne].
  - assert (E : existsb (String.eqb n) sorted = false).
    { destruct (existsb (String.eqb n) sorted) eqn:E; [| reflexivity].
      apply existsb_eqb_In in E. contradiction. }
    rewrite E, String.eqb_refl. simpl. rewrite IH. lia.
  - apply String.eqb_neq in Hne. rewrite Hne, orb_false_r.
    destruct (existsb (String.eqb p) sorted); simpl; rewrite IH; lia.
Qed.

Lemma pendingParents_zero (sorted : list string) (node : DependencyNode) :
  pendingParents sorted node = O ->
  forall p, In p (parents node) -> In p sorted.
Proof.
  unfold pendingParents. intros H p Hp.
  apply length_zero_iff_nil in H.
  destruct (existsb (String.eqb p) sorted) eqn:E.
  - now apply existsb_eqb_In.
  - exfalso.
    assert (Hin : In p (filter (fun p => negb (existsb (String.eqb p) sorted))
                               (parents node))).
    { apply filter_In. split; [exact Hp |]. now rewrite E. }
    rewrite H in Hin. destruct Hin.
Qed.

Lemma parentsFirst_snoc (graph : Graph) (l : list string) (n : string) :
  forall before,
    parentsFirst graph before l ->
    (forall node, map_get graph n = Some node ->
       forall p, In p (parents node) -> In p (before ++ l)) ->
    parentsFirst graph before (l ++ [n]).
Proof.
  induction l as [|x l IH]; intros before Hl Hn; simpl.
  - split; [| exact I]. intros node Hnode p Hp.
    specialize (Hn node Hnode p Hp). now rewrite app_nil_r in Hn.
  - destruct Hl as [Hx Hrest]. split; [exact Hx |]. apply IH; [exact Hrest |].
    intros node Hnode p Hp. rewrite <- app_assoc. simpl. eauto.
Qed.

Lemma parentsFirst_split (graph : Graph) (l1 l2 : list string) (x : string) :
  forall before,
    parentsFirst graph before (l1 ++ x :: l2) ->
    forall node, map_get graph x = Some node ->
      forall p, In p (parents node) -> In p (before ++ l1).
Proof.
  induction l1 as [|y l1 IH]; intros before H node Hnode p Hp; simpl in H.
  - destruct H as [Hx _]. rewrite app_nil_r. eauto.
  - destruct H as [_ Hrest].
    specialize (IH _ Hrest node Hnode p Hp). now rewrite <- app_assoc in IH.
Qed.

(** The inner loop of Kahn's algorithm over the children of the node
    that has just been sorted. *)
Lemma releaseChildren_order (graph : Graph) (sorted' : list string) :
  forall (rest : list string) (inDegree : JsMap number) (queue : list string),
    (forall x node, map_get graph x = Some node ->
       map_get inDegree x
       = Some (Some (Z.of_nat (pendingParents sorted' node
                               + count_occ string_dec rest x)))) ->
    (forall x node, In x queue -> map_get graph x = Some node ->
       forall p, In p (parents node) -> In p sorted') ->
    (forall x node, map_get graph x = Some node ->
       map_get (fst (releaseChildren rest inDegree queue)) x
       = Some (Some (Z.of_nat (pendingParents sorted' node))))
    /\ (forall x node, In x (snd (releaseChildren rest inDegree queue)) ->
          map_get graph x = Some node ->
          forall p, In p (parents node) -> In p sorted').
Proof.
  induction rest as [|c rest IH]; intros inDegree queue Hdeg Hq.
  - simpl. split; [| exact Hq]. intros x node Hnode.
    rewrite (Hdeg x node Hnode). simpl. now rewrite Nat.add_0_r.
  - assert (Hdeg' : forall x node, map_get graph x = Some node ->
              map_get (map_set inDegree c (decrement inDegree c)) x
              = Some (Some (Z.of_nat (pendingParents sorted' node
                                      + count_occ string_dec rest x)))).
    { intros x node Hnode. destruct (string_dec c x) as [-> | Hne].
      - rewrite map_get_set_eq. unfold decrement. rewrite (Hdeg x node Hnode).
        simpl. destruct (string_dec x x) as [_ | Hxx]; [| contradiction].
        repeat f_equal. lia.
      - rewrite map_get_set_ne by exact Hne. rewrite (Hdeg x node Hnode).
        simpl. destruct (string_dec c x) as [E | _]; [contradiction | reflexivity]. }
    assert (Hq' : decrement inDegree c = Some 0 ->
              forall x node, In x (queue ++ [c]) -> map_get graph x = Some node ->
                forall p, In p (parents node) -> In p sorted').
    { intros Hz x node Hx Hnode p Hp. apply in_app_iff in Hx.
      destruct Hx as [Hx | [<- | []]]; [eauto |].
      apply (pendingParents_zero sorted' node); [| exact Hp].
      unfold decrement in Hz. rewrite (Hdeg c node Hnode) in Hz.
      simpl in Hz. destruct (string_dec c c) as [_ | Hcc]; [| contradiction].
      inversion Hz. lia. }
    simpl.
    destruct (decrement inDegree c) as [[|q|q]|] eqn:Hd;
      try (apply IH; [exact Hdeg' | exact Hq]).
    apply IH; [exact Hdeg' | apply Hq'; reflexivity].
Qed.

Lemma initialInDegree_get (graph : Graph) (x : string) (node : DependencyNode) :
  map_get graph x = Some node ->
  map_get (initialInDegree graph) x
  = Some (Some (Z.of_nat (List.length (parents node)))).
Proof.
  unfold initialInDegree. induction graph as [|[k n] graph IH]; simpl;
    [discriminate |].
  destruct (String.eqb k x); [intros H; inversion H; reflexivity | exact IH].
Qed.

Lemma orderInv_initial (graph : Graph) :
  NoDup (map_keys graph) ->
  orderInv graph (initialInDegree graph) (initialQueue (initialInDegree graph)) [].
Proof.
  intros Hnd. repeat split.
  - intros x node Hnode. rewrite (initialInDegree_get graph x node Hnode).
    unfold pendingParents. repeat f_equal.
    induction (parents node) as [|p ps IH]; simpl; [reflexivity | now f_equal].
  - intros x node Hx Hnode p Hp. exfalso.
    unfold initialQueue in Hx. apply in_map_iff in Hx.
    destruct Hx as [[k v] [Hk Hin]]. simpl in Hk. subst k.
    apply filter_In in Hin. destruct Hin as [Hin Hv]. simpl in Hv.
    assert (Hget : map_get (initialInDegree graph) x = Some v).
    { apply NoDup_In_get; [| exact Hin].
      change (NoDup (map_keys (initialInDegree graph))).
      now rewrite initialInDegree_keys. }
    rewrite (initialInDegree_get graph x node Hnode) in Hget.
    inversion Hget; subst v.
    destruct (parents node); [destruct Hp | discriminate].
Qed.


Lemma kahn_order (graph : Graph) :
  mirrored graph ->
  forall (fuel : nat) (inDegree : JsMap number) (queue sorted result : list string),
    kahnInv graph inDegree queue sorted ->
    orderInv graph inDegree queue sorted ->
    kahn fuel graph inDegree queue sorted = Ok result ->
    parentsFirst graph [] result.
Proof.
  intros Hmirror.
  induction fuel as [|fuel IH]; intros inDegree queue sorted result Hinv Hord Hk;
    (destruct queue as [|n queue]; simpl in Hk;
     [inversion Hk; subst; now destruct Hord as [_ [_ Hfirst]] |]);
    [discriminate |].
  destruct (map_get graph n) as [node|] eqn:Hnode; [| discriminate].
  destruct (releaseChildren (children node) inDegree queue)
    as [inDegree' queue'] eqn:Hrel.
  destruct Hinv as [Hnd [Hdeg Hkeys]]. destruct Hord as [Hpend [Hqueue Hfirst]].
  assert (Hfresh : ~ In n sorted).
  { intros Hin. apply NoDup_remove_2 in Hnd. apply Hnd. apply in_app_iff. now left. }
  apply (IH inDegree' queue' (sorted ++ [n]) result); [| | exact Hk].
  - pose proof (releaseChildren_inv graph (sorted ++ [n]) (children node)
                  inDegree queue) as Hstep.
    rewrite Hrel in Hstep. apply Hstep. repeat split.
    + now rewrite <- app_assoc.
    + intros id Hin. apply Hdeg. now rewrite <- app_assoc in Hin.
    + exact Hkeys.
  - pose proof (releaseChildren_order graph (sorted ++ [n]) (children node)
                  inDegree queue) as Hstep.
    rewrite Hrel in Hstep. cbn [fst snd] in Hstep.
    destruct Hstep as [Hpend' Hqueue'].
    + intros x nodex Hx. rewrite (Hpend x nodex Hx).
      rewrite (pendingParents_snoc sorted n nodex Hfresh).
      rewrite <- (Hmirror n x nodex Hx). unfold childrenOf. now rewrite Hnode.
    + intros x nodex Hx Hgx p Hp. apply in_app_iff. left.
      apply (Hqueue x nodex); [now right | exact Hgx | exact Hp].
    + repeat split; [exact Hpend' | exact Hqueue' |].
      apply parentsFirst_snoc; [exact Hfirst |].
      intros node' Hn' p Hp. simpl. apply (Hqueue n node'); [now left | exact Hn' | exact Hp].
Qed.

Lemma resolveAll_app_inv (l : list WorkOrder) :
  forall (ids : list string) (l1 : list nat) (i : nat) (l2 : list nat),
    resolveAll ids l = Ok (l1 ++ i :: l2) ->
    exists m1 id m2,
      ids = m1 ++ id :: m2 /\ resolveAll m1 l = Ok l1
      /\ lastIndexOf id l 0 = Some i.
Proof.
  induction ids as [|id0 ids IH]; intros l1 i l2 H; simpl in H.
  - inversion H. destruct l1; discriminate.
  - destruct (lastIndexOf id0 l 0) as [j|] eqn:Hj; [| discriminate].
    destruct (resolveAll ids l) as [rest|] eqn:Hrest; simpl in H; [| discriminate].
    inversion H as [Heq]. destruct l1 as [|a l1]; simpl in Heq.
    + inversion Heq; subst. exists [], id0, ids. auto.
    + inversion Heq; subst. destruct (IH l1 i l2 eq_refl) as [m1 [id [m2 [E [H1 H2]]]]].
      exists (id0 :: m1), id, m2. repeat split.
      * simpl. now rewrite E.
      * simpl. now rewrite Hj, H1.
      * exact H2.
Qed.

Lemma resolveAll_In_inv (l : list WorkOrder) :
  forall (ids : list string) (idxs : list nat) (p : string),
    resolveAll ids l = Ok idxs -> In p ids ->
    exists j, In j idxs /\ lastIndexOf p l 0 = Some j.
Proof.
  induction ids as [|id0 ids IH]; intros idxs p H Hp; [destruct Hp |].
  simpl in H. destruct (lastIndexOf id0 l 0) as [j|] eqn:Hj; [| discriminate].
  destruct (resolveAll ids l) as [rest|] eqn:Hrest; simpl in H; [| discriminate].
  inversion H; subst. destruct Hp as [-> | Hp].
  - exists j. split; [now left | exact Hj].
  - destruct (IH rest p eq_refl Hp) as [k [Hk Hl]]. exists k. split; [now right | exact Hl].
Qed.

(** In the result of the sort all the parents of a work order come
    before it. *)
Lemma topologicalSort_order (workOrders : list WorkOrder) (sorted : list nat) :
  topologicalSort workOrders = Ok sorted ->
  forall l1 i l2 child p,
    sorted = l1 ++ i :: l2 ->
    nth_error workOrders i = Some child ->
    In p (dependsOnWorkOrderIds (data child)) ->
    exists j parent,
      In j l1 /\ nth_error workOrders j = Some parent /\ docId parent = p.
Proof.
  intros Hsort.
  pose proof (topologicalSort_Ok _ _ Hsort) as [Hids _].
  unfold topologicalSort in Hsort.
  apply bind_Ok_inv in Hsort. destruct Hsort as [graph [Hg H]].
  apply bind_Ok_inv in H. destruct H as [cycleError [_ H]].
  destruct cycleError; [discriminate |].
  apply bind_Ok_inv in H. destruct H as [ids [Hk H]].
  destruct (Nat.eqb (List.length ids) (List.length workOrders)) eqn:Hlen;
    [| discriminate].
  destruct (buildDependencyGraph_keys workOrders graph Hg) as [Hkeys [Hiff _]].
  pose proof (kahn_order graph (buildDependencyGraph_mirrored workOrders graph Hids Hg)
                _ _ _ _ _ (kahnInv_initial graph Hkeys) (orderInv_initial graph Hkeys) Hk)
    as Hfirst.
  apply (kahn_inv graph _ _ _ _ _ (kahnInv_initial graph Hkeys)) in Hk.
  destruct Hk as [_ Hincl].
  intros l1 i l2 child p Hsplit Hchild Hp. subst sorted.
  destruct (resolveAll_app_inv workOrders ids l1 i l2 H) as [m1 [id [m2 [E [H1 Hi]]]]].
  apply lastIndexOf_docId in Hi. destruct Hi as [wo [Hwo [Hid _]]].
  rewrite Nat.sub_0_r, Hchild in Hwo. inversion Hwo; subst wo.
  assert (Hkey : In id (map_keys graph)).
  { apply Hincl. rewrite E. apply in_app_iff. right. now left. }
  destruct (map_keys_In_get _ graph id Hkey) as [node Hnode].
  destruct (buildDependencyGraph_node _ _ _ _ Hg Hnode) as [wo [Hin [Hid' Hpar]]].
  assert (Ewo : wo = child).
  { apply (NoDup_docId_inj workOrders); auto; [| congruence].
    eapply nth_error_In; eauto. }
  subst wo. rewrite E in Hfirst.
  pose proof (parentsFirst_split graph m1 m2 id [] Hfirst node Hnode p) as Hbefore.
  rewrite Hpar in Hbefore. specialize (Hbefore Hp). simpl in Hbefore.
  destruct (resolveAll_In_inv workOrders m1 l1 p H1 Hbefore) as [j [Hj Hl]].
  apply lastIndexOf_docId in Hl. destruct Hl as [parent [Hparent [Hpid _]]].
  rewrite Nat.sub_0_r in Hparent. exists j, parent. auto.
Qed.

(** X16. When [topologicalSort] returns, its result holds every work
    order of the list exactly once, and all the parents of a work order
    (the work orders whose docIds it lists as dependencies) come before
    it. *)
Theorem topologicalSort_parents_first :
  forall (workOrders : list WorkOrder) (sorted : list nat),
    topologicalSort workOrders = Ok sorted ->
    NoDup sorted
    /\ (forall i, In i sorted <-> (i < List.length workOrders)%nat)
    /\ (forall l1 i l2 child p,
          sorted = l1 ++ i :: l2 ->
          nth_error workOrders i = Some child ->
          In p (dependsOnWorkOrderIds (data child)) ->
          exists j parent,
            In j l1 /\ nth_error workOrders j = Some parent /\ docId parent = p).
Proof.
  intros wos sorted Hsort.
  pose proof (topologicalSort_NoDup _ _ Hsort) as Hnodup.
  pose proof (topologicalSort_valid _ _ Hsort) as Hvalid.
  split; [exact Hnodup |]. split.
  - intros i. split.
    + intros Hi. destruct (Hvalid i Hi) as [wo Hwo].
      apply nth_error_Some. rewrite Hwo. discriminate.
    + intros Hi.
      assert (Hsub : incl (seq 0 (List.length wos)) sorted).
      { apply NoDup_length_incl; [exact Hnodup | |].
        - unfold topologicalSort in Hsort.
          apply bind_Ok_inv in Hsort. destruct Hsort as [graph [_ H]].
          apply bind_Ok_inv in H. destruct H as [cycleError [_ H]].
          destruct cycleError; [discriminate |].
          apply bind_Ok_inv in H. destruct H as [ids [_ H]].
          destruct (Nat.eqb (List.length ids) (List.length wos)) eqn:Hlen;
            [| discriminate].
          apply Nat.eqb_eq in Hlen.
          pose proof (resolveAll_length _ _ _ H) as Hlen'.
          rewrite length_seq. lia.
        - intros j Hj. apply in_seq. destruct (Hvalid j Hj) as [wo Hwo].
          assert (j < List.length wos)%nat
            by (apply nth_error_Some; rewrite Hwo; discriminate).
          lia. }
      apply Hsub. apply in_seq. lia.
  - exact (topologicalSort_order wos sorted Hsort).
Qed.

Lemma topologicalSort_parents_first_witness :
  NoDup [0%nat; 1%nat]
  /\ (forall i, In i [0%nat; 1%nat] <-> (i < List.length (workOrders cascadeInput))%nat)
  /\ (forall l1 i l2 child p,
        [0%nat; 1%nat] = l1 ++ i :: l2 ->
        nth_error (workOrders cascadeInput) i = Some child ->
        In p (dependsOnWorkOrderIds (data child)) ->
        exists j parent,
          In j l1 /\ nth_error (workOrders cascadeInput) j = Some parent
          /\ docId parent = p).
Proof.
  apply (topologicalSort_parents_first (workOrders cascadeInput) [0%nat; 1%nat]).
  reflexivity.
Defined.


(** ** The cycle search raises no false alarm *)

Lemma reach_trans (graph : Graph) (x y z : string) :
  reach graph x y -> reach graph y z -> reach graph x z.
Proof.
  intros Hxy Hyz. induction Hxy as [x p He | x p y He Hr IH].
  - eapply reach_more; eauto.
  - eapply reach_more; eauto.
Qed.

Lemma chained_snoc (graph : Graph) (l : list string) (v p : string) :
  chained graph (l ++ [v]) -> edge graph v p -> chained graph ((l ++ [v]) ++ [p]).
Proof.
  induction l as [|a l IH]; simpl; intros H He.
  - auto.
  - destruct l as [|b l]; simpl in *.
    + destruct H as [H1 _]. auto.
    + destruct H as [H1 H2]. split; [exact H1 |]. now apply IH.
Qed.

(** Every node of a chain leads to what the last node leads to. *)
Lemma chained_reach (graph : Graph) (l : list string) (v p : string) :
  chained graph (l ++ [v]) -> edge graph v p ->
  forall y, In y (l ++ [v]) -> reach graph y p.
Proof.
  induction l as [|a l IH]; simpl; intros H He y Hy.
  - destruct Hy as [<- | []]. now apply reach_one.
  - assert (Hrest : chained graph (l ++ [v]) /\ exists b, edge graph a b /\ In b (l ++ [v])).
    { destruct l as [|b l]; simpl in *.
      - destruct H as [H1 _]. split; [exact I |]. exists v. auto.
      - destruct H as [H1 H2]. split; [exact H2 |]. exists b. auto. }
    destruct Hrest as [Hc [b [Hab Hb]]].
    destruct Hy as [<- | Hy].
    + eapply reach_more; [exact Hab |]. now apply (IH Hc He).
    + now apply (IH Hc He).
Qed.

Lemma visitParents_honest (graph : Graph) (fuel : nat) (v : string)
    (path : list string) :
  (forall p colors,
      grayIsPath colors (path ++ [v]) -> chained graph ((path ++ [v]) ++ [p]) ->
      map_get colors p <> Some GRAY ->
      dfsHonest graph colors (dfs fuel graph p colors (path ++ [v]))) ->
  chained graph (path ++ [v]) ->
  forall ps colors,
    (forall p, In p ps -> edge graph v p) ->
    grayIsPath colors (path ++ [v]) ->
    visitHonest graph colors v
      (visitParents (fun p c => dfs fuel graph p c (path ++ [v])) v (path ++ [v])
                    ps colors).
Proof.
  intros Hrec Hchain. induction ps as [|p ps IH]; intros colors Hps Hgray; simpl.
  - intros k. destruct (string_dec v k) as [<- | Hne].
    + rewrite map_get_set_eq. split; [discriminate | tauto].
    + rewrite map_get_set_ne by exact Hne. split; [intros H; split; congruence | tauto].
  - assert (Hedge : edge graph v p) by (apply Hps; now left).
    assert (Hrest : forall q, In q ps -> edge graph v q)
      by (intros q Hq; apply Hps; now right).
    destruct (map_get colors p) as [[| |]|] eqn:Hp.
    + assert (Hd : dfsHonest graph colors (dfs fuel graph p colors (path ++ [v]))).
      { apply Hrec; [exact Hgray | now apply chained_snoc | congruence]. }
      destruct (dfs fuel graph p colors (path ++ [v])) as [cyc | colors2 | e];
        simpl in Hd; [exact Hd | | exact I].
      assert (Hgray2 : grayIsPath colors2 (path ++ [v])).
      { intros k. rewrite (Hd k). apply Hgray. }
      specialize (IH colors2 Hrest Hgray2).
      destruct (visitParents _ v (path ++ [v]) ps colors2) as [cyc | colors3 | e];
        simpl in *; auto.
      intros k. rewrite (IH k), (Hd k). tauto.
    + exists p. apply Hgray in Hp. repeat split.
      * apply in_app_iff. right. now left.
      * now apply (chained_reach graph path v p Hchain Hedge).
      * intros y Hy. apply in_app_iff in Hy. destruct Hy as [Hy | [<- | []]];
          [right | now left].
        now apply (chained_reach graph path v p Hchain Hedge).
    + apply IH; assumption.
    + apply IH; assumption.
Qed.

Lemma dfs_honest (graph : Graph) :
  forall fuel v colors path,
    grayIsPath colors path -> chained graph (path ++ [v]) ->
    map_get colors v <> Some GRAY ->
    dfsHonest graph colors (dfs fuel graph v colors path).
Proof.
  induction fuel as [|fuel IH]; intros v colors path Hgray Hchain Hv; simpl;
    [exact I |].
  destruct (map_get graph v) as [node|] eqn:Hnode; [| exact I].
  assert (Hgray1 : grayIsPath (map_set colors v GRAY) (path ++ [v])).
  { intros k. rewrite in_app_iff. simpl. destruct (string_dec v k) as [<- | Hne].
    - rewrite map_get_set_eq. tauto.
    - rewrite map_get_set_ne by exact Hne. rewrite (Hgray k). tauto. }
  pose proof (visitParents_honest graph fuel v path
                (fun p c Hg Hc Hp => IH p c (path ++ [v]) Hg Hc Hp) Hchain
                (parents node) (map_set colors v GRAY)) as Hvisit.
  assert (Hgo : visitHonest graph (map_set colors v GRAY) v
            (visitParents (fun p c => dfs fuel graph p c (path ++ [v])) v
               (path ++ [v]) (parents node) (map_set colors v GRAY))).
  { apply Hvisit; [| exact Hgray1]. intros p Hp. now exists node. }
  destruct (visitParents _ v (path ++ [v]) (parents node) (map_set colors v GRAY))
    as [cyc | colors' | e]; simpl in *; auto.
  intros k. rewrite (Hgo k). destruct (string_dec v k) as [<- | Hne].
  - rewrite map_get_set_eq. split; [tauto | intros H; contradiction].
  - rewrite map_get_set_ne by exact Hne.
    split; [tauto | intros H; split; [exact H | congruence]].
Qed.

Lemma scanNodes_honest (graph : Graph) :
  forall ids colors err,
    noGray colors ->
    scanNodes graph ids colors = Ok (Some err) ->
    exists cycleNodes, err = circularError cycleNodes
                       /\ leadsToCycle graph cycleNodes.
Proof.
  induction ids as [|id ids IH]; intros colors err Hng H; simpl in H;
    [discriminate |].
  destruct (map_get colors id) as [[| |]|] eqn:Hc; try (now apply (IH colors)).
  pose proof (dfs_honest graph (List.length graph) id colors []) as Hd.
  assert (Hgo : dfsHonest graph colors (dfs (List.length graph) graph id colors [])).
  { apply Hd.
    - intros k. split; [intros Hk; now apply Hng in Hk | intros []].
    - exact I.
    - congruence. }
  destruct (dfs (List.length graph) graph id colors []) as [cyc | colors2 | e];
    simpl in Hgo.
  - inversion H; subst. eauto.
  - apply (IH colors2); [| exact H]. intros k Hk. apply (Hng k). now apply Hgo.
  - discriminate.
Qed.

Lemma In_dedup (xs : list string) :
  forall seen x, In x (dedup seen xs) <-> In x xs /\ ~ In x seen.
Proof.
  induction xs as [|a xs IH]; intros seen x; simpl; [tauto |].
  destruct (existsb (String.eqb a) seen) eqn:E.
  - rewrite IH. apply existsb_eqb_In in E. split.
    + tauto.
    + intros [[-> | Hx] Hs]; [contradiction | tauto].
  - assert (Ha : ~ In a seen).
    { intros Hin. apply existsb_eqb_In in Hin. congruence. }
    simpl. rewrite IH. simpl. split.
    + intros [<- | [Hx Hs]]; [tauto |]. split; [tauto |]. intros Hin. apply Hs. now right.
    + intros [[<- | Hx] Hs]; [now left |].
      destruct (string_dec a x) as [-> | Hne]; [now left |].
      right. split; [exact Hx |]. intros [E' | Hin]; [congruence | contradiction].
Qed.

Lemma NoDup_dedup (xs : list string) : forall seen, NoDup (dedup seen xs).
Proof.
  induction xs as [|a xs IH]; intros seen; simpl; [constructor |].
  destruct (existsb (String.eqb a) seen); [apply IH |].
  constructor; [| apply IH]. rewrite In_dedup. intros [_ H]. apply H. now left.
Qed.

Lemma reach_chain (workOrders : list WorkOrder) (graph : Graph) :
  (forall x p, edge graph x p -> dependsOn workOrders x p) ->
  forall a b, reach graph a b -> dependsOnChain workOrders a b.
Proof.
  intros H a b Hr. induction Hr as [x p He | x p y He Hr IH].
  - apply chain_one. auto.
  - eapply chain_more; eauto.
Qed.

Lemma detectCycles_honest (workOrders : list WorkOrder) (graph : Graph)
    (err : ValidationError) :
  buildDependencyGraph workOrders = Ok graph ->
  detectCycles graph = Ok (Some err) ->
  type err = CIRCULAR_DEPENDENCY
  /\ NoDup (workOrderIds err)
  /\ exists x, In x (workOrderIds err)
       /\ dependsOnChain workOrders x x
       /\ forall y, In y (workOrderIds err) ->
            y = x \/ dependsOnChain workOrders y x.
Proof.
  intros Hg Hd. unfold detectCycles in Hd.
  apply scanNodes_honest in Hd.
  - destruct Hd as [cyc [-> [x [Hx [Hxx Hall]]]]].
    destruct (buildDependencyGraph_edges _ _ Hg) as [Hdep _].
    split; [reflexivity |]. split; [apply NoDup_dedup |].
    exists x. simpl. repeat split.
    + apply In_dedup. auto.
    + now apply (reach_chain workOrders graph Hdep).
    + intros y Hy. apply In_dedup in Hy. destruct Hy as [Hy _].
      destruct (Hall y Hy) as [-> | Hr]; [now left | right].
      now apply (reach_chain workOrders graph Hdep).
  - intros k Hk. apply all_white_get in Hk. discriminate.
Qed.

(** X17. On the graph of a list of work orders the cycle search never
    throws.  An error it returns is of type CIRCULAR_DEPENDENCY and lists,
    each once, work orders of which one lies on a dependency cycle and the
    others depend on that one, directly or through others.  With distinct
    docIds it returns no error exactly when the work orders have no
    dependency cycle. *)
Theorem detectCycles_exact :
  forall (workOrders : list WorkOrder) (graph : Graph),
    buildDependencyGraph workOrders = Ok graph ->
    (detectCycles graph = Ok None
     \/ exists err,
          detectCycles graph = Ok (Some err)
          /\ type err = CIRCULAR_DEPENDENCY
          /\ NoDup (workOrderIds err)
          /\ exists x, In x (workOrderIds err)
               /\ dependsOnChain workOrders x x
               /\ forall y, In y (workOrderIds err) ->
                    y = x \/ dependsOnChain workOrders y x)
    /\ (NoDup (map docId workOrders) ->
        (detectCycles graph = Ok None <-> ~ hasCycle workOrders)).
Proof.
  intros workOrders graph Hg.
  pose proof (detectCycles_sound graph (buildDependencyGraph_wellFormed _ _ Hg))
    as Hsound.
  pose proof (detectCycles_honest workOrders graph) as Hhonest.
  destruct (detectCycles graph) as [[err|]|e]; [| | contradiction].
  - specialize (Hhonest err Hg eq_refl). split.
    + right. exists err. auto.
    + intros _. split; [discriminate |]. intros Hno. exfalso. apply Hno.
      destruct Hhonest as [_ [_ [x [_ [Hxx _]]]]]. now exists x.
  - split; [now left |]. intros Hnd. split; [| reflexivity].
    intros _ [a Hcycle]. apply (Hsound a).
    destruct (buildDependencyGraph_edges _ _ Hg) as [_ Hedge].
    now apply (chain_reach workOrders graph (Hedge Hnd)).
Qed.

Lemma detectCycles_exact_witness :
  exists graph,
    buildDependencyGraph (workOrders mutualInput) = Ok graph
    /\ exists err,
         detectCycles graph = Ok (Some err)
         /\ type err = CIRCULAR_DEPENDENCY
         /\ NoDup (workOrderIds err).
Proof.
  destruct (buildDependencyGraph (workOrders mutualInput)) as [graph|e] eqn:Hg;
    [| vm_compute in Hg; discriminate].
  exists graph. split; [reflexivity |].
  destruct (proj1 (detectCycles_exact (workOrders mutualInput) graph Hg))
    as [Hnone | [err [Hd [Ht [Hn _]]]]].
  - exfalso. revert Hnone. vm_compute in Hg. inversion Hg; subst graph.
    vm_compute. discriminate.
  - exists err. auto.
Defined.


(** ** When the topological sort succeeds *)

Lemma releaseChildren_ready (graph : Graph) (sorted' : list string) :
  forall (rest : list string) (inDegree : JsMap number) (queue : list string),
    (forall x node, map_get graph x = Some node ->
       map_get inDegree x
       = Some (Some (Z.of_nat (pendingParents sorted' node
                               + count_occ string_dec rest x)))) ->
    (forall x node, map_get graph x = Some node ->
       (pendingParents sorted' node + count_occ string_dec rest x = 0)%nat ->
       In x (sorted' ++ queue)) ->
    readyInv graph (snd (releaseChildren rest inDegree queue)) sorted'.
Proof.
  induction rest as [|c rest IH]; intros inDegree queue Hdeg Hready.
  - simpl. intros x node Hnode Hz. apply (Hready x node Hnode). simpl. lia.
  - assert (Hdeg' : forall x node, map_get graph x = Some node ->
              map_get (map_set inDegree c (decrement inDegree c)) x
              = Some (Some (Z.of_nat (pendingParents sorted' node
                                      + count_occ string_dec rest x)))).
    { intros x node Hnode. destruct (string_dec c x) as [-> | Hne].
      - rewrite map_get_set_eq. unfold decrement. rewrite (Hdeg x node Hnode).
        simpl. destruct (string_dec x x) as [_ | Hxx]; [| contradiction].
        repeat f_equal. lia.
      - rewrite map_get_set_ne by exact Hne. rewrite (Hdeg x node Hnode).
        simpl. destruct (string_dec c x) as [E | _]; [contradiction | reflexivity]. }
    assert (Hother : forall queue',
              (forall x, In x (sorted' ++ queue) -> In x (sorted' ++ queue')) ->
              (forall node, map_get graph c = Some node ->
                 (pendingParents sorted' node + count_occ string_dec rest c = 0)%nat ->
                 In c (sorted' ++ queue')) ->
              forall x node, map_get graph x = Some node ->
                (pendingParents sorted' node + count_occ string_dec rest x = 0)%nat ->
                In x (sorted' ++ queue')).
    { intros queue' Hsub Hc x node Hnode Hz.
      destruct (string_dec c x) as [<- | Hne]; [now apply (Hc node) |].
      apply Hsub. apply (Hready x node Hnode). simpl.
      destruct (string_dec c x) as [E | _]; [contradiction | exact Hz]. }
    simpl.
    destruct (decrement inDegree c) as [[|q|q]|] eqn:Hd.
    + apply IH; [exact Hdeg' |]. apply Hother.
      * intros x Hx. rewrite app_assoc. apply in_app_iff. now left.
      * intros node Hnode _. rewrite app_assoc. apply in_app_iff. right. now left.
    + apply IH; [exact Hdeg' |]. apply Hother; [auto |].
      intros node Hnode Hz. exfalso. unfold decrement in Hd.
      rewrite (Hdeg c node Hnode) in Hd. simpl in Hd.
      destruct (string_dec c c) as [_ | Hcc]; [| contradiction].
      inversion Hd. lia.
    + apply IH; [exact Hdeg' |]. apply Hother; [auto |].
      intros node Hnode Hz. exfalso. unfold decrement in Hd.
      rewrite (Hdeg c node Hnode) in Hd. simpl in Hd.
      destruct (string_dec c c) as [_ | Hcc]; [| contradiction].
      inversion Hd. lia.
    + apply IH; [exact Hdeg' |]. apply Hother; [auto |].
      intros node Hnode Hz. exfalso. unfold decrement in Hd.
      rewrite (Hdeg c node Hnode) in Hd. discriminate.
Qed.

(** When Kahn's loop ends, a node is sorted as soon as its parents are. *)
Lemma kahn_ready (graph : Graph) :
  mirrored graph ->
  forall (fuel : nat) (inDegree : JsMap number) (queue sorted result : list string),
    kahnInv graph inDegree queue sorted ->
    orderInv graph inDegree queue sorted ->
    readyInv graph queue sorted ->
    kahn fuel graph inDegree queue sorted = Ok result ->
    readyInv graph [] result.
Proof.
  intros Hmirror.
  induction fuel as [|fuel IH];
    intros inDegree queue sorted result Hinv Hord Hready Hk;
    (destruct queue as [|n queue]; simpl in Hk;
     [inversion Hk; subst; exact Hready |]);
    [discriminate |].
  destruct (map_get graph n) as [node|] eqn:Hnode; [| discriminate].
  destruct (releaseChildren (children node) inDegree queue)
    as [inDegree' queue'] eqn:Hrel.
  pose proof Hinv as [Hnd [Hdeg Hkeys]]. pose proof Hord as [Hpend [Hqueue Hfirst]].
  assert (Hfresh : ~ In n sorted).
  { intros Hin. apply NoDup_remove_2 in Hnd. apply Hnd. apply in_app_iff. now left. }
  assert (Hstart : forall x nodex, map_get graph x = Some nodex ->
            map_get inDegree x
            = Some (Some (Z.of_nat (pendingParents (sorted ++ [n]) nodex
                                    + count_occ string_dec (children node) x)))).
  { intros x nodex Hx. rewrite (Hpend x nodex Hx).
    rewrite (pendingParents_snoc sorted n nodex Hfresh).
    rewrite <- (Hmirror n x nodex Hx). unfold childrenOf. now rewrite Hnode. }
  apply (IH inDegree' queue' (sorted ++ [n]) result); [| | | exact Hk].
  - pose proof (releaseChildren_inv graph (sorted ++ [n]) (children node)
                  inDegree queue) as Hstep.
    rewrite Hrel in Hstep. apply Hstep. repeat split.
    + now rewrite <- app_assoc.
    + intros id Hin. apply Hdeg. now rewrite <- app_assoc in Hin.
    + exact Hkeys.
  - pose proof (releaseChildren_order graph (sorted ++ [n]) (children node)
                  inDegree queue Hstart) as Hstep.
    rewrite Hrel in Hstep. cbn [fst snd] in Hstep.
    destruct Hstep as [Hpend' Hqueue'].
    + intros x nodex Hx Hgx p Hp. apply in_app_iff. left.
      apply (Hqueue x nodex); [now right | exact Hgx | exact Hp].
    + repeat split; [exact Hpend' | exact Hqueue' |].
      apply parentsFirst_snoc; [exact Hfirst |].
      intros node' Hn' p Hp. simpl.
      apply (Hqueue n node'); [now left | exact Hn' | exact Hp].
  - pose proof (releaseChildren_ready graph (sorted ++ [n]) (children node)
                  inDegree queue Hstart) as Hstep.
    rewrite Hrel in Hstep. cbn [snd] in Hstep. apply Hstep.
    intros x nodex Hx Hz. rewrite <- app_assoc. simpl.
    apply (Hready x nodex Hx).
    rewrite (pendingParents_snoc sorted n nodex Hfresh).
    rewrite <- (Hmirror n x nodex Hx). unfold childrenOf. rewrite Hnode. exact Hz.
Qed.

Lemma readyInv_initial (graph : Graph) :
  NoDup (map_keys graph) ->
  readyInv graph (initialQueue (initialInDegree graph)) [].
Proof.
  intros Hnd x node Hnode Hz. simpl.
  unfold initialQueue. apply in_map_iff.
  exists (x, Some (Z.of_nat (List.length (parents node)))). split; [reflexivity |].
  apply filter_In. split.
  - apply map_get_Some_In. now apply initialInDegree_get.
  - simpl. unfold pendingParents in Hz.
    assert (E : List.length (parents node) = O).
    { rewrite <- Hz. f_equal.
      induction (parents node) as [|p ps IH]; simpl; [reflexivity | now f_equal]. }
    now rewrite E.
Qed.

(** *** A finite graph without cycles has no endless descent *)

Lemma NoDup_or_repeat (l : list string) :
  NoDup l \/ exists l1 y l2 l3, l = l1 ++ y :: l2 ++ y :: l3.
Proof.
  induction l as [|a l IH]; [left; constructor |].
  destruct IH as [Hnd | [l1 [y [l2 [l3 ->]]]]].
  - destruct (in_dec string_dec a l) as [Hin | Hnot].
    + right. apply in_split in Hin. destruct Hin as [m1 [m2 ->]].
      exists [], a, m1, m2. reflexivity.
    + left. now constructor.
  - right. exists (a :: l1), y, l2, l3. reflexivity.
Qed.

Lemma chained_tail (graph : Graph) (l1 l : list string) :
  chained graph (l1 ++ l) -> chained graph l.
Proof.
  induction l1 as [|a l1 IH]; simpl; [auto |].
  destruct (l1 ++ l) as [|b rest] eqn:E.
  - intros _. destruct l1; simpl in E; [subst l; exact I | discriminate].
  - intros [_ H]. now apply IH.
Qed.

Lemma chained_between (graph : Graph) (l2 : list string) :
  forall (y z : string) (l3 : list string),
    chained graph (y :: l2 ++ z :: l3) -> reach graph y z.
Proof.
  induction l2 as [|a l2 IH]; intros y z l3 H; simpl in H.
  - destruct H as [He _]. now apply reach_one.
  - destruct H as [He Hrest]. eapply reach_more; [exact He |].
    now apply (IH a z l3).
Qed.

Lemma chained_cons (graph : Graph) (x p : string) (l : list string) :
  edge graph x p -> chained graph (p :: l) -> chained graph (x :: p :: l).
Proof. intros He H. simpl. auto. Qed.

(** From a node of a set whose every member has a parent in the set,
    chains of any length start. *)
Lemma descent_chain (graph : Graph) (U : string -> Prop) :
  (forall x, U x -> exists p, edge graph x p /\ U p) ->
  forall (n : nat) (x : string), U x ->
    exists l, List.length l = n /\ chained graph (x :: l)
              /\ forall y, In y (x :: l) -> U y.
Proof.
  intros Hstep. induction n as [|n IH]; intros x Hx.
  - exists []. repeat split; auto. intros y [<- | []]. exact Hx.
  - destruct (Hstep x Hx) as [p [He Hp]].
    destruct (IH p Hp) as [l [Hlen [Hchain Hall]]].
    exists (p :: l). split; [| split].
    + simpl. now rewrite Hlen.
    + exact (chained_cons graph x p l He Hchain).
    + intros y [<- | Hy]; [exact Hx | now apply Hall].
Qed.

Lemma no_endless_descent (graph : Graph) (U : string -> Prop) :
  (forall x, U x -> In x (map_keys graph)) ->
  (forall x, U x -> exists p, edge graph x p /\ U p) ->
  (forall x, ~ reach graph x x) ->
  forall x, ~ U x.
Proof.
  intros Hkeys Hstep Hacyc x Hx.
  destruct (descent_chain graph U Hstep (List.length (map_keys graph)) x Hx)
    as [l [Hlen [Hchain Hall]]].
  destruct (NoDup_or_repeat (x :: l)) as [Hnd | [l1 [y [l2 [l3 E]]]]].
  - assert (Hincl : incl (x :: l) (map_keys graph)).
    { intros y Hy. apply Hkeys. now apply Hall. }
    pose proof (NoDup_incl_length Hnd Hincl) as Hle. simpl in Hle. lia.
  - rewrite E in Hchain. apply chained_tail in Hchain.
    apply (Hacyc y). now apply (chained_between graph l2 y y l3).
Qed.

(** On a graph without cycles Kahn's loop sorts every node. *)
Lemma kahn_complete (graph : Graph) (result : list string) :
  wellFormedGraph graph -> (forall x, ~ reach graph x x) ->
  readyInv graph [] result ->
  forall x, In x (map_keys graph) -> In x result.
Proof.
  intros Hwf Hacyc Hready x Hx.
  destruct (in_dec string_dec x result) as [Hin | Hout]; [exact Hin |].
  exfalso.
  apply (no_endless_descent graph
           (fun y => In y (map_keys graph) /\ ~ In y result)) with (x := x);
    [tauto | | exact Hacyc | tauto].
  intros y [Hy Hny].
  destruct (map_keys_In_get _ graph y Hy) as [node Hnode].
  destruct (pendingParents result node) as [|k] eqn:Hpend.
  - exfalso. apply Hny. specialize (Hready y node Hnode Hpend).
    now rewrite app_nil_r in Hready.
  - unfold pendingParents in Hpend.
    destruct (filter (fun p => negb (existsb (String.eqb p) result)) (parents node))
      as [|p ps] eqn:Hf; [discriminate |].
    assert (Hp : In p (filter (fun p => negb (existsb (String.eqb p) result))
                              (parents node))) by (rewrite Hf; now left).
    apply filter_In in Hp. destruct Hp as [Hp Hnot].
    assert (He : edge graph y p) by (now exists node).
    exists p. split; [exact He |]. split; [now apply (Hwf y p) |].
    intros Hin. apply existsb_eqb_In in Hin. rewrite Hin in Hnot. discriminate.
Qed.


Lemma allDependenciesExist_intro (workOrders : list WorkOrder) :
  (forall wo p, In wo workOrders -> In p (dependsOnWorkOrderIds (data wo)) ->
     In p (map docId workOrders)) ->
  allDependenciesExist workOrders = true.
Proof.
  intros Hex. unfold allDependenciesExist. apply forallb_forall. intros wo Hwo.
  apply forallb_forall. intros p Hp. apply existsb_exists.
  specialize (Hex wo p Hwo Hp). apply in_map_iff in Hex.
  destruct Hex as [w [Hid Hw]]. exists w. split; [exact Hw |].
  now apply String.eqb_eq.
Qed.

(** Without a dependency cycle the cycle search reports none. *)
Lemma detectCycles_none (l : list WorkOrder) (graph : Graph) :
  buildDependencyGraph l = Ok graph -> ~ hasCycle l ->
  detectCycles graph = Ok None /\ forall x, ~ reach graph x x.
Proof.
  intros Hg Hno.
  destruct (buildDependencyGraph_edges _ _ Hg) as [Hdep _].
  assert (Hacyc : forall x, ~ reach graph x x).
  { intros x Hr. apply Hno. exists x. now apply (reach_chain l graph Hdep). }
  split; [| exact Hacyc].
  pose proof (detectCycles_sound graph (buildDependencyGraph_wellFormed _ _ Hg))
    as Hsound.
  pose proof (detectCycles_honest l graph) as Hhonest.
  destruct (detectCycles graph) as [[err|]|e]; [| reflexivity | contradiction].
  exfalso. apply Hno.
  destruct (Hhonest err Hg eq_refl) as [_ [_ [x [_ [Hxx _]]]]]. now exists x.
Qed.

Lemma topologicalSort_sorts (l : list WorkOrder) :
  NoDup (map docId l) -> allDependenciesExist l = true -> ~ hasCycle l ->
  exists sorted, topologicalSort l = Ok sorted.
Proof.
  intros Hids Hdeps Hno. unfold topologicalSort.
  destruct (buildDependencyGraph_total l Hdeps) as [graph Hg]. rewrite Hg.
  cbn [bind].
  destruct (detectCycles_none l graph Hg Hno) as [Hd Hacyc]. rewrite Hd.
  cbn [bind].
  destruct (buildDependencyGraph_keys l graph Hg) as [Hnd [Hiff [_ [_ Hle]]]].
  destruct (kahn_total graph (S (List.length graph)) (initialInDegree graph)
              (initialQueue (initialInDegree graph)) []
              (kahnInv_initial graph Hnd)) as [sorted Hk].
  { unfold map_keys. rewrite length_map. simpl. lia. }
  rewrite Hk. cbn [bind].
  pose proof (kahn_ready graph (buildDependencyGraph_mirrored l graph Hids Hg)
                _ _ _ _ _ (kahnInv_initial graph Hnd) (orderInv_initial graph Hnd)
                (readyInv_initial graph Hnd) Hk) as Hready.
  pose proof (kahn_complete graph sorted
                (buildDependencyGraph_wellFormed l graph Hg) Hacyc Hready) as Hall.
  apply (kahn_inv graph _ _ _ _ _ (kahnInv_initial graph Hnd)) in Hk.
  destruct Hk as [Hs Hincl].
  assert (H1 : (List.length (map_keys graph) <= List.length sorted)%nat)
    by (apply NoDup_incl_length; assumption).
  assert (H2 : (List.length (map docId l) <= List.length (map_keys graph))%nat).
  { apply NoDup_incl_length; [exact Hids |]. intros k Hk. now apply Hiff. }
  assert (H3 : (List.length sorted <= List.length (map_keys graph))%nat)
    by (apply NoDup_incl_length; assumption).
  unfold map_keys in H1, H2, H3. rewrite length_map in H1, H2, H3.
  try rewrite length_map in H2.
  assert (E : List.length sorted = List.length l).
  { clear - H1 H2 H3 Hle. unfold WorkOrder, Graph, JsMap in *. lia. }
  rewrite E, Nat.eqb_refl.
  apply resolveAll_total. intros id Hid. apply Hiff. auto.
Qed.

Lemma topologicalSort_duplicates (l : list WorkOrder) :
  allDependenciesExist l = true -> ~ hasCycle l -> ~ NoDup (map docId l) ->
  topologicalSort l = Throw TopologicalSortFailed.
Proof.
  intros Hdeps Hno Hdup. unfold topologicalSort.
  destruct (buildDependencyGraph_total l Hdeps) as [graph Hg]. rewrite Hg.
  cbn [bind].
  destruct (detectCycles_none l graph Hg Hno) as [Hd _]. rewrite Hd.
  cbn [bind].
  destruct (buildDependencyGraph_keys l graph Hg) as [Hnd [_ [_ [Hlen Hle]]]].
  destruct (kahn_total graph (S (List.length graph)) (initialInDegree graph)
              (initialQueue (initialInDegree graph)) []
              (kahnInv_initial graph Hnd)) as [sorted Hk].
  { unfold map_keys. rewrite length_map. simpl. lia. }
  rewrite Hk. cbn [bind].
  apply (kahn_inv graph _ _ _ _ _ (kahnInv_initial graph Hnd)) in Hk.
  destruct Hk as [Hs Hincl].
  pose proof (NoDup_incl_length Hs Hincl) as Hl.
  unfold map_keys in Hl. rewrite length_map in Hl.
  destruct (Nat.eqb (List.length sorted) (List.length l)) eqn:E; [| reflexivity].
  apply Nat.eqb_eq in E. exfalso. apply Hdup. apply Hlen. lia.
Qed.

(** X18. The topological sort returns an order exactly for the lists of
    work orders with distinct docIds whose dependencies all name work
    orders of the list and form no cycle.  When only the docIds fail to be
    distinct, the sort, and reflow with it, throws the error of a sort
    that came out short. *)
Theorem topologicalSort_succeeds_iff :
  forall input : ReflowInput,
    ((exists sorted, topologicalSort (workOrders input) = Ok sorted)
     <-> NoDup (map docId (workOrders input))
         /\ allDependenciesExist (workOrders input) = true
         /\ ~ hasCycle (workOrders input))
    /\ (allDependenciesExist (workOrders input) = true ->
        ~ hasCycle (workOrders input) ->
        ~ NoDup (map docId (workOrders input)) ->
        topologicalSort (workOrders input) = Throw TopologicalSortFailed
        /\ reflow input = Throw TopologicalSortFailed).
Proof.
  intros input. split; [split |].
  - intros [sorted Hsort].
    destruct (topologicalSort_Ok _ _ Hsort) as [Hids [_ Hex]].
    pose proof (allDependenciesExist_intro _ Hex) as Hdeps.
    split; [exact Hids |]. split; [exact Hdeps |].
    intros Hcycle.
    destruct (topologicalSort_cycle _ Hdeps Hcycle) as [e [He _]]. congruence.
  - intros [Hids [Hdeps Hno]]. now apply topologicalSort_sorts.
  - intros Hdeps Hno Hdup.
    pose proof (topologicalSort_duplicates _ Hdeps Hno Hdup) as Hsort.
    split; [exact Hsort |].
    unfold reflow, reflowRun. cbn [workingCopies]. now rewrite Hsort.
Qed.

Lemma topologicalSort_succeeds_iff_witness :
  (NoDup (map docId (workOrders cascadeInput))
   /\ allDependenciesExist (workOrders cascadeInput) = true
   /\ ~ hasCycle (workOrders cascadeInput))
  /\ reflow twinInput = Throw TopologicalSortFailed.
Proof.
  split.
  - apply (proj1 (proj1 (topologicalSort_succeeds_iff cascadeInput))).
    exists [0%nat; 1%nat]. vm_compute. reflexivity.
  - apply (proj2 (topologicalSort_succeeds_iff twinInput)).
    + vm_compute. reflexivity.
    + intros [a Hc]. inversion Hc as [x y [wo [[<- | [<- | []]] [_ []]]]
                                     | x y z [wo [[<- | [<- | []]] [_ []]]] _].
    + intros Hnd. inversion Hnd as [| x xs Hx _]. apply Hx. now left.
Defined.


(** ** Elapsed time and working time *)

Lemma workingMs_steps (shifts : list Shift) (a : Z) (n : nat) :
  workingMs shifts a (a + Z.of_nat n) <= Z.of_nat n
  /\ ((forall t, a <= t < a + Z.of_nat n -> isWorking shifts t = true) ->
      workingMs shifts a (a + Z.of_nat n) = Z.of_nat n).
Proof.
  induction n as [|n [IHle IHall]].
  - simpl. rewrite Z.add_0_r. rewrite workingMs_reversed by lia. split; [lia | auto].
  - rewrite Nat2Z.inj_succ. unfold Z.succ.
    rewrite (workingMs_add shifts a (a + Z.of_nat n)) by lia.
    replace (a + (Z.of_nat n + 1)) with (a + Z.of_nat n + 1) by lia.
    rewrite workingMs_instant. split.
    + destruct (isWorking shifts (a + Z.of_nat n)); lia.
    + intros Hall. rewrite IHall by (intros t Ht; apply Hall; lia).
      rewrite (Hall (a + Z.of_nat n)) by lia. reflexivity.
Qed.

(** Working time is at most the time that goes by. *)
Lemma workingMs_le (shifts : list Shift) (a b : Z) :
  a <= b -> workingMs shifts a b <= b - a.
Proof.
  intros H. destruct (workingMs_steps shifts a (Z.to_nat (b - a))) as [Hle _].
  rewrite Z2Nat.id in Hle by lia. now replace (a + (b - a)) with b in Hle by lia.
Qed.

Lemma workingMs_all (shifts : list Shift) (a b : Z) :
  a <= b -> (forall t, a <= t < b -> isWorking shifts t = true) ->
  workingMs shifts a b = b - a.
Proof.
  intros H Hall. destruct (workingMs_steps shifts a (Z.to_nat (b - a))) as [_ Heq].
  rewrite Z2Nat.id in Heq by lia. replace (a + (b - a)) with b in Heq by lia.
  now apply Heq.
Qed.

(** X19. For shifts whose hours lie within the day, a start on a whole
    minute and a whole duration: the end that [calculateEndDateWithShifts]
    returns is at least the duration after the start, so that
    [calculateDelayMinutes] from the start to that end, when it is a
    number, is at least the duration.  When every instant from the start
    on is working time for the whole duration, and the duration is within
    what the loop can place, the end is exactly the duration after the
    start. *)
Theorem calculateEndDateWithShifts_elapsed :
  forall (s : string) (d : Z) (shifts : list Shift) (start : Z),
    shiftsWithinDay shifts = true ->
    isSafeDuration d ->
    fromISO s = Some start ->
    onWholeMinute start ->
    (forall m,
       calculateEndDateWithShifts s d shifts = Ok m ->
       exists e,
         m = toISO e /\ start + d * msPerMinute <= e
         /\ forall delay, calculateDelayMinutes s m = Some delay -> d <= delay)
    /\ ((forall t, start <= t < start + d * msPerMinute ->
           isWorking shifts t = true) ->
        d * msPerMinute <= 71 * weeklyWorkMs shifts ->
        calculateEndDateWithShifts s d shifts
        = Ok (toISO (start + d * msPerMinute))).
Proof.
  intros s d shifts start Hmid Hsafe Hs Hwhole.
  assert (Hd : 0 <= d) by (unfold isSafeDuration in Hsafe; lia).
  split.
  - intros m Hm.
    destruct (calculateEndDateWithShifts_Ok_inv _ _ _ _ _ Hmid Hs Hwhole Hsafe Hm)
      as [e [He [Hle [Hwhole_e [Hw _]]]]].
    pose proof (workingMs_le shifts start e Hle) as Hwork.
    exists e. split; [exact He |]. split; [lia |].
    intros delay Hdelay. unfold calculateDelayMinutes in Hdelay.
    rewrite Hs in Hdelay.
    destruct (fromISO m) as [t|] eqn:Ht; [| discriminate].
    pose proof (fromISO_bounds _ _ Ht) as Hrange.
    pose proof (fromISO_bounds _ _ Hs) as Hrange0.
    rewrite He in Ht. apply fromISO_toISO_inv in Ht. subst t.
    pose proof (onWholeMinute_diff e start Hwhole_e Hwhole) as Hdiff.
    rewrite (diffMinutes_whole e start _ Hdiff) in Hdelay
      by (unfold inFourDigitYears, Double.maxExactInteger, msPerMinute in *;
          change (2 ^ 53) with 9007199254740992;
          pose proof (Z.div_mod (e - start) 60000 ltac:(discriminate));
          pose proof (Z.mod_pos_bound (e - start) 60000 ltac:(lia)); lia).
    rewrite Double_mathRound_integer in Hdelay. inversion Hdelay.
    unfold msPerMinute in *.
    pose proof (Z.div_mod (e - start) 60000 ltac:(discriminate)).
    pose proof (Z.mod_pos_bound (e - start) 60000 ltac:(lia)). lia.
  - intros Hall Hfits.
    rewrite (calculateEndDateWithShifts_exact s start d shifts Hmid Hs Hwhole Hsafe).
    destruct (exactWalk_returns shifts start (d * msPerMinute) Hmid Hfits)
      as [e He].
    rewrite He. cbn [bind].
    destruct (exactWalk_spec shifts Hmid _ _ _ _ He) as [Hle [Hw Hfirst]].
    rewrite Z.max_r in Hw by (unfold msPerMinute; lia).
    assert (Hd' : 0 <= d * msPerMinute) by (unfold msPerMinute; lia).
    do 2 f_equal.
    destruct (Z_lt_ge_dec e (start + d * msPerMinute)) as [Hlt | Hge].
    + rewrite (workingMs_all shifts start e Hle) in Hw
        by (intros t Ht; apply Hall; lia).
      lia.
    + destruct (Z.eq_dec e (start + d * msPerMinute)) as [E | Hne]; [exact E |].
      exfalso. specialize (Hfirst (start + d * msPerMinute) ltac:(lia)).
      rewrite (workingMs_all shifts start (start + d * msPerMinute)) in Hfirst
        by (auto; lia).
      lia.
Qed.

Lemma calculateEndDateWithShifts_elapsed_witness :
  exists e,
    "2026-02-11T09:00:00.000Z" = toISO e
    /\ 1770739200000 + 120 * msPerMinute <= e
    /\ forall delay,
         calculateDelayMinutes "2026-02-10T16:00:00.000Z" "2026-02-11T09:00:00.000Z"
         = Some delay -> 120 <= delay.
Proof.
  apply (proj1 (calculateEndDateWithShifts_elapsed
                  "2026-02-10T16:00:00.000Z" 120 weekShifts 1770739200000
                  eq_refl ltac:(unfold isSafeDuration; vm_compute; split; discriminate)
                  eq_refl eq_refl)).
  reflexivity.
Defined.


(** ** The depths of the dependency graph *)

Lemma setDepth_get_ne (g : Graph) (x k : string) (d : Z) :
  k <> x -> map_get (setDepth g x d) k = map_get g k.
Proof.
  intros Hne. unfold setDepth. destruct (map_get g x) as [node|]; [| reflexivity].
  apply map_get_set_ne. congruence.
Qed.

Lemma setDepth_get_eq (g : Graph) (x : string) (d : Z) (node : DependencyNode) :
  map_get g x = Some node ->
  map_get (setDepth g x d) x
  = Some {| nodeWorkOrderId := nodeWorkOrderId node;
            parents := parents node;
            children := children node;
            depth := d |}.
Proof. intros H. unfold setDepth. rewrite H. apply map_get_set_eq. Qed.

Lemma setDepth_depthOf_ne (g : Graph) (x k : string) (d : Z) :
  k <> x -> depthOf (setDepth g x d) k = depthOf g k.
Proof. intros H. unfold depthOf. now rewrite setDepth_get_ne. Qed.

Lemma sameShape_refl (g : Graph) : sameShape g g.
Proof. split; [reflexivity |]. intros k node H. exists node. auto. Qed.

Lemma sameShape_setDepth (g0 g : Graph) (x : string) (d : Z) :
  sameShape g0 g -> sameShape g0 (setDepth g x d).
Proof.
  intros [Hk Hn]. unfold setDepth.
  destruct (map_get g x) as [node|] eqn:Hx; [| now split].
  split.
  - rewrite map_keys_set_present; [exact Hk |]. eapply map_get_Some_keys; eauto.
  - intros k node0 H0. destruct (Hn k node0 H0) as [node' [Hg [Hi [Hp Hc]]]].
    destruct (string_dec x k) as [-> | Hne].
    + rewrite map_get_set_eq. eexists. split; [reflexivity |].
      rewrite Hx in Hg. inversion Hg; subst node'. simpl. auto.
    + rewrite map_get_set_ne by exact Hne. exists node'. auto.
Qed.

Lemma sameShape_get (g0 g : Graph) (x : string) :
  sameShape g0 g -> In x (map_keys g0) ->
  exists node0 node, map_get g0 x = Some node0 /\ map_get g x = Some node
                     /\ parents node = parents node0.
Proof.
  intros [_ Hn] Hx. destruct (map_keys_In_get _ g0 x Hx) as [node0 H0].
  destruct (Hn x node0 H0) as [node [Hg [_ [Hp _]]]]. exists node0, node. auto.
Qed.

(** The rule reads the depths of the parents only. *)
Lemma depthRule_frame (g g' : Graph) (node : DependencyNode) :
  (forall p, In p (parents node) -> depthOf g' p = depthOf g p) ->
  depthRule g node -> depthRule g' node.
Proof.
  unfold depthRule. intros H Hr. rewrite Hr.
  destruct (parents node) as [|p ps]; [reflexivity |].
  rewrite (H p) by now left. do 2 f_equal.
  apply map_ext_in. intros q Hq. symmetry. apply H. now right.
Qed.

(** What is done stays done when only nodes that were not visited are
    written to. *)
Lemma depthsDone_frame (P P' visited visited' : list string) (g g' : Graph) :
  depthsDone P visited g ->
  (forall k, In k visited -> map_get g' k = map_get g k) ->
  incl visited visited' ->
  (forall v, In v P -> In v P') ->
  (forall v, In v P' -> In v P \/ ~ In v visited) ->
  forall v, In v visited ->
    In v P'
    \/ exists node, map_get g' v = Some node
         /\ depthRule g' node
         /\ forall p, In p (parents node) -> In p visited' /\ ~ In p P'.
Proof.
  intros Hdone Hsame Hincl HP HP' v Hv.
  destruct (Hdone v Hv) as [HvP | [node [Hnode [Hrule Hpar]]]]; [left; auto |].
  right. exists node. split; [now rewrite Hsame |]. split.
  - apply (depthRule_frame g); [| exact Hrule].
    intros p Hp. unfold depthOf. rewrite Hsame; [reflexivity |].
    now apply Hpar.
  - intros p Hp. destruct (Hpar p Hp) as [Hpv HpP]. split; [auto |].
    intros Hin. destruct (HP' p Hin); contradiction.
Qed.

Lemma NoDup_app_disjoint {A : Type} (l l' : list A) (x : A) :
  NoDup (l ++ l') -> In x l -> ~ In x l'.
Proof.
  induction l as [|a l IH]; simpl; intros Hnd Hx; [destruct Hx |].
  inversion Hnd as [|? ? Ha Hnd']; subst. destruct Hx as [<- | Hx].
  - intros Hin. apply Ha. apply in_app_iff. now right.
  - now apply IH.
Qed.

Lemma not_visited_room (keys visited : list string) (x : string) (fuel : nat) :
  NoDup visited -> incl visited keys -> In x keys -> ~ In x visited ->
  (List.length keys <= fuel + List.length visited)%nat ->
  exists fuel', fuel = S fuel'
    /\ (List.length keys <= fuel' + List.length (visited ++ [x]))%nat.
Proof.
  intros Hnd Hincl Hx Hnot Hlen.
  assert (Hnd' : NoDup (x :: visited)) by now constructor.
  assert (Hincl' : incl (x :: visited) keys) by (intros y [<- | Hy]; auto).
  pose proof (NoDup_incl_length Hnd' Hincl') as Hle. simpl in Hle.
  destruct fuel as [|fuel']; [lia |].
  exists fuel'. split; [reflexivity |]. rewrite length_app. simpl. lia.
Qed.

Lemma mapDepths_spec (g0 : Graph) (fuel : nat)
    (recur : string -> list string -> Graph -> result (Z * (list string * Graph))) :
  (forall p visited g,
     In p (map_keys g0) -> sameShape g0 g -> NoDup visited ->
     incl visited (map_keys g0) ->
     (List.length (map_keys g0) <= fuel + List.length visited)%nat ->
     depthSpec g0 p visited g (recur p visited g)) ->
  forall ps visited g,
    (forall p, In p ps -> In p (map_keys g0)) ->
    sameShape g0 g -> NoDup visited -> incl visited (map_keys g0) ->
    (List.length (map_keys g0) <= fuel + List.length visited)%nat ->
    mapDepthsSpec g0 ps visited g (mapDepths recur ps visited g).
Proof.
  intros Hrec. induction ps as [|p ps IH]; intros visited g Hps Hshape Hnd Hincl Hlen.
  - exists [], [], g. rewrite app_nil_r. simpl.
    split; [reflexivity |]. split; [exact Hnd |]. split; [exact Hincl |].
    split; [intros p [] |]. split; [exact Hshape |]. split; [reflexivity |].
    split; [reflexivity |]. intros P _ _ Hdone. exact Hdone.
  - destruct (Hrec p visited g (Hps p (or_introl eq_refl)) Hshape Hnd Hincl Hlen)
      as [d [extra1 [g1 [Hout [Hnd1 [Hincl1 [Hp1 [Hshape1 [Hframe1 [Hd Hdone1]]]]]]]]]].
    assert (Hlen1 : (List.length (map_keys g0)
                     <= fuel + List.length (visited ++ extra1))%nat)
      by (rewrite length_app; lia).
    destruct (IH (visited ++ extra1) g1 (fun q Hq => Hps q (or_intror Hq))
                Hshape1 Hnd1 Hincl1 Hlen1)
      as [ds [extra2 [g2 [Hout2 [Hnd2 [Hincl2 [Hp2 [Hshape2 [Hframe2 [Hds Hdone2]]]]]]]]]].
    exists (d :: ds), (extra1 ++ extra2), g2.
    rewrite app_assoc. simpl. rewrite Hout. cbn [bind]. rewrite Hout2. cbn [bind].
    split; [reflexivity |]. split; [exact Hnd2 |]. split; [exact Hincl2 |].
    split; [| split; [exact Hshape2 | split; [| split]]].
    + intros q [<- | Hq]; [| now apply Hp2]. apply in_app_iff. now left.
    + intros k Hk. rewrite Hframe2, Hframe1; [reflexivity | |];
        intros Hin; apply Hk; apply in_app_iff; auto.
    + f_equal; [| exact Hds]. rewrite Hd. unfold depthOf. rewrite Hframe2; [reflexivity |].
      exact (NoDup_app_disjoint _ _ p Hnd2 Hp1).
    + intros P Hacyc Hreach Hdone.
      apply (Hdone2 P Hacyc); [intros y q Hy Hq; apply Hreach; auto; now right |].
      apply (Hdone1 P Hacyc); [intros y Hy; apply Hreach; auto; now left | exact Hdone].
Qed.


Lemma calculateDepth_visited (fuel : nat) (x : string) (visited : list string)
    (g : Graph) :
  existsb (String.eqb x) visited = true ->
  calculateDepth fuel x visited g
  = match map_get g x with
    | None => Throw TypeError
    | Some node => Ok (depth node, (visited, g))
    end.
Proof. intros H. destruct fuel; simpl; now rewrite H. Qed.

Lemma mapDepths_cons_inv
    (recur : string -> list string -> Graph -> result (Z * (list string * Graph)))
    (p : string) (ps : list string) (v : list string) (g : Graph)
    (ds : list Z) (st : list string * Graph) :
  mapDepths recur (p :: ps) v g = Ok (ds, st) ->
  exists d v1 g1 ds',
    recur p v g = Ok (d, (v1, g1))
    /\ mapDepths recur ps v1 g1 = Ok (ds', st)
    /\ ds = d :: ds'.
Proof.
  simpl. destruct (recur p v g) as [[d [v1 g1]]|e] eqn:H1; cbn [bind];
    [| discriminate].
  destruct (mapDepths recur ps v1 g1) as [[ds' [v2 g2]]|e] eqn:H2; cbn [bind];
    [| discriminate].
  intros H. inversion H; subst. exists d, v1, g1, ds'. repeat split. exact H2.
Qed.

Lemma calculateDepth_spec (g0 : Graph) :
  wellFormedGraph g0 ->
  forall fuel x visited g,
    In x (map_keys g0) -> sameShape g0 g -> NoDup visited ->
    incl visited (map_keys g0) ->
    (List.length (map_keys g0) <= fuel + List.length visited)%nat ->
    depthSpec g0 x visited g (calculateDepth fuel x visited g).
Proof.
  intros Hwf.
  assert (Hseen : forall fuel x visited g,
            In x (map_keys g0) -> sameShape g0 g -> NoDup visited ->
            incl visited (map_keys g0) ->
            existsb (String.eqb x) visited = true ->
            depthSpec g0 x visited g (calculateDepth fuel x visited g)).
  { intros fuel x visited g Hx Hshape Hnd Hincl Hv.
    rewrite (calculateDepth_visited fuel x visited g Hv).
    destruct (sameShape_get g0 g x Hshape Hx) as [node0 [node [H0 [Hg Hpar]]]].
    rewrite Hg. exists (depth node), [], g. rewrite app_nil_r.
    split; [reflexivity |]. split; [exact Hnd |]. split; [exact Hincl |].
    split; [now apply existsb_eqb_In |]. split; [exact Hshape |].
    split; [reflexivity |]. split; [unfold depthOf; now rewrite Hg |].
    intros P _ _ Hdone. exact Hdone. }
  induction fuel as [|fuel IH]; intros x visited g Hx Hshape Hnd Hincl Hlen;
    destruct (existsb (String.eqb x) visited) eqn:Hv;
    try (now apply Hseen).
  - exfalso. assert (Hnot : ~ In x visited).
    { intros Hin. apply existsb_eqb_In in Hin. congruence. }
    destruct (not_visited_room _ _ x 0%nat Hnd Hincl Hx Hnot Hlen) as [f [Hf _]].
    discriminate.
  - assert (Hnot : ~ In x visited).
    { intros Hin. apply existsb_eqb_In in Hin. congruence. }
    destruct (not_visited_room _ _ x (S fuel) Hnd Hincl Hx Hnot Hlen)
      as [f [Hf Hlen1]].
    inversion Hf; subst f. clear Hf.
    assert (Hnd1 : NoDup (visited ++ [x])) by now apply NoDup_snoc.
    assert (Hincl1 : incl (visited ++ [x]) (map_keys g0)).
    { intros y Hy. apply in_app_iff in Hy. destruct Hy as [Hy | [<- | []]]; auto. }
    destruct (sameShape_get g0 g x Hshape Hx) as [node0 [node [H0 [Hg Hpar]]]].
    simpl. rewrite Hv, Hg.
    destruct (parents node) as [|p ps] eqn:Hps.
    + (* no parents *)
      exists 0, [x], (setDepth g x 0).
      split; [reflexivity |]. split; [exact Hnd1 |]. split; [exact Hincl1 |].
      split; [apply in_app_iff; right; now left |].
      split; [now apply sameShape_setDepth |].
      split; [intros k Hk; apply setDepth_get_ne; intros ->; apply Hk; now left |].
      split; [unfold depthOf; now rewrite (setDepth_get_eq g x 0 node Hg) |].
      intros P _ _ Hdone v Hv'. apply in_app_iff in Hv'.
      destruct Hv' as [Hv' | [<- | []]].
      * apply (depthsDone_frame P P visited (visited ++ [x]) g (setDepth g x 0) Hdone);
          auto.
        -- intros k Hk. apply setDepth_get_ne. congruence.
        -- intros y Hy. apply in_app_iff. now left.
      * right. eexists. split; [apply (setDepth_get_eq g x 0 node Hg) |].
        split; [unfold depthRule; simpl; now rewrite Hps |].
        simpl. rewrite Hps. intros q [].
    + (* parents *)
      assert (Hedge : forall q, In q (p :: ps) -> edge g0 x q).
      { intros q Hq. exists node0. split; [exact H0 |]. now rewrite <- Hpar. }
      destruct (mapDepths_spec g0 fuel (calculateDepth fuel) IH (p :: ps)
                  (visited ++ [x]) g)
        as [ds [extra [g2 [Hout [Hnd2 [Hincl2 [Hps2 [Hshape2 [Hframe2 [Hds Hdone2]]]]]]]]]];
        auto.
      { intros q Hq. apply (Hwf x q). auto. }
      destruct (mapDepths_cons_inv _ _ _ _ _ _ _ Hout)
        as [d [v1 [g1 [ds' [Hcall [Hrest Hcons]]]]]].
      rewrite Hcall. cbn [bind]. rewrite Hrest. cbn [bind].
      rewrite <- app_assoc in *. simpl in Hnd2, Hincl2, Hps2, Hdone2 |- *.
      assert (Hx2 : exists node2, map_get g2 x = Some node2
                                  /\ parents node2 = p :: ps).
      { destruct Hshape2 as [_ Hn2]. destruct (Hn2 x node0 H0) as [n2 [Hn [_ [Hp2 _]]]].
        exists n2. split; [exact Hn |]. now rewrite Hp2, <- Hpar. }
      destruct Hx2 as [node2 [Hg2 Hpar2]].
      exists (maxOf d ds' + 1), (x :: extra), (setDepth g2 x (maxOf d ds' + 1)).
      split; [reflexivity |]. split; [exact Hnd2 |]. split; [exact Hincl2 |].
      split; [apply in_app_iff; right; now left |].
      split; [now apply sameShape_setDepth |].
      split.
      { intros k Hk. rewrite setDepth_get_ne by (intros ->; apply Hk; now left).
        apply Hframe2. intros Hin. apply Hk. now right. }
      split; [unfold depthOf; now rewrite (setDepth_get_eq g2 x _ node2 Hg2) |].
      intros P Hacyc Hreach Hdone.
      assert (Hself : forall q, In q (p :: ps) -> q <> x).
      { intros q Hq ->. apply (Hacyc x). apply reach_one. auto. }
      assert (HnotP : forall q, In q (p :: ps) -> ~ In q P).
      { intros q Hq Hin. apply (Hacyc q).
        apply (reach_trans g0 q x q); [now apply Hreach |].
        apply reach_one. auto. }
      assert (Hstart : depthsDone (x :: P) (visited ++ [x]) g).
      { intros v Hv'. apply in_app_iff in Hv'.
        destruct Hv' as [Hv' | [<- | []]]; [| left; now left].
        apply (depthsDone_frame P (x :: P) visited (visited ++ [x]) g g Hdone); auto.
        - intros y Hy. apply in_app_iff. now left.
        - intros y Hy. now right.
        - intros y [<- | Hy]; auto. }
      specialize (Hdone2 (x :: P) Hacyc).
      assert (Hin2 : depthsDone (x :: P) (visited ++ x :: extra) g2).
      { apply Hdone2; [| exact Hstart].
        intros y q [<- | Hy] Hq; [apply reach_one; auto |].
        apply (reach_trans g0 y x q); [now apply Hreach |].
        apply reach_one. auto. }
      intros v Hv'. destruct (string_dec v x) as [-> | Hne].
      * right. eexists. split; [apply (setDepth_get_eq g2 x _ node2 Hg2) |].
        split.
        -- unfold depthRule. simpl. rewrite Hpar2.
           rewrite setDepth_depthOf_ne by (apply Hself; now left).
           rewrite Hcons in Hds. simpl in Hds. inversion Hds as [[Hd Hds']].
           rewrite <- Hd. do 2 f_equal.
           rewrite <- Hds'. rewrite Hds' at 1. apply map_ext_in.
           intros q Hq. symmetry. apply setDepth_depthOf_ne. apply Hself. now right.
        -- simpl. rewrite Hpar2. intros q Hq. split; [now apply Hps2 | now apply HnotP].
      * destruct (Hin2 v Hv') as [[Hvx | HvP] | [node' [Hnode' [Hrule Hpar']]]].
        -- congruence.
        -- now left.
        -- right. exists node'.
           split; [now rewrite setDepth_get_ne |]. split.
           ++ apply (depthRule_frame g2); [| exact Hrule].
              intros q Hq. apply setDepth_depthOf_ne.
              destruct (Hpar' q Hq) as [_ Hq']. intros ->. apply Hq'. now left.
           ++ intros q Hq. destruct (Hpar' q Hq) as [Hq1 Hq2].
              split; [exact Hq1 |]. intros Hin. apply Hq2. now right.
Qed.


Lemma depthsFrom_spec (g0 : Graph) :
  wellFormedGraph g0 ->
  forall nodeIds visited g,
    (forall k, In k nodeIds -> In k (map_keys g0)) ->
    sameShape g0 g -> NoDup visited -> incl visited (map_keys g0) ->
    exists visited' g',
      depthsFrom (List.length g0) nodeIds visited g = Ok (visited', g')
      /\ sameShape g0 g'
      /\ (forall k, In k nodeIds \/ In k visited -> In k visited')
      /\ ((forall y, ~ reach g0 y y) ->
          depthsDone [] visited g -> depthsDone [] visited' g').
Proof.
  intros Hwf. induction nodeIds as [|x rest IH];
    intros visited g Hids Hshape Hnd Hincl.
  - exists visited, g. simpl. split; [reflexivity |]. split; [exact Hshape |].
    split; [intros k [[] | Hk]; exact Hk | auto].
  - simpl. destruct (existsb (String.eqb x) visited) eqn:Hv.
    + destruct (IH visited g (fun k Hk => Hids k (or_intror Hk)) Hshape Hnd Hincl)
        as [visited' [g' [Hout [Hshape' [Hall Hdone]]]]].
      exists visited', g'. split; [exact Hout |]. split; [exact Hshape' |].
      split; [| exact Hdone].
      intros k [[<- | Hk] | Hk]; apply Hall; auto.
      right. now apply existsb_eqb_In.
    + assert (Hlen : (List.length (map_keys g0)
                      <= List.length g0 + List.length visited)%nat).
      { unfold map_keys. rewrite length_map. lia. }
      destruct (calculateDepth_spec g0 Hwf (List.length g0) x visited g
                  (Hids x (or_introl eq_refl)) Hshape Hnd Hincl Hlen)
        as [d [extra [g1 [Hcall [Hnd1 [Hincl1 [Hx1 [Hshape1 [_ [_ Hdone1]]]]]]]]]].
      rewrite Hcall. cbn [bind fst snd].
      destruct (IH (visited ++ extra) g1 (fun k Hk => Hids k (or_intror Hk))
                  Hshape1 Hnd1 Hincl1)
        as [visited' [g' [Hout [Hshape' [Hall Hdone]]]]].
      exists visited', g'. split; [exact Hout |]. split; [exact Hshape' |].
      split.
      * intros k [[<- | Hk] | Hk]; apply Hall; auto.
        right. apply in_app_iff. now left.
      * intros Hacyc Hd. apply (Hdone Hacyc).
        apply (Hdone1 [] Hacyc); [intros y [] | exact Hd].
Qed.

(** [calculateDepths] on a graph whose parents are all nodes. *)
Lemma calculateDepths_spec (g0 : Graph) :
  wellFormedGraph g0 ->
  exists g', calculateDepths g0 = Ok g'
    /\ sameShape g0 g'
    /\ ((forall y, ~ reach g0 y y) ->
        forall k node, map_get g' k = Some node -> depthRule g' node).
Proof.
  intros Hwf. unfold calculateDepths.
  destruct (depthsFrom_spec g0 Hwf (map_keys g0) [] g0 (fun k Hk => Hk)
              (sameShape_refl g0) (NoDup_nil _) (fun k Hk => match Hk with end))
    as [visited' [g' [Hout [Hshape [Hall Hdone]]]]].
  rewrite Hout. cbn [bind snd]. exists g'. split; [reflexivity |].
  split; [exact Hshape |].
  intros Hacyc k node Hnode.
  assert (Hk : In k visited').
  { apply Hall. left. destruct Hshape as [Hkeys _]. rewrite <- Hkeys.
    eapply map_get_Some_keys; eauto. }
  destruct (Hdone Hacyc (fun v Hv => match Hv with end) k Hk)
    as [[] | [node' [Hnode' [Hrule _]]]].
  rewrite Hnode in Hnode'. inversion Hnode'; subst. exact Hrule.
Qed.

(** *** The depth is the length of the longest chain of dependencies *)

Lemma maxOf_ge (ds : list Z) :
  forall d, d <= maxOf d ds /\ forall x, In x ds -> x <= maxOf d ds.
Proof.
  unfold maxOf. induction ds as [|a ds IH]; intros d; simpl.
  - split; [lia | intros x []].
  - destruct (IH (Z.max d a)) as [H1 H2]. split; [lia |].
    intros x [<- | Hx]; [lia | auto].
Qed.

Lemma maxOf_In (ds : list Z) : forall d, maxOf d ds = d \/ In (maxOf d ds) ds.
Proof.
  unfold maxOf. induction ds as [|a ds IH]; intros d; simpl; [now left |].
  destruct (IH (Z.max d a)) as [H | H]; [| right; now right].
  rewrite H. destruct (Z.max_spec d a) as [[_ E] | [_ E]]; rewrite E; auto.
Qed.

Lemma sameShape_edge (g g' : Graph) (x p : string) :
  sameShape g g' -> (edge g x p <-> edge g' x p).
Proof.
  intros [Hkeys Hn]. split.
  - intros [node [Hnode Hp]]. destruct (Hn x node Hnode) as [node' [H' [_ [Hpar _]]]].
    exists node'. split; [exact H' | now rewrite Hpar].
  - intros [node' [Hnode' Hp]].
    assert (Hx : In x (map_keys g)).
    { rewrite <- Hkeys. eapply map_get_Some_keys; eauto. }
    destruct (map_keys_In_get _ g x Hx) as [node Hnode].
    destruct (Hn x node Hnode) as [node'' [H'' [_ [Hpar _]]]].
    rewrite Hnode' in H''. inversion H''; subst node''.
    exists node. split; [exact Hnode | now rewrite <- Hpar].
Qed.

Lemma sameShape_chained (g g' : Graph) (l : list string) :
  sameShape g g' -> (chained g l <-> chained g' l).
Proof.
  intros Hs. induction l as [|a [|b l] IH]; simpl; try tauto.
  rewrite (sameShape_edge g g' a b Hs). simpl in IH. tauto.
Qed.

Lemma edge_depth (g : Graph) (x p : string) :
  (forall k node, map_get g k = Some node -> depthRule g node) ->
  edge g x p -> depthOf g p < depthOf g x.
Proof.
  intros Hrule [node [Hnode Hp]]. specialize (Hrule x node Hnode).
  unfold depthRule in Hrule. unfold depthOf at 2. rewrite Hnode, Hrule.
  destruct (parents node) as [|q qs]; [destruct Hp |].
  destruct (maxOf_ge (map (depthOf g) qs) (depthOf g q)) as [H1 H2].
  destruct Hp as [<- | Hp]; [lia |].
  specialize (H2 (depthOf g p) (in_map _ _ _ Hp)). lia.
Qed.

(** A node of depth other than 0 has a parent one level below it. *)
Lemma parent_below (g : Graph) (x : string) (node : DependencyNode) :
  (forall k node, map_get g k = Some node -> depthRule g node) ->
  map_get g x = Some node -> depth node <> 0 ->
  exists p, edge g x p /\ depthOf g p = depth node - 1.
Proof.
  intros Hrule Hnode Hd. pose proof (Hrule x node Hnode) as Hr.
  unfold depthRule in Hr. destruct (parents node) as [|q qs] eqn:Hps; [lia |].
  destruct (maxOf_In (map (depthOf g) qs) (depthOf g q)) as [H | H].
  - exists q. split; [| lia]. exists node. rewrite Hps. split; [exact Hnode | now left].
  - apply in_map_iff in H. destruct H as [p [Hp Hin]].
    exists p. split; [| lia]. exists node. rewrite Hps. split; [exact Hnode | now right].
Qed.

Lemma depth_nonneg (g : Graph) :
  wellFormedGraph g -> (forall y, ~ reach g y y) ->
  (forall k node, map_get g k = Some node -> depthRule g node) ->
  forall k, In k (map_keys g) -> 0 <= depthOf g k.
Proof.
  intros Hwf Hacyc Hrule k Hk.
  destruct (Z_lt_ge_dec (depthOf g k) 0) as [Hneg | Hpos]; [| lia].
  exfalso.
  apply (no_endless_descent g (fun x => In x (map_keys g) /\ depthOf g x < 0))
    with (x := k); [tauto | | exact Hacyc | tauto].
  intros x [Hx Hlt]. destruct (map_keys_In_get _ g x Hx) as [node Hnode].
  assert (Hd : depthOf g x = depth node) by (unfold depthOf; now rewrite Hnode).
  destruct (parent_below g x node Hrule Hnode ltac:(lia)) as [p [He Hp]].
  exists p. split; [exact He |]. split; [now apply (Hwf x p) | lia].
Qed.

Lemma chain_bound (g : Graph) :
  wellFormedGraph g -> (forall y, ~ reach g y y) ->
  (forall k node, map_get g k = Some node -> depthRule g node) ->
  forall l k, In k (map_keys g) -> chained g (k :: l) ->
    Z.of_nat (List.length l) <= depthOf g k.
Proof.
  intros Hwf Hacyc Hrule. induction l as [|p l IH]; intros k Hk Hc.
  - simpl. now apply depth_nonneg.
  - destruct Hc as [He Hc]. pose proof (edge_depth g k p Hrule He) as Hlt.
    specialize (IH p (Hwf k p He) Hc).
    change (List.length (p :: l)) with (S (List.length l)). lia.
Qed.

Lemma chain_exists (g : Graph) :
  wellFormedGraph g -> (forall y, ~ reach g y y) ->
  (forall k node, map_get g k = Some node -> depthRule g node) ->
  forall n k, In k (map_keys g) -> depthOf g k = Z.of_nat n ->
    exists l, chained g (k :: l) /\ List.length l = n.
Proof.
  intros Hwf Hacyc Hrule. induction n as [|n IH]; intros k Hk Hd.
  - exists []. split; [exact I | reflexivity].
  - destruct (map_keys_In_get _ g k Hk) as [node Hnode].
    assert (Hdn : depthOf g k = depth node) by (unfold depthOf; now rewrite Hnode).
    destruct (parent_below g k node Hrule Hnode ltac:(lia)) as [p [He Hp]].
    destruct (IH p (Hwf k p He) ltac:(lia)) as [l [Hc Hl]].
    exists (p :: l). split; [| simpl; now rewrite Hl].
    now apply chained_cons.
Qed.


Lemma sameShape_reach (g g' : Graph) (x y : string) :
  sameShape g g' -> reach g' x y -> reach g x y.
Proof.
  intros Hs Hr. induction Hr as [x p He | x p y He Hr IH].
  - apply reach_one. now apply (sameShape_edge g g' x p Hs).
  - eapply reach_more; [apply (sameShape_edge g g' x p Hs); exact He | exact IH].
Qed.

(** X20. On the graph of a list of work orders [calculateDepths] returns
    and changes nothing but depths.  When the work orders have no
    dependency cycle, the depth it leaves in a node is 0 for a node without
    parents and otherwise one more than the largest depth of a parent; it
    is the length of the longest chain of dependencies that starts at the
    node. *)
Theorem calculateDepths_longest_chain :
  forall (workOrders : list WorkOrder) (graph : Graph),
    buildDependencyGraph workOrders = Ok graph ->
    exists graph',
      calculateDepths graph = Ok graph'
      /\ sameShape graph graph'
      /\ (~ hasCycle workOrders ->
          forall k node, map_get graph' k = Some node ->
            depthRule graph' node
            /\ (forall l, chained graph (k :: l) ->
                  Z.of_nat (List.length l) <= depth node)
            /\ exists l, chained graph (k :: l)
                         /\ Z.of_nat (List.length l) = depth node).
Proof.
  intros workOrders graph Hg.
  pose proof (buildDependencyGraph_wellFormed _ _ Hg) as Hwf.
  destruct (calculateDepths_spec graph Hwf) as [g' [Hout [Hshape Hrule]]].
  exists g'. split; [exact Hout |]. split; [exact Hshape |].
  intros Hno k node Hnode.
  destruct (detectCycles_none workOrders graph Hg Hno) as [_ Hacyc].
  specialize (Hrule Hacyc).
  assert (Hwf' : wellFormedGraph g').
  { intros x p He. destruct Hshape as [Hkeys Hn]. rewrite Hkeys.
    apply (Hwf x p). now apply (sameShape_edge graph g' x p (conj Hkeys Hn)). }
  assert (Hacyc' : forall y, ~ reach g' y y).
  { intros y Hr. apply (Hacyc y). now apply (sameShape_reach graph g'). }
  assert (Hk : In k (map_keys g')) by (eapply map_get_Some_keys; eauto).
  assert (Hd : depthOf g' k = depth node) by (unfold depthOf; now rewrite Hnode).
  split; [now apply (Hrule k) |]. split.
  - intros l Hc. rewrite <- Hd. apply (chain_bound g' Hwf' Hacyc' Hrule l k Hk).
    now apply (sameShape_chained graph g').
  - pose proof (depth_nonneg g' Hwf' Hacyc' Hrule k Hk) as Hpos.
    destruct (chain_exists g' Hwf' Hacyc' Hrule (Z.to_nat (depth node)) k Hk)
      as [l [Hc Hl]]; [lia |].
    exists l. split; [now apply (sameShape_chained graph g') | lia].
Qed.

Lemma calculateDepths_longest_chain_witness :
  exists graph graph',
    buildDependencyGraph (workOrders cascadeInput) = Ok graph
    /\ calculateDepths graph = Ok graph'
    /\ sameShape graph graph'
    /\ depthOf graph' "wo-2" = 1.
Proof.
  destruct (buildDependencyGraph (workOrders cascadeInput)) as [graph|e] eqn:Hg;
    [| vm_compute in Hg; discriminate].
  destruct (calculateDepths_longest_chain (workOrders cascadeInput) graph Hg)
    as [graph' [Hout [Hshape _]]].
  exists graph, graph'. split; [reflexivity |]. split; [exact Hout |].
  split; [exact Hshape |].
  vm_compute in Hg. inversion Hg; subst graph.
  vm_compute in Hout. inversion Hout; subst graph'. reflexivity.
Defined.


(** ** What the validator accepts *)

Lemma filter_cons_inv {A : Type} (p : A -> bool) (l : list A) :
  forall m1 a m2, filter p l = m1 ++ a :: m2 ->
    exists l1 l2, l = l1 ++ a :: l2 /\ filter p l1 = m1 /\ filter p l2 = m2
                  /\ p a = true.
Proof.
  induction l as [|x l IH]; intros m1 a m2 H; simpl in H.
  - destruct m1; discriminate.
  - destruct (p x) eqn:Hx.
    + destruct m1 as [|y m1]; simpl in H; inversion H as [[Hy Hrest]]; subst.
      * exists [], l. simpl. auto.
      * destruct (IH m1 a m2 Hrest) as [l1 [l2 [-> [H1 [H2 Ha]]]]].
        exists (y :: l1), l2. simpl. rewrite Hx, H1. auto.
    + destruct (IH m1 a m2 H) as [l1 [l2 [-> [H1 [H2 Ha]]]]].
      exists (x :: l1), l2. simpl. rewrite Hx. auto.
Qed.

Lemma filter_split_inv {A : Type} (p : A -> bool) (l m1 m2 m3 : list A) (a b : A) :
  filter p l = m1 ++ a :: m2 ++ b :: m3 ->
  exists l1 l2 l3, l = l1 ++ a :: l2 ++ b :: l3 /\ p a = true /\ p b = true.
Proof.
  intros H. destruct (filter_cons_inv p l m1 a (m2 ++ b :: m3) H)
    as [l1 [l' [-> [_ [H' Ha]]]]].
  destruct (filter_cons_inv p l' m2 b m3 H') as [l2 [l3 [-> [_ [_ Hb]]]]].
  exists l1, l2, l3. auto.
Qed.

Lemma conflictsIn_none (wcId : string) (orders : list WorkOrder) :
  (forall l1 a l2 b l3, orders = l1 ++ a :: l2 ++ b :: l3 ->
     overlapping a b = false) ->
  conflictsIn wcId orders = [].
Proof.
  induction orders as [|wo rest IH]; intros H; [reflexivity |]. simpl.
  rewrite IH.
  - rewrite app_nil_r. apply flat_map_nil. intros wo2 Hin.
    apply in_split in Hin. destruct Hin as [l2 [l3 ->]].
    now rewrite (H [] wo l2 wo2 l3 eq_refl).
  - intros l1 a l2 b l3 ->. apply (H (wo :: l1) a l2 b l3). reflexivity.
Qed.

Lemma groupByWorkCenter_keys (workOrders : list WorkOrder) :
  NoDup (map_keys (groupByWorkCenter workOrders)).
Proof.
  unfold groupByWorkCenter.
  assert (H : forall g0 : JsMap (list WorkOrder),
            NoDup (map_keys g0) -> NoDup (map_keys (fold_left addToGroup workOrders g0))).
  { induction workOrders as [|wo rest IH]; intros g0 H0; simpl; [exact H0 |].
    apply IH. unfold addToGroup.
    destruct (map_get g0 (workCenterId (data wo))); now apply map_keys_set_NoDup. }
  apply H. constructor.
Qed.

Lemma validateWorkCenterConflicts_none (workOrders : list WorkOrder) :
  (forall l1 a l2 b l3, workOrders = l1 ++ a :: l2 ++ b :: l3 ->
     workCenterId (data a) = workCenterId (data b) -> overlapping a b = false) ->
  validateWorkCenterConflicts workOrders = [].
Proof.
  intros H. unfold validateWorkCenterConflicts. apply flat_map_nil.
  intros [k orders] Hin. simpl.
  apply (NoDup_In_get _ _ _ (groupByWorkCenter_keys workOrders)) in Hin.
  pose proof (groupBy_fold workOrders [] k) as Hgroup.
  change (fold_left addToGroup workOrders []) with (groupByWorkCenter workOrders)
    in Hgroup.
  unfold groupOf in Hgroup at 1. rewrite Hin in Hgroup. simpl in Hgroup.
  apply conflictsIn_none. intros l1 a l2 b l3 Hsplit.
  rewrite Hgroup in Hsplit. apply filter_split_inv in Hsplit.
  destruct Hsplit as [w1 [w2 [w3 [Hw [Ha Hb]]]]].
  apply (H w1 a w2 b w3 Hw). unfold onWorkCenter in Ha, Hb.
  apply String.eqb_eq in Ha, Hb. congruence.
Qed.

Lemma validateDependencies_none (workOrders : list WorkOrder) :
  (forall child parent, In child workOrders -> In parent workOrders ->
     In (docId parent) (dependsOnWorkOrderIds (data child)) ->
     str_gt (endDate (data parent)) (startDate (data child)) = false) ->
  validateDependencies workOrders = [].
Proof.
  intros H. destruct (validateDependencies workOrders) as [|err errs] eqn:E;
    [reflexivity |].
  exfalso.
  assert (Hin : In err (validateDependencies workOrders)) by (rewrite E; now left).
  apply validateDependencies_spec in Hin.
  destruct Hin as [wo [id [parent [Hwo [Hid [Hget [Hgt _]]]]]]].
  apply workOrderMapOf_In in Hget. destruct Hget as [Hp Hpid]. subst id.
  rewrite (H wo parent Hwo Hp Hid) in Hgt. discriminate.
Qed.


(** X21. For work orders with distinct docIds, [validateAll] returns no
    error exactly when every dependency names a work order, there is no
    dependency cycle, no work order starts below the endDate of a parent
    in the order of the ISO strings, no two work orders of a work center
    overlap, and every work order is on a work center of the map that has
    shifts, starts within shift hours and overlaps no maintenance window.
    Whenever every dependency names a work order, it returns a list and
    does not throw. *)
Theorem validateAll_accepts_iff :
  forall (workOrders : list WorkOrder) (workCenters : list WorkCenter),
    NoDup (map docId workOrders) ->
    (validateAll workOrders workCenters = Ok []
     <-> allDependenciesExist workOrders = true
         /\ ~ hasCycle workOrders
         /\ (forall child parent,
               In child workOrders -> In parent workOrders ->
               In (docId parent) (dependsOnWorkOrderIds (data child)) ->
               str_gt (endDate (data parent)) (startDate (data child)) = false)
         /\ (forall l1 a l2 b l3,
               workOrders = l1 ++ a :: l2 ++ b :: l3 ->
               workCenterId (data a) = workCenterId (data b) ->
               timeRangesOverlap (startDate (data a)) (endDate (data a))
                                 (startDate (data b)) (endDate (data b)) = false)
         /\ (forall wo, In wo workOrders ->
               exists wc,
                 map_get (workCenterMapOf workCenters) (workCenterId (data wo))
                 = Some wc
                 /\ shifts (data wc) <> []
                 /\ isWithinShiftHours (startDate (data wo)) (shifts (data wc)) = true
                 /\ overlapsWithMaintenance (startDate (data wo)) (endDate (data wo))
                      (maintenanceWindows (data wc)) = false))
    /\ (allDependenciesExist workOrders = true ->
        exists errors, validateAll workOrders workCenters = Ok errors).
Proof.
  intros workOrders workCenters Hnd. split; [split |].
  - intros Hval. pose proof (validateAll_nil _ _ Hval) as [Hdeps [Hconf [Hshift Hmaint]]].
    unfold validateAll in Hval.
    apply bind_Ok_inv in Hval. destruct Hval as [graph [Hg Hval]].
    apply bind_Ok_inv in Hval. destruct Hval as [cycleError [Hc Hval]].
    destruct cycleError as [err|]; [discriminate |].
    destruct (buildDependencyGraph_keys _ _ Hg) as [_ [_ [Hex _]]].
    split; [now apply allDependenciesExist_intro |]. split.
    { intros [a Hcycle].
      pose proof (detectCycles_sound graph (buildDependencyGraph_wellFormed _ _ Hg))
        as Hsound.
      rewrite Hc in Hsound. apply (Hsound a).
      destruct (buildDependencyGraph_edges _ _ Hg) as [_ Hedge].
      now apply (chain_reach workOrders graph (Hedge Hnd)). }
    split.
    { intros child parent Hchild Hparent Hid.
      apply (validateDependencies_nil workOrders Hdeps child parent Hchild).
      apply In_definedOnly. exists (docId parent). split; [exact Hid |].
      now apply workOrderMapOf_get. }
    split.
    { intros l1 a l2 b l3 Hsplit Hwc.
      now destruct (validateWorkCenterConflicts_nil workOrders Hconf
                      l1 a l2 b l3 Hsplit Hwc). }
    intros wo Hwo.
    destruct (validateShiftBoundaries_nil _ _ Hshift wo Hwo) as [wc [Hget [Hs Hin]]].
    exists wc. repeat split; auto.
    now apply (validateMaintenanceWindows_nil _ _ Hmaint wo wc).
  - intros [Hdeps [Hno [Hpar [Hconf Hwc]]]]. unfold validateAll.
    destruct (buildDependencyGraph_total _ Hdeps) as [graph Hg]. rewrite Hg.
    cbn [bind].
    destruct (detectCycles_none _ _ Hg Hno) as [Hc _]. rewrite Hc. cbn [bind].
    rewrite (validateDependencies_none _ Hpar).
    rewrite (validateWorkCenterConflicts_none _ Hconf).
    assert (Hshift : validateShiftBoundaries workOrders workCenters = []).
    { unfold validateShiftBoundaries. apply flat_map_nil. intros wo Hwo.
      destruct (Hwc wo Hwo) as [wc [Hget [Hs [Hin _]]]]. simpl. rewrite Hget, Hin.
      destruct (shifts (data wc)); [contradiction | reflexivity]. }
    assert (Hmaint : validateMaintenanceWindows workOrders workCenters = []).
    { unfold validateMaintenanceWindows. apply flat_map_nil. intros wo Hwo.
      destruct (Hwc wo Hwo) as [wc [Hget [_ [_ Hm]]]]. simpl. now rewrite Hget, Hm. }
    now rewrite Hshift, Hmaint.
  - intros Hdeps. unfold validateAll.
    destruct (buildDependencyGraph_total _ Hdeps) as [graph Hg]. rewrite Hg.
    cbn [bind].
    pose proof (detectCycles_sound graph (buildDependencyGraph_wellFormed _ _ Hg))
      as Hsound.
    destruct (detectCycles graph) as [cycleError|e]; [| contradiction].
    cbn [bind]. eauto.
Qed.

Lemma validateAll_accepts_iff_witness :
  allDependenciesExist (updatedWorkOrders cascadeResult) = true
  /\ ~ hasCycle (updatedWorkOrders cascadeResult).
Proof.
  assert (Hnd : NoDup (map docId (updatedWorkOrders cascadeResult))).
  { vm_compute. constructor; [intros [H | []]; discriminate |].
    constructor; [intros [] | constructor]. }
  assert (Hval : validateAll (updatedWorkOrders cascadeResult) twoCenters = Ok [])
    by (vm_compute; reflexivity).
  destruct (proj1 (proj1 (validateAll_accepts_iff (updatedWorkOrders cascadeResult)
                            twoCenters Hnd)) Hval) as [H1 [H2 _]].
  split; assumption.
Defined.


(** ** Work orders without dependencies keep their order *)

Lemma map_set_absent {V : Type} (m : JsMap V) (k : string) (v : V) :
  ~ In k (map_keys m) -> map_set m k v = m ++ [(k, v)].
Proof.
  induction m as [|[k' v'] m IH]; simpl; intros H; [reflexivity |].
  destruct (String.eqb k' k) eqn:E.
  - apply String.eqb_eq in E. exfalso. apply H. now left.
  - rewrite IH; [reflexivity |]. intros Hin. apply H. now right.
Qed.

Lemma initial_graph_entries (workOrders : list WorkOrder) :
  forall g0 : Graph,
    NoDup (map_keys g0 ++ map docId workOrders) ->
    fold_left (fun g wo => map_set g (docId wo) (initialNode wo)) workOrders g0
    = g0 ++ map (fun wo => (docId wo, initialNode wo)) workOrders.
Proof.
  induction workOrders as [|wo rest IH]; intros g0 Hnd; simpl.
  - now rewrite app_nil_r.
  - assert (Hfresh : ~ In (docId wo) (map_keys g0)).
    { intros Hin. simpl in Hnd. apply NoDup_remove_2 in Hnd. apply Hnd.
      apply in_app_iff. now left. }
    rewrite (map_set_absent g0 (docId wo) (initialNode wo) Hfresh).
    rewrite IH; [now rewrite <- app_assoc |].
    unfold map_keys. rewrite map_app. simpl. rewrite <- app_assoc. exact Hnd.
Qed.

Lemma linkAll_no_parents (workOrders : list WorkOrder) (graph : Graph) :
  (forall wo, In wo workOrders -> dependsOnWorkOrderIds (data wo) = []) ->
  linkAll graph workOrders = Ok graph.
Proof.
  induction workOrders as [|wo rest IH]; intros H; simpl; [reflexivity |].
  rewrite (H wo) by now left. simpl. apply IH. intros w Hw. apply H. now right.
Qed.

Lemma kahn_no_children (graph : Graph) (inDegree : JsMap number) :
  forall (queue : list string) (fuel : nat) (sorted : list string),
    (forall k, In k queue ->
       exists node, map_get graph k = Some node /\ children node = []) ->
    (List.length queue <= fuel)%nat ->
    kahn fuel graph inDegree queue sorted = Ok (sorted ++ queue).
Proof.
  induction queue as [|k queue IH]; intros fuel sorted Hq Hfuel.
  - destruct fuel; simpl; now rewrite app_nil_r.
  - destruct fuel as [|fuel]; [simpl in Hfuel; lia |]. simpl.
    destruct (Hq k (or_introl eq_refl)) as [node [Hnode Hc]].
    rewrite Hnode, Hc. simpl. rewrite IH.
    + now rewrite <- app_assoc.
    + intros k' Hk'. apply Hq. now right.
    + simpl in Hfuel. lia.
Qed.

Lemma lastIndexOf_here (id : string) (l1 l2 : list WorkOrder) (w : WorkOrder) :
  docId w = id -> ~ In id (map docId l2) ->
  forall k, lastIndexOf id (l1 ++ w :: l2) k = Some (k + List.length l1)%nat.
Proof.
  intros Hw Hfresh.
  assert (Hnone : forall k, lastIndexOf id l2 k = None).
  { clear Hw. induction l2 as [|x l2 IH]; intros k; simpl; [reflexivity |].
    rewrite IH by (intros Hin; apply Hfresh; now right).
    destruct (String.eqb (docId x) id) eqn:E; [| reflexivity].
    apply String.eqb_eq in E. exfalso. apply Hfresh. now left. }
  induction l1 as [|x l1 IH]; intros k; simpl.
  - rewrite Hnone, Hw, String.eqb_refl. f_equal. lia.
  - rewrite IH. f_equal. lia.
Qed.

Lemma resolveAll_in_order (l1 l2 : list WorkOrder) :
  NoDup (map docId (l1 ++ l2)) ->
  resolveAll (map docId l2) (l1 ++ l2)
  = Ok (seq (List.length l1) (List.length l2)).
Proof.
  revert l1. induction l2 as [|w l2 IH]; intros l1 Hnd; simpl; [reflexivity |].
  rewrite (lastIndexOf_here (docId w) l1 l2 w eq_refl).
  - simpl.
    replace (l1 ++ w :: l2) with ((l1 ++ [w]) ++ l2) in * by (now rewrite <- app_assoc).
    rewrite IH by exact Hnd. cbn [bind]. rewrite length_app. simpl.
    now replace (List.length l1 + 1)%nat with (S (List.length l1)) by lia.
  - rewrite map_app in Hnd. simpl in Hnd. apply NoDup_remove_2 in Hnd.
    intros Hin. apply Hnd. apply in_app_iff. now right.
Qed.

(** X22. Work orders with distinct docIds none of which has a
    dependency are sorted into the order they were given in. *)
Theorem topologicalSort_keeps_order :
  forall workOrders : list WorkOrder,
    NoDup (map docId workOrders) ->
    (forall wo, In wo workOrders -> dependsOnWorkOrderIds (data wo) = []) ->
    topologicalSort workOrders = Ok (seq 0 (List.length workOrders)).
Proof.
  intros workOrders Hnd Hnone.
  set (G := map (fun wo => (docId wo, initialNode wo)) workOrders).
  assert (Hg : buildDependencyGraph workOrders = Ok G).
  { unfold buildDependencyGraph. rewrite (initial_graph_entries workOrders [] Hnd).
    now apply linkAll_no_parents. }
  assert (Hno : ~ hasCycle workOrders).
  { intros [a Hc].
    assert (Hdep : forall x y, ~ dependsOn workOrders x y).
    { intros x y [wo [Hwo [_ Hin]]]. rewrite (Hnone wo Hwo) in Hin. destruct Hin. }
    inversion Hc as [x y Hd | x y z Hd _]; exact (Hdep _ _ Hd). }
  unfold topologicalSort. rewrite Hg. cbn [bind].
  destruct (detectCycles_none workOrders G Hg Hno) as [Hd _]. rewrite Hd.
  cbn [bind].
  assert (Hkeys : map_keys G = map docId workOrders).
  { unfold G, map_keys. rewrite map_map. reflexivity. }
  assert (Hqueue : initialQueue (initialInDegree G) = map docId workOrders).
  { unfold initialQueue, initialInDegree, G. rewrite map_map.
    clear - Hnone. induction workOrders as [|wo rest IH]; [reflexivity |].
    simpl. rewrite (Hnone wo) by now left. simpl. f_equal.
    apply IH. intros w Hw. apply Hnone. now right. }
  rewrite Hqueue.
  rewrite (kahn_no_children G (initialInDegree G) (map docId workOrders)).
  - cbn [bind app]. rewrite length_map, Nat.eqb_refl.
    exact (resolveAll_in_order [] workOrders Hnd).
  - intros k Hk. rewrite <- Hkeys in Hk.
    destruct (map_keys_In_get _ G k Hk) as [node Hnode]. exists node.
    split; [exact Hnode |]. apply map_get_Some_In in Hnode. unfold G in Hnode.
    apply in_map_iff in Hnode. destruct Hnode as [wo [E _]]. now inversion E.
  - unfold G. rewrite !length_map. lia.
Qed.

Lemma topologicalSort_keeps_order_witness :
  topologicalSort (workOrders staleEndInput)
  = Ok (seq 0 (List.length (workOrders staleEndInput))).
Proof.
  apply topologicalSort_keeps_order.
  - vm_compute. constructor; [intros [H | []]; discriminate |].
    constructor; [intros [] | constructor].
  - intros wo [<- | [<- | []]]; reflexivity.
Defined.


(** ** The reason recorded with a change *)

Lemma generateChangeReason_cases (wo : WorkOrder) (all : list WorkOrder)
    (workCenterMap : JsMap WorkCenter) :
  (exists p, In p (parentsOf wo all)
             /\ str_gt (endDate (data p)) (startDate (data wo)) = true)
  \/ generateChangeReason wo all workCenterMap = "Rescheduled for optimization"
  \/ exists o, In o all /\ sameWorkCenterOther wo o = true
       /\ generateChangeReason wo all workCenterMap
          = ("Work center busy with: " ++ workOrderNumber (data o))%string.
Proof.
  unfold generateChangeReason.
  destruct (filter (fun p => str_gt (endDate (data p)) (startDate (data wo)))
                   (parentsOf wo all)) as [|p ps] eqn:Hf.
  - right. cbn [app].
    destruct (map_get workCenterMap (workCenterId (data wo))); [| now left].
    destruct (filter _ all) as [|o os] eqn:Ho; [now left |].
    right. exists o.
    assert (Hin : In o (o :: os)) by now left.
    rewrite <- Ho in Hin. apply filter_In in Hin. destruct Hin as [Hin Hc].
    apply andb_true_iff in Hc. destruct Hc as [Hc _].
    apply andb_true_iff in Hc. destruct Hc as [Hc _].
    repeat split; auto.
  - left. exists p.
    assert (Hin : In p (p :: ps)) by now left.
    rewrite <- Hf in Hin. apply filter_In in Hin. exact Hin.
Qed.

Lemma processWorkOrder_reason (workCenterMap : JsMap WorkCenter) (i : nat)
    (h h' : Heap) (r : result unit) :
  processWorkOrder workCenterMap i h = (h', r) ->
  h' = h
  \/ exists wo s e c,
       nth_error (workingCopies h) i = Some wo
       /\ workOrderId c = docId wo
       /\ reason c
          = generateChangeReason (reschedule wo s e)
              (assign i (reschedule wo s e) (workingCopies h)) workCenterMap
       /\ h' = {| callerWorkOrders := callerWorkOrders h;
                  workingCopies := assign i (reschedule wo s e) (workingCopies h);
                  changeLog := changeLog h ++ [c] |}.
Proof.
  unfold processWorkOrder.
  destruct (nth_error (workingCopies h) i) as [wo|] eqn:Hnth;
    [| intros H; inversion H; now left].
  destruct (isMaintenance (data wo)); [intros H; inversion H; now left |].
  destruct (calculateEarliestStartTime wo (workingCopies h) workCenterMap)
    as [s|err]; [| intros H; inversion H; now left].
  destruct (String.eqb s (startDate (data wo)));
    [intros H; inversion H; now left |].
  destruct (map_get workCenterMap (workCenterId (data wo))) as [wc|];
    [| intros H; inversion H; now left].
  destruct (calculateEndDateWithShifts s (durationMinutes (data wo))
              (shifts (data wc))) as [e|err];
    [| intros H; inversion H; now left].
  intros H. inversion H; subst. right.
  eexists wo, s, e, _. repeat split; reflexivity.
Qed.

(** Every logged change was logged in the turn of a work order [i], with
    the reason computed on the working copies of that moment, of which
    only those at places handled later are written to again. *)
Lemma processAll_reasons (workCenterMap : JsMap WorkCenter) (sorted : list nat) :
  forall (h hF : Heap) (r : result unit) (c : WorkOrderChange),
    NoDup sorted ->
    processAll workCenterMap sorted h = (hF, r) ->
    In c (changeLog hF) ->
    In c (changeLog h)
    \/ exists l1 i l2 wo' copies,
         sorted = l1 ++ i :: l2
         /\ nth_error copies i = Some wo'
         /\ docId wo' = workOrderId c
         /\ map strip copies = map strip (workingCopies h)
         /\ (forall j, ~ In j l2 ->
               nth_error (workingCopies hF) j = nth_error copies j)
         /\ reason c = generateChangeReason wo' copies workCenterMap.
Proof.
  induction sorted as [|i rest IH]; intros h hF r c Hnd H Hin; simpl in H.
  - inversion H; subst. now left.
  - inversion Hnd as [|? ? Hfresh Hnd']; subst.
    destruct (processWorkOrder workCenterMap i h) as [h1 r1] eqn:Hstep.
    pose proof (processWorkOrder_reason _ _ _ _ _ Hstep) as Hcases.
    assert (Hstrip : map strip (workingCopies h1) = map strip (workingCopies h)).
    { destruct Hcases as [-> | [wo [s [e [c0 [Hnth [_ [_ ->]]]]]]]]; [reflexivity |].
      simpl. apply (assign_strip _ _ wo); [exact Hnth | reflexivity]. }
    assert (Hlater : In c (changeLog h1) ->
              forall hF', (forall j, ~ In j rest ->
                             nth_error (workingCopies hF') j
                             = nth_error (workingCopies h1) j) ->
              In c (changeLog h)
              \/ exists l1 i0 l2 wo' copies,
                   i :: rest = l1 ++ i0 :: l2
                   /\ nth_error copies i0 = Some wo'
                   /\ docId wo' = workOrderId c
                   /\ map strip copies = map strip (workingCopies h)
                   /\ (forall j, ~ In j l2 ->
                         nth_error (workingCopies hF') j = nth_error copies j)
                   /\ reason c = generateChangeReason wo' copies workCenterMap).
    { intros Hc hF' Hkeep.
      destruct Hcases as [-> | [wo [s [e [c0 [Hnth [Hid [Hreason ->]]]]]]]];
        [now left |].
      simpl in Hc. apply in_app_iff in Hc. destruct Hc as [Hc | [<- | []]];
        [now left |].
      right. exists [], i, rest, (reschedule wo s e),
               (assign i (reschedule wo s e) (workingCopies h)).
      split; [reflexivity |].
      split; [now apply (assign_nth_same _ _ wo) |].
      split; [now rewrite Hid |].
      split; [apply (assign_strip _ _ wo); [exact Hnth | reflexivity] |].
      split; [exact Hkeep | exact Hreason]. }
    destruct r1 as [u|err].
    + destruct (IH h1 hF r c Hnd' H Hin)
        as [Hc | [l1 [i0 [l2 [wo' [copies [E [Hnth [Hid [Hs [Hkeep Hreason]]]]]]]]]]].
      * apply (Hlater Hc hF). intros j Hj.
        now apply (processAll_keeps workCenterMap j rest h1 hF r).
      * right. exists (i :: l1), i0, l2, wo', copies.
        split; [simpl; now rewrite E |]. split; [exact Hnth |].
        split; [exact Hid |]. split; [now rewrite Hs |].
        split; [exact Hkeep | exact Hreason].
    + inversion H; subst. apply (Hlater Hin hF). reflexivity.
Qed.

(** X23. When reflow returns, no change gives a dependency as its
    reason: the reason is computed after the work order has been moved
    behind its parents, so it is either that the work center was busy with
    another work order of the input, or the default text. *)
Theorem reflow_reason_never_dependency :
  forall (input : ReflowInput) (r : ReflowResult) (c : WorkOrderChange),
    reflow input = Ok r ->
    In c (changes r) ->
    reason c = "Rescheduled for optimization"
    \/ exists other,
         In other (workOrders input)
         /\ docId other <> workOrderId c
         /\ reason c
            = ("Work center busy with: " ++ workOrderNumber (data other))%string.
Proof.
  intros input r c Hr Hc. apply reflowRun_Ok in Hr.
  destruct Hr as [sorted [h [Hsort [Hproc [Hval [_ [Hch _]]]]]]].
  rewrite Hch in Hc.
  pose proof (topologicalSort_NoDup _ _ Hsort) as Hnd.
  pose proof (topologicalSort_Ok _ _ Hsort) as [Hids _].
  destruct (processAll_reasons _ sorted _ h _ c Hnd Hproc Hc)
    as [[] | [l1 [i [l2 [wo' [copies [E [Hnth [Hid [Hs [Hkeep Hreason]]]]]]]]]]].
  cbn [workingCopies] in Hs.
  assert (Hidc : NoDup (map docId copies))
    by (now rewrite (map_strip_docId _ _ Hs)).
  destruct (generateChangeReason_cases wo' copies
              (workCenterMapOf (workCenters input)))
    as [[p [Hp Hgt]] | [Hdef | [o [Ho [Hsame Hbusy]]]]].
  - (* a parent that ends above the new start: the final check rejects it *)
    exfalso.
    apply (In_parentsOf copies wo' p Hidc) in Hp. destruct Hp as [Hpin Hdep].
    apply In_nth_error in Hpin. destruct Hpin as [j Hj].
    destruct (map_nth_error_eq strip copies (workOrders input) i wo' Hs Hnth)
      as [child [Hchild Echild]].
    assert (Hdeps : dependsOnWorkOrderIds (data child)
                    = dependsOnWorkOrderIds (data wo')).
    { change (dependsOnWorkOrderIds (data (strip child))
              = dependsOnWorkOrderIds (data (strip wo'))). now rewrite Echild. }
    rewrite <- Hdeps in Hdep.
    destruct (topologicalSort_order _ _ Hsort l1 i l2 child (docId p) E Hchild Hdep)
      as [j' [parent [Hj' [Hparent Hpid]]]].
    destruct (map_nth_error_eq strip (workOrders input) copies j' parent
                (eq_sym Hs) Hparent) as [p' [Hp' Ep']].
    assert (Hpid' : docId p' = docId p).
    { change (docId (strip p') = docId p). rewrite Ep'. exact Hpid. }
    pose proof (docId_nth_error_inj copies j' j p' p Hidc Hp' Hj Hpid') as Ej.
    subst j'.
    assert (Hnotin : forall k, In k (l1 ++ [i]) -> ~ In k l2).
    { intros k Hk Hk2. rewrite E in Hnd.
      replace (l1 ++ i :: l2) with ((l1 ++ [i]) ++ l2) in Hnd
        by (now rewrite <- app_assoc).
      exact (NoDup_app_disjoint _ _ k Hnd Hk Hk2). }
    assert (HFp : nth_error (workingCopies h) j = Some p).
    { rewrite Hkeep; [exact Hj |]. apply Hnotin. apply in_app_iff. now left. }
    assert (HFw : nth_error (workingCopies h) i = Some wo').
    { rewrite Hkeep; [exact Hnth |]. apply Hnotin. apply in_app_iff. right. now left. }
    apply validateAll_nil in Hval. destruct Hval as [Hvd _].
    assert (HidF : NoDup (map docId (workingCopies h))).
    { apply processAll_frame in Hproc. destruct Hproc as [_ [HsF _]].
      cbn [workingCopies] in HsF. now rewrite (map_strip_docId _ _ HsF). }
    rewrite Hdeps in Hdep.
    assert (Hfalse : str_gt (endDate (data p)) (startDate (data wo')) = false).
    { apply (validateDependencies_nil _ Hvd wo' p).
      - eapply nth_error_In; eauto.
      - apply In_definedOnly. exists (docId p). split; [exact Hdep |].
        apply workOrderMapOf_get; [exact HidF |]. eapply nth_error_In; eauto. }
    congruence.
  - left. now rewrite Hreason.
  - right.
    assert (Hin : In (strip o) (map strip (workOrders input))).
    { rewrite <- Hs. now apply in_map. }
    apply in_map_iff in Hin. destruct Hin as [other [Eo Hother]].
    exists other. split; [exact Hother |]. split.
    + unfold sameWorkCenterOther in Hsame. apply andb_true_iff in Hsame.
      destruct Hsame as [Hne _]. apply negb_true_iff in Hne.
      apply String.eqb_neq in Hne. rewrite <- Hid.
      change (docId (strip other) <> docId wo'). now rewrite Eo.
    + rewrite Hreason, Hbusy. apply f_equal.
      change (workOrderNumber (data (strip o)) = workOrderNumber (data (strip other))).
      now rewrite Eo.
Qed.

Lemma reflow_reason_never_dependency_witness :
  reason noonChildChange = "Rescheduled for optimization"
  \/ exists other,
       In other (workOrders mixedFormInput)
       /\ docId other <> workOrderId noonChildChange
       /\ reason noonChildChange
          = ("Work center busy with: " ++ workOrderNumber (data other))%string.
Proof.
  destruct (reflow mixedFormInput) as [r|e] eqn:Hr;
    [| vm_compute in Hr; discriminate].
  apply (reflow_reason_never_dependency mixedFormInput r noonChildChange Hr).
  vm_compute in Hr. inversion Hr; subst r. vm_compute. left. reflexivity.
Defined.


(** ** The errors of reflow *)

Lemma nextShiftStartFrom_Throw (shifts : list Shift) (e : error) :
  forall fuel t, nextShiftStartFrom fuel shifts t = Throw e -> e = NoNextShiftStart.
Proof.
  induction fuel as [|fuel IH]; intros t; simpl.
  - intros H. now inversion H.
  - destruct (shiftOn shifts t) as [shift|]; [| apply IH].
    destruct (t <=? plusHours (startOfDay t) (startHour shift));
      [discriminate | apply IH].
Qed.

Lemma findNextShiftStart_Throw (date : string) (shifts : list Shift) (e : error) :
  findNextShiftStart date shifts = Throw e -> e = NoNextShiftStart.
Proof.
  unfold findNextShiftStart. destruct (fromISO date) as [t|];
    [| intros H; now inversion H].
  destruct (nextShiftStartFrom 100 shifts t) as [s|e'] eqn:Hn; cbn [bind];
    [discriminate |].
  intros H. inversion H; subst. eapply nextShiftStartFrom_Throw; eauto.
Qed.

Lemma adjustToShiftStart_Throw (date : string) (wc : WorkCenter) (e : error) :
  adjustToShiftStart date wc = Throw e -> e = NoNextShiftStart.
Proof.
  unfold adjustToShiftStart.
  destruct (fromISO date) as [dt|]; [| apply findNextShiftStart_Throw].
  destruct (shiftOn (shifts (data wc)) dt) as [shift|];
    [| apply findNextShiftStart_Throw].
  destruct (hour dt * 60 + minute dt <? startHour shift * 60); [discriminate |].
  destruct (endHour shift * 60 <=? hour dt * 60 + minute dt);
    [apply findNextShiftStart_Throw | discriminate].
Qed.

Lemma calculateEndDateWithShifts_Throw (s : string) (d : Z) (shifts : list Shift)
    (e : error) :
  calculateEndDateWithShifts s d shifts = Throw e ->
  e = NullDate \/ e = ShiftIterationsExceeded.
Proof.
  unfold calculateEndDateWithShifts. destruct (fromISO s) as [start|].
  - destruct (walkShifts maxShiftIterations shifts start (inject_Z d))
      as [x|e'] eqn:Hw; cbn [bind]; [discriminate |].
    intros H. inversion H; subst. right. eapply walkShifts_throws; eauto.
  - destruct (d <=? 0); intros H; inversion H; auto.
Qed.

Lemma findNextPotentialStart_Throw (s e' : string) (wo : WorkOrder)
    (all : list WorkOrder) (wc : WorkCenter) (e : error) :
  findNextPotentialStart s e' wo all wc = Throw e -> e = NullDate.
Proof.
  unfold findNextPotentialStart.
  destruct (blockingPeriods s e' wo all wc); [| discriminate].
  destruct (fromISO s); [discriminate |]. intros H. now inversion H.
Qed.

Lemma searchSlot_Throw (wo : WorkOrder) (all : list WorkOrder) (wc : WorkCenter)
    (e : error) :
  forall fuel c, searchSlot fuel c wo all wc = Throw e -> schedulingError e.
Proof.
  unfold schedulingError.
  induction fuel as [|fuel IH]; intros c; simpl.
  - intros H. inversion H. right. right. right. eauto.
  - destruct (adjustToShiftStart c wc) as [c1|e1] eqn:H1; cbn [bind].
    + destruct (calculateEndDateWithShifts c1 (durationMinutes (data wo))
                  (shifts (data wc))) as [e1|e2] eqn:H2; cbn [bind].
      * destruct (isSlotAvailable c1 e1 wo all wc); [discriminate |].
        destruct (findNextPotentialStart c1 e1 wo all wc) as [n|e3] eqn:H3;
          cbn [bind]; [apply IH |].
        intros H. inversion H; subst. apply findNextPotentialStart_Throw in H3. auto.
      * intros H. inversion H; subst. apply calculateEndDateWithShifts_Throw in H2.
        tauto.
    + intros H. inversion H; subst. apply adjustToShiftStart_Throw in H1. auto.
Qed.

Lemma calculateEarliestStartTime_Throw (wo : WorkOrder) (all : list WorkOrder)
    (workCenterMap : JsMap WorkCenter) (e : error) :
  calculateEarliestStartTime wo all workCenterMap = Throw e ->
  (e = TypeError /\ map_get workCenterMap (workCenterId (data wo)) = None)
  \/ schedulingError e.
Proof.
  unfold calculateEarliestStartTime, findNextAvailableSlot.
  destruct (map_get workCenterMap (workCenterId (data wo))) as [wc|].
  - intros H. right. eapply searchSlot_Throw; eauto.
  - intros H. inversion H. now left.
Qed.

Lemma processWorkOrder_Throw (workCenterMap : JsMap WorkCenter) (i : nat)
    (h h' : Heap) (e : error) :
  processWorkOrder workCenterMap i h = (h', Throw e) ->
  (nth_error (workingCopies h) i = None /\ e = TypeError)
  \/ exists wo,
       nth_error (workingCopies h) i = Some wo
       /\ isMaintenance (data wo) = false
       /\ ((e = TypeError
            /\ map_get workCenterMap (workCenterId (data wo)) = None)
           \/ schedulingError e).
Proof.
  unfold processWorkOrder.
  destruct (nth_error (workingCopies h) i) as [wo|] eqn:Hnth;
    [| intros H; inversion H; now left].
  destruct (isMaintenance (data wo)) eqn:Hm; [discriminate |].
  destruct (calculateEarliestStartTime wo (workingCopies h) workCenterMap)
    as [s|err] eqn:Hs.
  - destruct (String.eqb s (startDate (data wo))); [discriminate |].
    destruct (map_get workCenterMap (workCenterId (data wo))) as [wc|] eqn:Hwc.
    + destruct (calculateEndDateWithShifts s (durationMinutes (data wo))
                  (shifts (data wc))) as [x|err] eqn:He; [discriminate |].
      intros H. inversion H; subst. right. exists wo. repeat split; auto.
      right. apply calculateEndDateWithShifts_Throw in He. unfold schedulingError.
      tauto.
    + exfalso. unfold calculateEarliestStartTime in Hs. rewrite Hwc in Hs.
      discriminate.
  - intros H. inversion H; subst. right. exists wo. repeat split; auto.
    now apply calculateEarliestStartTime_Throw in Hs.
Qed.

Lemma processAll_Throw (workCenterMap : JsMap WorkCenter) (sorted : list nat) :
  forall (h h' : Heap) (e : error),
    (forall i, In i sorted -> exists wo, nth_error (workingCopies h) i = Some wo) ->
    processAll workCenterMap sorted h = (h', Throw e) ->
    schedulingError e
    \/ (e = TypeError
        /\ exists wo, In wo (workingCopies h)
             /\ isMaintenance (data wo) = false
             /\ map_get workCenterMap (workCenterId (data wo)) = None).
Proof.
  induction sorted as [|i rest IH]; intros h h' e Hvalid H; simpl in H;
    [discriminate |].
  destruct (processWorkOrder workCenterMap i h) as [h1 r1] eqn:Hstep.
  destruct r1 as [u|err].
  - assert (Hstrip : map strip (workingCopies h1) = map strip (workingCopies h)).
    { apply processWorkOrder_cases in Hstep.
      destruct Hstep as [-> | [wo [s [e0 [c [Hnth [_ [_ [_ [_ [_ [_ ->]]]]]]]]]]]];
        [reflexivity |].
      simpl. apply (assign_strip _ _ wo); [exact Hnth | reflexivity]. }
    destruct (IH h1 h' e) as [Hs | [He [wo1 [Hin [Hm Hwc]]]]]; [| exact H | now left |].
    + intros j Hj. destruct (Hvalid j (or_intror Hj)) as [wo Hwo].
      destruct (map_nth_error_eq strip _ (workingCopies h1) j wo (eq_sym Hstrip) Hwo)
        as [wo1 [Hwo1 _]]. eauto.
    + right. split; [exact He |].
      apply In_nth_error in Hin. destruct Hin as [j Hj].
      destruct (map_nth_error_eq strip _ (workingCopies h) j wo1 Hstrip Hj)
        as [wo [Hwo E]].
      exists wo. split; [eapply nth_error_In; eauto |].
      change (isMaintenance (data (strip wo)) = false
              /\ map_get workCenterMap (workCenterId (data (strip wo))) = None).
      rewrite E. auto.
  - inversion H; subst. apply processWorkOrder_Throw in Hstep.
    destruct Hstep as [[Hnone _] | [wo [Hnth [Hm [[He Hwc] | Hs]]]]].
    + destruct (Hvalid i (or_introl eq_refl)) as [wo Hwo]. congruence.
    + right. split; [exact He |]. exists wo.
      split; [eapply nth_error_In; eauto | auto].
    + now left.
Qed.

Lemma validateAll_Throw (workOrders : list WorkOrder) (workCenters : list WorkCenter)
    (e : error) :
  validateAll workOrders workCenters = Throw e ->
  exists n p, e = DanglingDependency n p.
Proof.
  unfold validateAll.
  destruct (buildDependencyGraph workOrders) as [graph|e0] eqn:Hg; cbn [bind].
  - pose proof (detectCycles_sound graph (buildDependencyGraph_wellFormed _ _ Hg))
      as Hsound.
    destruct (detectCycles graph) as [c|e1]; cbn [bind];
      [discriminate | contradiction].
  - intros H. inversion H; subst. unfold buildDependencyGraph in Hg.
    apply linkAll_Throw in Hg. destruct Hg as [wo [p [_ [_ [_ He]]]]]. eauto.
Qed.

(** X24. reflow comes to an end within the bounds of every loop and
    recursion: it returns or throws an error of the program.  It throws a
    TypeError, for a property read on undefined, only when a work order
    that is not a maintenance order is on a work center that is not in the
    input; and whenever some work order is on such a work center, it
    throws. *)
Theorem reflow_throws :
  forall input : ReflowInput,
    (forall e, reflow input = Throw e ->
       e <> OutOfFuel
       /\ (e = TypeError ->
           exists wo, In wo (workOrders input)
             /\ isMaintenance (data wo) = false
             /\ map_get (workCenterMapOf (workCenters input))
                        (workCenterId (data wo)) = None))
    /\ (forall wo, In wo (workOrders input) ->
          map_get (workCenterMapOf (workCenters input)) (workCenterId (data wo))
          = None ->
          exists e, reflow input = Throw e).
Proof.
  intros input. split.
  - intros e. unfold reflow, reflowRun. cbn [workingCopies].
    destruct (topologicalSort (workOrders input)) as [sorted|e0] eqn:Hsort.
    + destruct (processAll _ sorted _) as [h [u|e1]] eqn:Hproc.
      * destruct (validateAll (workingCopies h) (workCenters input))
          as [[|err errs]|e2] eqn:Hval; cbn [snd]; [discriminate | |].
        -- intros H. inversion H. split; discriminate.
        -- intros H. inversion H; subst.
           destruct (validateAll_Throw _ _ _ Hval) as [n [p ->]].
           split; discriminate.
      * cbn [snd]. intros H. inversion H; subst.
        apply processAll_Throw in Hproc.
        -- destruct Hproc as [[-> | [-> | [-> | [n ->]]]] | [-> Hwo]];
             try (split; discriminate).
           split; [discriminate | intros _; exact Hwo].
        -- exact (topologicalSort_valid _ _ Hsort).
    + cbn [snd]. intros H. inversion H; subst.
      destruct (topologicalSort_Throw _ _ Hsort) as [[n [p ->]] | [-> | ->]];
        split; discriminate.
  - intros wo Hwo Hnone.
    destruct (reflow input) as [r|e] eqn:Hr; [| eauto]. exfalso.
    destruct (reflow_validated input r Hr) as [_ [Hstrip Hval]].
    apply validateAll_nil in Hval. destruct Hval as [_ [_ [Hshift _]]].
    assert (Hin : In (strip wo) (map strip (updatedWorkOrders r))).
    { rewrite Hstrip. now apply in_map. }
    apply in_map_iff in Hin. destruct Hin as [u [Eu Hu]].
    destruct (validateShiftBoundaries_nil _ _ Hshift u Hu) as [wc [Hget _]].
    assert (Ewc : workCenterId (data u) = workCenterId (data wo)).
    { change (workCenterId (data (strip u)) = workCenterId (data (strip wo))).
      now rewrite Eu. }
    rewrite Ewc in Hget. congruence.
Qed.

Lemma reflow_throws_witness :
  exists wo, In wo (workOrders strayInput)
    /\ isMaintenance (data wo) = false
    /\ map_get (workCenterMapOf (workCenters strayInput))
               (workCenterId (data wo)) = None.
Proof.
  apply (proj1 (reflow_throws strayInput) TypeError); reflexivity.
Defined.


(** ** A schedule that needs no change *)

Lemma validateAll_nil_sorts (workOrders : list WorkOrder)
    (workCenters : list WorkCenter) :
  NoDup (map docId workOrders) ->
  validateAll workOrders workCenters = Ok [] ->
  exists sorted, topologicalSort workOrders = Ok sorted.
Proof.
  intros Hnd Hval. unfold validateAll in Hval.
  apply bind_Ok_inv in Hval. destruct Hval as [graph [Hg Hval]].
  apply bind_Ok_inv in Hval. destruct Hval as [cycleError [Hc Hval]].
  destruct cycleError as [err|]; [discriminate |].
  destruct (buildDependencyGraph_keys _ _ Hg) as [_ [_ [Hex _]]].
  apply topologicalSort_sorts; [exact Hnd | now apply allDependenciesExist_intro |].
  intros [a Hcycle].
  pose proof (detectCycles_sound graph (buildDependencyGraph_wellFormed _ _ Hg))
    as Hsound.
  rewrite Hc in Hsound. apply (Hsound a).
  destruct (buildDependencyGraph_edges _ _ Hg) as [_ Hedge].
  now apply (chain_reach workOrders graph (Hedge Hnd)).
Qed.

(** X25. reflow leaves alone a schedule that needs no change: when the
    work orders have distinct docIds, [validateAll] finds no error in them,
    and every work order that is not a maintenance order ends where
    [calculateEndDateWithShifts] puts its end, reflow returns them as they
    are, with no change. *)
Theorem reflow_keeps_valid_schedule :
  forall input : ReflowInput,
    NoDup (map docId (workOrders input)) ->
    validateAll (workOrders input) (workCenters input) = Ok [] ->
    endDatesConsistentb (workOrders input) (workCenters input) = true ->
    exists r, reflow input = Ok r
              /\ changes r = []
              /\ updatedWorkOrders r = workOrders input.
Proof.
  intros input Hnd Hval Hcons. apply endDatesConsistentb_spec in Hcons.
  destruct (validateAll_nil_sorts _ _ Hnd Hval) as [sorted Hsort].
  pose proof (topologicalSort_valid _ _ Hsort) as Hvalid.
  unfold reflow, reflowRun. cbn [workingCopies]. rewrite Hsort.
  rewrite (processAll_settled (workOrders input) (workCenters input)
             (workOrders input) [] sorted Hnd Hval Hcons Hvalid).
  cbn [workingCopies]. rewrite Hval. cbn [snd changeLog workingCopies].
  eexists. repeat split.
Qed.

Lemma reflow_keeps_valid_schedule_witness :
  exists r, reflow settledInput = Ok r
            /\ changes r = []
            /\ updatedWorkOrders r = workOrders settledInput.
Proof.
  apply reflow_keeps_valid_schedule.
  - vm_compute. constructor; [intros [H | []]; discriminate |].
    constructor; [intros [] | constructor].
  - vm_compute. reflexivity.
  - vm_compute. reflexivity.
Defined.


(** ** The nodes of the dependency graph *)

Lemma linkParents_field {A : Type} (f : DependencyNode -> A) (wo : WorkOrder) :
  (forall node c, f (pushChild node c) = f node) ->
  forall (ps : list string) (graph graph' : Graph),
    linkParents graph wo ps = Ok graph' ->
    forall k, option_map f (map_get graph' k) = option_map f (map_get graph k).
Proof.
  intros Hf. induction ps as [|p ps IH]; intros graph graph' H k; simpl in H.
  - now inversion H.
  - destruct (map_get graph p) as [node|] eqn:Hget; [| discriminate].
    rewrite (IH _ _ H k). destruct (string_dec p k) as [-> | Hne].
    + rewrite map_get_set_eq, Hget. simpl. now rewrite Hf.
    + now rewrite map_get_set_ne.
Qed.

Lemma linkAll_field {A : Type} (f : DependencyNode -> A) :
  (forall node c, f (pushChild node c) = f node) ->
  forall (l : list WorkOrder) (graph graph' : Graph),
    linkAll graph l = Ok graph' ->
    forall k, option_map f (map_get graph' k) = option_map f (map_get graph k).
Proof.
  intros Hf. induction l as [|wo l IH]; intros graph graph' H k; simpl in H.
  - now inversion H.
  - apply bind_Ok_inv in H. destruct H as [g1 [H1 H2]].
    rewrite (IH _ _ H2 k). exact (linkParents_field f wo Hf _ _ _ H1 k).
Qed.

Lemma childCount_pos (l : list WorkOrder) (k x : string) :
  (0 < childCount l k x)%nat
  <-> exists w, In w l /\ docId w = x /\ In k (dependsOnWorkOrderIds (data w)).
Proof.
  unfold childCount. induction l as [|v l IH]; simpl.
  - split; [lia | intros [w [[] _]]].
  - split.
    + intros H. destruct (String.eqb (docId v) x) eqn:E.
      * destruct (in_dec string_dec k (dependsOnWorkOrderIds (data v))) as [Hin | Hnot].
        -- apply String.eqb_eq in E. exists v. auto.
        -- apply (count_occ_not_In string_dec) in Hnot. rewrite Hnot in H.
           destruct (proj1 IH H) as [w [Hw Hrest]]. exists w. auto.
      * destruct (proj1 IH H) as [w [Hw Hrest]]. exists w. auto.
    + intros [w [[-> | Hw] [Hid Hin]]].
      * rewrite Hid, String.eqb_refl.
        apply (count_occ_In string_dec) in Hin. lia.
      * assert (0 < list_sum (map (fun w0 =>
                   if String.eqb (docId w0) x
                   then count_occ string_dec (dependsOnWorkOrderIds (data w0)) k
                   else O) l))%nat by (apply IH; eauto).
        lia.
Qed.

(** X26. For work orders with distinct docIds, the graph that
    [buildDependencyGraph] returns has one node for each work order, in
    the order of the work orders; the node carries the docId, depth 0, the
    dependencies of the work order as its parents, and as its children the
    docIds of exactly the work orders that list it as a dependency. *)
Theorem buildDependencyGraph_nodes :
  forall (workOrders : list WorkOrder) (graph : Graph),
    buildDependencyGraph workOrders = Ok graph ->
    NoDup (map docId workOrders) ->
    map_keys graph = map docId workOrders
    /\ forall wo, In wo workOrders ->
         exists node,
           map_get graph (docId wo) = Some node
           /\ nodeWorkOrderId node = docId wo
           /\ depth node = 0
           /\ parents node = dependsOnWorkOrderIds (data wo)
           /\ forall c, In c (children node)
                <-> exists child, In child workOrders /\ docId child = c
                      /\ In (docId wo) (dependsOnWorkOrderIds (data child)).
Proof.
  intros workOrders graph Hg Hnd.
  pose proof Hg as Hlink. unfold buildDependencyGraph in Hlink.
  rewrite (initial_graph_entries workOrders [] Hnd) in Hlink. simpl in Hlink.
  set (G0 := map (fun wo => (docId wo, initialNode wo)) workOrders) in *.
  assert (Hkeys0 : map_keys G0 = map docId workOrders).
  { unfold G0, map_keys. rewrite map_map. reflexivity. }
  destruct (linkAll_keys _ _ _ Hlink) as [Hkeys [_ Hpar]].
  split; [now rewrite Hkeys |].
  intros wo Hwo.
  assert (H0 : map_get G0 (docId wo) = Some (initialNode wo)).
  { apply NoDup_In_get; [now rewrite Hkeys0 |].
    unfold G0. apply in_map_iff. now exists wo. }
  assert (Hkey : In (docId wo) (map_keys graph)).
  { rewrite Hkeys, Hkeys0. now apply in_map. }
  destruct (map_keys_In_get _ graph _ Hkey) as [node Hnode].
  exists node. split; [exact Hnode |].
  pose proof (linkAll_field nodeWorkOrderId (fun _ _ => eq_refl) _ _ _ Hlink
                (docId wo)) as Hid.
  pose proof (linkAll_field depth (fun _ _ => eq_refl) _ _ _ Hlink (docId wo)) as Hd.
  specialize (Hpar (docId wo)).
  rewrite Hnode, H0 in Hid, Hd, Hpar. simpl in Hid, Hd, Hpar.
  split; [congruence |]. split; [congruence |]. split; [congruence |].
  intros c.
  pose proof (linkAll_children workOrders _ _ Hlink (docId wo) c) as Hcount.
  assert (Hzero : childrenOf G0 (docId wo) = []).
  { unfold childrenOf. now rewrite H0. }
  rewrite Hzero in Hcount. simpl in Hcount.
  unfold childrenOf in Hcount at 1. rewrite Hnode in Hcount.
  rewrite <- childCount_pos, <- Hcount. apply (count_occ_In string_dec).
Qed.

Lemma buildDependencyGraph_nodes_witness :
  exists graph,
    buildDependencyGraph (workOrders cascadeInput) = Ok graph
    /\ map_keys graph = map docId (workOrders cascadeInput).
Proof.
  destruct (buildDependencyGraph (workOrders cascadeInput)) as [graph|e] eqn:Hg;
    [| vm_compute in Hg; discriminate].
  exists graph. split; [reflexivity |].
  apply (buildDependencyGraph_nodes (workOrders cascadeInput) graph Hg).
  vm_compute. constructor; [intros [H | []]; discriminate |].
  constructor; [intros [] | constructor].
Defined.
